(** * The block-sealing worker of go-quai ([core/worker.go])

    A shallow embedding of the sealing worker: the resubmit scheduler and
    its interval arithmetic, the environment with uncle admission and
    transaction execution, the seal dispatcher and the snapshot view,
    followed by the properties established about them. *)

From Stdlib Require Import ZArith QArith Qpower Qround Qminmax Lqa List Bool Lia.
From Stdlib Require Import Floats.SpecFloat.
From stdpp Require Import gmap list strings pretty.

Local Open Scope Z_scope.

(** ** Machine numbers *)

(** [uint64] and [int64] values are integers with the wrap-around spelled
    out where the source can wrap. *)
Definition wrap64 (z : Z) : Z := z mod 2 ^ 64.
Definition minInt64 : Z := - 2 ^ 63.
Definition maxInt64 : Z := 2 ^ 63 - 1.

(** [float64] is IEEE 754 binary64, taken from the specification of
    floating-point arithmetic of the standard library.  Every operation
    rounds its own result to nearest even, as the compiler does on amd64
    (no fused multiply-add). *)
Module F64.
Definition prec : Z := 53.
Definition emax : Z := 1024.

Abbreviation t := spec_float (only parsing).

(** [float64(n)] for an integer [n]: rounded to nearest even. *)
Definition of_Z (n : Z) : t := binary_normalize prec emax n 0 false.

Definition add : t -> t -> t := SFadd prec emax.
Definition sub : t -> t -> t := SFsub prec emax.
Definition mul : t -> t -> t := SFmul prec emax.
Definition div : t -> t -> t := SFdiv prec emax.
(** [x < y]; false as soon as one side is a NaN. *)
Definition ltb : t -> t -> bool := SFltb.

(** A decimal constant [n/d] of the source text, converted to
    [float64]: the float nearest to the exact quotient. *)
Definition of_ratio (n d : Z) : t := div (of_Z n) (of_Z d).

(** The integer part of a finite float, rounded toward zero. *)
Definition trunc (x : t) : option Z :=
  match x with
  | S754_zero _ => Some 0
  | S754_finite s m e =>
      let a := match e with
               | Z0 => Zpos m
               | Zpos p => Zpos m * 2 ^ Zpos p
               | Zneg p => Zpos m / 2 ^ Zpos p
               end in
      Some (if s then - a else a)
  | _ => None
  end.

(** [int64(x)]: truncation toward zero.  The language leaves the result
    open when the value does not fit; amd64 yields the smallest
    [int64] there, which is what the model returns. *)
Definition to_int64 (x : t) : Z :=
  match trunc x with
  | Some z => if (minInt64 <=? z) && (z <=? maxInt64) then z else minInt64
  | None => minInt64
  end.
End F64.

(** The rational number a float stands for; zero for what is no finite
    number. *)
Definition toQ (x : F64.t) : Q :=
  match x with
  | S754_finite s m e => ((if s then -1 else 1) * (inject_Z (Zpos m) * 2 ^ e))%Q
  | _ => 0%Q
  end.

Definition pow2 (e : Z) : Q := (2 ^ e)%Q.

(** A positive normal float: 53 digits and an exponent of the format. *)
Definition pnormal (x : F64.t) : Prop :=
  exists m e, x = S754_finite false m e /\ digits2_pos m = 53%positive /\
              -1074 <= e <= 971.

(** [x] lies in the unit interval that starts at the mantissa of the
    record, at the place the two bits of the record tell: on the
    mantissa, below the middle, on the middle or above it. *)
Definition located (mrs : shr_record) (x : Q) : Prop :=
  let f := (x - inject_Z (shr_m mrs))%Q in
  match shr_r mrs, shr_s mrs with
  | false, false => (f == 0)%Q
  | false, true => (0 < f /\ f < 1 # 2)%Q
  | true, false => (f == 1 # 2)%Q
  | true, true => (1 # 2 < f /\ f < 1)%Q
  end.

(** ** Constants of the worker *)

(** Durations are [int64] nanoseconds. *)
Definition second : Z := 1000000000.

Definition resultQueueSize : Z := 10.
Definition txChanSize : Z := 4096.
Definition chainSideChanSize : Z := 10.
Definition resubmitAdjustChanSize : Z := 10.
Definition sealingLogAtDepth : Z := 7.
Definition minRecommitInterval : Z := 1 * second.
Definition maxRecommitInterval : Z := 15 * second.
(** [intervalAdjustRatio = 0.1], and the constant [1 - intervalAdjustRatio]
    which the compiler evaluates exactly before converting it. *)
Definition intervalAdjustRatio : F64.t := F64.of_ratio 1 10.
Definition oneMinusIntervalAdjustRatio : F64.t := F64.of_ratio 9 10.
(** [intervalAdjustBias = 200 * 1000.0 * 1000.0]. *)
Definition intervalAdjustBias : F64.t := F64.of_Z 200000000.
Definition staleThreshold : Z := 7.

(** ** Configuration and the resubmit scheduler *)

Record Config := {
  Etherbase : N;
  GasFloor : Z;
  GasCeil : Z;
  Recommit : Z
}.

(** [intervalAdjust]: a resubmitting interval adjustment. *)
Record intervalAdjust := {
  ratio : F64.t;
  inc : bool
}.

(** A ratio as [commitTransactions] sends it when the gas pool is within
    the gas limit: a [float64] between 0.1 and 1. *)
Definition ratioInRange (r : F64.t) : bool :=
  valid_binary F64.prec F64.emax r && SFleb (F64.of_ratio 1 10) r && SFleb r (F64.of_Z 1).

Definition feedbackInRange (adjust : intervalAdjust) : Prop :=
  inc adjust = true -> ratioInRange (ratio adjust) = true.

(** The recommit interval [newWorker] hands to [newWorkLoop]. *)
Definition newWorker_recommit (config : Config) : Z :=
  let recommit := Recommit config in
  if recommit <? minRecommitInterval then minRecommitInterval else recommit.

(** [recalcRecommit] recalculates the resubmitting interval upon feedback. *)
Definition recalcRecommit (minRecommit prev : Z) (target : F64.t) (inc : bool) : Z :=
  let prevF := F64.of_Z prev in
  if inc then
    let next := F64.add (F64.mul prevF oneMinusIntervalAdjustRatio)
                        (F64.mul intervalAdjustRatio (F64.add target intervalAdjustBias)) in
    let max := F64.of_Z maxRecommitInterval in
    let next := if F64.ltb max next then max else next in
    F64.to_int64 next
  else
    let next := F64.add (F64.mul prevF oneMinusIntervalAdjustRatio)
                        (F64.mul intervalAdjustRatio (F64.sub target intervalAdjustBias)) in
    let min := F64.of_Z minRecommit in
    let next := if F64.ltb next min then min else next in
    F64.to_int64 next.

(** The formulas of the feedback in exact arithmetic, in nanoseconds, to
    compare [recalcRecommit] with: an increase towards [prev / ratio] plus
    the bias, capped at [maxRecommitInterval], and a decrease towards
    [minRecommit] minus the bias, raised to [minRecommit]. *)
Definition exactIncrease (prev : Z) (ratio : Q) : Q :=
  Qmin (inject_Z maxRecommitInterval)
       ((9 # 10) * inject_Z prev
        + (1 # 10) * (inject_Z prev / ratio + inject_Z 200000000))%Q.

Definition exactDecrease (minRecommit prev : Z) : Q :=
  Qmax (inject_Z minRecommit)
       ((9 # 10) * inject_Z prev
        + (1 # 10) * (inject_Z minRecommit - inject_Z 200000000))%Q.

(** The two variables of [newWorkLoop] that the interval events touch. *)
Record workLoop := {
  wl_minRecommit : Z;
  wl_recommit : Z
}.

Definition newWorkLoop_init (recommit : Z) : workLoop :=
  {| wl_minRecommit := recommit; wl_recommit := recommit |}.

(** The events of [newWorkLoop]'s select that reach the interval: an
    explicit interval from [resubmitIntervalCh] and a feedback from
    [resubmitAdjustCh].  Start, chain-head and timer events leave both
    variables alone. *)
Inductive workEvent :=
| EvStart
| EvChainHead
| EvTimer
| EvInterval (interval : Z)
| EvAdjust (adjust : intervalAdjust).

Definition newWorkLoop_step (st : workLoop) (ev : workEvent) : workLoop :=
  match ev with
  | EvStart | EvChainHead | EvTimer => st
  | EvInterval interval =>
      let interval := if interval <? minRecommitInterval then minRecommitInterval else interval in
      {| wl_minRecommit := interval; wl_recommit := interval |}
  | EvAdjust adjust =>
      if inc adjust then
        let target := F64.div (F64.of_Z (wl_recommit st)) (ratio adjust) in
        {| wl_minRecommit := wl_minRecommit st;
           wl_recommit := recalcRecommit (wl_minRecommit st) (wl_recommit st) target true |}
      else
        {| wl_minRecommit := wl_minRecommit st;
           wl_recommit := recalcRecommit (wl_minRecommit st) (wl_recommit st)
                            (F64.of_Z (wl_minRecommit st)) false |}
  end.

Definition newWorkLoop_run (st : workLoop) (evs : list workEvent) : workLoop :=
  fold_left newWorkLoop_step evs st.

(** An event [newWorkLoop] keeps its intervals in range on: an explicit
    interval of at most [maxRecommitInterval], a feedback with a ratio in
    range, or any event that leaves the intervals alone. *)
Definition eventInRange (ev : workEvent) : Prop :=
  match ev with
  | EvInterval interval => interval <= maxRecommitInterval
  | EvAdjust adjust => feedbackInRange adjust
  | EvStart | EvChainHead | EvTimer => True
  end.

(** ** Results of running code *)

(** A call returns, panics (an index out of range, a nil dereference), or
    uses up the fuel of a loop. *)
Inductive exec (A : Type) : Type :=
| Done (a : A)
| Panic (why : string)
| OutOfFuel.
Arguments Done {A} a.
Arguments Panic {A} why.
Arguments OutOfFuel {A}.

#[global] Instance exec_ret : MRet exec := fun A a => Done a.
#[global] Instance exec_bind : MBind exec := fun A B f m =>
  match m with
  | Done a => f a
  | Panic why => Panic why
  | OutOfFuel => OutOfFuel
  end.

(** [s[i]] on a slice. *)
Definition index {A : Type} (s : list A) (i : nat) : exec A :=
  match s !! i with
  | Some a => Done a
  | None => Panic "index out of range"
  end.

(** [*p] on a pointer that may be nil. *)
Definition deref {A : Type} (p : option A) : exec A :=
  match p with
  | Some a => Done a
  | None => Panic "nil pointer dereference"
  end.

(** ** Errors *)

(** The [error] values the worker meets: the sentinels of the state
    transition that [commitTransactions] tests for, any other error made
    by [errors.New], and an error wrapped by [fmt.Errorf] with [%w]. *)
Inductive error :=
| ErrGasLimitReached
| ErrNonceTooLow
| ErrNonceTooHigh
| ErrTxTypeNotSupported
| ErrNew (msg : string)
| ErrWrap (msg : string) (inner : error).

#[global] Instance error_eq_dec : EqDecision error.
Proof. solve_decision. Defined.

(** [errors.Is(err, target)] for non-nil [err] and [target]: [target] is
    found along the chain of wrapped errors. *)
Fixpoint errors_Is_chain (err target : error) : bool :=
  if decide (err = target) then true
  else match err with
       | ErrWrap _ inner => errors_Is_chain inner target
       | _ => false
       end.

(** An error that wraps nothing. *)
Definition plain (e : error) : Prop :=
  match e with
  | ErrWrap _ _ => False
  | _ => True
  end.

(** [errors.Is]; [None] is the nil error, which only matches itself. *)
Definition errors_Is (err target : option error) : bool :=
  match err, target with
  | None, None => true
  | Some e, Some t => errors_Is_chain e t
  | _, _ => false
  end.

(** ** Chain data *)

Abbreviation Hash := N (only parsing).
Abbreviation Address := N (only parsing).

(** A header of the hierarchical chain: one slot per context in the
    fields the worker reads. *)
Record Header := {
  ParentHash : list Hash;
  Number : list Z;
  GasLimit : list Z;
  GasUsed : list Z;
  BaseFee : list Z;
  Time : Z
}.

#[global] Instance Header_eq_dec : EqDecision Header.
Proof. solve_decision. Defined.

Record Log := {
  log_address : Address;
  log_topic : Hash;
  log_blockHash : Hash
}.

Record Receipt := {
  rc_status : Z;
  rc_cumulativeGasUsed : Z;
  rc_txHash : Hash;
  rc_gasUsed : Z;
  rc_logs : list Log
}.

(** A signed transaction; [tx_from] is what [types.Sender] recovers and
    [tx_tip] the effective miner tip at the block's base fee. *)
Record Transaction := {
  tx_hash : Hash;
  tx_from : Address;
  tx_nonce : Z;
  tx_gas : Z;
  tx_tip : Z;
  tx_protected : bool;
  tx_type : Z
}.

Record Block := {
  b_header : Header;
  b_transactions : list Transaction;
  b_uncles : list Header;
  b_receiptCount : nat
}.

(** ** The working state *)

Record Account := {
  acc_nonce : Z;
  acc_balance : Z
}.

(** Modelled from the spec: the state database ([state.StateDB]), whose
    code is outside the worker.  The spec gives "snapshot/revert per-tx",
    "deep [Copy()]" and "[Prepare(txHash, index)]"; the accounts stand for
    the whole content, and every snapshot records the content to return
    to. *)
Record StateDB := {
  sdb_accounts : gmap Address Account;
  sdb_thash : Hash;
  sdb_txIndex : Z;
  sdb_nextRevisionId : nat;
  sdb_validRevisions : list (nat * gmap Address Account);
  sdb_prefetcher : bool
}.

(** Modelled from the spec: [StateDB.Snapshot], which returns an
    identifier for the current revision of the state. *)
Definition Snapshot (s : StateDB) : nat * StateDB :=
  let id := sdb_nextRevisionId s in
  (id, {| sdb_accounts := sdb_accounts s;
          sdb_thash := sdb_thash s;
          sdb_txIndex := sdb_txIndex s;
          sdb_nextRevisionId := S id;
          sdb_validRevisions := (id, sdb_accounts s) :: sdb_validRevisions s;
          sdb_prefetcher := sdb_prefetcher s |}).

(** The revisions taken before [revid], with the content saved at
    [revid]; the newest revision comes first. *)
Fixpoint findRevision (revs : list (nat * gmap Address Account)) (revid : nat)
  : option (gmap Address Account * list (nat * gmap Address Account)) :=
  match revs with
  | [] => None
  | (id, saved) :: older =>
      if Nat.eqb id revid then Some (saved, older) else findRevision older revid
  end.

(** Modelled from the spec: [StateDB.RevertToSnapshot], which returns
    to the content saved at the revision and forgets that revision and
    the later ones; an unknown revision panics. *)
Definition RevertToSnapshot (s : StateDB) (revid : nat) : exec StateDB :=
  match findRevision (sdb_validRevisions s) revid with
  | Some (saved, older) =>
      Done {| sdb_accounts := saved;
              sdb_thash := sdb_thash s;
              sdb_txIndex := sdb_txIndex s;
              sdb_nextRevisionId := sdb_nextRevisionId s;
              sdb_validRevisions := older;
              sdb_prefetcher := sdb_prefetcher s |}
  | None => Panic "revision id cannot be reverted"
  end.

(** Modelled from the spec: [StateDB.Prepare], which sets the hash and
    the index of the transaction about to run. *)
Definition Prepare (s : StateDB) (thash : Hash) (ti : Z) : StateDB :=
  {| sdb_accounts := sdb_accounts s;
     sdb_thash := thash;
     sdb_txIndex := ti;
     sdb_nextRevisionId := sdb_nextRevisionId s;
     sdb_validRevisions := sdb_validRevisions s;
     sdb_prefetcher := sdb_prefetcher s |}.

(** What the state transition leaves behind: the content of the state, the
    gas pool and the header's used gas, with the receipt or the error. *)
Record applied := {
  ap_accounts : gmap Address Account;
  ap_gasPool : Z;
  ap_usedGas : Z;
  ap_result : Receipt + error
}.

(** The collaborators the worker calls but does not define: the context
    of this node in the hierarchy, the chain configuration, header
    hashing, the consensus engine's seal hash and the state transition.
    [ApplyTransaction] is given the gas pool its caller holds (nil or
    not), works on the content of the state and keeps the revisions its
    caller took. *)
Class Chain := {
  QuaiNetworkContext : nat;
  IsEIP155 : Z -> bool;
  HeaderHash : Header -> Hash;
  SealHash : Header -> Hash;
  ApplyTransaction :
    Address -> option Z -> gmap Address Account -> Header -> Transaction -> Z -> applied
}.

(** ** The price and nonce ordered transaction set *)

(** Modelled from the spec: the price+nonce iterator
    ([types.TransactionsByPriceAndNonce]), whose code is outside the
    worker: "constructed from signer + tx buckets + base fee; supports
    [Peek], [Shift] (next nonce same sender), [Pop] (drop sender bucket)".
    Every entry is the head transaction of one sender with the rest of
    that sender's bucket in nonce order; entries are kept by descending
    tip, the best one first. *)
Definition TransactionsByPriceAndNonce : Type := list (Transaction * list Transaction).

Fixpoint insertByTip (e : Transaction * list Transaction)
    (heads : TransactionsByPriceAndNonce) : TransactionsByPriceAndNonce :=
  match heads with
  | [] => [e]
  | h :: rest =>
      if tx_tip (fst h) <? tx_tip (fst e) then e :: h :: rest
      else h :: insertByTip e rest
  end.

Definition NewTransactionsByPriceAndNonce (buckets : list (list Transaction))
  : TransactionsByPriceAndNonce :=
  fold_right (fun bucket heads =>
                match bucket with
                | [] => heads
                | tx :: rest => insertByTip (tx, rest) heads
                end) [] buckets.

Definition Peek (t : TransactionsByPriceAndNonce) : option Transaction :=
  match t with
  | [] => None
  | (tx, _) :: _ => Some tx
  end.

Definition Shift (t : TransactionsByPriceAndNonce) : TransactionsByPriceAndNonce :=
  match t with
  | [] => []
  | (_, next :: rest) :: others => insertByTip (next, rest) others
  | (_, []) :: others => others
  end.

Definition Pop (t : TransactionsByPriceAndNonce) : TransactionsByPriceAndNonce :=
  match t with
  | [] => []
  | _ :: others => others
  end.

(** The number of transactions still held by the set. *)
Fixpoint remaining (t : TransactionsByPriceAndNonce) : nat :=
  match t with
  | [] => O
  | (_, rest) :: others => S (length rest + remaining others)
  end.

(** All the transactions the set still holds. *)
Definition pendingOf (t : TransactionsByPriceAndNonce) : list Transaction :=
  flat_map (fun e => fst e :: snd e) t.

(** ** The environment *)

(** [environment]: the worker's current environment, with all the
    information of the sealing block generation.  [tcount] is an [int]
    that counts accepted transactions; it stays far below the range of
    the type and is kept as an integer. *)
Record environment := {
  signer : Z;
  state : StateDB;
  ancestors : gset Hash;
  family : gset Hash;
  tcount : Z;
  gasPool : option Z;
  coinbase : Address;
  header : Header;
  txs : list Transaction;
  receipts : list Receipt;
  uncles : gmap Hash Header;
  externalGasUsed : Z;
  externalBlockLength : Z
}.

Definition set_uncles (env : environment) (u : gmap Hash Header) : environment :=
  {| signer := signer env; state := state env; ancestors := ancestors env;
     family := family env; tcount := tcount env; gasPool := gasPool env;
     coinbase := coinbase env; header := header env; txs := txs env;
     receipts := receipts env; uncles := u;
     externalGasUsed := externalGasUsed env;
     externalBlockLength := externalBlockLength env |}.

Definition set_gasPool (env : environment) (gp : option Z) : environment :=
  {| signer := signer env; state := state env; ancestors := ancestors env;
     family := family env; tcount := tcount env; gasPool := gp;
     coinbase := coinbase env; header := header env; txs := txs env;
     receipts := receipts env; uncles := uncles env;
     externalGasUsed := externalGasUsed env;
     externalBlockLength := externalBlockLength env |}.

Definition set_state (env : environment) (s : StateDB) : environment :=
  {| signer := signer env; state := s; ancestors := ancestors env;
     family := family env; tcount := tcount env; gasPool := gasPool env;
     coinbase := coinbase env; header := header env; txs := txs env;
     receipts := receipts env; uncles := uncles env;
     externalGasUsed := externalGasUsed env;
     externalBlockLength := externalBlockLength env |}.

Definition set_tcount (env : environment) (n : Z) : environment :=
  {| signer := signer env; state := state env; ancestors := ancestors env;
     family := family env; tcount := n; gasPool := gasPool env;
     coinbase := coinbase env; header := header env; txs := txs env;
     receipts := receipts env; uncles := uncles env;
     externalGasUsed := externalGasUsed env;
     externalBlockLength := externalBlockLength env |}.

Definition set_GasUsed (h : Header) (g : list Z) : Header :=
  {| ParentHash := ParentHash h; Number := Number h; GasLimit := GasLimit h;
     GasUsed := g; BaseFee := BaseFee h; Time := Time h |}.

(** Modelled from the spec: [StateDB.Copy], the spec's "deep [Copy()]":
    a state of its own with the same content. *)
Definition Copy (s : StateDB) : StateDB := s.

(** Modelled from the spec: [types.CopyHeader], a header of its own with
    the same fields. *)
Definition CopyHeader (h : Header) : Header :=
  {| ParentHash := ParentHash h; Number := Number h; GasLimit := GasLimit h;
     GasUsed := GasUsed h; BaseFee := BaseFee h; Time := Time h |}.

(** [copyReceipts] makes a deep copy of the given receipts. *)
Definition copyReceipts (rs : list Receipt) : list Receipt :=
  map (fun l => let cpy := l in cpy) rs.

(** [copy] creates a deep copy of the environment. *)
Definition environment_copy (env : environment) : environment :=
  {| signer := signer env;
     state := Copy (state env);
     ancestors := ancestors env;
     family := family env;
     tcount := tcount env;
     gasPool := match gasPool env with Some gp => Some gp | None => None end;
     coinbase := coinbase env;
     header := CopyHeader (header env);
     txs := firstn (length (txs env)) (txs env);
     receipts := copyReceipts (receipts env);
     uncles := map_fold (fun hash uncle cpy => <[hash := uncle]> cpy) ∅ (uncles env);
     externalGasUsed := 0;
     externalBlockLength := 0 |}.

(** [makeEnv] creates a new environment for the sealing block.
    [stateAt] is what [StateAt] gives at the parent's root, [recovered]
    what the bounded replay [StateAtBlock] gives, and [recent] the blocks
    [GetBlocksFromHash(parent.Hash(), 7)] finds. *)
Definition makeEnv `{Chain} (stateAt recovered : StateDB + error) (recent : list Block)
    (hdr : Header) (cb : Address) : exec (environment + error) :=
  let st := match stateAt with
            | inl s => inl s
            | inr _ => recovered
            end in
  match st with
  | inr err => Done (inr err)
  | inl s =>
      let s := {| sdb_accounts := sdb_accounts s; sdb_thash := sdb_thash s;
                  sdb_txIndex := sdb_txIndex s;
                  sdb_nextRevisionId := sdb_nextRevisionId s;
                  sdb_validRevisions := sdb_validRevisions s;
                  sdb_prefetcher := true |} in
      number ← index (Number hdr) QuaiNetworkContext;
      let '(anc, fam) :=
        fold_left (fun (sets : gset Hash * gset Hash) ancestor =>
                     let fam := fold_left (fun (f : gset Hash) uncle => f ∪ {[ HeaderHash uncle ]})
                                          (b_uncles ancestor) (snd sets) in
                     (fst sets ∪ {[ HeaderHash (b_header ancestor) ]},
                      fam ∪ {[ HeaderHash (b_header ancestor) ]}))
                  recent (∅, ∅) in
      Done (inl {| signer := number; state := s; ancestors := anc; family := fam;
                   tcount := 0; gasPool := None; coinbase := cb; header := hdr;
                   txs := []; receipts := []; uncles := ∅;
                   externalGasUsed := 0; externalBlockLength := 0 |})
  end.

(** [commitUncle] adds the given block to the uncle block set, and returns
    an error if it failed to add. *)
Definition commitUncle `{Chain} (env : environment) (uncle : Header)
  : exec (environment * option error) :=
  let hash := HeaderHash uncle in
  if decide (is_Some (uncles env !! hash)) then
    Done (env, Some (ErrNew "uncle not unique"))
  else
    hp ← index (ParentHash (header env)) QuaiNetworkContext;
    up ← index (ParentHash uncle) QuaiNetworkContext;
    if decide (hp = up) then Done (env, Some (ErrNew "uncle is sibling"))
    else
      up ← index (ParentHash uncle) QuaiNetworkContext;
      if decide (up ∈ ancestors env) then
        if decide (hash ∈ family env) then
          Done (env, Some (ErrNew "uncle already included"))
        else Done (set_uncles env (<[hash := uncle]> (uncles env)), None)
      else Done (env, Some (ErrNew "uncle's parent unknown")).

(** ** Transaction execution *)

Definition commitInterruptNone : Z := 0.
Definition commitInterruptNewHead : Z := 1.
Definition commitInterruptResubmit : Z := 2.

(** [params.TxGas]: the gas every transaction pays at least. *)
Definition TxGas : Z := 21000.

(** [commitTransaction]: the logs and the error it returns, with the
    environment it leaves. *)
Definition commitTransaction `{Chain} (env : environment) (tx : option Transaction)
  : exec (environment * (list Log * option error)) :=
  match tx with
  | Some tx =>
      let '(snap, st) := Snapshot (state env) in
      used ← index (GasUsed (header env)) QuaiNetworkContext;
      let r := ApplyTransaction (coinbase env) (gasPool env) (sdb_accounts st)
                 (header env) tx used in
      let st := {| sdb_accounts := ap_accounts r; sdb_thash := sdb_thash st;
                   sdb_txIndex := sdb_txIndex st;
                   sdb_nextRevisionId := sdb_nextRevisionId st;
                   sdb_validRevisions := sdb_validRevisions st;
                   sdb_prefetcher := sdb_prefetcher st |} in
      let hdr := set_GasUsed (header env)
                   (<[QuaiNetworkContext := ap_usedGas r]> (GasUsed (header env))) in
      let env := {| signer := signer env; state := st; ancestors := ancestors env;
                    family := family env; tcount := tcount env;
                    gasPool := match gasPool env with
                               | Some _ => Some (ap_gasPool r)
                               | None => None
                               end;
                    coinbase := coinbase env;
                    header := hdr; txs := txs env; receipts := receipts env;
                    uncles := uncles env;
                    externalGasUsed := externalGasUsed env;
                    externalBlockLength := externalBlockLength env |} in
      match ap_result r with
      | inr err =>
          st ← RevertToSnapshot (state env) snap;
          Done (set_state env st, ([], Some err))
      | inl receipt =>
          Done ({| signer := signer env; state := state env;
                   ancestors := ancestors env; family := family env;
                   tcount := tcount env; gasPool := gasPool env;
                   coinbase := coinbase env; header := header env;
                   txs := txs env ++ [tx];
                   receipts := receipts env ++ [receipt];
                   uncles := uncles env;
                   externalGasUsed := externalGasUsed env;
                   externalBlockLength := externalBlockLength env |},
                (rc_logs receipt, None))
      end
  | None => Done (env, ([], Some (ErrNew "error finding transaction")))
  end.

(** The variables of the loop of [commitTransactions]; [ls_loads] counts
    the atomic loads of the interrupt cell made so far. *)
Record loopState := {
  ls_env : environment;
  ls_txs : TransactionsByPriceAndNonce;
  ls_logs : list Log;
  ls_loads : nat
}.

(** How one pass through the loop body ends: at the next iteration, at
    the [break], or at the [return] inside the loop, with what was sent on
    [resubmitAdjustCh] there. *)
Inductive iteration :=
| Next (s : loopState)
| Break (s : loopState)
| Return (s : loopState) (sent : list intervalAdjust) (ret : bool).

(** What the [switch] on the error does to the transaction set. *)
Inductive txsOp := OpPop | OpShift.

Definition applyOp (op : txsOp) (t : TransactionsByPriceAndNonce) :=
  match op with
  | OpPop => Pop t
  | OpShift => Shift t
  end.

(** The [switch] of the loop: the operation on the transaction set and
    whether the case is the one of a committed transaction. *)
Definition switchOnError (err : option error) : txsOp * bool :=
  if errors_Is err (Some ErrGasLimitReached) then (OpPop, false)
  else if errors_Is err (Some ErrNonceTooLow) then (OpShift, false)
  else if errors_Is err (Some ErrNonceTooHigh) then (OpPop, false)
  else if errors_Is err None then (OpShift, true)
  else if errors_Is err (Some ErrTxTypeNotSupported) then (OpPop, false)
  else (OpShift, false).

(** The part of the loop body after the interrupt check. *)
Definition commitBody `{Chain} (s : loopState) : exec iteration :=
  let env := ls_env s in
  gp ← deref (gasPool env);
  if gp <? TxGas then Done (Break s)
  else
    match Peek (ls_txs s) with
    | None => Done (Break s)
    | Some tx =>
        skip ← (if tx_protected tx then
                  number ← index (Number (header env)) QuaiNetworkContext;
                  Done (negb (IsEIP155 number))
                else Done false);
        if (skip : bool) then
          Done (Next {| ls_env := env; ls_txs := Pop (ls_txs s);
                        ls_logs := ls_logs s; ls_loads := ls_loads s |})
        else
          let env := set_state env (Prepare (state env) (tx_hash tx) (tcount env)) in
          r ← commitTransaction env (Some tx);
          let '(env, (logs, err)) := r in
          let '(op, committed) := switchOnError err in
          Done (Next {| ls_env := if committed then set_tcount env (tcount env + 1) else env;
                        ls_txs := applyOp op (ls_txs s);
                        ls_logs := if committed then ls_logs s ++ logs else ls_logs s;
                        ls_loads := ls_loads s |})
    end.

(** One pass through the loop body.  [interrupt] is nil or a cell whose
    successive atomic loads return [cell 0], [cell 1], ... *)
Definition commitIteration `{Chain} (interrupt : option (nat -> Z)) (gasLimit : list Z)
    (s : loopState) : exec iteration :=
  match interrupt with
  | None => commitBody s
  | Some cell =>
      let k := ls_loads s in
      if negb (cell k =? commitInterruptNone) then
        sent ← (if cell (S k) =? commitInterruptResubmit then
                  limit ← index gasLimit QuaiNetworkContext;
                  gp ← deref (gasPool (ls_env s));
                  limit' ← index gasLimit QuaiNetworkContext;
                  let ratio := F64.div (F64.of_Z (wrap64 (limit - gp))) (F64.of_Z limit') in
                  let ratio := if F64.ltb ratio (F64.of_ratio 1 10)
                               then F64.of_ratio 1 10 else ratio in
                  Done [ {| ratio := ratio; inc := true |} ]
                else Done []);
        Done (Return {| ls_env := ls_env s; ls_txs := ls_txs s;
                        ls_logs := ls_logs s; ls_loads := S (S (S k)) |}
                     sent (cell (S (S k)) =? commitInterruptNewHead))
      else
        commitBody {| ls_env := ls_env s; ls_txs := ls_txs s;
                      ls_logs := ls_logs s; ls_loads := S k |}
  end.

(** The [for] loop: the state it stops in, with what the [return] inside
    the loop sent and returned, if the loop ended there. *)
Fixpoint commitLoop `{Chain} (fuel : nat) (interrupt : option (nat -> Z))
    (gasLimit : list Z) (s : loopState)
  : exec (loopState * option (list intervalAdjust * bool)) :=
  match fuel with
  | O => OutOfFuel
  | S fuel =>
      it ← commitIteration interrupt gasLimit s;
      match it with
      | Next s' => commitLoop fuel interrupt gasLimit s'
      | Break s' => Done (s', None)
      | Return s' sent ret => Done (s', Some (sent, ret))
      end
  end.

(** The first statement of [commitTransactions]: a gas pool is made from
    the header's gas limit if the environment has none. *)
Definition initGasPool `{Chain} (env : environment) : exec environment :=
  match gasPool env with
  | None => limit ← index (GasLimit (header env)) QuaiNetworkContext;
            Done (set_gasPool env (Some limit))
  | Some _ => Done env
  end.

(** What a call of [commitTransactions] leaves: the environment and the
    transaction set, the values sent on [resubmitAdjustCh] and on
    [pendingLogsFeed] in the order of sending, and the returned flag. *)
Record committed := {
  cm_env : environment;
  cm_txs : TransactionsByPriceAndNonce;
  cm_adjusts : list intervalAdjust;
  cm_pendingLogs : list (list Log);
  cm_ret : bool
}.

(** [commitTransactions]; [running] is what [isRunning] answers after the
    loop. *)
Definition commitTransactions `{Chain} (running : bool) (env : environment)
    (txs : TransactionsByPriceAndNonce) (interrupt : option (nat -> Z)) : exec committed :=
  let gasLimit := GasLimit (header env) in
  env ← initGasPool env;
  r ← commitLoop (S (remaining txs)) interrupt gasLimit
        {| ls_env := env; ls_txs := txs; ls_logs := []; ls_loads := O |};
  match r with
  | (s, Some (sent, ret)) =>
      Done {| cm_env := ls_env s; cm_txs := ls_txs s; cm_adjusts := sent;
              cm_pendingLogs := []; cm_ret := ret |}
  | (s, None) =>
      let feed := if negb running && (0 <? Z.of_nat (length (ls_logs s)))
                  then [map (fun l => l) (ls_logs s)] else [] in
      let sent := match interrupt with
                  | Some _ => [ {| ratio := S754_zero false; inc := false |} ]
                  | None => []
                  end in
      Done {| cm_env := ls_env s; cm_txs := ls_txs s; cm_adjusts := sent;
              cm_pendingLogs := feed; cm_ret := false |}
  end.

(** The accepted transactions, the accepted receipts and the count agree. *)
Definition countsAgree (env : environment) : Prop :=
  Z.of_nat (length (txs env)) = tcount env /\
  length (receipts env) = length (txs env).

(** The header has a slot for this context in the fields the loop reads
    and the gas pool is made. *)
Definition loopReady `{Chain} (env : environment) : Prop :=
  is_Some (Number (header env) !! QuaiNetworkContext) /\
  is_Some (GasUsed (header env) !! QuaiNetworkContext) /\
  is_Some (gasPool env).

(** The loop variables when [commitTransactions] enters its loop. *)
Definition loopEntry (env : environment) (txs : TransactionsByPriceAndNonce) : loopState :=
  {| ls_env := env; ls_txs := txs; ls_logs := []; ls_loads := O |}.

(** [atTop interrupt gasLimit n s0 s]: the loop entered in [s0] is at the
    top of its iteration number [n] (from 0) in [s]. *)
Inductive atTop `{Chain} (interrupt : option (nat -> Z)) (gasLimit : list Z)
    (s0 : loopState) : nat -> loopState -> Prop :=
| atTop_entry : atTop interrupt gasLimit s0 O s0
| atTop_next n s s' :
    atTop interrupt gasLimit s0 n s ->
    commitIteration interrupt gasLimit s = Done (Next s') ->
    atTop interrupt gasLimit s0 (S n) s'.

(** An interrupt cell is written at most once: [newWorkLoop] stores a
    signal into the cell of the work in flight and then replaces the cell
    by a new one, so a load that is not [commitInterruptNone] is repeated
    by all later loads. *)
Definition writtenOnce (cell : nat -> Z) : Prop :=
  forall i j : nat, (i <= j)%nat -> cell i <> commitInterruptNone -> cell j = cell i.

(** The interrupt cells of [newWorkLoop]: the variable [interrupt], nil
    or the cell of the work in flight, and the memory of all cells made so
    far, a cell being named by its place in it. *)
Record interrupts := {
  in_interrupt : option nat;
  in_cells : list Z
}.

Definition newWorkLoop_interrupts : interrupts :=
  {| in_interrupt := None; in_cells := [] |}.

(** [commit], the closure of [newWorkLoop]: the signal is stored into the
    cell of the work in flight, and a new cell is made for the work that
    is requested next. *)
Definition newWorkLoop_commit (st : interrupts) (s : Z) : interrupts :=
  let cells := match in_interrupt st with
               | Some i => <[i := s]> (in_cells st)
               | None => in_cells st
               end in
  {| in_interrupt := Some (length cells); in_cells := cells ++ [0] |}.

(** The cells after [newWorkLoop] has committed with the given signals. *)
Definition newWorkLoop_commits (signals : list Z) : interrupts :=
  fold_left newWorkLoop_commit signals newWorkLoop_interrupts.

(** What successive atomic loads of the cell [i] return, when the load
    number [n] comes after [seen n] commits of [newWorkLoop]. *)
Definition loadsOf (signals : list Z) (i : nat) (seen : nat -> nat) : nat -> Z :=
  fun n => default 0 (in_cells (newWorkLoop_commits (firstn (seen n) signals)) !! i).

(** The environments the worker can hold: made by [makeEnv], then passed
    to [commitUncle], to [commitTransactions] or copied; and, while
    [commitTransactions] runs, the environment once the gas pool is made
    and after every pass through the loop body, the only place where
    [commitTransaction] is called. *)
Inductive reachable `{Chain} : environment -> Prop :=
| reachable_makeEnv stateAt recovered recent hdr cb env :
    makeEnv stateAt recovered recent hdr cb = Done (inl env) ->
    reachable env
| reachable_commitUncle env uncle env' err :
    reachable env ->
    commitUncle env uncle = Done (env', err) ->
    reachable env'
| reachable_commitTransactions running env txs interrupt c :
    reachable env ->
    commitTransactions running env txs interrupt = Done c ->
    reachable (cm_env c)
| reachable_initGasPool env env' :
    reachable env ->
    initGasPool env = Done env' ->
    reachable env'
| reachable_commitBody s s' :
    reachable (ls_env s) ->
    commitBody s = Done (Next s') ->
    reachable (ls_env s')
| reachable_copy env :
    reachable env ->
    reachable (environment_copy env).

(** ** The seal dispatcher *)

(** [task]: all the information for sealing and submitting the result. *)
Record task := {
  t_receipts : list Receipt;
  t_state : StateDB;
  t_block : Block;
  t_createdAt : Z
}.

(** The variables of [taskLoop] with what it shares: channels are named
    by numbers, [d_closed] holds the closed ones, [d_made] counts the
    channels made so far and [d_logged] the log lines written. *)
Record dispatcher := {
  d_stopCh : option nat;
  d_prev : Hash;
  d_pendingTasks : gmap Hash task;
  d_closed : gset nat;
  d_made : nat;
  d_logged : list string
}.

Definition taskLoop_init : dispatcher :=
  {| d_stopCh := None; d_prev := 0%N; d_pendingTasks := ∅; d_closed := ∅;
     d_made := O; d_logged := [] |}.

(** [interrupt] aborts the in-flight sealing task. *)
Definition taskLoop_interrupt (d : dispatcher) : dispatcher :=
  match d_stopCh d with
  | Some ch =>
      {| d_stopCh := None; d_prev := d_prev d; d_pendingTasks := d_pendingTasks d;
         d_closed := {[ ch ]} ∪ d_closed d; d_made := d_made d;
         d_logged := d_logged d |}
  | None => d
  end.

(** The case of [taskLoop]'s select that receives a task from [taskCh]. *)
Definition taskLoop_task `{Chain} (d : dispatcher) (t : task) : dispatcher :=
  let sealHash := SealHash (b_header (t_block t)) in
  let d := if decide (sealHash = d_prev d)
           then {| d_stopCh := d_stopCh d; d_prev := d_prev d;
                   d_pendingTasks := d_pendingTasks d; d_closed := d_closed d;
                   d_made := d_made d;
                   d_logged := d_logged d ++
                     ["sealHash == prev, continuing with sending task to pending channel"] |}
           else d in
  let d := taskLoop_interrupt d in
  {| d_stopCh := Some (d_made d); d_prev := sealHash;
     d_pendingTasks := <[sealHash := t]> (d_pendingTasks d);
     d_closed := d_closed d; d_made := S (d_made d); d_logged := d_logged d |}.

(** The case of [taskLoop]'s select that sees [exitCh] closed. *)
Definition taskLoop_exit (d : dispatcher) : dispatcher := taskLoop_interrupt d.

Definition taskLoop_run `{Chain} (d : dispatcher) (ts : list task) : dispatcher :=
  fold_left taskLoop_task ts d.

(** ** The snapshot view *)

(** The snapshot is about sharing, so this part keeps the objects behind
    pointers in a store: a state, a receipt, the backing array of the
    [Logs] slice of a receipt and a log are each reached through an
    address, [None] is the nil pointer, and a copy is a new object at an
    address not in use.  [cpy := *l] copies a receipt object field by
    field: the copy holds the same slice header, so it shares the
    backing array and the logs with the receipt it was copied from. *)
Module Snapshot.

Abbreviation loc := positive (only parsing).

(** A receipt object: the fields held by value and the header of the
    slice [Logs], which is the address of the backing array, nil for a
    nil slice, and the length. *)
Record receipt := {
  r_status : Z;
  r_cumulativeGasUsed : Z;
  r_txHash : Hash;
  r_gasUsed : Z;
  r_logs : option loc;
  r_logsLen : nat
}.

Record store := {
  states : gmap loc StateDB;
  rcpts : gmap loc receipt;
  arrays : gmap loc (list (option loc));
  logs : gmap loc Log
}.

(** [new(T)] for a state and for a receipt. *)
Definition allocState (h : store) (s : StateDB) : loc * store :=
  let l := fresh (dom (states h)) in
  (l, {| states := <[l := s]> (states h); rcpts := rcpts h;
         arrays := arrays h; logs := logs h |}).

Definition allocReceipt (h : store) (r : receipt) : loc * store :=
  let l := fresh (dom (rcpts h)) in
  (l, {| states := states h; rcpts := <[l := r]> (rcpts h);
         arrays := arrays h; logs := logs h |}).




(** [s.Copy()] on a state pointer. *)
Definition copyState (h : store) (p : option loc) : exec (loc * store) :=
  l ← deref p;
  s ← deref (states h !! l);
  Done (allocState h (Copy s)).

(** [copyReceipts] makes a deep copy of the given receipts. *)
Fixpoint copyReceipts (h : store) (receipts : list (option loc))
  : exec (list (option loc) * store) :=
  match receipts with
  | [] => Done ([], h)
  | p :: rest =>
      l ← deref p;
      cpy ← deref (rcpts h !! l);
      let '(l', h) := allocReceipt h cpy in
      r ← copyReceipts h rest;
      Done (Some l' :: fst r, snd r)
  end.

(** The fields of the environment that [updateSnapshot] reads. *)
Record environment := {
  state : option loc;
  header : Header;
  txs : list Transaction;
  receipts : list (option loc);
  uncles : gmap Hash Header
}.



(** The snapshot fields of the worker. *)
Record worker := {
  snapshotBlock : option Block;
  snapshotReceipts : list (option loc);
  snapshotState : option loc
}.

(** The snapshot fields as [newWorker] leaves them. *)
Definition newWorker : worker :=
  {| snapshotBlock := None; snapshotReceipts := []; snapshotState := None |}.


(** [pending] returns the pending state and corresponding block. *)
Definition pending (w : worker) (h : store)
  : exec ((option Block * option loc) * store) :=
  match snapshotState w with
  | None => Done ((None, None), h)
  | Some l =>
      s ← deref (states h !! l);
      let '(l', h) := allocState h (Copy s) in
      Done ((snapshotBlock w, Some l'), h)
  end.

(** [pendingBlock] returns the pending block. *)
Definition pendingBlock (w : worker) : option Block := snapshotBlock w.

(** [pendingBlockAndReceipts] returns the pending block and the
    corresponding receipts. *)
Definition pendingBlockAndReceipts (w : worker) : option Block * list (option loc) :=
  (snapshotBlock w, snapshotReceipts w).








End Snapshot.

(** ** Stale work *)

(** Modelled from the spec: [Block.NumberU64], "the task's block number":
    the block's number in the context of this node, as a [uint64]. *)
Definition NumberU64 `{Chain} (b : Block) : exec Z :=
  number ← index (Number (b_header b)) QuaiNetworkContext;
  Done (wrap64 number).

(** The loop with which the worker prunes a table of blocks.  [entries]
    are the entries of the table in the order in which [range] yields
    them; each one is deleted from the table when its block is stale,
    [NumberU64()+staleThreshold <= head] in [uint64], where [head] is
    evaluated at each test. *)
Fixpoint deleteStale `{Chain} {A : Type} (block : A -> Block) (head : exec Z)
    (entries : list (Hash * A)) (table : gmap Hash A) : exec (gmap Hash A) :=
  match entries with
  | [] => Done table
  | (h, a) :: rest =>
      number ← NumberU64 (block a);
      head' ← head;
      deleteStale block head rest
        (if wrap64 (number + staleThreshold) <=? head' then delete h table else table)
  end.

(** [clearPending] cleans the stale pending tasks. *)
Definition clearPending `{Chain} (entries : list (Hash * task))
    (pendingTasks : gmap Hash task) (number : Z) : exec (gmap Hash task) :=
  deleteStale t_block (Done number) entries pendingTasks.

(** ** The table of pending tasks *)

(** The table [pendingTasks] is shared.  [taskLoop] files each task it
    receives, and [clearPending], which [newWorkLoop] and
    [GeneratePendingHeader] call with the number of a head, deletes the
    stale ones; both hold the lock [pendingMu] while they touch the
    table.  An event on the table is a task that [taskLoop] receives or a
    call of [clearPending], with the order in which its [range] yields
    the entries. *)
Inductive tableEvent :=
| Tb_task (t : task)
| Tb_clear (range : gmap Hash task -> list (Hash * task)) (number : Z).

Definition taskLoop_shared_step `{Chain} (d : dispatcher) (ev : tableEvent)
  : exec dispatcher :=
  match ev with
  | Tb_task t => Done (taskLoop_task d t)
  | Tb_clear range number =>
      pendingTasks ← clearPending (range (d_pendingTasks d)) (d_pendingTasks d) number;
      Done {| d_stopCh := d_stopCh d; d_prev := d_prev d;
              d_pendingTasks := pendingTasks; d_closed := d_closed d;
              d_made := d_made d; d_logged := d_logged d |}
  end.

Fixpoint taskLoop_shared `{Chain} (d : dispatcher) (evs : list tableEvent)
  : exec dispatcher :=
  match evs with
  | [] => Done d
  | ev :: rest =>
      d ← taskLoop_shared_step d ev;
      taskLoop_shared d rest
  end.

(** An event on the table that is in order: the block of a task has a
    number, and the entries of a sweep are those of the table. *)
Definition tableEventOk `{Chain} (ev : tableEvent) : Prop :=
  match ev with
  | Tb_task t => is_Some (Number (b_header (t_block t)) !! QuaiNetworkContext)
  | Tb_clear range _ => forall m, range m ≡ₚ map_to_list m
  end.

(** A table whose tasks have numbered blocks and are filed under their
    seal hash. *)
Definition tableOk `{Chain} (d : dispatcher) : Prop :=
  forall h t, d_pendingTasks d !! h = Some t ->
    h = SealHash (b_header (t_block t)) /\
    is_Some (Number (b_header (t_block t)) !! QuaiNetworkContext).

(** The tasks among the events, in order. *)
Definition tasksOf (evs : list tableEvent) : list task :=
  omap (fun ev => match ev with Tb_task t => Some t | Tb_clear _ _ => None end) evs.

(** ** The main loop *)

(** The fields of the worker that only [mainLoop] writes, and the counter
    [newTxs] of transactions arrived since the last submission, an
    [int32]. *)
Record mainLoopState := {
  w_localUncles : gmap Hash Block;
  w_remoteUncles : gmap Hash Block;
  w_current : option environment;
  w_newTxs : Z
}.

(** What a case of [mainLoop] asks of the rest of the worker: a call of
    [commit], a call of [updateSnapshot], logs sent on the pending-logs
    feed, a feedback sent on [resubmitAdjustCh]. *)
Inductive call :=
| Call_commit (env : environment) (update : bool)
| Call_updateSnapshot (env : environment)
| Send_pendingLogs (logs : list Log)
| Send_adjust (adjust : intervalAdjust).

(** What a call of [commitTransactions] has sent, in the order of
    sending: the logs first, then the feedback. *)
Definition sentBy (c : committed) : list call :=
  map Send_pendingLogs (cm_pendingLogs c) ++ map Send_adjust (cm_adjusts c).

Definition wrapInt32 (z : Z) : Z := (z + 2 ^ 31) mod 2 ^ 32 - 2 ^ 31.
Definition wrapInt64 (z : Z) : Z := (z + 2 ^ 63) mod 2 ^ 64 - 2 ^ 63.

(** The case of [mainLoop]'s select that receives a side block from
    [chainSideCh]; [running] is what [isRunning] answers. *)
Definition mainLoop_chainSide `{Chain} (isLocalBlock : option (Header -> bool))
    (running : bool) (w : mainLoopState) (block : Block)
  : exec (mainLoopState * list call) :=
  let hash := HeaderHash (b_header block) in
  if decide (is_Some (w_localUncles w !! hash)) then Done (w, [])
  else if decide (is_Some (w_remoteUncles w !! hash)) then Done (w, [])
  else
    let w :=
      if match isLocalBlock with
         | Some isLocal => isLocal (CopyHeader (b_header block))
         | None => false
         end
      then {| w_localUncles := <[hash := block]> (w_localUncles w);
              w_remoteUncles := w_remoteUncles w;
              w_current := w_current w; w_newTxs := w_newTxs w |}
      else {| w_localUncles := w_localUncles w;
              w_remoteUncles := <[hash := block]> (w_remoteUncles w);
              w_current := w_current w; w_newTxs := w_newTxs w |} in
    match (if running then w_current w else None) with
    | Some env =>
        if decide (size (uncles env) < 2)%nat then
          r ← commitUncle env (CopyHeader (b_header block));
          let w := {| w_localUncles := w_localUncles w;
                      w_remoteUncles := w_remoteUncles w;
                      w_current := Some (fst r); w_newTxs := w_newTxs w |} in
          match snd r with
          | None => Done (w, [Call_commit (environment_copy (fst r)) true])
          | Some _ => Done (w, [])
          end
        else Done (w, [])
    | None => Done (w, [])
    end.

(** The case of [mainLoop]'s select for a tick of [cleanTicker];
    [chainHead] is what [CurrentBlock] returns, [locals] and [remotes] the
    entries of the two pools in the order [range] yields them. *)
Definition mainLoop_clean `{Chain} (chainHead : option Block)
    (locals remotes : list (Hash * Block)) (w : mainLoopState) : exec mainLoopState :=
  let head := chainHead ← deref chainHead; NumberU64 chainHead in
  localUncles ← deleteStale (fun uncle => uncle) head locals (w_localUncles w);
  remoteUncles ← deleteStale (fun uncle => uncle) head remotes (w_remoteUncles w);
  Done {| w_localUncles := localUncles; w_remoteUncles := remoteUncles;
          w_current := w_current w; w_newTxs := w_newTxs w |}.

(** The transactions of an event grouped by sender, as the case for
    [txsCh] does it: [txs[acc] = append(txs[acc], tx)]. *)
Definition groupBySender (evTxs : list Transaction) : gmap Address (list Transaction) :=
  fold_left (fun txs tx => <[tx_from tx := default [] (txs !! tx_from tx) ++ [tx]]> txs)
            evTxs ∅.

(** The case of [mainLoop]'s select that receives new transactions from
    [txsCh].  [running] is what [isRunning] answers at the head of the
    case and [running'] what it answers inside [commitTransactions];
    [order] gives the accounts' transactions in the order in which the
    constructor of the transaction set ranges over the map; [devMode]
    tells whether the chain is a clique chain of period 0, and
    [commitWork] is the method called in that case. *)
Definition mainLoop_txs `{Chain} (devMode : bool)
    (commitWork : mainLoopState -> exec (mainLoopState * list call))
    (running running' : bool)
    (order : gmap Address (list Transaction) -> list (list Transaction))
    (w : mainLoopState) (evTxs : list Transaction)
  : exec (mainLoopState * list call) :=
  let count (w : mainLoopState) :=
    {| w_localUncles := w_localUncles w; w_remoteUncles := w_remoteUncles w;
       w_current := w_current w;
       w_newTxs := wrapInt32 (w_newTxs w + wrapInt32 (Z.of_nat (length evTxs))) |} in
  match (if negb running then w_current w else None) with
  | Some current =>
      if match gasPool current with
         | Some gp => gp <? TxGas
         | None => false
         end
      then Done (w, [])
      else
        let txs := groupBySender evTxs in
        _ ← index (BaseFee (header current)) QuaiNetworkContext;
        let txset := NewTransactionsByPriceAndNonce (order txs) in
        let tcount0 := tcount current in
        c ← commitTransactions running' current txset None;
        let w := {| w_localUncles := w_localUncles w;
                    w_remoteUncles := w_remoteUncles w;
                    w_current := Some (cm_env c); w_newTxs := w_newTxs w |} in
        Done (count w,
              sentBy c ++
              (if decide (tcount0 <> tcount (cm_env c))
               then [Call_updateSnapshot (cm_env c)] else []))
  | None =>
      if devMode then
        r ← commitWork w;
        Done (count (fst r), snd r)
      else Done (count w, [])
  end.

(** ** Preparing the work *)

(** [generateParams] wraps various of settings for generating sealing
    task. *)
Record generateParams := {
  gp_timestamp : Z;
  gp_forceTime : bool;
  gp_parentHash : Hash;
  gp_coinbase : Address;
  gp_random : Hash;
  gp_noUncle : bool;
  gp_noExtra : bool
}.

(** [commitUncles], the closure of [prepareWork]: accumulate the uncles
    for the sealing work; [blocks] are the entries of the pool in the
    order [range] yields them. *)
Fixpoint commitUncles `{Chain} (blocks : list (Hash * Block)) (env : environment)
  : exec environment :=
  match blocks with
  | [] => Done env
  | (hash, uncle) :: rest =>
      if decide (size (uncles env) = 2%nat) then Done env
      else
        r ← commitUncle env (CopyHeader (b_header uncle));
        commitUncles rest (fst r)
  end.

(** [prepareWork] constructs the sealing task according to the given
    parameters.  [running] is what [isRunning] answers, [wcoinbase] the
    worker's coinbase, [currentBlock] what [CurrentBlock] returns,
    [calcBaseFee] the base fee [misc.CalcBaseFee] computes on the parent's
    header, [prepare] the preparation of the consensus engine, which
    writes to the header or fails; [stateAt], [recovered] and [recent]
    are as for [makeEnv], [locals] and [remotes] as for the sweep of the
    pools.  The header is the model's: the fields the worker never reads
    (extra, coinbase, location and so on) are not kept, and a nil number
    in the slot of another context is written 0. *)
Definition prepareWork `{Chain} (running : bool) (wcoinbase : Address)
    (currentBlock : option Block) (calcBaseFee : Header -> Z)
    (prepare : Header -> Header + error)
    (stateAt recovered : StateDB + error) (recent : list Block)
    (locals remotes : list (Hash * Block))
    (genParams : generateParams) : exec (environment + error) :=
  match currentBlock with
  | None => Done (inr (ErrNew "missing parent"))
  | Some parent =>
      let timestamp := gp_timestamp genParams in
      match (if timestamp <=? Time (b_header parent)
             then if gp_forceTime genParams
                  then inr (ErrNew ("invalid timestamp, parent "
                                    +:+ pretty (Time (b_header parent))
                                    +:+ " given " +:+ pretty timestamp))
                  else inl (wrap64 (Time (b_header parent) + 1))
             else inl timestamp) with
      | inr err => Done (inr err)
      | inl timestamp =>
          num ← index (Number (b_header parent)) QuaiNetworkContext;
          _ ← index (replicate 3 0%N) QuaiNetworkContext;
          let hdr :=
            {| ParentHash := <[QuaiNetworkContext := HeaderHash (b_header parent)]>
                               (replicate 3 0%N);
               Number := <[QuaiNetworkContext := wrapInt64 (wrapInt64 (wrap64 num) + 1)]>
                           (replicate 3 0);
               GasLimit := replicate 3 0;
               GasUsed := replicate 3 0;
               BaseFee := <[QuaiNetworkContext := calcBaseFee (CopyHeader (b_header parent))]>
                            (replicate 3 0);
               Time := timestamp |} in
          if running && bool_decide (wcoinbase = 0%N)
          then Done (inr (ErrNew "refusing to mine without etherbase"))
          else
            match prepare hdr with
            | inr err => Done (inr err)
            | inl hdr =>
                r ← makeEnv stateAt recovered recent hdr wcoinbase;
                match r with
                | inr err => Done (inr err)
                | inl env =>
                    env ← commitUncles locals env;
                    env ← commitUncles remotes env;
                    Done (inl env)
                end
            end
      end
  end.

(** ** Filling the work *)

Definition set_GasLimit (h : Header) (g : list Z) : Header :=
  {| ParentHash := ParentHash h; Number := Number h; GasLimit := g;
     GasUsed := GasUsed h; BaseFee := BaseFee h; Time := Time h |}.

Definition set_header (env : environment) (h : Header) : environment :=
  {| signer := signer env; state := state env; ancestors := ancestors env;
     family := family env; tcount := tcount env; gasPool := gasPool env;
     coinbase := coinbase env; header := h; txs := txs env;
     receipts := receipts env; uncles := uncles env;
     externalGasUsed := externalGasUsed env;
     externalBlockLength := externalBlockLength env |}.

(** [adjustGasLimit] sets the gas limit of the work's header.
    [currentBlock] is what [CurrentBlock] returns, [uncleCount] the
    number of uncles [GetUnclesInChain] finds in the 1000 blocks back
    from the block with the given hash, and [CalcGasLimit] the function
    of the same name. *)
Definition adjustGasLimit `{Chain} (currentBlock : option Block)
    (uncleCount : Hash -> Z) (CalcGasLimit : Z -> Z -> Z -> Z)
    (env : environment) : exec environment :=
  parent ← deref currentBlock;
  parentGasUsed ← index (GasUsed (b_header parent)) QuaiNetworkContext;
  let length := wrap64 (wrapInt64 (externalBlockLength env + 1)) in
  if decide (length = 0) then Panic "integer divide by zero"
  else
    let gasUsed := wrap64 (parentGasUsed + externalGasUsed env) / length in
    prevHash ← index (ParentHash (header env)) QuaiNetworkContext;
    let uncleCount := uncleCount prevHash in
    parentGasLimit ← index (GasLimit (b_header parent)) QuaiNetworkContext;
    _ ← index (GasLimit (header env)) QuaiNetworkContext;
    Done (set_header env
            (set_GasLimit (header env)
               (<[QuaiNetworkContext := CalcGasLimit parentGasLimit gasUsed uncleCount]>
                  (GasLimit (header env))))).

(** The split of the pending transactions into locals and remotes at the
    head of [fillTransactions]: an account of [Locals] with pending
    transactions moves from the remotes to the locals. *)
Definition splitLocals (locals : list Address) (pending : gmap Address (list Transaction))
  : gmap Address (list Transaction) * gmap Address (list Transaction) :=
  fold_left (fun (split : gmap Address (list Transaction) * gmap Address (list Transaction))
                 account =>
               let txs := default [] (snd split !! account) in
               if decide (0 < length txs)%nat
               then (<[account := txs]> (fst split), delete account (snd split))
               else split)
            locals (∅, pending).

(** What [fillTransactions] leaves: the environment and what its calls
    of [commitTransactions] have sent. *)
Record filled := {
  fl_env : environment;
  fl_sent : list call
}.

(** [fillTransactions] retrieves the pending transactions from the txpool
    and fills them into the given sealing block.  [pending] is what
    [Pending] returns and [locals] what [Locals] returns; [order] is as
    for the case of new transactions; [interrupt] is nil or the loads of
    the interrupt cell that the first and the second call of
    [commitTransactions] see, [running] and [running'] are what
    [isRunning] answers in them. *)
Definition fillTransactions `{Chain}
    (pending : gmap Address (list Transaction) + error) (locals : list Address)
    (order : gmap Address (list Transaction) -> list (list Transaction))
    (running running' : bool) (interrupt : option ((nat -> Z) * (nat -> Z)))
    (env : environment) : exec filled :=
  match pending with
  | inr _ => Done {| fl_env := env; fl_sent := [] |}
  | inl pending =>
      let '(localTxs, remoteTxs) := splitLocals locals pending in
      '(first, ret) ←
        (if decide (0 < size localTxs)%nat then
           _ ← index (BaseFee (header env)) QuaiNetworkContext;
           let txs := NewTransactionsByPriceAndNonce (order localTxs) in
           c ← commitTransactions running env txs (fst <$> interrupt);
           Done ({| fl_env := cm_env c; fl_sent := sentBy c |}, cm_ret c)
         else Done ({| fl_env := env; fl_sent := [] |}, false));
      if ret : bool then Done first
      else if decide (0 < size remoteTxs)%nat then
        let env := fl_env first in
        _ ← index (BaseFee (header env)) QuaiNetworkContext;
        let txs := NewTransactionsByPriceAndNonce (order remoteTxs) in
        c ← commitTransactions running' env txs (snd <$> interrupt);
        Done {| fl_env := cm_env c; fl_sent := fl_sent first ++ sentBy c |}
      else Done first
  end.

(** ** Committing a work *)

(** What the rest of the node answers during one call of [commitWork]:
    the worker's coinbase and whether it is running, each time they are
    read, and the arguments of [prepareWork], [adjustGasLimit] and
    [fillTransactions] that stand for the chain, the engine and the
    transaction pool; [a_range] gives the entries of a pool in the order
    [range] yields them. *)
Record answers := {
  a_running : bool;
  a_coinbase : Address;
  a_runningPrepare : bool;
  a_coinbasePrepare : Address;
  a_currentBlock : option Block;
  a_calcBaseFee : Header -> Z;
  a_prepare : Header -> Header + error;
  a_stateAt : StateDB + error;
  a_recovered : StateDB + error;
  a_recent : list Block;
  a_range : gmap Hash Block -> list (Hash * Block);
  a_currentBlockAdjust : option Block;
  a_uncleCount : Hash -> Z;
  a_CalcGasLimit : Z -> Z -> Z -> Z;
  a_pending : gmap Address (list Transaction) + error;
  a_locals : list Address;
  a_order : gmap Address (list Transaction) -> list (list Transaction);
  a_runningLocals : bool;
  a_runningRemotes : bool
}.

(** [commitWork] generates several new sealing tasks based on the parent
    block and submit them to the sealer. *)
Definition commitWork `{Chain} (a : answers) (interrupt : option ((nat -> Z) * (nat -> Z)))
    (noempty : bool) (timestamp : Z) (w : mainLoopState)
  : exec (mainLoopState * list call) :=
  if a_running a && bool_decide (a_coinbase a = 0%N) then Done (w, [])
  else
    let coinbase := if a_running a then a_coinbase a else 0%N in
    r ← prepareWork (a_runningPrepare a) (a_coinbasePrepare a) (a_currentBlock a)
          (a_calcBaseFee a) (a_prepare a) (a_stateAt a) (a_recovered a) (a_recent a)
          (a_range a (w_localUncles w)) (a_range a (w_remoteUncles w))
          {| gp_timestamp := wrap64 timestamp; gp_forceTime := false;
             gp_parentHash := 0%N; gp_coinbase := coinbase; gp_random := 0%N;
             gp_noUncle := false; gp_noExtra := false |};
    match r with
    | inr _ => Done (w, [])
    | inl work =>
        work ← adjustGasLimit (a_currentBlockAdjust a) (a_uncleCount a)
                 (a_CalcGasLimit a) work;
        f ← fillTransactions (a_pending a) (a_locals a) (a_order a)
              (a_runningLocals a) (a_runningRemotes a) interrupt work;
        let work := fl_env f in
        Done ({| w_localUncles := w_localUncles w; w_remoteUncles := w_remoteUncles w;
                 w_current := Some work; w_newTxs := w_newTxs w |},
              fl_sent f ++ [Call_commit (environment_copy work) true])
    end.

(** The events of [mainLoop]'s select that reach the worker's fields: a
    request for new work, a side block, a tick of the cleaner and new
    transactions, each with what the rest of the node answers while the
    case runs.  The case for [getWorkCh] builds a block on a work of its
    own and leaves the fields alone. *)
Inductive mainEvent :=
| Ev_newWork (a : answers) (interrupt : option ((nat -> Z) * (nat -> Z)))
             (noempty : bool) (timestamp : Z)
| Ev_chainSide (running : bool) (block : Block)
| Ev_clean (chainHead : option Block) (range : gmap Hash Block -> list (Hash * Block))
| Ev_txs (running running' : bool)
         (order : gmap Address (list Transaction) -> list (list Transaction))
         (evTxs : list Transaction) (a : answers) (now : Z).

(** One turn of [mainLoop]; [isLocalBlock] is the worker's field and
    [devMode] tells whether the chain is a clique chain of period 0. *)
Definition mainLoop_step `{Chain} (isLocalBlock : option (Header -> bool)) (devMode : bool)
    (w : mainLoopState) (ev : mainEvent) : exec (mainLoopState * list call) :=
  match ev with
  | Ev_newWork a interrupt noempty timestamp => commitWork a interrupt noempty timestamp w
  | Ev_chainSide running block => mainLoop_chainSide isLocalBlock running w block
  | Ev_clean chainHead range =>
      w ← mainLoop_clean chainHead (range (w_localUncles w)) (range (w_remoteUncles w)) w;
      Done (w, [])
  | Ev_txs running running' order evTxs a now =>
      mainLoop_txs devMode (commitWork a None true now) running running' order w evTxs
  end.

Fixpoint mainLoop_run `{Chain} (isLocalBlock : option (Header -> bool)) (devMode : bool)
    (w : mainLoopState) (evs : list mainEvent) : exec (mainLoopState * list call) :=
  match evs with
  | [] => Done (w, [])
  | ev :: rest =>
      r ← mainLoop_step isLocalBlock devMode w ev;
      r' ← mainLoop_run isLocalBlock devMode (fst r) rest;
      Done (fst r', snd r ++ snd r')
  end.

(** The fields as [newWorker] makes them. *)
Definition newWorker_mainLoop : mainLoopState :=
  {| w_localUncles := ∅; w_remoteUncles := ∅; w_current := None; w_newTxs := 0 |}.

(** ** Good order *)

(** What [commitUncle] asks of an uncle that is not yet in the work: its
    parent is an ancestor of the work other than the work's own parent,
    and the uncle is not in the work's family. *)
Definition uncleFits `{Chain} (env : environment) (uncle : Header) : Prop :=
  exists hp up,
    ParentHash (header env) !! QuaiNetworkContext = Some hp /\
    ParentHash uncle !! QuaiNetworkContext = Some up /\
    hp <> up /\ up ∈ ancestors env /\ HeaderHash uncle ∉ family env.

(** A work in good order: at most two uncles, each filed under its hash
    and fitting the work, and counts that agree. *)
Definition workOk `{Chain} (env : environment) : Prop :=
  (size (uncles env) <= 2)%nat /\
  countsAgree env /\
  forall h uncle, uncles env !! h = Some uncle ->
                  h = HeaderHash uncle /\ uncleFits env uncle.

(** Pools in good order: no side block is in both, each is filed under
    its hash, the local pool holds the blocks that [isLocalBlock] accepts
    and the remote pool the others. *)
Definition poolsOk `{Chain} (isLocalBlock : option (Header -> bool)) (w : mainLoopState)
  : Prop :=
  w_localUncles w ##ₘ w_remoteUncles w /\
  (forall h b, w_localUncles w !! h = Some b ->
     h = HeaderHash (b_header b) /\
     exists isLocal, isLocalBlock = Some isLocal /\ isLocal (b_header b) = true) /\
  (forall h b, w_remoteUncles w !! h = Some b ->
     h = HeaderHash (b_header b) /\
     forall isLocal, isLocalBlock = Some isLocal -> isLocal (b_header b) = false).

(** ** A small chain to run the worker on *)

(** A state transition in the manner of the real one: the transaction
    type, the nonce of the sender and the gas left in the pool are
    checked in this order; a transaction that passes bumps the nonce,
    takes its gas from the pool and leaves a receipt with one log. *)
Definition simpleApply (cb : Address) (gp : option Z) (accounts : gmap Address Account)
    (hdr : Header) (tx : Transaction) (used : Z) : applied :=
  let pool := default 0 gp in
  let acc := default {| acc_nonce := 0; acc_balance := 0 |} (accounts !! tx_from tx) in
  let failed err := {| ap_accounts := accounts; ap_gasPool := pool;
                       ap_usedGas := used; ap_result := inr err |} in
  if 2 <? tx_type tx then failed ErrTxTypeNotSupported
  else if tx_nonce tx <? acc_nonce acc then
    failed (ErrWrap "address and nonce of the transaction" ErrNonceTooLow)
  else if acc_nonce acc <? tx_nonce tx then
    failed (ErrWrap "address and nonce of the transaction" ErrNonceTooHigh)
  else if pool <? tx_gas tx then failed ErrGasLimitReached
  else if tx_gas tx <? TxGas then failed (ErrNew "intrinsic gas too low")
  else
    {| ap_accounts := <[tx_from tx := {| acc_nonce := acc_nonce acc + 1;
                                         acc_balance := acc_balance acc |}]> accounts;
       ap_gasPool := pool - tx_gas tx;
       ap_usedGas := used + tx_gas tx;
       ap_result := inl {| rc_status := 1;
                           rc_cumulativeGasUsed := used + tx_gas tx;
                           rc_txHash := tx_hash tx;
                           rc_gasUsed := tx_gas tx;
                           rc_logs := [ {| log_address := tx_from tx;
                                           log_topic := tx_hash tx;
                                           log_blockHash := 0%N |} ] |} |}.

(** A zone chain past the replay-protection fork, whose headers are told
    apart by their time and parent. *)
Definition simpleChain : Chain :=
  {| QuaiNetworkContext := 2;
     IsEIP155 := fun _ => true;
     HeaderHash := fun h => Z.to_N (Time h);
     SealHash := fun h => Z.to_N (Time h);
     ApplyTransaction := simpleApply |}.

Definition simpleHeader (parent : Hash) (number time limit : Z) : Header :=
  {| ParentHash := [0%N; 0%N; parent]; Number := [0; 0; number];
     GasLimit := [0; 0; limit]; GasUsed := [0; 0; 0]; BaseFee := [0; 0; 1];
     Time := time |}.

Definition simpleState (accounts : gmap Address Account) : StateDB :=
  {| sdb_accounts := accounts; sdb_thash := 0%N; sdb_txIndex := 0;
     sdb_nextRevisionId := O; sdb_validRevisions := []; sdb_prefetcher := false |}.

Definition simpleTx (hash : Hash) (from : Address) (nonce gas tip : Z) : Transaction :=
  {| tx_hash := hash; tx_from := from; tx_nonce := nonce; tx_gas := gas;
     tx_tip := tip; tx_protected := true; tx_type := 0 |}.

(** The two blocks before the block being built: the parent, with hash
    7 and the uncle 60, and its parent with hash 6. *)
Definition simpleRecent : list Block :=
  [ {| b_header := simpleHeader 6%N 7 7 100000; b_transactions := [];
       b_uncles := [simpleHeader 5%N 6 60 100000]; b_receiptCount := O |};
    {| b_header := simpleHeader 5%N 6 6 100000; b_transactions := [];
       b_uncles := []; b_receiptCount := O |} ].

(** The environment [makeEnv] builds on the state where account 10 has
    nonce 6, for a block numbered 8 on the parent 7 with the gas limit
    [limit]. *)
Definition simpleEnv (limit : Z) : environment :=
  {| signer := 8;
     state := {| sdb_accounts := {[ 10%N := {| acc_nonce := 6; acc_balance := 0 |} ]};
                 sdb_thash := 0%N; sdb_txIndex := 0; sdb_nextRevisionId := O;
                 sdb_validRevisions := []; sdb_prefetcher := true |};
     ancestors := {[ 7%N; 6%N ]}; family := {[ 7%N; 6%N; 60%N ]};
     tcount := 0; gasPool := None; coinbase := 1%N;
     header := simpleHeader 7%N 8 80 limit;
     txs := []; receipts := []; uncles := ∅;
     externalGasUsed := 0; externalBlockLength := 0 |}.

(** The nonce ladder: sender 10 offers nonces 5, 6 and 7. *)
Definition ladder : TransactionsByPriceAndNonce :=
  NewTransactionsByPriceAndNonce
    [[simpleTx 105%N 10%N 5 21000 3; simpleTx 106%N 10%N 6 21000 3;
      simpleTx 107%N 10%N 7 21000 3]].

(** A side block of the zone chain with an empty body, and a task that
    seals such a block. *)
Definition simpleBlock (parent : Hash) (number time : Z) : Block :=
  {| b_header := simpleHeader parent number time 100000; b_transactions := [];
     b_uncles := []; b_receiptCount := O |}.

Definition simpleTask (number : Z) : task :=
  {| t_receipts := []; t_state := simpleState ∅;
     t_block := simpleBlock 0%N number number; t_createdAt := 0 |}.

(** A worker that holds a local side block numbered 3 and a remote one
    numbered 9, and no work. *)
Definition simpleWorker : mainLoopState :=
  {| w_localUncles := {[ 30%N := simpleBlock 2%N 3 30 ]};
     w_remoteUncles := {[ 90%N := simpleBlock 8%N 9 90 ]};
     w_current := None; w_newTxs := 0 |}.

(** The current block of the small chain, the parent of the work. *)
Definition simpleParent : Block :=
  {| b_header := simpleHeader 6%N 7 7 100000; b_transactions := [];
     b_uncles := [simpleHeader 5%N 6 60 100000]; b_receiptCount := O |}.

Definition simpleParams (timestamp : Z) (forceTime noUncle : bool) : generateParams :=
  {| gp_timestamp := timestamp; gp_forceTime := forceTime; gp_parentHash := 0%N;
     gp_coinbase := 0%N; gp_random := 0%N; gp_noUncle := noUncle; gp_noExtra := false |}.

(** [prepareWork] on the small chain, for a worker with the coinbase 1,
    an engine that leaves the header as it is, one local side block and
    two remote ones, all children of the block 6. *)
Definition simplePrepareWork (running : bool) (genParams : generateParams)
  : exec (environment + error) :=
  @prepareWork simpleChain running 1%N (Some simpleParent) (fun _ => 1) inl
    (inl (simpleState {[ 10%N := {| acc_nonce := 6; acc_balance := 0 |} ]}))
    (inr (ErrNew "no state")) simpleRecent
    [(70%N, simpleBlock 6%N 7 70)]
    [(71%N, simpleBlock 6%N 7 71); (72%N, simpleBlock 6%N 7 72)]
    genParams.

(** The work it returns. *)
Definition simpleWork (running : bool) (genParams : generateParams) : environment :=
  match simplePrepareWork running genParams with
  | Done (inl env) => env
  | _ => simpleEnv 0
  end.

(** The accounts' transactions in the order of the map's list of
    entries. *)
Definition simpleOrder (m : gmap Address (list Transaction)) : list (list Transaction) :=
  (map_to_list m).*2.

(** The pending transactions of the small pool: the account 10 offers
    the nonces 6 and 7, the account 11 the nonce 0. *)
Definition simplePending : gmap Address (list Transaction) :=
  {[ 10%N := [simpleTx 106%N 10%N 6 21000 3; simpleTx 107%N 10%N 7 21000 3];
     11%N := [simpleTx 110%N 11%N 0 21000 5] ]}.

(** A worker with no side blocks that holds the small environment as its
    pending work. *)
Definition simpleMiner : mainLoopState :=
  {| w_localUncles := ∅; w_remoteUncles := ∅;
     w_current := Some (simpleEnv 100000); w_newTxs := 0 |}.

(** The answers of the small chain: a running worker with the coinbase 1,
    an engine that sets the gas limit of the header to 100000, a gas
    limit rule that keeps the parent's limit, and the small pool. *)
Definition simpleAnswers : answers :=
  {| a_running := true; a_coinbase := 1%N;
     a_runningPrepare := true; a_coinbasePrepare := 1%N;
     a_currentBlock := Some simpleParent;
     a_calcBaseFee := fun _ => 1;
     a_prepare := fun h => inl (set_GasLimit h [0; 0; 100000]);
     a_stateAt := inl (simpleState {[ 10%N := {| acc_nonce := 6; acc_balance := 0 |} ]});
     a_recovered := inr (ErrNew "no state");
     a_recent := simpleRecent;
     a_range := map_to_list;
     a_currentBlockAdjust := Some simpleParent;
     a_uncleCount := fun _ => 0;
     a_CalcGasLimit := fun limit _ _ => limit;
     a_pending := inl simplePending;
     a_locals := [10%N];
     a_order := simpleOrder;
     a_runningLocals := true; a_runningRemotes := true |}.

(** A side block arrives, new work is requested, new transactions come
    in and the cleaner ticks. *)
Definition simpleEvents : list mainEvent :=
  [ Ev_chainSide true (simpleBlock 6%N 7 70);
    Ev_newWork simpleAnswers None false 80;
    Ev_txs true true simpleOrder [simpleTx 108%N 10%N 8 21000 3] simpleAnswers 81;
    Ev_clean (Some (simpleBlock 9%N 15 150)) map_to_list ].

(** * Properties *)

(** ** Floating-point arithmetic *)

(** Floats are read as rational numbers; the values the worker computes
    with are positive and normal, and most lie between 1 and [2^53]. *)

Module F64Facts.
Local Open Scope Q_scope.

Lemma pow2_pos (e : Z) : 0 < pow2 e.
Proof. apply Qpower_0_lt. reflexivity. Qed.

Lemma pow2_add (a b : Z) : pow2 (a + b) == pow2 a * pow2 b.
Proof. apply Qpower_plus. discriminate. Qed.

Lemma pow2_Z (n : Z) : (0 <= n)%Z -> pow2 n == inject_Z (2 ^ n).
Proof. intros Hn. unfold pow2. now rewrite Zpower_Qpower. Qed.

Lemma pow2_opp (n : Z) : pow2 (- n) == / pow2 n.
Proof. apply Qpower_opp. Qed.

Lemma pow2_0 : pow2 0 == 1.
Proof. reflexivity. Qed.

Lemma digits2_pos_bounds (p : positive) :
  (2 ^ (Zpos (digits2_pos p) - 1) <= Zpos p < 2 ^ Zpos (digits2_pos p))%Z.
Proof.
  induction p as [p IH | p IH |]; cbn [digits2_pos].
  - rewrite Pos2Z.inj_succ, (Pos2Z.inj_xI p).
    replace (Z.succ (Zpos (digits2_pos p)) - 1)%Z with (Z.succ (Zpos (digits2_pos p) - 1))%Z by lia.
    rewrite !Z.pow_succ_r by lia.
    generalize dependent (2 ^ (Zpos (digits2_pos p) - 1))%Z.
    generalize (2 ^ Zpos (digits2_pos p))%Z. intros; lia.
  - rewrite Pos2Z.inj_succ, (Pos2Z.inj_xO p).
    replace (Z.succ (Zpos (digits2_pos p)) - 1)%Z with (Z.succ (Zpos (digits2_pos p) - 1))%Z by lia.
    rewrite !Z.pow_succ_r by lia.
    generalize dependent (2 ^ (Zpos (digits2_pos p) - 1))%Z.
    generalize (2 ^ Zpos (digits2_pos p))%Z. intros; lia.
  - cbn. lia.
Qed.

Lemma located_ext (mrs : shr_record) (x y : Q) :
  x == y -> located mrs x -> located mrs y.
Proof.
  unfold located. intros E. destruct (shr_r mrs), (shr_s mrs); cbn; intros; lra.
Qed.

Lemma located_bounds (mrs : shr_record) (x : Q) :
  located mrs x -> inject_Z (shr_m mrs) <= x /\ x < inject_Z (shr_m mrs) + 1.
Proof.
  unfold located. destruct (shr_r mrs), (shr_s mrs); cbn; intros; lra.
Qed.

Lemma located_shr_1 (mrs : shr_record) (x : Q) :
  (0 <= shr_m mrs)%Z -> located mrs x ->
  located (shr_1 mrs) (x * (1 # 2)) /\ (0 <= shr_m (shr_1 mrs))%Z.
Proof.
  destruct mrs as [m r s]. cbn [shr_m]. intros Hm.
  destruct m as [| p | p]; [| | lia].
  - unfold located; cbn [shr_1 shr_m shr_r shr_s orb];
      destruct r, s; cbn [orb]; intros; (split; [| lia]);
      change (inject_Z 0) with 0 in *; lra.
  - destruct p as [p | p |]; unfold located; cbn [shr_1 shr_m shr_r shr_s orb];
      rewrite ?(Pos2Z.inj_xI p), ?(Pos2Z.inj_xO p), ?inject_Z_plus, ?inject_Z_mult;
      destruct r, s; cbn [orb]; intros; (split; [| lia]);
      change (inject_Z 2) with 2 in *; change (inject_Z 1) with 1 in *;
      change (inject_Z 0) with 0 in *; lra.
Qed.

Lemma located_iter (p : positive) :
  forall (mrs : shr_record) (x : Q),
    (0 <= shr_m mrs)%Z -> located mrs x ->
    located (SpecFloat.iter_pos shr_1 p mrs) (x * pow2 (- Zpos p)) /\
    (0 <= shr_m (SpecFloat.iter_pos shr_1 p mrs))%Z.
Proof.
  induction p as [p IH | p IH |]; intros mrs x Hm Hloc; cbn [SpecFloat.iter_pos].
  - destruct (located_shr_1 _ _ Hm Hloc) as [H1 Hm1].
    destruct (IH _ _ Hm1 H1) as [H2 Hm2].
    destruct (IH _ _ Hm2 H2) as [H3 Hm3].
    split; [| exact Hm3]. eapply located_ext; [| exact H3].
    rewrite (Pos2Z.inj_xI p).
    replace (- (2 * Zpos p + 1))%Z with (-1 + - Zpos p + - Zpos p)%Z by lia.
    rewrite !pow2_add. change (pow2 (-1)) with (1 # 2). ring.
  - destruct (IH _ _ Hm Hloc) as [H2 Hm2].
    destruct (IH _ _ Hm2 H2) as [H3 Hm3].
    split; [| exact Hm3]. eapply located_ext; [| exact H3].
    rewrite (Pos2Z.inj_xO p).
    replace (- (2 * Zpos p))%Z with (- Zpos p + - Zpos p)%Z by lia.
    rewrite !pow2_add. ring.
  - apply located_shr_1; assumption.
Qed.

Lemma pow2_le (a b : Z) : (a <= b)%Z -> pow2 a <= pow2 b.
Proof. intros H. apply Qpower_le_compat_l; [exact H | discriminate]. Qed.

Lemma pow2_lt_inv (a b : Z) : pow2 a < pow2 b -> (a < b)%Z.
Proof. intros H. apply (Qpower_lt_compat_l_inv 2); [exact H | reflexivity]. Qed.

Lemma pow2_cancel (k : Z) : pow2 (- k) * pow2 k == 1.
Proof. rewrite <- pow2_add. replace (- k + k)%Z with 0%Z by lia. reflexivity. Qed.

(** The number of digits is the one power of two that bounds the
    number. *)
Lemma Zdigits2_unique (m k : Z) :
  (2 ^ (k - 1) <= m < 2 ^ k)%Z -> (0 < m)%Z -> Zdigits2 m = k.
Proof.
  intros [Hlo Hhi] Hm. destruct m as [| p | p]; try lia. cbn [Zdigits2].
  pose proof (digits2_pos_bounds p) as [Dlo Dhi].
  destruct (Z.lt_trichotomy (Zpos (digits2_pos p)) k) as [Hlt | [Heq | Hgt]];
    [| exact Heq |].
  - assert (2 ^ Zpos (digits2_pos p) <= 2 ^ (k - 1))%Z
      by (apply Z.pow_le_mono_r; lia). lia.
  - assert (0 <= k)%Z.
    { destruct (Z.le_gt_cases 0 k); [assumption |].
      rewrite Z.pow_neg_r in Hhi by assumption. lia. }
    assert (2 ^ k <= 2 ^ (Zpos (digits2_pos p) - 1))%Z
      by (apply Z.pow_le_mono_r; lia). lia.
Qed.

(** An integer below a number of the grid [2^-k] is below the grid
    point before the number, and one above it is above the next. *)
Lemma grid_lower (L m1 k : Z) (x1 : Q) :
  (0 <= k)%Z ->
  inject_Z L <= x1 * pow2 (- k) ->
  x1 < inject_Z m1 + 1 ->
  inject_Z L <= inject_Z m1 * pow2 (- k).
Proof.
  intros Hk HL Hx.
  pose proof (pow2_pos k) as Hpos. pose proof (pow2_cancel k) as Hc.
  apply (Qmult_le_r _ _ (pow2 k) Hpos).
  assert (E1 : inject_Z m1 * pow2 (- k) * pow2 k == inject_Z m1)
    by (rewrite <- Qmult_assoc, Hc; ring).
  rewrite E1.
  assert (E2 : inject_Z L * pow2 k <= x1).
  { apply (Qmult_le_r _ _ (pow2 k) Hpos) in HL.
    assert (E : x1 * pow2 (- k) * pow2 k == x1) by (rewrite <- Qmult_assoc, Hc; ring).
    now rewrite E in HL. }
  rewrite (pow2_Z k Hk) in *. rewrite <- inject_Z_mult in *.
  rewrite <- Zle_Qle.
  assert (inject_Z (L * 2 ^ k) < inject_Z (m1 + 1)).
  { rewrite inject_Z_plus. eapply Qle_lt_trans; [exact E2 | exact Hx]. }
  rewrite <- Zlt_Qlt in *. lia.
Qed.

Lemma grid_upper (U m1 k : Z) (x1 : Q) :
  (0 <= k)%Z ->
  x1 * pow2 (- k) <= inject_Z U ->
  inject_Z m1 < x1 ->
  inject_Z (m1 + 1) * pow2 (- k) <= inject_Z U.
Proof.
  intros Hk HU Hx.
  pose proof (pow2_pos k) as Hpos. pose proof (pow2_cancel k) as Hc.
  apply (Qmult_le_r _ _ (pow2 k) Hpos).
  assert (E1 : inject_Z (m1 + 1) * pow2 (- k) * pow2 k == inject_Z (m1 + 1))
    by (rewrite <- Qmult_assoc, Hc; ring).
  rewrite E1.
  assert (E2 : x1 <= inject_Z U * pow2 k).
  { apply (Qmult_le_r _ _ (pow2 k) Hpos) in HU.
    assert (E : x1 * pow2 (- k) * pow2 k == x1) by (rewrite <- Qmult_assoc, Hc; ring).
    now rewrite E in HU. }
  rewrite (pow2_Z k Hk) in *. rewrite <- inject_Z_mult in *.
  rewrite <- Zle_Qle.
  assert (inject_Z m1 < inject_Z (U * 2 ^ k)).
  { eapply Qlt_le_trans; [exact Hx | exact E2]. }
  rewrite <- Zlt_Qlt in *. lia.
Qed.

Lemma pow2_inject (n : Z) : (0 <= n)%Z -> inject_Z (2 ^ n) == pow2 n.
Proof. intros Hn. now rewrite pow2_Z. Qed.

Lemma shr_m_of_loc (q : Z) (l : location) : shr_m (shr_record_of_loc q l) = q.
Proof. destruct l as [| []]; reflexivity. Qed.

(** The first shift of the rounding: a mantissa of [d >= 53] digits
    loses [d - 53] digits, as long as the value is not subnormal. *)
Lemma first_shift (p : positive) (e : Z) (l : location) (x : Q) :
  located (shr_record_of_loc (Zpos p) l) x ->
  (53 <= Zpos (digits2_pos p))%Z ->
  (-1021 <= Zpos (digits2_pos p) + e)%Z ->
  exists mrs1,
    shr_fexp 53 1024 (Zpos p) e l = (mrs1, (Zpos (digits2_pos p) + e - 53)%Z) /\
    located mrs1 (x * pow2 (- (Zpos (digits2_pos p) - 53))) /\
    (0 <= shr_m mrs1)%Z.
Proof.
  intros Hloc Hd HE. set (d := Zpos (digits2_pos p)) in *.
  assert (Hf : (fexp 53 1024 (Zdigits2 (Zpos p) + e) - e = d - 53)%Z).
  { unfold fexp, emin. cbn [Zdigits2]. fold d. lia. }
  assert (Hm : (0 <= shr_m (shr_record_of_loc (Zpos p) l))%Z).
  { destruct l as [| []]; cbn; lia. }
  unfold shr_fexp. rewrite Hf. unfold shr.
  destruct (d - 53)%Z as [| n | n] eqn:En; [| | lia].
  - exists (shr_record_of_loc (Zpos p) l).
    split; [f_equal; lia |]. split; [| exact Hm].
    eapply located_ext; [| exact Hloc]. change (pow2 (- 0)) with 1. ring.
  - destruct (located_iter n _ _ Hm Hloc) as [H1 H2].
    eexists. split; [f_equal; lia |]. split; assumption.
Qed.

Lemma round_nearest_even_cases (mrs : shr_record) (x : Q) :
  located mrs x ->
  let m2 := round_nearest_even (shr_m mrs) (loc_of_shr_record mrs) in
  m2 = shr_m mrs \/ (m2 = (shr_m mrs + 1)%Z /\ inject_Z (shr_m mrs) < x).
Proof.
  destruct mrs as [m r s]. unfold located. cbn [shr_m shr_r shr_s].
  destruct r, s; cbn [loc_of_shr_record round_nearest_even]; intros H; auto.
  - right. split; [reflexivity | lra].
  - destruct (Z.even m); [auto |]. right. split; [reflexivity | lra].
Qed.

(** The second shift of the rounding, on a mantissa of 53 digits or on
    [2^53]. *)
Lemma second_shift (m2 e1 : Z) :
  (2 ^ 52 <= m2 <= 2 ^ 53)%Z -> (-1074 <= e1)%Z ->
  exists m' e',
    shr_fexp 53 1024 m2 e1 loc_Exact = (Build_shr_record (Zpos m') false false, e') /\
    digits2_pos m' = 53%positive /\ (e1 <= e' <= e1 + 1)%Z /\
    inject_Z (Zpos m') * pow2 e' == inject_Z m2 * pow2 e1.
Proof.
  intros Hm He.
  destruct (Z.eq_dec m2 (2 ^ 53)%Z) as [-> | Hne].
  - exists (4503599627370496)%positive, (e1 + 1)%Z.
    split; [| split; [reflexivity | split; [lia |]]].
    + unfold shr_fexp, fexp, emin.
      change (Zdigits2 (2 ^ 53)) with 54%Z.
      replace (Z.max (54 + e1 - 53) (3 - 1024 - 53) - e1)%Z with 1%Z by lia.
      reflexivity.
    + rewrite pow2_add. change (pow2 1) with 2.
      change (inject_Z (2 ^ 53)) with (inject_Z 4503599627370496 * 2). ring.
  - assert (Hd : Zdigits2 m2 = 53%Z) by (apply Zdigits2_unique; lia).
    destruct m2 as [| m' | m']; try lia.
    exists m', e1. split; [| split; [| split; [lia | reflexivity]]].
    + unfold shr_fexp, fexp, emin. rewrite Hd.
      replace (Z.max (53 + e1 - 53) (3 - 1024 - 53) - e1)%Z with 0%Z by lia.
      reflexivity.
    + cbn [Zdigits2] in Hd. now injection Hd.
Qed.

(** Rounding to nearest even of a value in the normal range that is given
    with [d >= 53] digits: with [x1] the value in units of the last digit
    kept and [m1] its integer part, the result is a normal float that
    stands for [m1] or for [m1 + 1] of these units, and for [m1 + 1] only
    if the value is not [m1] itself. *)
Lemma round_normal (p : positive) (e : Z) (l : location) (x : Q) :
  located (shr_record_of_loc (Zpos p) l) x ->
  (53 <= Zpos (digits2_pos p))%Z ->
  (-1021 <= Zpos (digits2_pos p) + e <= 1023)%Z ->
  let e1 := (Zpos (digits2_pos p) + e - 53)%Z in
  let x1 := x * pow2 (- (Zpos (digits2_pos p) - 53)) in
  exists m' e' m1,
    binary_round_aux 53 1024 false (Zpos p) e l = S754_finite false m' e' /\
    digits2_pos m' = 53%positive /\ (e1 <= e' <= e1 + 1)%Z /\
    (2 ^ 52 <= m1 < 2 ^ 53)%Z /\
    x1 * pow2 e1 == x * pow2 e /\
    inject_Z m1 <= x1 /\ x1 < inject_Z m1 + 1 /\
    (inject_Z (Zpos m') * pow2 e' == inject_Z m1 * pow2 e1 \/
     (inject_Z (Zpos m') * pow2 e' == inject_Z (m1 + 1) * pow2 e1 /\
      inject_Z m1 < x1)).
Proof.
  intros Hloc Hd HE.
  pose proof (digits2_pos_bounds p) as [Dlo Dhi].
  set (d := Zpos (digits2_pos p)) in *. intros e1 x1.
  pose proof (located_bounds _ _ Hloc) as [Xlo Xhi].
  rewrite shr_m_of_loc in Xlo, Xhi.
  destruct (first_shift p e l x Hloc Hd ltac:(lia)) as (mrs1 & Hfirst & Hloc1 & Hm1).
  fold d in Hfirst, Hloc1. fold x1 in Hloc1. fold e1 in Hfirst.
  set (m1 := shr_m mrs1) in *.
  assert (Hx1 : x1 * pow2 e1 == x * pow2 e).
  { unfold x1, e1. rewrite <- Qmult_assoc, <- pow2_add.
    replace (- (d - 53) + (d + e - 53))%Z with e by lia. reflexivity. }
  pose proof (located_bounds _ _ Hloc1) as [X1lo X1hi]. fold m1 in X1lo, X1hi.
  assert (P1 : 0 < pow2 (- (d - 53))) by apply pow2_pos.
  assert (M1lo : (2 ^ 52 <= m1)%Z).
  { assert (inject_Z (2 ^ 52) < inject_Z (m1 + 1)).
    { rewrite inject_Z_plus. eapply Qle_lt_trans; [| exact X1hi].
      unfold x1. rewrite pow2_inject by lia.
      replace 52%Z with (d - 1 + - (d - 53))%Z at 1 by lia. rewrite pow2_add.
      apply Qmult_le_compat_r; [| apply Qlt_le_weak; exact P1].
      eapply Qle_trans; [| exact Xlo].
      rewrite <- pow2_inject by lia. rewrite <- Zle_Qle. lia. }
    rewrite <- Zlt_Qlt in H. lia. }
  assert (M1hi : (m1 < 2 ^ 53)%Z).
  { assert (inject_Z m1 < inject_Z (2 ^ 53)).
    { eapply Qle_lt_trans; [exact X1lo |].
      unfold x1. rewrite (pow2_inject 53) by lia.
      replace 53%Z with (d + - (d - 53))%Z at 2 by lia. rewrite pow2_add.
      apply Qmult_lt_compat_r; [exact P1 |].
      eapply Qlt_le_trans; [exact Xhi |].
      rewrite <- pow2_inject by lia.
      change 1 with (inject_Z 1). rewrite <- inject_Z_plus, <- Zle_Qle. lia. }
    rewrite <- Zlt_Qlt in H. exact H. }
  pose proof (round_nearest_even_cases _ _ Hloc1) as Hround. cbn zeta in Hround.
  fold m1 in Hround.
  set (m2 := round_nearest_even m1 (loc_of_shr_record mrs1)) in *.
  assert (Hm2 : (2 ^ 52 <= m2 <= 2 ^ 53)%Z) by (destruct Hround as [-> | [-> _]]; lia).
  destruct (second_shift m2 e1 Hm2 ltac:(unfold e1; lia))
    as (m' & e' & Hsecond & Hdig & He' & Hval).
  exists m', e', m1.
  split.
  { unfold binary_round_aux. rewrite Hfirst. fold m1 m2. rewrite Hsecond.
    cbn [shr_m]. destruct (Z.leb_spec e' (1024 - 53)); [reflexivity |].
    unfold e1 in He'. lia. }
  split; [exact Hdig |]. split; [exact He' |]. split; [lia |].
  split; [exact Hx1 |]. split; [exact X1lo |]. split; [exact X1hi |].
  rewrite Hval. destruct Hround as [-> | [-> Hgt]]; [left | right; split; [| exact Hgt]];
    reflexivity.
Qed.

(** Rounding to nearest even of a value of at least 1 and below [2^53]
    that is given with at least 53 digits: the result is a normal float
    between any two integers that bracket the value. *)
Lemma round_bracket (p : positive) (e : Z) (l : location) (x : Q) (L U : Z) :
  located (shr_record_of_loc (Zpos p) l) x ->
  (53 <= Zpos (digits2_pos p))%Z ->
  (1 <= L)%Z -> (U < 2 ^ 53)%Z ->
  inject_Z L <= x * pow2 e -> x * pow2 e <= inject_Z U ->
  exists m' e',
    binary_round_aux 53 1024 false (Zpos p) e l = S754_finite false m' e' /\
    digits2_pos m' = 53%positive /\ (-52 <= e' <= 0)%Z /\
    inject_Z L <= inject_Z (Zpos m') * pow2 e' /\
    inject_Z (Zpos m') * pow2 e' <= inject_Z U.
Proof.
  intros Hloc Hd HL HU Hlo Hhi.
  pose proof (digits2_pos_bounds p) as [Dlo Dhi].
  pose proof (located_bounds _ _ Hloc) as [Xlo Xhi].
  rewrite shr_m_of_loc in Xlo, Xhi.
  set (d := Zpos (digits2_pos p)) in *.
  pose proof (pow2_pos e) as Pe.
  (* the value is below 2^(d+e) and at least 2^(d-1+e) *)
  assert (Vhi : x * pow2 e < pow2 (d + e)).
  { rewrite pow2_add. apply Qmult_lt_compat_r; [exact Pe |].
    eapply Qlt_le_trans; [exact Xhi |].
    rewrite <- pow2_inject by lia.
    change 1 with (inject_Z 1). rewrite <- inject_Z_plus, <- Zle_Qle. lia. }
  assert (Vlo : pow2 (d - 1 + e) <= x * pow2 e).
  { rewrite pow2_add. apply Qmult_le_compat_r; [| apply Qlt_le_weak; exact Pe].
    eapply Qle_trans; [| exact Xlo].
    rewrite <- pow2_inject by lia. rewrite <- Zle_Qle. lia. }
  assert (HE1 : (1 <= d + e)%Z).
  { assert (pow2 0 < pow2 (d + e)).
    { eapply Qle_lt_trans; [| exact Vhi]. eapply Qle_trans; [| exact Hlo].
      change (pow2 0) with (inject_Z 1). rewrite <- Zle_Qle. lia. }
    apply pow2_lt_inv in H. lia. }
  assert (HE2 : (d + e <= 53)%Z).
  { assert (pow2 (d - 1 + e) < pow2 53).
    { eapply Qle_lt_trans; [exact Vlo |]. eapply Qle_lt_trans; [exact Hhi |].
      rewrite <- pow2_inject by lia. rewrite <- Zlt_Qlt. exact HU. }
    apply pow2_lt_inv in H. lia. }
  destruct (round_normal p e l x Hloc Hd ltac:(fold d; lia))
    as (m' & e' & m1 & Hround & Hdig & He' & Hm1 & Hx1 & X1lo & X1hi & Hcases).
  fold d in He', Hx1, X1lo, X1hi, Hcases.
  set (x1 := x * pow2 (- (d - 53))) in *.
  set (e1 := (d + e - 53)%Z) in *.
  assert (Hk : (0 <= - e1)%Z) by (unfold e1; lia).
  assert (E1 : pow2 e1 = pow2 (- - e1)) by (now rewrite Z.opp_involutive).
  assert (Blo : inject_Z L <= inject_Z (Zpos m') * pow2 e').
  { apply (Qle_trans _ (inject_Z m1 * pow2 e1)).
    - rewrite E1. apply (grid_lower L m1 (- e1) x1 Hk); [| exact X1hi].
      rewrite <- E1, Hx1. exact Hlo.
    - destruct Hcases as [-> | [-> _]]; [apply Qle_refl |].
      apply Qmult_le_compat_r; [| apply Qlt_le_weak, pow2_pos].
      rewrite <- Zle_Qle. lia. }
  assert (Bhi : inject_Z (Zpos m') * pow2 e' <= inject_Z U).
  { destruct Hcases as [-> | [-> Hgt]].
    - eapply Qle_trans; [| exact Hhi]. rewrite <- Hx1.
      apply Qmult_le_compat_r; [exact X1lo | apply Qlt_le_weak, pow2_pos].
    - rewrite E1. apply (grid_upper U m1 (- e1) x1 Hk); [| exact Hgt].
      rewrite <- E1, Hx1. exact Hhi. }
  assert (He'0 : (e' <= 0)%Z).
  { destruct (Z.eq_dec e' 1%Z) as [-> | Hne]; [| unfold e1 in He'; lia]. exfalso.
    assert (inject_Z (2 ^ 53) <= inject_Z (Zpos m') * pow2 1).
    { pose proof (digits2_pos_bounds m') as [Mlo _]. rewrite Hdig in Mlo.
      change (pow2 1) with (inject_Z 2). rewrite <- inject_Z_mult, <- Zle_Qle.
      change (2 ^ (53 - 1))%Z with (2 ^ 52)%Z in Mlo. lia. }
    assert (inject_Z (2 ^ 53) <= inject_Z U) by (eapply Qle_trans; eassumption).
    rewrite <- Zle_Qle in H0. lia. }
  exists m', e'. split; [exact Hround |]. split; [exact Hdig |].
  split; [unfold e1 in He'; lia |]. split; assumption.
Qed.

Lemma toQ_pos (m : positive) (e : Z) :
  toQ (S754_finite false m e) == inject_Z (Zpos m) * pow2 e.
Proof. unfold toQ, pow2. ring. Qed.

(** A rounded value between 1 and [2^53], in the words of [toQ]. *)
Lemma round_bracket_toQ (p : positive) (e : Z) (l : location) (x : Q) (L U : Z) :
  located (shr_record_of_loc (Zpos p) l) x ->
  (53 <= Zpos (digits2_pos p))%Z ->
  (1 <= L)%Z -> (U < 2 ^ 53)%Z ->
  inject_Z L <= x * pow2 e -> x * pow2 e <= inject_Z U ->
  pnormal (binary_round_aux 53 1024 false (Zpos p) e l) /\
  inject_Z L <= toQ (binary_round_aux 53 1024 false (Zpos p) e l) /\
  toQ (binary_round_aux 53 1024 false (Zpos p) e l) <= inject_Z U.
Proof.
  intros Hloc Hd HL HU Hlo Hhi.
  destruct (round_bracket p e l x L U Hloc Hd HL HU Hlo Hhi)
    as (m' & e' & -> & Hdig & He & Blo & Bhi).
  split; [exists m', e'; repeat split; auto; lia |].
  rewrite toQ_pos. split; assumption.
Qed.

Lemma iter_xO_spec (p d : positive) :
  Zpos (Pos.iter xO p d) = (Zpos p * 2 ^ Zpos d)%Z /\
  Zpos (digits2_pos (Pos.iter xO p d)) = (Zpos (digits2_pos p) + Zpos d)%Z.
Proof.
  induction d as [| d IH] using Pos.peano_ind.
  - cbn [Pos.iter digits2_pos]. rewrite Pos2Z.inj_succ. split; lia.
  - rewrite Pos.iter_succ. cbn [digits2_pos]. destruct IH as [IH1 IH2].
    rewrite (Pos2Z.inj_xO (Pos.iter xO p d)), !Pos2Z.inj_succ, IH1, IH2.
    rewrite Z.pow_succ_r by lia. split; lia.
Qed.

(** [binary_round] on a positive value between 1 and [2^53]. *)
Lemma binary_round_bracket (p : positive) (e : Z) (L U : Z) :
  (1 <= L)%Z -> (U < 2 ^ 53)%Z ->
  inject_Z L <= inject_Z (Zpos p) * pow2 e ->
  inject_Z (Zpos p) * pow2 e <= inject_Z U ->
  pnormal (binary_round 53 1024 false p e) /\
  inject_Z L <= toQ (binary_round 53 1024 false p e) /\
  toQ (binary_round 53 1024 false p e) <= inject_Z U.
Proof.
  intros HL HU Hlo Hhi.
  pose proof (digits2_pos_bounds p) as [Dlo Dhi].
  set (d := Zpos (digits2_pos p)) in *.
  pose proof (pow2_pos e) as Pe.
  assert (HE1 : (1 <= d + e)%Z).
  { assert (pow2 0 < pow2 (d + e)).
    { eapply Qle_lt_trans; [| rewrite pow2_add; apply Qmult_lt_compat_r;
                               [exact Pe | rewrite <- pow2_inject by lia;
                                           rewrite <- Zlt_Qlt; exact Dhi]].
      eapply Qle_trans; [| exact Hlo].
      change (pow2 0) with (inject_Z 1). rewrite <- Zle_Qle. lia. }
    apply pow2_lt_inv in H. lia. }
  unfold binary_round, shl_align, fexp, emin. fold d.
  replace (Z.max (d + e - 53) (3 - 1024 - 53) - e)%Z with (d - 53)%Z by lia.
  destruct (d - 53)%Z as [| n | n] eqn:En.
  - apply (round_bracket_toQ p e loc_Exact (inject_Z (Zpos p)) L U); auto.
    + unfold located; cbn. ring.
    + fold d. lia.
  - apply (round_bracket_toQ p e loc_Exact (inject_Z (Zpos p)) L U); auto.
    + unfold located; cbn. ring.
    + fold d. lia.
  - destruct (iter_xO_spec p n) as [Hv Hdg].
    assert (Hval : inject_Z (Zpos (Pos.iter xO p n)) * pow2 (Z.max (d + e - 53) (3 - 1024 - 53))
                   == inject_Z (Zpos p) * pow2 e).
    { rewrite Hv, inject_Z_mult, pow2_inject by lia.
      rewrite <- Qmult_assoc, <- pow2_add.
      replace (Zpos n + Z.max (d + e - 53) (3 - 1024 - 53))%Z with e by lia.
      reflexivity. }
    apply (round_bracket_toQ _ _ loc_Exact (inject_Z (Zpos (Pos.iter xO p n))) L U); auto.
    + unfold located; cbn. ring.
    + rewrite Hdg. fold d. lia.
    + now rewrite Hval.
    + now rewrite Hval.
Qed.

(** [binary_normalize] on an integer mantissa whose value is between 1
    and [2^53]. *)
Lemma binary_normalize_bracket (M e : Z) (L U : Z) :
  (1 <= L)%Z -> (U < 2 ^ 53)%Z ->
  inject_Z L <= inject_Z M * pow2 e ->
  inject_Z M * pow2 e <= inject_Z U ->
  pnormal (binary_normalize 53 1024 M e false) /\
  inject_Z L <= toQ (binary_normalize 53 1024 M e false) /\
  toQ (binary_normalize 53 1024 M e false) <= inject_Z U.
Proof.
  intros HL HU Hlo Hhi.
  assert (HM : (0 < M)%Z).
  { destruct (Z.lt_ge_cases 0 M) as [? | Hneg]; [assumption | exfalso].
    pose proof (pow2_pos e) as Pe.
    assert (inject_Z M * pow2 e <= 0 * pow2 e).
    { rewrite Zle_Qle in Hneg. change (inject_Z 0) with 0 in Hneg.
      apply Qmult_le_compat_r; [exact Hneg | apply Qlt_le_weak; exact Pe]. }
    assert (inject_Z 1 <= inject_Z L) by (rewrite <- Zle_Qle; exact HL).
    change (inject_Z 1) with 1 in *. lra. }
  destruct M as [| p | p]; try lia.
  cbn [binary_normalize]. now apply binary_round_bracket.
Qed.

Lemma digits2_pos_lower (p : positive) (k : Z) :
  (2 ^ k <= Zpos p)%Z -> (0 <= k)%Z -> (k < Zpos (digits2_pos p))%Z.
Proof.
  intros Hk Hk0. pose proof (digits2_pos_bounds p) as [_ Dhi].
  destruct (Z.lt_ge_cases k (Zpos (digits2_pos p))) as [? | Hge]; [assumption |].
  assert (2 ^ Zpos (digits2_pos p) <= 2 ^ k)%Z by (apply Z.pow_le_mono_r; lia). lia.
Qed.

Lemma pnormal_mantissa (m : positive) :
  digits2_pos m = 53%positive -> (2 ^ 52 <= Zpos m < 2 ^ 53)%Z.
Proof.
  intros Hd. pose proof (digits2_pos_bounds m) as H. rewrite Hd in H. exact H.
Qed.

Lemma mul_bracket (x y : spec_float) (L U : Z) :
  pnormal x -> pnormal y ->
  (1 <= L)%Z -> (U < 2 ^ 53)%Z ->
  inject_Z L <= toQ x * toQ y -> toQ x * toQ y <= inject_Z U ->
  pnormal (SFmul 53 1024 x y) /\
  inject_Z L <= toQ (SFmul 53 1024 x y) /\ toQ (SFmul 53 1024 x y) <= inject_Z U.
Proof.
  intros (mx & ex & -> & Dx & Ex) (my & ey & -> & Dy & Ey) HL HU.
  rewrite !toQ_pos. intros Hlo Hhi. cbn [SFmul xorb].
  pose proof (pnormal_mantissa mx Dx) as Mx. pose proof (pnormal_mantissa my Dy) as My.
  assert (Hval : inject_Z (Zpos (mx * my)) * pow2 (ex + ey)
                 == inject_Z (Zpos mx) * pow2 ex * (inject_Z (Zpos my) * pow2 ey)).
  { rewrite Pos2Z.inj_mul, inject_Z_mult, pow2_add. ring. }
  apply (round_bracket_toQ _ _ loc_Exact (inject_Z (Zpos (mx * my))) L U); auto.
  - unfold located; cbn. ring.
  - assert (104 < Zpos (digits2_pos (mx * my)))%Z; [| lia].
    apply digits2_pos_lower; [| lia]. rewrite Pos2Z.inj_mul.
    change (2 ^ 104)%Z with (2 ^ 52 * 2 ^ 52)%Z. nia.
  - now rewrite Hval.
  - now rewrite Hval.
Qed.

Lemma shl_align_value (m : positive) (e ez : Z) :
  (ez <= e)%Z ->
  inject_Z (Zpos (fst (shl_align m e ez))) * pow2 ez == inject_Z (Zpos m) * pow2 e.
Proof.
  intros Hle. unfold shl_align.
  destruct (ez - e)%Z as [| d | d] eqn:Ed; cbn [fst]; try lia.
  - replace ez with e by lia. reflexivity.
  - destruct (iter_xO_spec m d) as [Hv _].
    rewrite Hv, inject_Z_mult, pow2_inject by lia.
    rewrite <- Qmult_assoc, <- pow2_add. replace (Zpos d + ez)%Z with e by lia.
    reflexivity.
Qed.

Lemma add_bracket (x y : spec_float) (L U : Z) :
  pnormal x -> pnormal y ->
  (1 <= L)%Z -> (U < 2 ^ 53)%Z ->
  inject_Z L <= toQ x + toQ y -> toQ x + toQ y <= inject_Z U ->
  pnormal (SFadd 53 1024 x y) /\
  inject_Z L <= toQ (SFadd 53 1024 x y) /\ toQ (SFadd 53 1024 x y) <= inject_Z U.
Proof.
  intros (mx & ex & -> & Dx & Ex) (my & ey & -> & Dy & Ey) HL HU.
  rewrite !toQ_pos. intros Hlo Hhi. cbn [SFadd cond_Zopp].
  pose proof (shl_align_value mx ex (Z.min ex ey) ltac:(lia)) as Vx.
  pose proof (shl_align_value my ey (Z.min ex ey) ltac:(lia)) as Vy.
  apply binary_normalize_bracket; auto; rewrite inject_Z_plus, Qmult_plus_distr_l, Vx, Vy;
    assumption.
Qed.

Lemma sub_bracket (x y : spec_float) (L U : Z) :
  pnormal x -> pnormal y ->
  (1 <= L)%Z -> (U < 2 ^ 53)%Z ->
  inject_Z L <= toQ x - toQ y -> toQ x - toQ y <= inject_Z U ->
  pnormal (SFsub 53 1024 x y) /\
  inject_Z L <= toQ (SFsub 53 1024 x y) /\ toQ (SFsub 53 1024 x y) <= inject_Z U.
Proof.
  intros (mx & ex & -> & Dx & Ex) (my & ey & -> & Dy & Ey) HL HU.
  rewrite !toQ_pos. intros Hlo Hhi. cbn [SFsub cond_Zopp].
  pose proof (shl_align_value mx ex (Z.min ex ey) ltac:(lia)) as Vx.
  pose proof (shl_align_value my ey (Z.min ex ey) ltac:(lia)) as Vy.
  assert (E : forall a b : Z, inject_Z (a - b) * pow2 (Z.min ex ey)
                == inject_Z a * pow2 (Z.min ex ey) - inject_Z b * pow2 (Z.min ex ey)).
  { intros a b. unfold Z.sub. rewrite inject_Z_plus, inject_Z_opp. ring. }
  apply binary_normalize_bracket; auto; rewrite E, Vx, Vy; assumption.
Qed.

(** The location the division computes from the remainder is the place
    of the exact quotient. *)
Lemma new_location_located (D r q : Z) (x : Q) :
  (0 < D)%Z -> (0 <= r < D)%Z ->
  x == inject_Z q + inject_Z r / inject_Z D ->
  located (shr_record_of_loc q (new_location D r)) x.
Proof.
  intros HD Hr Hx.
  assert (Dq : 0 < inject_Z D) by (change 0 with (inject_Z 0); now rewrite <- Zlt_Qlt).
  set (f := inject_Z r / inject_Z D) in *.
  assert (Hf0 : r = 0%Z -> f == 0).
  { intros ->. unfold f. change (inject_Z 0) with 0. unfold Qdiv. ring. }
  assert (Hflt : forall a b : Z, (a * r < b * D)%Z -> (0 < a)%Z ->
                   f < inject_Z b / inject_Z a).
  { intros a b Hab Ha.
    assert (Aq : 0 < inject_Z a) by (change 0 with (inject_Z 0); now rewrite <- Zlt_Qlt).
    unfold f. apply Qlt_shift_div_r; [exact Dq |].
    unfold Qdiv. rewrite <- Qmult_assoc, (Qmult_comm (/ inject_Z a)), Qmult_assoc.
    apply Qlt_shift_div_l; [exact Aq |].
    rewrite <- !inject_Z_mult, <- Zlt_Qlt. lia. }
  assert (Hfgt : forall a b : Z, (b * D < a * r)%Z -> (0 < a)%Z ->
                   inject_Z b / inject_Z a < f).
  { intros a b Hab Ha.
    assert (Aq : 0 < inject_Z a) by (change 0 with (inject_Z 0); now rewrite <- Zlt_Qlt).
    unfold f. apply Qlt_shift_div_l; [exact Dq |].
    unfold Qdiv. rewrite <- Qmult_assoc, (Qmult_comm (/ inject_Z a)), Qmult_assoc.
    apply Qlt_shift_div_r; [exact Aq |].
    rewrite <- !inject_Z_mult, <- Zlt_Qlt. lia. }
  assert (Hfhalf : (2 * r = D)%Z -> f == 1 # 2).
  { intros E. unfold f. rewrite <- E, inject_Z_mult. change (inject_Z 2) with 2.
    field. intros E0. rewrite <- E in Dq. rewrite inject_Z_mult in Dq.
    change (inject_Z 2) with 2 in Dq. lra. }
  assert (F0 : 0 < f \/ r = 0%Z).
  { destruct (Z.eq_dec r 0%Z) as [? | Hne]; [right; assumption | left].
    apply (Hfgt 1%Z 0%Z); lia. }
  assert (F1 : f < 1) by (apply (Hflt 1%Z 1%Z); lia).
  unfold located. rewrite shr_m_of_loc.
  assert (Hxf : x - inject_Z q == f) by (rewrite Hx; ring).
  unfold new_location, new_location_even, new_location_odd.
  destruct (Z.even D) eqn:Heven.
  - destruct (Z.eqb_spec r 0) as [-> | Hne].
    + cbn. rewrite Hxf. now apply Hf0.
    + destruct F0 as [F0 | ?]; [| contradiction].
      destruct (Z.compare_spec (2 * r) D) as [E | E | E]; cbn; rewrite Hxf.
      * now apply Hfhalf.
      * split; [exact F0 |]. apply (Hflt 2%Z 1%Z); lia.
      * split; [| exact F1]. apply (Hfgt 2%Z 1%Z); lia.
  - assert (Hodd : (2 * r <> D)%Z).
    { intros E. rewrite <- E, Z.even_mul in Heven. discriminate. }
    destruct (Z.eqb_spec r 0) as [-> | Hne].
    + cbn. rewrite Hxf. now apply Hf0.
    + destruct F0 as [F0 | ?]; [| contradiction].
      destruct (Z.compare_spec (2 * r + 1) D) as [E | E | E]; cbn; rewrite Hxf.
      * split; [exact F0 |]. apply (Hflt 2%Z 1%Z); lia.
      * split; [exact F0 |]. apply (Hflt 2%Z 1%Z); lia.
      * split; [| exact F1]. apply (Hfgt 2%Z 1%Z); lia.
Qed.

Lemma pow2_ge_1 (k : Z) : (0 <= k)%Z -> 1 <= pow2 k.
Proof. intros Hk. change 1 with (pow2 0). now apply pow2_le. Qed.

(** Normal floats are ordered by their exponents first. *)
Lemma value_lt_of_exp_lt (mx my : positive) (ex ey : Z) :
  digits2_pos mx = 53%positive -> digits2_pos my = 53%positive -> (ex < ey)%Z ->
  inject_Z (Zpos mx) * pow2 ex < inject_Z (Zpos my) * pow2 ey.
Proof.
  intros Dx Dy Hlt.
  pose proof (pnormal_mantissa mx Dx) as Mx. pose proof (pnormal_mantissa my Dy) as My.
  replace ey with (ey - ex - 1 + 1 + ex)%Z by lia. rewrite !pow2_add.
  pose proof (pow2_pos ex) as Pe.
  pose proof (pow2_ge_1 (ey - ex - 1) ltac:(lia)) as P1.
  change (pow2 1) with 2.
  rewrite !Qmult_assoc. apply Qmult_lt_compat_r; [exact Pe |].
  assert (A : inject_Z (Zpos mx) < inject_Z (2 ^ 53)) by (rewrite <- Zlt_Qlt; lia).
  assert (B : inject_Z (2 ^ 52) <= inject_Z (Zpos my)) by (rewrite <- Zle_Qle; lia).
  change (inject_Z (2 ^ 53)) with (inject_Z (2 ^ 52) * 2) in A.
  assert (C : 0 < inject_Z (2 ^ 52)) by reflexivity.
  set (a := inject_Z (Zpos mx)) in *. set (b := inject_Z (Zpos my)) in *.
  set (c := inject_Z (2 ^ 52)) in *. set (t := pow2 (ey - ex - 1)) in *.
  assert (b * 2 <= b * t * 2).
  { assert (b * 1 <= b * t) by (apply Qmult_le_l; lra). lra. }
  lra.
Qed.

Lemma div_bracket (x y : spec_float) (L U : Z) :
  pnormal x -> pnormal y ->
  (1 <= L)%Z -> (U < 2 ^ 53)%Z ->
  inject_Z L <= toQ x / toQ y -> toQ x / toQ y <= inject_Z U ->
  pnormal (SFdiv 53 1024 x y) /\
  inject_Z L <= toQ (SFdiv 53 1024 x y) /\ toQ (SFdiv 53 1024 x y) <= inject_Z U.
Proof.
  intros (mx & ex & -> & Dx & Ex) (my & ey & -> & Dy & Ey) HL HU.
  rewrite !toQ_pos. intros Hlo Hhi.
  pose proof (pnormal_mantissa mx Dx) as Mx. pose proof (pnormal_mantissa my Dy) as My.
  assert (Py : 0 < inject_Z (Zpos my) * pow2 ey).
  { apply Qmult_lt_0_compat; [reflexivity | apply pow2_pos]. }
  (* the quotient is at least 1, so the exponents are in order *)
  assert (Hexp : (ey <= ex)%Z).
  { destruct (Z.le_gt_cases ey ex) as [? | Hgt]; [assumption | exfalso].
    pose proof (value_lt_of_exp_lt mx my ex ey Dx Dy Hgt) as Hlt.
    assert (inject_Z (Zpos mx) * pow2 ex / (inject_Z (Zpos my) * pow2 ey) < 1).
    { apply Qlt_shift_div_r; [exact Py |]. now rewrite Qmult_1_l. }
    assert (inject_Z 1 <= inject_Z L) by (now rewrite <- Zle_Qle).
    change (inject_Z 1) with 1 in *. lra. }
  set (N := (Zpos mx * 2 ^ 53)%Z).
  set (D := Zpos my).
  assert (Hcore : SFdiv_core_binary 53 1024 (Zpos mx) ex (Zpos my) ey =
                  ((N / D)%Z, (ex - ey - 53)%Z, new_location D (N mod D)%Z)).
  { unfold SFdiv_core_binary. cbn [Zdigits2]. rewrite Dx, Dy. unfold fexp, emin.
    replace (Z.min (Z.max (53 + ex - (53 + ey) - 53) (3 - 1024 - 53)) (ex - ey))%Z
      with (ex - ey - 53)%Z by lia.
    replace (ex - ey - (ex - ey - 53))%Z with 53%Z by lia.
    rewrite Z.shiftl_mul_pow2 by lia. fold N D.
    unfold Z.div, Z.modulo. destruct (Z.div_eucl N D). reflexivity. }
  cbn [SFdiv xorb]. rewrite Hcore.
  pose proof (Z.div_mod N D ltac:(unfold D; lia)) as Hdm.
  pose proof (Z.mod_pos_bound N D ltac:(unfold D; lia)) as Hmod.
  assert (Hq : (2 ^ 52 <= N / D)%Z).
  { apply Z.div_le_lower_bound; unfold N, D; [lia |].
    change (2 ^ 53)%Z with (2 * 2 ^ 52)%Z. nia. }
  destruct (N / D)%Z as [| qp | qp] eqn:Eq; try lia.
  set (xq := inject_Z N / inject_Z D).
  assert (Dq : 0 < inject_Z D) by reflexivity.
  assert (Hxq : xq == inject_Z (Zpos qp) + inject_Z (N mod D) / inject_Z D).
  { unfold xq. rewrite Hdm at 1. rewrite inject_Z_plus, inject_Z_mult.
    field. intros E0. rewrite E0 in Dq. discriminate. }
  assert (Hval : xq * pow2 (ex - ey - 53)
                 == inject_Z (Zpos mx) * pow2 ex / (inject_Z (Zpos my) * pow2 ey)).
  { unfold xq, N. fold D. rewrite inject_Z_mult, (pow2_inject 53) by lia.
    replace (ex - ey - 53)%Z with (ex + - ey + - (53))%Z by lia.
    rewrite !pow2_add, !pow2_opp.
    pose proof (pow2_pos ey). pose proof (pow2_pos 53).
    field. repeat split; lra. }
  apply (round_bracket_toQ qp _ _ xq L U); auto.
  - apply new_location_located; [reflexivity | exact Hmod | exact Hxq].
  - assert (52 < Zpos (digits2_pos qp))%Z; [| lia].
    apply digits2_pos_lower; [exact Hq | lia].
  - now rewrite Hval.
  - now rewrite Hval.
Qed.

(** [<] on positive normal floats is [<] on their values. *)
Lemma ltb_pnormal (x y : spec_float) :
  pnormal x -> pnormal y -> (SFltb x y = true <-> toQ x < toQ y).
Proof.
  intros (mx & ex & -> & Dx & Ex) (my & ey & -> & Dy & Ey).
  rewrite !toQ_pos. unfold SFltb, SFcompare.
  destruct (Z.compare_spec ex ey) as [-> | Hlt | Hgt].
  - rewrite Pos.compare_cont_spec. cbn [Pos.switch_Eq].
    pose proof (pow2_pos ey) as Pe.
    rewrite Qmult_lt_r by exact Pe. rewrite <- Zlt_Qlt.
    destruct (Pos.compare_spec mx my) as [-> | H | H]; split; intros; try lia;
      try discriminate; reflexivity.
  - split; [intros _ | reflexivity]. now apply value_lt_of_exp_lt.
  - split; [discriminate |]. intros H.
    pose proof (value_lt_of_exp_lt my mx ey ex Dy Dx Hgt). lra.
Qed.

(** The exponent of a normal float below [2^53] and at least 1. *)
Lemma pnormal_exponent (m : positive) (e : Z) (L U : Z) :
  digits2_pos m = 53%positive ->
  (1 <= L)%Z -> (U < 2 ^ 53)%Z ->
  inject_Z L <= inject_Z (Zpos m) * pow2 e ->
  inject_Z (Zpos m) * pow2 e <= inject_Z U ->
  (-52 <= e <= 0)%Z.
Proof.
  intros Dm HL HU Hlo Hhi. pose proof (pnormal_mantissa m Dm) as Mm.
  pose proof (pow2_pos e) as Pe.
  assert (A : pow2 (52 + e) <= inject_Z (Zpos m) * pow2 e).
  { rewrite pow2_add. apply Qmult_le_compat_r; [| lra].
    rewrite <- pow2_inject by lia. rewrite <- Zle_Qle. lia. }
  assert (B : inject_Z (Zpos m) * pow2 e < pow2 (53 + e)).
  { rewrite pow2_add. apply Qmult_lt_compat_r; [exact Pe |].
    rewrite <- pow2_inject by lia. rewrite <- Zlt_Qlt. lia. }
  assert (C : pow2 (52 + e) < pow2 53).
  { eapply Qle_lt_trans; [exact A |]. eapply Qle_lt_trans; [exact Hhi |].
    rewrite <- pow2_inject by lia. now rewrite <- Zlt_Qlt. }
  assert (E : pow2 0 < pow2 (53 + e)).
  { eapply Qle_lt_trans; [| exact B]. eapply Qle_trans; [| exact Hlo].
    change (pow2 0) with (inject_Z 1). now rewrite <- Zle_Qle. }
  apply pow2_lt_inv in C, E. lia.
Qed.

(** A positive normal float is a float of the format. *)
Lemma pnormal_valid (x : spec_float) : pnormal x -> valid_binary 53 1024 x = true.
Proof.
  intros (m & e & -> & Dm & He). cbn [valid_binary]. unfold bounded, canonical_mantissa.
  apply andb_true_intro. split.
  - apply Z.eqb_eq. unfold fexp, emin. rewrite Dm. lia.
  - apply Z.leb_le. lia.
Qed.

(** The quotient of two integers below [2^53], the first not above the
    second, is a normal float in [(0, 1]]. *)
Lemma div_unit (x y : spec_float) (n d : Z) :
  pnormal x -> pnormal y ->
  toQ x == inject_Z n -> toQ y == inject_Z d ->
  (1 <= n <= d)%Z -> (d < 2 ^ 53)%Z ->
  pnormal (SFdiv 53 1024 x y) /\ toQ (SFdiv 53 1024 x y) <= 1.
Proof.
  intros (mx & ex & -> & Dx & Ex) (my & ey & -> & Dy & Ey).
  rewrite !toQ_pos. intros Vx Vy Hn Hd.
  pose proof (pnormal_mantissa mx Dx) as Mx. pose proof (pnormal_mantissa my Dy) as My.
  assert (Ex' : (-52 <= ex <= 0)%Z).
  { apply (pnormal_exponent mx ex n n Dx); try lia; rewrite Vx; apply Qle_refl. }
  assert (Ey' : (-52 <= ey <= 0)%Z).
  { apply (pnormal_exponent my ey d d Dy); try lia; rewrite Vy; apply Qle_refl. }
  set (N := (Zpos mx * 2 ^ 53)%Z).
  set (D := Zpos my).
  assert (Hcore : SFdiv_core_binary 53 1024 (Zpos mx) ex (Zpos my) ey =
                  ((N / D)%Z, (ex - ey - 53)%Z, new_location D (N mod D)%Z)).
  { unfold SFdiv_core_binary. cbn [Zdigits2]. rewrite Dx, Dy. unfold fexp, emin.
    replace (Z.min (Z.max (53 + ex - (53 + ey) - 53) (3 - 1024 - 53)) (ex - ey))%Z
      with (ex - ey - 53)%Z by lia.
    replace (ex - ey - (ex - ey - 53))%Z with 53%Z by lia.
    rewrite Z.shiftl_mul_pow2 by lia. fold N D.
    unfold Z.div, Z.modulo. destruct (Z.div_eucl N D). reflexivity. }
  cbn [SFdiv xorb]. rewrite Hcore.
  pose proof (Z.div_mod N D ltac:(unfold D; lia)) as Hdm.
  pose proof (Z.mod_pos_bound N D ltac:(unfold D; lia)) as Hmod.
  assert (Hq : (2 ^ 52 <= N / D)%Z).
  { apply Z.div_le_lower_bound; unfold N, D; [lia |].
    change (2 ^ 53)%Z with (2 * 2 ^ 52)%Z. nia. }
  assert (Hq' : (N / D < 2 ^ 54)%Z).
  { apply Z.div_lt_upper_bound; unfold N, D; [lia |].
    change (2 ^ 54)%Z with (2 ^ 53 * 2)%Z.
    change (2 ^ 52)%Z with 4503599627370496%Z in *.
    change (2 ^ 53)%Z with 9007199254740992%Z in *. nia. }
  destruct (N / D)%Z as [| qp | qp] eqn:Eq; try lia.
  set (xq := inject_Z N / inject_Z D).
  assert (Dq : 0 < inject_Z D) by reflexivity.
  assert (Hxq : xq == inject_Z (Zpos qp) + inject_Z (N mod D) / inject_Z D).
  { unfold xq. rewrite Hdm at 1. rewrite inject_Z_plus, inject_Z_mult.
    field. intros E0. rewrite E0 in Dq. discriminate. }
  assert (Hval : xq * pow2 (ex - ey - 53)
                 == inject_Z (Zpos mx) * pow2 ex / (inject_Z (Zpos my) * pow2 ey)).
  { unfold xq, N. fold D. rewrite inject_Z_mult, (pow2_inject 53) by lia.
    replace (ex - ey - 53)%Z with (ex + - ey + - (53))%Z by lia.
    rewrite !pow2_add, !pow2_opp.
    pose proof (pow2_pos ey). pose proof (pow2_pos 53).
    field. repeat split; lra. }
  assert (Hle : xq * pow2 (ex - ey - 53) <= 1).
  { rewrite Hval, Vx, Vy.
    assert (0 < inject_Z d) by (change 0 with (inject_Z 0); rewrite <- Zlt_Qlt; lia).
    apply Qle_shift_div_r; [assumption |]. rewrite Qmult_1_l, <- Zle_Qle. lia. }
  assert (Hdq : (53 <= Zpos (digits2_pos qp) <= 54)%Z).
  { split.
    - assert (52 < Zpos (digits2_pos qp))%Z; [| lia].
      apply digits2_pos_lower; [exact Hq | lia].
    - pose proof (digits2_pos_bounds qp) as [Dlo _].
      destruct (Z.le_gt_cases (Zpos (digits2_pos qp)) 54) as [? | Hgt]; [assumption |].
      assert (2 ^ 54 <= 2 ^ (Zpos (digits2_pos qp) - 1))%Z
        by (apply Z.pow_le_mono_r; lia). lia. }
  destruct (round_normal qp (ex - ey - 53) (new_location D (N mod D)) xq)
    as (m' & e' & m1 & Hround & Hdig & He' & Hm1 & Hx1 & X1lo & X1hi & Hcases).
  { apply new_location_located; [reflexivity | exact Hmod | exact Hxq]. }
  { lia. }
  { lia. }
  set (dq := Zpos (digits2_pos qp)) in *.
  set (e1 := (dq + (ex - ey - 53) - 53)%Z) in *.
  set (x1 := xq * pow2 (- (dq - 53))) in *.
  rewrite Hround. split; [exists m', e'; split; [reflexivity | split; [exact Hdig | lia]] |].
  rewrite toQ_pos. rewrite <- Hx1 in Hle.
  pose proof (pow2_pos e1) as P1.
  destruct Hcases as [-> | [-> Hgt]].
  - eapply Qle_trans; [| exact Hle].
    apply Qmult_le_compat_r; [exact X1lo | lra].
  - assert (He1 : (e1 <= 0)%Z).
    { assert (pow2 (51 + e1) < pow2 0).
      { apply (Qlt_le_trans _ (x1 * pow2 e1)); [| exact Hle].
        rewrite pow2_add. apply Qmult_lt_compat_r; [exact P1 |].
        eapply Qlt_le_trans; [| exact X1lo]. eapply Qlt_le_trans; [| rewrite Zle_Qle in Hm1; apply Hm1 ].
        reflexivity. }
      apply pow2_lt_inv in H. lia. }
    assert (E1 : pow2 e1 = pow2 (- - e1)) by (now rewrite Z.opp_involutive).
    rewrite E1. apply (grid_upper 1 m1 (- e1) x1); [lia | | exact Hgt].
    rewrite <- E1. exact Hle.
Qed.

(** [int64(x)] of a normal float between two integers lies between
    them. *)
Lemma to_int64_bracket (x : spec_float) (L U : Z) :
  pnormal x -> (1 <= L)%Z -> (U < 2 ^ 53)%Z ->
  inject_Z L <= toQ x -> toQ x <= inject_Z U ->
  (L <= F64.to_int64 x <= U)%Z.
Proof.
  intros (m & e & -> & Dm & Em) HL HU. rewrite toQ_pos. intros Hlo Hhi.
  pose proof (pnormal_exponent m e L U Dm HL HU Hlo Hhi) as He.
  assert (Ht : exists a, F64.trunc (S754_finite false m e) = Some a /\ (L <= a <= U)%Z).
  { destruct e as [| p | p]; [| lia |].
    - exists (Zpos m). split; [reflexivity |].
      change (pow2 0) with 1 in *. rewrite Qmult_1_r in *.
      rewrite <- Zle_Qle in *. lia.
    - exists (Zpos m / 2 ^ Zpos p)%Z. split; [reflexivity |].
      assert (P : (0 < 2 ^ Zpos p)%Z) by (apply Z.pow_pos_nonneg; lia).
      change (Zneg p) with (- Zpos p)%Z in *.
      pose proof (pow2_pos (Zpos p)) as Pp. pose proof (pow2_cancel (Zpos p)) as Hc.
      assert (A : inject_Z (L * 2 ^ Zpos p) <= inject_Z (Zpos m)).
      { rewrite inject_Z_mult, pow2_inject by lia.
        apply (Qmult_le_r _ _ (pow2 (Zpos p)) Pp) in Hlo.
        rewrite <- Qmult_assoc, Hc, Qmult_1_r in Hlo. exact Hlo. }
      assert (B : inject_Z (Zpos m) <= inject_Z (U * 2 ^ Zpos p)).
      { rewrite inject_Z_mult, pow2_inject by lia.
        apply (Qmult_le_r _ _ (pow2 (Zpos p)) Pp) in Hhi.
        rewrite <- Qmult_assoc, Hc, Qmult_1_r in Hhi. exact Hhi. }
      rewrite <- Zle_Qle in A, B. split.
      + apply Z.div_le_lower_bound; lia.
      + apply Z.div_le_upper_bound; lia. }
  destruct Ht as (a & Ha & Hbounds). unfold F64.to_int64. rewrite Ha.
  assert (U < 2 ^ 53)%Z by assumption.
  destruct (Z.leb_spec minInt64 a) as [_ | Hbad];
    [| unfold minInt64 in Hbad; lia].
  destruct (Z.leb_spec a maxInt64) as [_ | Hbad];
    [| unfold maxInt64 in Hbad; change (2 ^ 53)%Z with 9007199254740992%Z in *; lia].
  exact Hbounds.
Qed.

(** [float64(n)] is exact on the integers from 1 below [2^53]. *)
Lemma of_Z_exact (n : Z) :
  (1 <= n < 2 ^ 53)%Z -> pnormal (F64.of_Z n) /\ toQ (F64.of_Z n) == inject_Z n.
Proof.
  intros [Hlo Hhi]. unfold F64.of_Z, F64.prec, F64.emax.
  destruct (binary_normalize_bracket n 0 n n Hlo Hhi) as (Hn & Blo & Bhi).
  - change (pow2 0) with 1. rewrite Qmult_1_r. apply Qle_refl.
  - change (pow2 0) with 1. rewrite Qmult_1_r. apply Qle_refl.
  - split; [exact Hn | apply Qle_antisym; assumption].
Qed.

(** [<=] on positive normal floats is [<=] on their values. *)
Lemma leb_pnormal (x y : spec_float) :
  pnormal x -> pnormal y -> (SFleb x y = true <-> toQ x <= toQ y).
Proof.
  intros (mx & ex & -> & Dx & Ex) (my & ey & -> & Dy & Ey).
  rewrite !toQ_pos. unfold SFleb, SFcompare.
  destruct (Z.compare_spec ex ey) as [-> | Hlt | Hgt].
  - rewrite Pos.compare_cont_spec. cbn [Pos.switch_Eq].
    pose proof (pow2_pos ey) as Pe.
    rewrite Qmult_le_r by exact Pe. rewrite <- Zle_Qle.
    destruct (Pos.compare_spec mx my) as [-> | H | H]; split; intros; try lia;
      try discriminate; reflexivity.
  - split; [intros _ | reflexivity].
    apply Qlt_le_weak. now apply value_lt_of_exp_lt.
  - split; [discriminate |]. intros H.
    pose proof (value_lt_of_exp_lt my mx ey ex Dy Dx Hgt). lra.
Qed.

Lemma pnormal_tenth : pnormal (F64.of_ratio 1 10).
Proof. exists 7205759403792794%positive, (-56)%Z. repeat split; lia. Qed.

Lemma pnormal_nine_tenths : pnormal (F64.of_ratio 9 10).
Proof. exists 8106479329266893%positive, (-53)%Z. repeat split; lia. Qed.

Lemma toQ_tenth : toQ (F64.of_ratio 1 10) == 7205759403792794 # 72057594037927936.
Proof. reflexivity. Qed.

Lemma toQ_nine_tenths : toQ (F64.of_ratio 9 10) == 8106479329266893 # 9007199254740992.
Proof. reflexivity. Qed.

(** A ratio in range is a normal float between 0.1 and 1. *)
Lemma ratioInRange_spec (r : spec_float) :
  ratioInRange r = true -> pnormal r /\ 1 # 10 <= toQ r /\ toQ r <= 1.
Proof.
  unfold ratioInRange. intros H.
  apply andb_prop in H as [H Hone]. apply andb_prop in H as [Hvalid Htenth].
  assert (Hn : pnormal r).
  { destruct r as [s | s | | s m e]; try discriminate.
    - destruct s; discriminate.
    - destruct s; [discriminate |].
      exists m, e. split; [reflexivity |].
      cbn [valid_binary] in Hvalid. unfold bounded, canonical_mantissa in Hvalid.
      apply andb_prop in Hvalid as [Hcanon Hmax].
      apply Z.eqb_eq in Hcanon. apply Z.leb_le in Hmax.
      assert (He : (-56 <= e)%Z).
      { change (F64.of_ratio 1 10)
          with (S754_finite false 7205759403792794 (-56)) in Htenth.
        unfold SFleb, SFcompare in Htenth.
        destruct (Z.compare_spec (-56) e); try lia; discriminate. }
      unfold fexp, emin, F64.prec, F64.emax in Hcanon, Hmax.
      assert (Zpos (digits2_pos m) = 53%Z) by lia.
      split; [congruence | lia]. }
  split; [exact Hn |].
  destruct (of_Z_exact 1 ltac:(lia)) as [Hone_n Hone_v].
  apply (leb_pnormal _ _ pnormal_tenth Hn) in Htenth.
  apply (leb_pnormal _ _ Hn Hone_n) in Hone.
  rewrite toQ_tenth in Htenth. rewrite Hone_v in Hone.
  change (inject_Z 1) with 1 in Hone. split; lra.
Qed.

(** The ratio [commitTransactions] sends on a resubmit signal is a float
    between 0.1 and 1 whenever the gas pool is within the gas limit. *)
Lemma resubmit_ratio_in_range (limit gp : Z) :
  (0 < limit < 2 ^ 53)%Z -> (0 <= gp <= limit)%Z ->
  let r := F64.div (F64.of_Z (wrap64 (limit - gp))) (F64.of_Z limit) in
  ratioInRange (if F64.ltb r (F64.of_ratio 1 10) then F64.of_ratio 1 10 else r) = true.
Proof.
  intros Hlimit Hgp.
  assert (Hw : wrap64 (limit - gp) = (limit - gp)%Z).
  { unfold wrap64. apply Z.mod_small.
    change (2 ^ 53)%Z with 9007199254740992%Z in Hlimit.
    change (2 ^ 64)%Z with 18446744073709551616%Z. lia. }
  rewrite Hw. cbn zeta.
  destruct (of_Z_exact limit ltac:(lia)) as [Ln Lv].
  destruct (Z.eq_dec gp limit) as [-> | Hne].
  - rewrite Z.sub_diag.
    destruct Ln as (m & e & -> & _).
    reflexivity.
  - destruct (of_Z_exact (limit - gp) ltac:(lia)) as [Nn Nv].
    destruct (div_unit _ _ (limit - gp) limit Nn Ln Nv Lv ltac:(lia) ltac:(lia))
      as [Qn Qle1].
    unfold F64.div, F64.ltb, F64.prec, F64.emax.
    destruct (SFltb _ _) eqn:Hcmp; [reflexivity |].
    unfold ratioInRange, F64.prec, F64.emax.
    rewrite (pnormal_valid _ Qn). cbn [andb].
    apply andb_true_intro. split.
    + apply (leb_pnormal _ _ pnormal_tenth Qn). apply Qnot_lt_le. intros Hlt.
      apply (ltb_pnormal _ _ Qn pnormal_tenth) in Hlt.
      rewrite Hlt in Hcmp. discriminate.
    + destruct (of_Z_exact 1 ltac:(lia)) as [On Ov].
      apply (leb_pnormal _ _ Qn On). rewrite Ov. exact Qle1.
Qed.

(** An inequality between integers, read in the rationals. *)
Ltac zdiv := Z.to_euclidean_division_equations; lia.

Ltac inQ H :=
  rewrite Zle_Qle in H;
  rewrite ?inject_Z_plus, ?inject_Z_mult in H.

Lemma div10_Q (a : Z) :
  10 * inject_Z (a / 10) <= inject_Z a /\ inject_Z a <= 10 * inject_Z (a / 10) + 9.
Proof.
  assert (H : (10 * (a / 10) <= a <= 10 * (a / 10) + 9)%Z) by zdiv.
  destruct H as [H1 H2]. inQ H1. inQ H2.
  change (inject_Z 10) with 10 in *. change (inject_Z 9) with 9 in *. split; assumption.
Qed.

Lemma recalcRecommit_inc (minRecommit prev : Z) (r : spec_float) :
  (minRecommitInterval <= minRecommit)%Z ->
  (minRecommit <= prev <= maxRecommitInterval)%Z ->
  ratioInRange r = true ->
  let next := recalcRecommit minRecommit prev (F64.div (F64.of_Z prev) r) true in
  (prev <= next <= maxRecommitInterval)%Z /\
  exactIncrease prev (toQ r) - 3 <= inject_Z next /\
  inject_Z next <= exactIncrease prev (toQ r) + 3.
Proof.
  unfold exactIncrease, minRecommitInterval, maxRecommitInterval, second.
  intros Hmin [Hlo Hhi] Hr.
  destruct (ratioInRange_spec r Hr) as (Rn & Rlo & Rhi).
  assert (P53 : (2 ^ 53 = 9007199254740992)%Z) by reflexivity.
  destruct (of_Z_exact prev ltac:(lia)) as [Pn Pv].
  destruct (of_Z_exact 200000000 ltac:(lia)) as [Bn Bv].
  destruct (of_Z_exact (15 * 1000000000) ltac:(lia)) as [Mn Mv].
  assert (Pq : 1000000000 <= inject_Z prev).
  { change 1000000000 with (inject_Z 1000000000). rewrite <- Zle_Qle. lia. }
  assert (Pq' : inject_Z prev <= 15000000000).
  { change 15000000000 with (inject_Z 15000000000). rewrite <- Zle_Qle. lia. }
  assert (Rpos : 0 < toQ r) by lra.
  (* the exact target and the integers around it *)
  set (t := inject_Z prev / toQ r).
  assert (Tge : inject_Z prev <= t).
  { unfold t. apply Qle_shift_div_l; [exact Rpos |]. nra. }
  assert (Tle : t <= inject_Z (10 * prev)).
  { unfold t. rewrite inject_Z_mult. change (inject_Z 10) with 10.
    apply Qle_shift_div_r; [exact Rpos |]. nra. }
  set (tl := Qfloor t). set (tu := Qceiling t).
  pose proof (Qfloor_le t) as Fl. fold tl in Fl.
  pose proof (Qlt_floor t) as Fu. fold tl in Fu.
  rewrite inject_Z_plus in Fu. change (inject_Z 1) with 1 in Fu.
  pose proof (Qle_ceiling t) as Cu. fold tu in Cu.
  pose proof (Qceiling_lt t) as Cl. fold tu in Cl.
  assert (Htl : (prev <= tl)%Z).
  { unfold tl. rewrite <- (Qfloor_Z prev). now apply Qfloor_resp_le. }
  assert (Htu : (tu <= 10 * prev)%Z).
  { unfold tu. rewrite <- (Qceiling_Z (10 * prev)). now apply Qceiling_resp_le. }
  assert (Tl' : inject_Z tl <= inject_Z tu) by (eapply Qle_trans; eassumption).
  rewrite <- Zle_Qle in Tl'.
  unfold Z.sub in Cl. rewrite inject_Z_plus, inject_Z_opp in Cl.
  change (inject_Z 1) with 1 in Cl.
  (* target = prev / ratio *)
  destruct (div_bracket (F64.of_Z prev) r tl tu Pn Rn
              ltac:(lia) ltac:(lia)) as (Tn & Tlo & Thi).
  { rewrite Pv. exact Fl. }
  { rewrite Pv. exact Cu. }
  (* target + bias *)
  destruct (add_bracket (F64.div (F64.of_Z prev) r) (F64.of_Z 200000000)
              (tl + 200000000) (tu + 200000000) Tn Bn
              ltac:(lia) ltac:(lia)) as (B1n & B1lo & B1hi).
  { rewrite Bv, inject_Z_plus. unfold F64.div, F64.prec, F64.emax. lra. }
  { rewrite Bv, inject_Z_plus. unfold F64.div, F64.prec, F64.emax. lra. }
  rewrite inject_Z_plus in B1lo, B1hi.
  change (inject_Z 200000000) with 200000000 in B1lo, B1hi.
  (* 0.1 * (target + bias) *)
  destruct (div10_Q (tl + 200000000)) as [Dl1 Dl2].
  destruct (div10_Q (tu + 200000000)) as [Du1 Du2].
  rewrite inject_Z_plus in Dl1, Dl2, Du1, Du2.
  change (inject_Z 200000000) with 200000000 in Dl1, Dl2, Du1, Du2.
  assert (Tuq : inject_Z tu <= 150000000000).
  { change 150000000000 with (inject_Z 150000000000). rewrite <- Zle_Qle. lia. }
  assert (Tlq : 1000000000 <= inject_Z tl).
  { change 1000000000 with (inject_Z 1000000000). rewrite <- Zle_Qle. lia. }
  destruct (mul_bracket (F64.of_ratio 1 10)
              (SFadd 53 1024 (F64.div (F64.of_Z prev) r) (F64.of_Z 200000000))
              ((tl + 200000000) / 10) ((tu + 200000000) / 10 + 1)
              pnormal_tenth B1n ltac:(zdiv) ltac:(zdiv)) as (B2n & B2lo & B2hi).
  { rewrite toQ_tenth. lra. }
  { rewrite toQ_tenth, inject_Z_plus. change (inject_Z 1) with 1. lra. }
  rewrite inject_Z_plus in B2hi. change (inject_Z 1) with 1 in B2hi.
  (* prev * 0.9 *)
  destruct (div10_Q (9 * prev)) as [D91 D92].
  rewrite inject_Z_mult in D91, D92. change (inject_Z 9) with 9 in D91, D92.
  destruct (mul_bracket (F64.of_Z prev) (F64.of_ratio 9 10)
              (9 * prev / 10) (9 * prev / 10 + 1) Pn pnormal_nine_tenths
              ltac:(zdiv) ltac:(zdiv)) as (An & Alo & Ahi).
  { rewrite Pv, toQ_nine_tenths. lra. }
  { rewrite Pv, toQ_nine_tenths, inject_Z_plus. change (inject_Z 1) with 1. lra. }
  rewrite inject_Z_plus in Ahi. change (inject_Z 1) with 1 in Ahi.
  (* the sum *)
  destruct (add_bracket (SFmul 53 1024 (F64.of_Z prev) (F64.of_ratio 9 10))
              (SFmul 53 1024 (F64.of_ratio 1 10)
                 (SFadd 53 1024 (F64.div (F64.of_Z prev) r) (F64.of_Z 200000000)))
              (9 * prev / 10 + (tl + 200000000) / 10)
              (9 * prev / 10 + 1 + ((tu + 200000000) / 10 + 1)) An B2n
              ltac:(zdiv) ltac:(zdiv)) as (Nn & Nlo & Nhi).
  { rewrite !inject_Z_plus. lra. }
  { rewrite !inject_Z_plus. change (inject_Z 1) with 1. lra. }
  (* the clamp and the conversion *)
  cbn zeta.
  unfold recalcRecommit, intervalAdjustBias, intervalAdjustRatio,
    oneMinusIntervalAdjustRatio, maxRecommitInterval, second,
    F64.add, F64.mul, F64.ltb, F64.prec, F64.emax.
  set (N := SFadd 53 1024 (SFmul 53 1024 (F64.of_Z prev) (F64.of_ratio 9 10))
              (SFmul 53 1024 (F64.of_ratio 1 10)
                 (SFadd 53 1024 (F64.div (F64.of_Z prev) r) (F64.of_Z 200000000)))) in *.
  set (E := (9 # 10) * inject_Z prev + (1 # 10) * (t + inject_Z 200000000)).
  change (inject_Z 200000000) with 200000000 in E.
  change (inject_Z (15 * 1000000000)) with 15000000000 in *.
  rewrite !inject_Z_plus in Nlo. rewrite !inject_Z_plus in Nhi.
  change (inject_Z 1) with 1 in Nhi.
  set (a := inject_Z (9 * prev / 10)) in *.
  set (bl := inject_Z ((tl + 200000000) / 10)) in *.
  set (bu := inject_Z ((tu + 200000000) / 10)) in *.
  assert (Elo : E - 2 <= a + bl) by (unfold E; lra).
  assert (Ehi : a + 1 + (bu + 1) <= E + 3) by (unfold E; lra).
  destruct (SFltb (F64.of_Z (15 * 1000000000)) N) eqn:Hcmp.
  - pose proof (to_int64_bracket _ (15 * 1000000000) (15 * 1000000000) Mn
                  ltac:(lia) ltac:(lia)) as Hres.
    rewrite Mv in Hres. specialize (Hres (Qle_refl _) (Qle_refl _)).
    assert (Hres' : F64.to_int64 (F64.of_Z (15 * 1000000000)) = 15000000000%Z) by lia.
    rewrite Hres'. split; [lia |].
    apply (ltb_pnormal _ _ Mn Nn) in Hcmp. rewrite Mv in Hcmp.
    change (inject_Z 15000000000) with 15000000000.
    destruct (Q.min_spec 15000000000 E) as [[? ->] | [? ->]]; split; lra.
  - assert (Hle : toQ N <= inject_Z (15 * 1000000000)).
    { apply Qnot_lt_le. intros Hlt. rewrite <- Mv in Hlt.
      apply (ltb_pnormal _ _ Mn Nn) in Hlt. congruence. }
    pose proof (to_int64_bracket N (9 * prev / 10 + (tl + 200000000) / 10)
                  (15 * 1000000000) Nn ltac:(zdiv) ltac:(lia)) as Hres.
    rewrite !inject_Z_plus in Hres. specialize (Hres Nlo Hle).
    pose proof (to_int64_bracket N (9 * prev / 10 + (tl + 200000000) / 10)
                  (9 * prev / 10 + 1 + ((tu + 200000000) / 10 + 1)) Nn
                  ltac:(zdiv) ltac:(zdiv)) as Hres2.
    rewrite !inject_Z_plus in Hres2. specialize (Hres2 Nlo Nhi).
    split; [zdiv |].
    destruct Hres as [R1 R2]. destruct Hres2 as [_ R3].
    rewrite Zle_Qle in R1, R2, R3. rewrite !inject_Z_plus in R1.
    rewrite !inject_Z_plus in R3.
    change (inject_Z 1) with 1 in R3. fold a bl bu in R1, R3.
    change (inject_Z (15 * 1000000000)) with 15000000000 in R2.
    destruct (Q.min_spec 15000000000 E) as [[? ->] | [? ->]]; split; lra.
Qed.


Lemma recalcRecommit_dec (minRecommit prev : Z) :
  (minRecommitInterval <= minRecommit)%Z ->
  (minRecommit <= prev <= maxRecommitInterval)%Z ->
  let next := recalcRecommit minRecommit prev (F64.of_Z minRecommit) false in
  (minRecommit <= next <= prev)%Z /\
  exactDecrease minRecommit prev - 3 <= inject_Z next /\
  inject_Z next <= exactDecrease minRecommit prev + 3.
Proof.
  unfold exactDecrease, minRecommitInterval, maxRecommitInterval, second.
  intros Hmin [Hlo Hhi].
  assert (P53 : (2 ^ 53 = 9007199254740992)%Z) by reflexivity.
  destruct (of_Z_exact prev ltac:(lia)) as [Pn Pv].
  destruct (of_Z_exact minRecommit ltac:(lia)) as [Mn Mv].
  destruct (of_Z_exact 200000000 ltac:(lia)) as [Bn Bv].
  assert (Pq : inject_Z prev <= 15000000000).
  { change 15000000000 with (inject_Z 15000000000). rewrite <- Zle_Qle. lia. }
  assert (Mq : 1000000000 <= inject_Z minRecommit).
  { change 1000000000 with (inject_Z 1000000000). rewrite <- Zle_Qle. lia. }
  assert (MP : inject_Z minRecommit <= inject_Z prev) by (rewrite <- Zle_Qle; lia).
  (* target - bias *)
  set (s := (minRecommit - 200000000)%Z).
  assert (Hs : inject_Z s == inject_Z minRecommit - 200000000).
  { unfold s, Z.sub. rewrite inject_Z_plus, inject_Z_opp. reflexivity. }
  assert (Hs' : (s = minRecommit - 200000000)%Z) by reflexivity.
  clearbody s.
  destruct (sub_bracket (F64.of_Z minRecommit) (F64.of_Z 200000000)
              s s Mn Bn ltac:(lia) ltac:(lia)) as (Sn & Slo & Shi).
  { rewrite Mv, Bv, Hs. apply Qle_refl. }
  { rewrite Mv, Bv, Hs. apply Qle_refl. }
  destruct (div10_Q s) as [Ds1 Ds2].
  (* 0.1 * (target - bias) *)
  destruct (mul_bracket (F64.of_ratio 1 10)
              (SFsub 53 1024 (F64.of_Z minRecommit) (F64.of_Z 200000000))
              (s / 10) (s / 10 + 1)
              pnormal_tenth Sn ltac:(zdiv) ltac:(zdiv)) as (B2n & B2lo & B2hi).
  { rewrite toQ_tenth. lra. }
  { rewrite toQ_tenth, inject_Z_plus. change (inject_Z 1) with 1. lra. }
  rewrite inject_Z_plus in B2hi. change (inject_Z 1) with 1 in B2hi.
  (* prev * 0.9 *)
  destruct (div10_Q (9 * prev)) as [D91 D92].
  rewrite inject_Z_mult in D91, D92. change (inject_Z 9) with 9 in D91, D92.
  destruct (mul_bracket (F64.of_Z prev) (F64.of_ratio 9 10)
              (9 * prev / 10) (9 * prev / 10 + 1) Pn pnormal_nine_tenths
              ltac:(zdiv) ltac:(zdiv)) as (An & Alo & Ahi).
  { rewrite Pv, toQ_nine_tenths. lra. }
  { rewrite Pv, toQ_nine_tenths, inject_Z_plus. change (inject_Z 1) with 1. lra. }
  rewrite inject_Z_plus in Ahi. change (inject_Z 1) with 1 in Ahi.
  (* the sum *)
  destruct (add_bracket (SFmul 53 1024 (F64.of_Z prev) (F64.of_ratio 9 10))
              (SFmul 53 1024 (F64.of_ratio 1 10)
                 (SFsub 53 1024 (F64.of_Z minRecommit) (F64.of_Z 200000000)))
              (9 * prev / 10 + s / 10)
              (9 * prev / 10 + 1 + (s / 10 + 1)) An B2n
              ltac:(zdiv) ltac:(zdiv)) as (Nn & Nlo & Nhi).
  { rewrite !inject_Z_plus. lra. }
  { rewrite !inject_Z_plus. change (inject_Z 1) with 1. lra. }
  (* the clamp and the conversion *)
  cbn zeta.
  unfold recalcRecommit, intervalAdjustBias, intervalAdjustRatio,
    oneMinusIntervalAdjustRatio, F64.add, F64.sub, F64.mul, F64.ltb, F64.prec, F64.emax.
  set (N := SFadd 53 1024 (SFmul 53 1024 (F64.of_Z prev) (F64.of_ratio 9 10))
              (SFmul 53 1024 (F64.of_ratio 1 10)
                 (SFsub 53 1024 (F64.of_Z minRecommit) (F64.of_Z 200000000)))) in *.
  set (E := (9 # 10) * inject_Z prev
            + (1 # 10) * (inject_Z minRecommit - inject_Z 200000000)).
  assert (HE : E == (9 # 10) * inject_Z prev + (1 # 10) * inject_Z s).
  { unfold E. rewrite Hs. reflexivity. }
  rewrite !inject_Z_plus in Nlo. rewrite !inject_Z_plus in Nhi.
  change (inject_Z 1) with 1 in Nhi.
  set (a := inject_Z (9 * prev / 10)) in *.
  set (b := inject_Z (s / 10)) in *.
  assert (Elo : E - 2 <= a + b) by lra.
  assert (Ehi : a + 1 + (b + 1) <= E + 2) by lra.
  clearbody E.
  destruct (SFltb N (F64.of_Z minRecommit)) eqn:Hcmp.
  - pose proof (to_int64_bracket _ minRecommit minRecommit Mn
                  ltac:(lia) ltac:(lia)) as Hres.
    rewrite Mv in Hres. specialize (Hres (Qle_refl _) (Qle_refl _)).
    assert (Hres' : F64.to_int64 (F64.of_Z minRecommit) = minRecommit) by lia.
    rewrite Hres'. split; [lia |].
    apply (ltb_pnormal _ _ Nn Mn) in Hcmp. rewrite Mv in Hcmp.
    destruct (Q.max_spec (inject_Z minRecommit) E) as [[? ->] | [? ->]]; split; lra.
  - assert (Hge : inject_Z minRecommit <= toQ N).
    { apply Qnot_lt_le. intros Hlt. rewrite <- Mv in Hlt.
      apply (ltb_pnormal _ _ Nn Mn) in Hlt. congruence. }
    pose proof (to_int64_bracket N minRecommit
                  (9 * prev / 10 + 1 + (s / 10 + 1)) Nn
                  ltac:(lia) ltac:(zdiv)) as Hres.
    rewrite !inject_Z_plus in Hres. specialize (Hres Hge Nhi).
    pose proof (to_int64_bracket N (9 * prev / 10 + s / 10)
                  (9 * prev / 10 + 1 + (s / 10 + 1)) Nn
                  ltac:(zdiv) ltac:(zdiv)) as Hres2.
    rewrite !inject_Z_plus in Hres2. specialize (Hres2 Nlo Nhi).
    split; [zdiv |].
    destruct Hres as [R1 R2]. destruct Hres2 as [R3 _].
    rewrite Zle_Qle in R1, R2, R3. rewrite !inject_Z_plus in R2.
    rewrite !inject_Z_plus in R3.
    change (inject_Z 1) with 1 in R2. fold a b in R2, R3.
    destruct (Q.max_spec (inject_Z minRecommit) E) as [[? ->] | [? ->]]; split; lra.
Qed.

End F64Facts.

(** ** Construction: the initial recommit interval *)

(** C8 (as amended): [newWorker] only raises an interval that is too
    short: the resubmit loop starts with the larger of the configured
    interval and 1 s as both its floor and its interval, so an interval
    above 15 s is kept as it is. *)
Theorem newWorker_recommit_floor (config : Config) :
  newWorker_recommit config = Z.max minRecommitInterval (Recommit config) /\
  newWorkLoop_init (newWorker_recommit config) =
    {| wl_minRecommit := Z.max minRecommitInterval (Recommit config);
       wl_recommit := Z.max minRecommitInterval (Recommit config) |}.
Proof.
  assert (E : newWorker_recommit config = Z.max minRecommitInterval (Recommit config)).
  { unfold newWorker_recommit. destruct (Z.ltb_spec (Recommit config) minRecommitInterval); lia. }
  split; [exact E | unfold newWorkLoop_init; now rewrite E].
Qed.

(** C8, the claim as stated fails: a configured interval of 20 s is above
    15 s and the resubmit loop starts with 20 s, not with 15 s. *)
Lemma newWorker_recommit_above_max :
  let config := {| Etherbase := 1%N; GasFloor := 0; GasCeil := 0;
                   Recommit := 20 * second |} in
  maxRecommitInterval < Recommit config /\
  wl_recommit (newWorkLoop_init (newWorker_recommit config)) = 20 * second /\
  wl_recommit (newWorkLoop_init (newWorker_recommit config)) <> maxRecommitInterval.
Proof. vm_compute. repeat split; congruence. Qed.

(** ** Uncle admission *)

(** C3: on headers that have a parent hash for this context,
    [commitUncle] returns, and its error is decided by four tests in
    order: the uncle's hash is a key of [uncles], the uncle's parent is
    the header's parent, the uncle's parent is no ancestor, the uncle's
    hash is in the family.  An error leaves the environment as it was;
    without an error the uncle is inserted under its hash. *)
Theorem commitUncle_cases `{Chain} (env : environment) (uncle : Header) (hp up : Hash) :
  ParentHash (header env) !! QuaiNetworkContext = Some hp ->
  ParentHash uncle !! QuaiNetworkContext = Some up ->
  exists env' err,
    commitUncle env uncle = Done (env', err) /\
    let hash := HeaderHash uncle in
    (err = Some (ErrNew "uncle not unique") <-> is_Some (uncles env !! hash)) /\
    (err = Some (ErrNew "uncle is sibling") <->
       uncles env !! hash = None /\ hp = up) /\
    (err = Some (ErrNew "uncle's parent unknown") <->
       uncles env !! hash = None /\ hp <> up /\ up ∉ ancestors env) /\
    (err = Some (ErrNew "uncle already included") <->
       uncles env !! hash = None /\ hp <> up /\ up ∈ ancestors env /\
       hash ∈ family env) /\
    (err = None <->
       uncles env !! hash = None /\ hp <> up /\ up ∈ ancestors env /\
       hash ∉ family env) /\
    (err <> None -> env' = env) /\
    (err = None -> env' = set_uncles env (<[hash := uncle]> (uncles env))).
Proof.
  intros Hhp Hup. unfold commitUncle, index. rewrite Hhp, Hup. cbn.
  destruct (decide (is_Some (uncles env !! HeaderHash uncle))) as [Hin | Hin].
  - eexists _, _. split; [reflexivity |]. cbn.
    assert (uncles env !! HeaderHash uncle <> None) by (destruct Hin; congruence).
    repeat split; try congruence; try tauto; intros; intuition congruence.
  - assert (Hnone : uncles env !! HeaderHash uncle = None).
    { destruct (uncles env !! HeaderHash uncle); [exfalso; eauto | reflexivity]. }
    destruct (decide (hp = up)) as [Hsib | Hsib].
    + eexists _, _. split; [reflexivity |]. cbn.
      repeat split; try congruence; try tauto; intros; intuition congruence.
    + destruct (decide (up ∈ ancestors env)) as [Hanc | Hanc].
      * destruct (decide (HeaderHash uncle ∈ family env)) as [Hfam | Hfam].
        -- eexists _, _. split; [reflexivity |]. cbn.
           repeat split; try congruence; try tauto; intros; intuition congruence.
        -- eexists _, _. split; [reflexivity |]. cbn.
           repeat split; try congruence; try tauto; intros; intuition congruence.
      * eexists _, _. split; [reflexivity |]. cbn.
        repeat split; try congruence; try tauto; intros; intuition congruence.
Qed.

(** The side block with parent 6 and hash 61 is admitted into the small
    environment. *)
Lemma commitUncle_cases_witness :
  exists env' err,
    @commitUncle simpleChain (simpleEnv 100000) (simpleHeader 6%N 7 61 100000) = Done (env', err).
Proof.
  destruct (@commitUncle_cases simpleChain (simpleEnv 100000)
              (simpleHeader 6%N 7 61 100000) 7%N 6%N) as (env' & err & Hrun & _).
  - reflexivity.
  - reflexivity.
  - exists env', err. exact Hrun.
Defined.

(** ** The seal dispatcher *)

(** C7 (as amended): [taskLoop] handles every received task alike,
    whether or not its seal hash is the one of the task before: the stop
    channel in use, if any, is closed, a channel made for the task
    becomes the stop channel, [prev] becomes the seal hash and the task is
    put in the table of pending tasks under its seal hash.  A repeated
    seal hash only adds a log line. *)
Theorem taskLoop_task_always_dispatches `{Chain} (d : dispatcher) (t : task) :
  let sealHash := SealHash (b_header (t_block t)) in
  let d' := taskLoop_task d t in
  d_closed d' = match d_stopCh d with
                | Some ch => {[ ch ]} ∪ d_closed d
                | None => d_closed d
                end /\
  d_stopCh d' = Some (d_made d) /\
  d_made d' = S (d_made d) /\
  d_prev d' = sealHash /\
  d_pendingTasks d' = <[sealHash := t]> (d_pendingTasks d) /\
  d_logged d' =
    if decide (sealHash = d_prev d)
    then d_logged d ++ ["sealHash == prev, continuing with sending task to pending channel"]
    else d_logged d.
Proof.
  cbn. unfold taskLoop_task, taskLoop_interrupt.
  destruct (decide (SealHash (b_header (t_block t)) = d_prev d));
    destruct (d_stopCh d); cbn; repeat split; reflexivity.
Qed.

(** C7, the claim as stated fails: two tasks for the same header (the
    same seal hash) made at different times are received one after the
    other.  The second task is not skipped: the stop channel of the first
    is closed and the entry of the table is replaced. *)
Lemma taskLoop_duplicate_not_skipped :
  let blk := {| b_header := simpleHeader 7%N 8 80 100000; b_transactions := [];
                b_uncles := []; b_receiptCount := O |} in
  let t1 := {| t_receipts := []; t_state := simpleState ∅; t_block := blk;
               t_createdAt := 1000 |} in
  let t2 := {| t_receipts := []; t_state := simpleState ∅; t_block := blk;
               t_createdAt := 2000 |} in
  let d1 := @taskLoop_task simpleChain taskLoop_init t1 in
  let d2 := @taskLoop_task simpleChain d1 t2 in
  @SealHash simpleChain (b_header (t_block t2)) = d_prev d1 /\
  d_stopCh d1 = Some O /\ O ∈ d_closed d2 /\
  d_pendingTasks d1 !! d_prev d1 = Some t1 /\
  d_pendingTasks d2 !! d_prev d1 = Some t2 /\
  d_pendingTasks d2 <> d_pendingTasks d1.
Proof.
  cbn zeta.
  assert (E1 : d_pendingTasks (@taskLoop_task simpleChain taskLoop_init
            {| t_receipts := []; t_state := simpleState ∅;
               t_block := {| b_header := simpleHeader 7%N 8 80 100000;
                             b_transactions := []; b_uncles := []; b_receiptCount := O |};
               t_createdAt := 1000 |}) !! 80%N
          = Some {| t_receipts := []; t_state := simpleState ∅;
               t_block := {| b_header := simpleHeader 7%N 8 80 100000;
                             b_transactions := []; b_uncles := []; b_receiptCount := O |};
               t_createdAt := 1000 |}) by reflexivity.
  split; [reflexivity |]. split; [reflexivity |].
  split; [cbn; set_solver |]. split; [exact E1 |].
  split; [reflexivity |].
  intros Heq.
  assert (E2 : d_pendingTasks (@taskLoop_task simpleChain (@taskLoop_task simpleChain taskLoop_init
            {| t_receipts := []; t_state := simpleState ∅;
               t_block := {| b_header := simpleHeader 7%N 8 80 100000;
                             b_transactions := []; b_uncles := []; b_receiptCount := O |};
               t_createdAt := 1000 |})
            {| t_receipts := []; t_state := simpleState ∅;
               t_block := {| b_header := simpleHeader 7%N 8 80 100000;
                             b_transactions := []; b_uncles := []; b_receiptCount := O |};
               t_createdAt := 2000 |}) !! 80%N
          = Some {| t_receipts := []; t_state := simpleState ∅;
               t_block := {| b_header := simpleHeader 7%N 8 80 100000;
                             b_transactions := []; b_uncles := []; b_receiptCount := O |};
               t_createdAt := 2000 |}) by reflexivity.
  rewrite Heq, E1 in E2. discriminate E2.
Qed.

(** ** The snapshot before the first publication *)

(** C10: while the snapshot state is nil, [pending] returns a nil block
    and a nil state and copies nothing; on the worker as [newWorker]
    leaves it, [pendingBlock] returns the nil block and
    [pendingBlockAndReceipts] the nil block with the nil receipts. *)
Theorem pending_before_first_snapshot :
  (forall (w : Snapshot.worker) (h : Snapshot.store),
     Snapshot.snapshotState w = None ->
     Snapshot.pending w h = Done ((None, None), h)) /\
  (forall h : Snapshot.store,
     Snapshot.pending Snapshot.newWorker h = Done ((None, None), h)) /\
  Snapshot.pendingBlock Snapshot.newWorker = None /\
  Snapshot.pendingBlockAndReceipts Snapshot.newWorker = (None, []).
Proof.
  repeat split.
  intros w h Hnil. unfold Snapshot.pending. now rewrite Hnil.
Qed.

(** A worker whose snapshot block is set while the state is nil: [pending]
    still answers with two nil values. *)
Lemma pending_before_first_snapshot_witness :
  let w := {| Snapshot.snapshotBlock :=
                Some {| b_header := simpleHeader 7%N 8 80 100000; b_transactions := [];
                        b_uncles := []; b_receiptCount := O |};
              Snapshot.snapshotReceipts := []; Snapshot.snapshotState := None |} in
  let h := {| Snapshot.states := ∅; Snapshot.rcpts := ∅;
              Snapshot.arrays := ∅; Snapshot.logs := ∅ |} in
  Snapshot.snapshotState w = None /\ Snapshot.pending w h = Done ((None, None), h).
Proof.
  cbn zeta. split; [reflexivity |].
  apply (proj1 pending_before_first_snapshot). reflexivity.
Defined.

(** ** One transaction *)

Section CommitTransaction.
Context `{Chain}.

(** What [commitTransaction] leaves untouched, whatever the outcome. *)
Lemma commitTransaction_frame (env env' : environment) (tx : option Transaction)
    (logs : list Log) (err : option error) :
  commitTransaction env tx = Done (env', (logs, err)) ->
  tcount env' = tcount env /\ uncles env' = uncles env /\
  ancestors env' = ancestors env /\ family env' = family env /\
  (is_Some (gasPool env') <-> is_Some (gasPool env)).
Proof.
  unfold commitTransaction. destruct tx as [tx |]; cbn.
  - destruct (index (GasUsed (header env)) QuaiNetworkContext) as [used | |]; cbn;
      try discriminate.
    destruct (ap_result _) as [receipt | e]; cbn.
    + intros [= <- _ _]. cbn. repeat split; try reflexivity;
        destruct (gasPool env); cbn; intros [? ?]; eauto; discriminate.
    + unfold RevertToSnapshot. cbn. rewrite Nat.eqb_refl. cbn. intros [= <- _ _]. cbn.
      repeat split; try reflexivity;
        destruct (gasPool env); cbn; intros [? ?]; eauto; discriminate.
  - intros [= <- _ _]. repeat split; tauto.
Qed.

(** The accepted transactions and receipts grow together, by the
    transaction and its receipt, exactly when no error is returned. *)
Lemma commitTransaction_appends (env env' : environment) (tx : option Transaction)
    (logs : list Log) (err : option error) :
  commitTransaction env tx = Done (env', (logs, err)) ->
  (err = None /\ exists t receipt,
      tx = Some t /\ txs env' = txs env ++ [t] /\
      receipts env' = receipts env ++ [receipt] /\ logs = rc_logs receipt) \/
  (err <> None /\ txs env' = txs env /\ receipts env' = receipts env /\ logs = []).
Proof.
  unfold commitTransaction. destruct tx as [tx |]; cbn.
  - destruct (index (GasUsed (header env)) QuaiNetworkContext) as [used | |]; cbn;
      try discriminate.
    destruct (ap_result _) as [receipt | e]; cbn.
    + intros [= <- <- <-]. left. split; [reflexivity |].
      exists tx, receipt. cbn. repeat split; reflexivity.
    + unfold RevertToSnapshot. cbn. rewrite Nat.eqb_refl. cbn. intros [= <- <- <-]. right. cbn.
      repeat split; congruence.
  - intros [= <- <- <-]. right. repeat split; congruence.
Qed.

(** C6: [commitTransaction] on a header that has a used-gas slot for
    this context.  When the state transition returns an error, the call
    returns that error with no logs, the content of the state and the
    revisions of the state are those from before the call, and the
    accepted transactions, receipts and count are unchanged.  When the
    transition succeeds, the call returns the logs of the receipt, and
    the transaction and the receipt are appended. *)
Theorem commitTransaction_atomic (env : environment) (tx : Transaction) (used : Z) :
  GasUsed (header env) !! QuaiNetworkContext = Some used ->
  let r := ApplyTransaction (coinbase env) (gasPool env) (sdb_accounts (state env))
             (header env) tx used in
  exists env',
    match ap_result r with
    | inr err =>
        commitTransaction env (Some tx) = Done (env', ([], Some err)) /\
        sdb_accounts (state env') = sdb_accounts (state env) /\
        sdb_validRevisions (state env') = sdb_validRevisions (state env) /\
        txs env' = txs env /\ receipts env' = receipts env /\
        tcount env' = tcount env
    | inl receipt =>
        commitTransaction env (Some tx) = Done (env', (rc_logs receipt, None)) /\
        sdb_accounts (state env') = ap_accounts r /\
        txs env' = txs env ++ [tx] /\ receipts env' = receipts env ++ [receipt] /\
        tcount env' = tcount env
    end.
Proof.
  intros Hused r. unfold commitTransaction, index. cbn. rewrite Hused. cbn.
  fold r. destruct (ap_result r) as [receipt | err]; cbn.
  - eexists. split; [reflexivity |]. cbn. repeat split; reflexivity.
  - unfold RevertToSnapshot. cbn. rewrite Nat.eqb_refl. cbn. eexists. split; [reflexivity |]. cbn.
    repeat split; reflexivity.
Qed.

End CommitTransaction.

(** On the small chain: a transaction with nonce 5 from the account whose
    nonce is 6 fails, and the environment keeps its state, transactions
    and receipts. *)
Lemma commitTransaction_atomic_witness :
  let env := set_gasPool (simpleEnv 100000) (Some 100000) in
  exists env',
    @commitTransaction simpleChain env (Some (simpleTx 105%N 10%N 5 21000 3)) =
      Done (env', ([], Some (ErrWrap "address and nonce of the transaction" ErrNonceTooLow))) /\
    sdb_accounts (state env') = sdb_accounts (state env) /\
    sdb_validRevisions (state env') = sdb_validRevisions (state env) /\
    txs env' = txs env /\ receipts env' = receipts env /\ tcount env' = tcount env.
Proof.
  cbn zeta.
  exact (@commitTransaction_atomic simpleChain (set_gasPool (simpleEnv 100000) (Some 100000))
           (simpleTx 105%N 10%N 5 21000 3) 0 eq_refl).
Defined.

(** ** The switch on the error *)

Lemma errors_Is_chain_plain (e t : error) :
  plain e -> errors_Is_chain e t = true -> e = t.
Proof.
  destruct e; cbn; try tauto; intros _; case_decide; congruence.
Qed.

(** A chain of wrapped errors ends in one plain error, so it matches at
    most one plain target. *)
Lemma errors_Is_chain_unique (e t1 t2 : error) :
  plain t1 -> plain t2 ->
  errors_Is_chain e t1 = true -> errors_Is_chain e t2 = true -> t1 = t2.
Proof.
  intros P1 P2. induction e as [| | | | msg | msg inner IH].
  1-5: intros E1 E2; apply errors_Is_chain_plain in E1, E2; cbn; try tauto; congruence.
  cbn. destruct (decide (ErrWrap msg inner = t1)) as [<- | _]; [destruct P1 |].
  destruct (decide (ErrWrap msg inner = t2)) as [<- | _]; [destruct P2 |].
  exact IH.
Qed.

Lemma switchOnError_cases (err : option error) :
  (errors_Is err (Some ErrGasLimitReached) = true -> switchOnError err = (OpPop, false)) /\
  (errors_Is err (Some ErrNonceTooLow) = true -> switchOnError err = (OpShift, false)) /\
  (errors_Is err (Some ErrNonceTooHigh) = true -> switchOnError err = (OpPop, false)) /\
  (errors_Is err (Some ErrTxTypeNotSupported) = true -> switchOnError err = (OpPop, false)) /\
  (err = None -> switchOnError err = (OpShift, true)) /\
  (err <> None ->
   errors_Is err (Some ErrGasLimitReached) = false ->
   errors_Is err (Some ErrNonceTooLow) = false ->
   errors_Is err (Some ErrNonceTooHigh) = false ->
   errors_Is err (Some ErrTxTypeNotSupported) = false ->
   switchOnError err = (OpShift, false)).
Proof.
  destruct err as [e |]; cbn.
  2: { unfold switchOnError; cbn. repeat split; congruence. }
  assert (U : forall t1 t2, plain t1 -> plain t2 -> t1 <> t2 ->
                errors_Is_chain e t1 = true -> errors_Is_chain e t2 = false).
  { intros t1 t2 P1 P2 Hne E1. destruct (errors_Is_chain e t2) eqn:E2; [| reflexivity].
    destruct Hne. now apply (errors_Is_chain_unique e). }
  unfold switchOnError; cbn. repeat split.
  - intros ->. reflexivity.
  - intros E. rewrite (U ErrNonceTooLow ErrGasLimitReached), E; cbn; auto; congruence.
  - intros E. rewrite (U ErrNonceTooHigh ErrGasLimitReached),
      (U ErrNonceTooHigh ErrNonceTooLow), E; cbn; auto; congruence.
  - intros E. rewrite (U ErrTxTypeNotSupported ErrGasLimitReached),
      (U ErrTxTypeNotSupported ErrNonceTooLow),
      (U ErrTxTypeNotSupported ErrNonceTooHigh), E; cbn; auto; congruence.
  - congruence.
  - intros _ -> -> -> ->. reflexivity.
Qed.

(** The case of a committed transaction is the case of the nil error. *)
Lemma switchOnError_committed (err : option error) :
  snd (switchOnError err) = true <-> err = None.
Proof.
  unfold switchOnError. destruct err as [e |]; cbn.
  - repeat (match goal with |- context [if ?b then _ else _] => destruct b end);
      cbn; split; congruence.
  - tauto.
Qed.

Section CommitLoop.
Context `{Chain}.

(** C4: an iteration that has gas for a transaction, finds [tx] at the
    head of the set and does not skip it for replay protection executes
    [tx] and goes on to the next iteration; what it does to the set is
    decided by the error of [commitTransaction]: gas limit reached,
    nonce too high and unsupported type pop; nonce too low and every
    other error shift; no error shifts, appends the logs and adds one to
    [tcount].  [tcount] is as before in every case with an error. *)
Theorem commitBody_switch (s : loopState) (gp : Z) (tx : Transaction)
    (env' : environment) (logs : list Log) (err : option error) :
  gasPool (ls_env s) = Some gp ->
  TxGas <= gp ->
  Peek (ls_txs s) = Some tx ->
  (tx_protected tx = true ->
   exists number, Number (header (ls_env s)) !! QuaiNetworkContext = Some number /\
                  IsEIP155 number = true) ->
  commitTransaction
    (set_state (ls_env s) (Prepare (state (ls_env s)) (tx_hash tx) (tcount (ls_env s))))
    (Some tx) = Done (env', (logs, err)) ->
  exists s',
    commitBody s = Done (Next s') /\
    (errors_Is err (Some ErrGasLimitReached) = true ->
       ls_txs s' = Pop (ls_txs s) /\ ls_env s' = env' /\ ls_logs s' = ls_logs s) /\
    (errors_Is err (Some ErrNonceTooLow) = true ->
       ls_txs s' = Shift (ls_txs s) /\ ls_env s' = env' /\ ls_logs s' = ls_logs s) /\
    (errors_Is err (Some ErrNonceTooHigh) = true ->
       ls_txs s' = Pop (ls_txs s) /\ ls_env s' = env' /\ ls_logs s' = ls_logs s) /\
    (errors_Is err (Some ErrTxTypeNotSupported) = true ->
       ls_txs s' = Pop (ls_txs s) /\ ls_env s' = env' /\ ls_logs s' = ls_logs s) /\
    (err = None ->
       ls_txs s' = Shift (ls_txs s) /\
       ls_env s' = set_tcount env' (tcount (ls_env s) + 1) /\
       ls_logs s' = ls_logs s ++ logs) /\
    (err <> None ->
     errors_Is err (Some ErrGasLimitReached) = false ->
     errors_Is err (Some ErrNonceTooLow) = false ->
     errors_Is err (Some ErrNonceTooHigh) = false ->
     errors_Is err (Some ErrTxTypeNotSupported) = false ->
       ls_txs s' = Shift (ls_txs s) /\ ls_env s' = env' /\ ls_logs s' = ls_logs s) /\
    (err <> None -> tcount (ls_env s') = tcount (ls_env s)).
Proof.
  intros Hgp Hgas Hpeek Hprot Hrun.
  destruct (commitTransaction_frame _ _ _ _ _ Hrun) as (Htc & _). cbn in Htc.
  assert (Hbody : commitBody s =
            Done (Next {| ls_env := if snd (switchOnError err)
                                    then set_tcount env' (tcount env' + 1) else env';
                          ls_txs := applyOp (fst (switchOnError err)) (ls_txs s);
                          ls_logs := if snd (switchOnError err)
                                     then ls_logs s ++ logs else ls_logs s;
                          ls_loads := ls_loads s |})).
  { unfold commitBody, deref. rewrite Hgp. cbn -[commitTransaction set_state Prepare].
    destruct (Z.ltb_spec gp TxGas); [lia |]. rewrite Hpeek.
    destruct (tx_protected tx) eqn:Eprot.
    - destruct (Hprot eq_refl) as (number & Hnum & Heip).
      unfold index. rewrite Hnum. cbn -[commitTransaction set_state Prepare].
      rewrite Heip. cbn -[commitTransaction set_state Prepare].
      rewrite Hrun. cbn. now destruct (switchOnError err).
    - cbn -[commitTransaction set_state Prepare]. rewrite Hrun. cbn.
      now destruct (switchOnError err). }
  eexists. split; [exact Hbody |]. cbn.
  destruct (switchOnError_cases err) as (C1 & C2 & C3 & C4 & C5 & C6).
  refine (conj _ (conj _ (conj _ (conj _ (conj _ (conj _ _)))))).
  - intros E. rewrite (C1 E). auto.
  - intros E. rewrite (C2 E). auto.
  - intros E. rewrite (C3 E). auto.
  - intros E. rewrite (C4 E). auto.
  - intros E. rewrite (C5 E). cbn. rewrite Htc. auto.
  - intros E E1 E2 E3 E4. rewrite (C6 E E1 E2 E3 E4). auto.
  - intros E. destruct (snd (switchOnError err)) eqn:Ec.
    + apply switchOnError_committed in Ec. contradiction.
    + exact Htc.
Qed.

End CommitLoop.

(** On the small chain: the first rung of the nonce ladder has nonce 5
    where the account is at 6; the error wraps [ErrNonceTooLow] and the
    set is shifted. *)
Lemma commitBody_switch_witness :
  let s := loopEntry (set_gasPool (simpleEnv 100000) (Some 100000)) ladder in
  exists s', @commitBody simpleChain s = Done (Next s') /\
             ls_txs s' = Shift (ls_txs s) /\ ls_logs s' = ls_logs s.
Proof.
  cbn zeta.
  destruct (@commitBody_switch simpleChain
              (loopEntry (set_gasPool (simpleEnv 100000) (Some 100000)) ladder)
              100000 (simpleTx 105%N 10%N 5 21000 3) _ _ _
              eq_refl ltac:(vm_compute; congruence) eq_refl
              ltac:(intros _; exists 8; split; reflexivity) eq_refl)
    as (s' & Hbody & _ & Hlow & _).
  exists s'. split; [exact Hbody |].
  destruct (Hlow eq_refl) as (Ht & _ & Hl). split; assumption.
Defined.

(** ** The loop of [commitTransactions] *)

Lemma remaining_insertByTip (e : Transaction * list Transaction)
    (t : TransactionsByPriceAndNonce) :
  remaining (insertByTip e t) = S (length (snd e) + remaining t).
Proof.
  induction t as [| [h hs] rest IH]; destruct e as [tx more]; cbn in *.
  - lia.
  - destruct (tx_tip h <? tx_tip tx); cbn; [lia |]. rewrite IH. cbn. lia.
Qed.

(** [Pop] and [Shift] take at least one transaction out of a set that
    has a head. *)
Lemma remaining_applyOp (op : txsOp) (t : TransactionsByPriceAndNonce) (tx : Transaction) :
  Peek t = Some tx -> (remaining (applyOp op t) < remaining t)%nat.
Proof.
  destruct t as [| [h hs] rest]; [discriminate |]. intros _.
  destruct op; cbn; [lia |].
  destruct hs as [| next more]; cbn; [lia |].
  rewrite remaining_insertByTip. cbn. lia.
Qed.

(** A sequence of two steps returns only if both do. *)
Lemma bind_Done {A B : Type} (m : exec A) (f : A -> exec B) (b : B) :
  m ≫= f = Done b -> exists a, m = Done a /\ f a = Done b.
Proof. destruct m as [a | |]; cbn; [eauto | discriminate | discriminate]. Qed.

Section CommitTransactions.
Context `{Chain}.

(** One pass through the body either stops the loop where it stands, or
    goes on with fewer transactions in the set and, in the environment,
    either the same accepted transactions, receipts and count, or one
    transaction and one receipt more and the count raised by one. *)
Lemma commitBody_effect (s : loopState) (it : iteration) :
  commitBody s = Done it ->
  match it with
  | Break s' => s' = s
  | Return _ _ _ => False
  | Next s' =>
      ls_loads s' = ls_loads s /\
      (remaining (ls_txs s') < remaining (ls_txs s))%nat /\
      ((txs (ls_env s') = txs (ls_env s) /\
        receipts (ls_env s') = receipts (ls_env s) /\
        tcount (ls_env s') = tcount (ls_env s)) \/
       (exists t r,
          txs (ls_env s') = txs (ls_env s) ++ [t] /\
          receipts (ls_env s') = receipts (ls_env s) ++ [r] /\
          tcount (ls_env s') = tcount (ls_env s) + 1))
  end.
Proof.
  unfold commitBody.
  destruct (deref (gasPool (ls_env s))) as [gp | |]; cbn -[commitTransaction];
    try discriminate.
  destruct (gp <? TxGas); [intros [= <-]; reflexivity |].
  destruct (Peek (ls_txs s)) as [tx |] eqn:Hpeek; [| intros [= <-]; reflexivity].
  match goal with
  | |- context [mbind _ ?m] => destruct m as [skip | |] eqn:Hskip
  end; cbn -[commitTransaction]; try discriminate.
  destruct skip.
  - intros [= <-]. cbn. split; [reflexivity |].
    split; [apply (remaining_applyOp OpPop _ tx Hpeek) |]. left. auto.
  - destruct (commitTransaction _ _) as [[env' [logs err]] | |] eqn:Hrun;
      cbn; try discriminate.
    destruct (switchOnError err) as [op committed] eqn:Hsw.
    intros [= <-]. cbn. split; [reflexivity |].
    split; [apply (remaining_applyOp op _ tx Hpeek) |].
    destruct (commitTransaction_frame _ _ _ _ _ Hrun) as (Htc & _).
    destruct (commitTransaction_appends _ _ _ _ _ Hrun)
      as [(Herr & t & r & _ & Ht & Hr & _) | (Herr & Ht & Hr & _)];
      cbn in Htc, Ht, Hr.
    + assert (committed = true) as ->.
      { change committed with (snd (op, committed)). rewrite <- Hsw.
        now apply switchOnError_committed. }
      right. exists t, r. cbn. rewrite Htc. auto.
    + assert (committed = false) as ->.
      { destruct committed; [| reflexivity]. destruct Herr.
        apply switchOnError_committed. now rewrite Hsw. }
      left. auto.
Qed.

(** An iteration goes on to the next one only past the interrupt check,
    after one load that found no signal. *)
Lemma commitIteration_Next (interrupt : option (nat -> Z)) (gasLimit : list Z)
    (s s' : loopState) :
  commitIteration interrupt gasLimit s = Done (Next s') ->
  match interrupt with
  | None => commitBody s = Done (Next s')
  | Some cell =>
      cell (ls_loads s) = commitInterruptNone /\
      ls_loads s' = S (ls_loads s) /\
      commitBody {| ls_env := ls_env s; ls_txs := ls_txs s; ls_logs := ls_logs s;
                    ls_loads := S (ls_loads s) |} = Done (Next s')
  end.
Proof.
  unfold commitIteration. destruct interrupt as [cell |]; [| tauto].
  destruct (Z.eqb_spec (cell (ls_loads s)) commitInterruptNone) as [E | E]; cbn.
  - intros Hbody. split; [exact E |]. split; [| exact Hbody].
    apply commitBody_effect in Hbody. cbn in Hbody. tauto.
  - match goal with
    | |- context [mbind _ ?m] => destruct m
    end; cbn; discriminate.
Qed.

Lemma commitIteration_effect (interrupt : option (nat -> Z)) (gasLimit : list Z)
    (s : loopState) (it : iteration) :
  commitIteration interrupt gasLimit s = Done it ->
  match it with
  | Break s' | Return s' _ _ =>
      ls_env s' = ls_env s /\ ls_txs s' = ls_txs s /\ ls_logs s' = ls_logs s
  | Next s' =>
      (remaining (ls_txs s') < remaining (ls_txs s))%nat /\
      ((txs (ls_env s') = txs (ls_env s) /\
        receipts (ls_env s') = receipts (ls_env s) /\
        tcount (ls_env s') = tcount (ls_env s)) \/
       (exists t r,
          txs (ls_env s') = txs (ls_env s) ++ [t] /\
          receipts (ls_env s') = receipts (ls_env s) ++ [r] /\
          tcount (ls_env s') = tcount (ls_env s) + 1))
  end.
Proof.
  unfold commitIteration. destruct interrupt as [cell |].
  - destruct (negb (cell (ls_loads s) =? commitInterruptNone)).
    + match goal with
      | |- context [mbind _ ?m] => destruct m
      end; cbn; try discriminate. intros [= <-]. cbn. auto.
    + intros Hbody. apply commitBody_effect in Hbody.
      destruct it as [s' | s' | s' sent ret]; cbn in *; [tauto | | tauto].
      subst s'. cbn. auto.
  - intros Hbody. apply commitBody_effect in Hbody.
    destruct it as [s' | s' | s' sent ret]; cbn in *; [tauto | | tauto].
    subst s'. auto.
Qed.

Lemma countsAgree_step (env env' : environment) :
  countsAgree env ->
  (txs env' = txs env /\ receipts env' = receipts env /\ tcount env' = tcount env) \/
  (exists t r, txs env' = txs env ++ [t] /\ receipts env' = receipts env ++ [r] /\
               tcount env' = tcount env + 1) ->
  countsAgree env'.
Proof.
  unfold countsAgree. intros [Ht Hr] [(-> & -> & ->) | (t & r & -> & -> & ->)].
  - auto.
  - rewrite !length_app. cbn. lia.
Qed.

Lemma commitLoop_counts (fuel : nat) (interrupt : option (nat -> Z)) (gasLimit : list Z)
    (s s' : loopState) (out : option (list intervalAdjust * bool)) :
  commitLoop fuel interrupt gasLimit s = Done (s', out) ->
  countsAgree (ls_env s) -> countsAgree (ls_env s').
Proof.
  revert s. induction fuel as [| fuel IH]; intros s; cbn; [discriminate |].
  destruct (commitIteration interrupt gasLimit s) as [it | |] eqn:Hit; cbn;
    try discriminate.
  apply commitIteration_effect in Hit.
  destruct it as [s1 | s1 | s1 sent ret].
  - intros Hloop Hc. apply (IH _ Hloop).
    apply (countsAgree_step (ls_env s)); tauto.
  - intros [= <- _] Hc. destruct Hit as (-> & _). exact Hc.
  - intros [= <- _] Hc. destruct Hit as (-> & _). exact Hc.
Qed.

Lemma initGasPool_counts (env env' : environment) :
  initGasPool env = Done env' -> countsAgree env -> countsAgree env'.
Proof.
  unfold initGasPool. destruct (gasPool env).
  - intros [= <-]. auto.
  - intros Hinit. apply bind_Done in Hinit as (limit & _ & [= <-]). auto.
Qed.

Lemma commitTransactions_counts (running : bool) (env : environment)
    (txs : TransactionsByPriceAndNonce) (interrupt : option (nat -> Z)) (c : committed) :
  commitTransactions running env txs interrupt = Done c ->
  countsAgree env -> countsAgree (cm_env c).
Proof.
  unfold commitTransactions. intros Hrun Hc.
  apply bind_Done in Hrun as (env0 & Hinit & Hrun).
  apply bind_Done in Hrun as ([s out] & Hloop & Hrun).
  apply (initGasPool_counts _ _ Hinit) in Hc.
  apply commitLoop_counts in Hloop; [| assumption].
  destruct out as [[sent ret] |]; injection Hrun as <-; exact Hloop.
Qed.

(** C2: in every environment made by [makeEnv] and then passed through
    [commitUncle], [commitTransactions] and [copy] in any order, and in
    the environment at every turn of the loop of [commitTransactions],
    the accepted transactions and the accepted receipts are as many as
    [tcount] says.  [commitTransaction] appends the transaction and its
    receipt together, exactly when it returns no error; a pass through
    the loop body leaves transactions, receipts and count as they are or
    adds one transaction, one receipt and one to the count. *)
Theorem environment_counts (env : environment) :
  reachable env ->
  countsAgree env /\
  (forall (tx : Transaction) (env' : environment) (logs : list Log) (err : option error),
     commitTransaction env (Some tx) = Done (env', (logs, err)) ->
     (err = None /\ exists r, txs env' = txs env ++ [tx] /\
                              receipts env' = receipts env ++ [r]) \/
     (err <> None /\ txs env' = txs env /\ receipts env' = receipts env)) /\
  (forall s s' : loopState,
     ls_env s = env ->
     commitBody s = Done (Next s') ->
     (txs (ls_env s') = txs env /\ receipts (ls_env s') = receipts env /\
      tcount (ls_env s') = tcount env) \/
     (exists t r,
        txs (ls_env s') = txs env ++ [t] /\
        receipts (ls_env s') = receipts env ++ [r] /\
        tcount (ls_env s') = tcount env + 1)).
Proof.
  intros Hreach. split; [| split].
  - induction Hreach as [stateAt recovered recent hdr cb env Hmake
                        | env uncle env' err _ IH Hrun
                        | running env txs interrupt c _ IH Hrun
                        | env env' _ IH Hinit
                        | s s' _ IH Hbody
                        | env _ IH].
    + unfold makeEnv in Hmake.
      destruct (match stateAt with inl s => _ | inr _ => _ end); [| discriminate].
      destruct (index (Number hdr) QuaiNetworkContext); cbn in Hmake; try discriminate.
      destruct (fold_left _ recent _) as [anc fam].
      injection Hmake as <-. split; reflexivity.
    + assert (txs env' = txs env /\ receipts env' = receipts env /\
              tcount env' = tcount env) as (Ht & Hr & Hc).
      { unfold commitUncle in Hrun.
        repeat (first [ case_decide
                      | match type of Hrun with
                        | context [mbind _ ?m] => destruct m; cbn in Hrun
                        end ]; try discriminate);
          injection Hrun as <- _; auto. }
      unfold countsAgree. rewrite Ht, Hr, Hc. exact IH.
    + exact (commitTransactions_counts _ _ _ _ _ Hrun IH).
    + exact (initGasPool_counts _ _ Hinit IH).
    + apply commitBody_effect in Hbody.
      apply (countsAgree_step (ls_env s)); tauto.
    + destruct IH as [Ht Hr]. unfold countsAgree, environment_copy, copyReceipts. cbn.
      rewrite length_map, firstn_all. auto.
  - intros tx env' logs err Hrun.
    destruct (commitTransaction_appends _ _ _ _ _ Hrun)
      as [(Herr & t & r & [= <-] & Ht & Hr & _) | (Herr & Ht & Hr & _)]; eauto.
  - intros s s' <- Hbody. apply commitBody_effect in Hbody. tauto.
Qed.

End CommitTransactions.

(** The small environment is the one [makeEnv] builds. *)
Lemma simpleEnv_made (limit : Z) :
  @makeEnv simpleChain
     (inl (simpleState {[ 10%N := {| acc_nonce := 6; acc_balance := 0 |} ]}))
     (inr (ErrNew "missing trie node")) simpleRecent (simpleHeader 7%N 8 80 limit) 1%N
  = Done (inl (simpleEnv limit)).
Proof.
  unfold makeEnv, simpleEnv. cbn. reflexivity.
Qed.

(** On the small chain: the environment after the nonce ladder was run
    holds two transactions, two receipts and the count 2. *)
Lemma environment_counts_witness :
  exists c,
    @commitTransactions simpleChain false (simpleEnv 100000) ladder None = Done c /\
    countsAgree (cm_env c) /\ tcount (cm_env c) = 2.
Proof.
  eexists. split; [vm_compute; reflexivity |]. split; [| reflexivity].
  apply (@environment_counts simpleChain).
  eapply (@reachable_commitTransactions simpleChain false (simpleEnv 100000) ladder None).
  - eapply reachable_makeEnv. apply (simpleEnv_made 100000).
  - vm_compute. reflexivity.
Defined.

(** ** Interrupts and feedback *)

(** While [newWorkLoop] runs, the variable [interrupt] is nil with no cell
    made, or names the newest cell, which holds no signal. *)
Lemma newWorkLoop_commits_newest (signals : list Z) :
  let st := newWorkLoop_commits signals in
  match in_interrupt st with
  | None => in_cells st = []
  | Some i => S i = length (in_cells st) /\ in_cells st !! i = Some 0
  end.
Proof.
  induction signals as [| s signals IH] using rev_ind; [reflexivity |].
  unfold newWorkLoop_commits in *. rewrite fold_left_app. cbn [fold_left].
  set (st := fold_left newWorkLoop_commit signals newWorkLoop_interrupts) in *.
  cbn zeta in IH. unfold newWorkLoop_commit. cbn.
  rewrite length_app. cbn. split; [lia |].
  rewrite lookup_app_r by lia. now rewrite Nat.sub_diag.
Qed.

(** A cell that holds a signal keeps it through every later commit. *)
Lemma newWorkLoop_commit_keeps (signals : list Z) (s : Z) (i : nat) (v : Z) :
  in_cells (newWorkLoop_commits signals) !! i = Some v -> v <> 0 ->
  in_cells (newWorkLoop_commits (signals ++ [s])) !! i = Some v.
Proof.
  intros Hv Hne. pose proof (newWorkLoop_commits_newest signals) as Hnew.
  unfold newWorkLoop_commits in *. rewrite fold_left_app. cbn [fold_left].
  set (st := fold_left newWorkLoop_commit signals newWorkLoop_interrupts) in *.
  cbn zeta in Hnew. unfold newWorkLoop_commit. cbn.
  destruct (in_interrupt st) as [j |].
  - destruct Hnew as [Hlen Hzero].
    assert (i <> j) by (intros ->; rewrite Hzero in Hv; congruence).
    apply lookup_app_l_Some. now rewrite list_lookup_insert_ne.
  - rewrite Hnew in Hv. discriminate.
Qed.

Lemma newWorkLoop_commits_keep (signals : list Z) (k k' i : nat) (v : Z) :
  (k <= k')%nat ->
  in_cells (newWorkLoop_commits (firstn k signals)) !! i = Some v -> v <> 0 ->
  in_cells (newWorkLoop_commits (firstn k' signals)) !! i = Some v.
Proof.
  intros Hle Hv Hne. induction Hle as [| k' _ IH]; [exact Hv |].
  destruct (signals !! k') as [s |] eqn:Hs.
  - rewrite (take_S_r _ _ _ Hs). now apply newWorkLoop_commit_keeps.
  - apply lookup_ge_None in Hs. rewrite firstn_all2 in * by lia. exact IH.
Qed.

(** The cells [newWorkLoop] hands out are written at most once: whatever
    the signals and whenever the loads happen, the loads of one cell
    repeat the first signal they see. *)
Lemma newWorkLoop_cell_writtenOnce (signals : list Z) (i : nat) (seen : nat -> nat) :
  (forall a b : nat, (a <= b)%nat -> (seen a <= seen b)%nat) ->
  writtenOnce (loadsOf signals i seen).
Proof.
  intros Hmono a b Hab. unfold loadsOf, commitInterruptNone.
  destruct (in_cells (newWorkLoop_commits (firstn (seen a) signals)) !! i) as [v |] eqn:Hv;
    cbn; [| congruence].
  intros Hne. now rewrite (newWorkLoop_commits_keep signals _ _ i v (Hmono a b Hab) Hv Hne).
Qed.

Section Interrupt.
Context `{Chain}.

Lemma atTop_remaining (interrupt : option (nat -> Z)) (gasLimit : list Z)
    (s0 s : loopState) (n : nat) :
  atTop interrupt gasLimit s0 n s ->
  (n + remaining (ls_txs s) <= remaining (ls_txs s0))%nat.
Proof.
  induction 1 as [| n s s' _ IH Hit]; [lia |].
  apply commitIteration_effect in Hit. cbn in Hit. lia.
Qed.

(** At the top of iteration [n] the cell has been loaded [n] times, and
    each of these loads found no signal. *)
Lemma atTop_loads (cell : nat -> Z) (gasLimit : list Z) (s0 s : loopState) (n : nat) :
  atTop (Some cell) gasLimit s0 n s ->
  ls_loads s = (n + ls_loads s0)%nat /\
  forall i : nat, (ls_loads s0 <= i < ls_loads s)%nat -> cell i = commitInterruptNone.
Proof.
  induction 1 as [| n s s' _ [IHl IHc] Hit]; [split; [reflexivity | lia] |].
  apply commitIteration_Next in Hit as (Hk & Hl & _). split; [lia |].
  intros i Hi. destruct (decide (i = ls_loads s)) as [-> | Hne]; [exact Hk |].
  apply IHc. lia.
Qed.

(** The loop run from the entry is, [n] iterations later, the loop run
    from the top of iteration [n]. *)
Lemma commitLoop_atTop (interrupt : option (nat -> Z)) (gasLimit : list Z)
    (s0 s : loopState) (n : nat) :
  atTop interrupt gasLimit s0 n s ->
  forall fuel : nat,
    commitLoop (n + fuel) interrupt gasLimit s0 = commitLoop fuel interrupt gasLimit s.
Proof.
  induction 1 as [| n s s' _ IH Hit]; intros fuel; [reflexivity |].
  replace (S n + fuel)%nat with (n + S fuel)%nat by lia.
  rewrite IH. cbn [commitLoop]. rewrite Hit. reflexivity.
Qed.

(** The fuel [commitTransactions] gives its loop is enough to run one
    more iteration from the top of any iteration. *)
Lemma commitLoop_from_top (interrupt : option (nat -> Z)) (gasLimit : list Z)
    (s0 s : loopState) (n : nat) :
  atTop interrupt gasLimit s0 n s ->
  exists fuel : nat,
    commitLoop (S (remaining (ls_txs s0))) interrupt gasLimit s0 =
    commitLoop (S fuel) interrupt gasLimit s.
Proof.
  intros Htop. pose proof (atTop_remaining _ _ _ _ _ Htop) as Hrem.
  exists (remaining (ls_txs s0) - n)%nat.
  rewrite <- (commitLoop_atTop _ _ _ _ _ Htop). f_equal. lia.
Qed.

(** The loop ends where the gas pool is below the gas of a plain
    transaction or the set has no head. *)
Lemma commitBody_Break (s : loopState) (gp : Z) :
  gasPool (ls_env s) = Some gp ->
  gp < TxGas \/ Peek (ls_txs s) = None ->
  commitBody s = Done (Break s).
Proof.
  intros Hgp Hend. unfold commitBody, deref. rewrite Hgp. cbn [mbind exec_bind].
  destruct (Z.ltb_spec gp TxGas); [reflexivity |].
  destruct Hend as [? | ->]; [lia | reflexivity].
Qed.

(** C1: a call of [commitTransactions] with an interrupt cell that is
    written at most once, at the top of any iteration of its loop.
    If the cell holds the new-head signal there, the call returns true
    and sends nothing.  If it holds the resubmit signal, the call sends
    one adjustment with [inc] set and the ratio of the gas used so far
    to the gas limit, raised to 0.1 when below, and returns false; the
    ratio is a [float64] between 0.1 and 1 when the pool is within a gas
    limit below [2^53].  If the cell holds no signal and the loop ends
    there, for want of gas or of transactions, the call sends one
    adjustment with [inc] unset and returns false. *)
Theorem commitTransactions_feedback (running : bool) (env env0 : environment)
    (txs : TransactionsByPriceAndNonce) (cell : nat -> Z) (n : nat) (s : loopState) :
  writtenOnce cell ->
  initGasPool env = Done env0 ->
  atTop (Some cell) (GasLimit (header env)) (loopEntry env0 txs) n s ->
  (cell (ls_loads s) = commitInterruptNewHead ->
     commitTransactions running env txs (Some cell) =
     Done {| cm_env := ls_env s; cm_txs := ls_txs s; cm_adjusts := [];
             cm_pendingLogs := []; cm_ret := true |}) /\
  (cell (ls_loads s) = commitInterruptResubmit ->
   forall limit gp : Z,
     GasLimit (header env) !! QuaiNetworkContext = Some limit ->
     gasPool (ls_env s) = Some gp ->
     let r := F64.div (F64.of_Z (wrap64 (limit - gp))) (F64.of_Z limit) in
     let sent := if F64.ltb r (F64.of_ratio 1 10) then F64.of_ratio 1 10 else r in
     commitTransactions running env txs (Some cell) =
     Done {| cm_env := ls_env s; cm_txs := ls_txs s;
             cm_adjusts := [ {| ratio := sent; inc := true |} ];
             cm_pendingLogs := []; cm_ret := false |} /\
     (0 < limit < 2 ^ 53 -> 0 <= gp <= limit -> ratioInRange sent = true)) /\
  (cell (ls_loads s) = commitInterruptNone ->
   forall gp : Z,
     gasPool (ls_env s) = Some gp ->
     gp < TxGas \/ Peek (ls_txs s) = None ->
     commitTransactions running env txs (Some cell) =
     Done {| cm_env := ls_env s; cm_txs := ls_txs s;
             cm_adjusts := [ {| ratio := S754_zero false; inc := false |} ];
             cm_pendingLogs :=
               (if negb running && (0 <? Z.of_nat (length (ls_logs s)))
                then [ls_logs s] else []);
             cm_ret := false |}).
Proof.
  intros Hwo Hinit Htop.
  destruct (commitLoop_from_top _ _ _ _ _ Htop) as (fuel & Hfuel).
  assert (Hcall : commitTransactions running env txs (Some cell) =
            commitLoop (S fuel) (Some cell) (GasLimit (header env)) s ≫=
            (fun r => match r with
                      | (s, Some (sent, ret)) =>
                          Done {| cm_env := ls_env s; cm_txs := ls_txs s;
                                  cm_adjusts := sent; cm_pendingLogs := [];
                                  cm_ret := ret |}
                      | (s, None) =>
                          Done {| cm_env := ls_env s; cm_txs := ls_txs s;
                                  cm_adjusts := [ {| ratio := S754_zero false;
                                                     inc := false |} ];
                                  cm_pendingLogs :=
                                    (if negb running &&
                                        (0 <? Z.of_nat (length (ls_logs s)))
                                     then [map (fun l => l) (ls_logs s)] else []);
                                  cm_ret := false |}
                      end)).
  { unfold commitTransactions. rewrite Hinit. cbn [mbind exec_bind].
    rewrite <- Hfuel. reflexivity. }
  rewrite Hcall. cbn [commitLoop]. unfold commitIteration.
  refine (conj _ (conj _ _)).
  - intros Hk.
    assert (H1 : cell (S (ls_loads s)) = commitInterruptNewHead).
    { rewrite <- Hk. apply Hwo; [lia |]. rewrite Hk. discriminate. }
    assert (H2 : cell (S (S (ls_loads s))) = commitInterruptNewHead).
    { rewrite <- Hk. apply Hwo; [lia |]. rewrite Hk. discriminate. }
    rewrite Hk, H1, H2. reflexivity.
  - intros Hk limit gp Hlimit Hgp.
    assert (H1 : cell (S (ls_loads s)) = commitInterruptResubmit).
    { rewrite <- Hk. apply Hwo; [lia |]. rewrite Hk. discriminate. }
    assert (H2 : cell (S (S (ls_loads s))) = commitInterruptResubmit).
    { rewrite <- Hk. apply Hwo; [lia |]. rewrite Hk. discriminate. }
    cbn zeta. split.
    + rewrite Hk, H1, H2. unfold index, deref. rewrite Hlimit, Hgp. reflexivity.
    + intros Hrange Hpool. now apply F64Facts.resubmit_ratio_in_range.
  - intros Hk gp Hgp Hend. rewrite Hk. cbn [Z.eqb commitInterruptNone negb].
    rewrite (commitBody_Break _ gp) by assumption.
    cbn. rewrite map_id. reflexivity.
Qed.

End Interrupt.

(** On the small chain: [newWorkLoop] commits at the start, which makes
    the cell of the work, and commits again with the resubmit signal after
    the work has loaded its cell twice, while the nonce ladder is run; the
    call sends one adjustment with [inc] set and a ratio in range, and
    returns false. *)
Lemma commitTransactions_feedback_witness :
  let cell := loadsOf [commitInterruptNewHead; commitInterruptResubmit] 0
                (fun k : nat => if (k <? 2)%nat then 1%nat else 2%nat) in
  writtenOnce cell /\
  exists c r,
    @commitTransactions simpleChain false (simpleEnv 100000) ladder (Some cell) = Done c /\
    cm_adjusts c = [ {| ratio := r; inc := true |} ] /\ cm_ret c = false /\
    ratioInRange r = true.
Proof.
  intros cell.
  assert (Hwo : writtenOnce cell).
  { apply newWorkLoop_cell_writtenOnce. intros a b Hab.
    destruct (Nat.ltb_spec a 2), (Nat.ltb_spec b 2); lia. }
  split; [exact Hwo |].
  pose (step := fun s : loopState =>
                  match @commitIteration simpleChain (Some cell)
                          (GasLimit (header (simpleEnv 100000))) s with
                  | Done (Next s') => s'
                  | _ => s
                  end).
  pose (s0 := loopEntry (set_gasPool (simpleEnv 100000) (Some 100000)) ladder).
  assert (Htop : @atTop simpleChain (Some cell) (GasLimit (header (simpleEnv 100000)))
                   s0 2 (step (step s0))).
  { apply (atTop_next _ _ _ 1%nat (step s0) (step (step s0)));
      [apply (atTop_next _ _ _ O s0 (step s0)); [apply atTop_entry |] |];
      vm_compute; reflexivity. }
  destruct (@commitTransactions_feedback simpleChain false (simpleEnv 100000)
              (set_gasPool (simpleEnv 100000) (Some 100000)) ladder cell 2
              (step (step s0)) Hwo eq_refl Htop) as (_ & Hresubmit & _).
  pose proof (Hresubmit ltac:(vm_compute; reflexivity) 100000 79000 eq_refl
                ltac:(vm_compute; reflexivity)) as Hsent.
  cbn zeta in Hsent. destruct Hsent as [Hcall Hrange].
  eexists _, _. split; [exact Hcall |].
  split; [reflexivity |]. split; [reflexivity |]. apply Hrange; lia.
Defined.

(** ** The published snapshot *)

Module SnapshotFacts.
Import Snapshot.









End SnapshotFacts.



(** ** The recommit interval under feedback *)

(** One feedback with a ratio in range: an increase does not lower the
    interval and keeps it at or below 15 s, a decrease does not raise it
    and keeps it at or above the floor; both land within 3 ns of the
    formula in exact arithmetic. *)
Lemma newWorkLoop_step_adjust (st : workLoop) (adjust : intervalAdjust) :
  minRecommitInterval <= wl_minRecommit st ->
  wl_minRecommit st <= wl_recommit st <= maxRecommitInterval ->
  feedbackInRange adjust ->
  let st' := newWorkLoop_step st (EvAdjust adjust) in
  wl_minRecommit st' = wl_minRecommit st /\
  if inc adjust
  then wl_recommit st <= wl_recommit st' <= maxRecommitInterval /\
       (exactIncrease (wl_recommit st) (toQ (ratio adjust)) - 3
        <= inject_Z (wl_recommit st') /\
        inject_Z (wl_recommit st')
        <= exactIncrease (wl_recommit st) (toQ (ratio adjust)) + 3)%Q
  else wl_minRecommit st <= wl_recommit st' <= wl_recommit st /\
       (exactDecrease (wl_minRecommit st) (wl_recommit st) - 3
        <= inject_Z (wl_recommit st') /\
        inject_Z (wl_recommit st')
        <= exactDecrease (wl_minRecommit st) (wl_recommit st) + 3)%Q.
Proof.
  intros Hmin Hrange Hratio. cbn [newWorkLoop_step].
  destruct (inc adjust) eqn:Hinc; cbn [wl_minRecommit wl_recommit];
    (split; [reflexivity |]).
  - apply F64Facts.recalcRecommit_inc; auto.
  - apply F64Facts.recalcRecommit_dec; auto.
Qed.




(** ** Steps of the recommit interval *)

Module F64Steps.
Import F64Facts.
Local Open Scope Q_scope.

(** An increase, for any interval from 1 s up to [10^14] ns: either the
    result is the cap, or it is at most the cap and within 3 ns of the
    uncapped formula. *)
Lemma recalcRecommit_inc_sharp (minRecommit prev : Z) (r : spec_float) :
  (1000000000 <= prev <= 100000000000000)%Z ->
  ratioInRange r = true ->
  let next := recalcRecommit minRecommit prev (F64.div (F64.of_Z prev) r) true in
  let E := (9 # 10) * inject_Z prev + (1 # 10) * (inject_Z prev / toQ r + 200000000) in
  inject_Z prev + 20000000 <= E /\
  ((next = 15000000000%Z /\ 15000000000 - 3 <= E) \/
   ((next <= 15000000000)%Z /\ E - 2 <= inject_Z next /\ inject_Z next <= E + 3)).
Proof.
  intros [Hlo Hhi] Hr.
  destruct (ratioInRange_spec r Hr) as (Rn & Rlo & Rhi).
  assert (P53 : (2 ^ 53 = 9007199254740992)%Z) by reflexivity.
  destruct (of_Z_exact prev ltac:(lia)) as [Pn Pv].
  destruct (of_Z_exact 200000000 ltac:(lia)) as [Bn Bv].
  destruct (of_Z_exact (15 * 1000000000) ltac:(lia)) as [Mn Mv].
  assert (Pq : 1000000000 <= inject_Z prev).
  { change 1000000000 with (inject_Z 1000000000). rewrite <- Zle_Qle. lia. }
  assert (Pq' : inject_Z prev <= 100000000000000).
  { change 100000000000000 with (inject_Z 100000000000000). rewrite <- Zle_Qle. lia. }
  assert (Rpos : 0 < toQ r) by lra.
  set (t := inject_Z prev / toQ r).
  assert (Tge : inject_Z prev <= t).
  { unfold t. apply Qle_shift_div_l; [exact Rpos |]. nra. }
  assert (Tle : t <= inject_Z (10 * prev)).
  { unfold t. rewrite inject_Z_mult. change (inject_Z 10) with 10.
    apply Qle_shift_div_r; [exact Rpos |]. nra. }
  set (tl := Qfloor t). set (tu := Qceiling t).
  pose proof (Qfloor_le t) as Fl. fold tl in Fl.
  pose proof (Qlt_floor t) as Fu. fold tl in Fu.
  rewrite inject_Z_plus in Fu. change (inject_Z 1) with 1 in Fu.
  pose proof (Qle_ceiling t) as Cu. fold tu in Cu.
  pose proof (Qceiling_lt t) as Cl. fold tu in Cl.
  assert (Htl : (prev <= tl)%Z).
  { unfold tl. rewrite <- (Qfloor_Z prev). now apply Qfloor_resp_le. }
  assert (Htu : (tu <= 10 * prev)%Z).
  { unfold tu. rewrite <- (Qceiling_Z (10 * prev)). now apply Qceiling_resp_le. }
  assert (Tl' : inject_Z tl <= inject_Z tu) by (eapply Qle_trans; eassumption).
  rewrite <- Zle_Qle in Tl'.
  unfold Z.sub in Cl. rewrite inject_Z_plus, inject_Z_opp in Cl.
  change (inject_Z 1) with 1 in Cl.
  destruct (div_bracket (F64.of_Z prev) r tl tu Pn Rn
              ltac:(lia) ltac:(lia)) as (Tn & Tlo & Thi).
  { rewrite Pv. exact Fl. }
  { rewrite Pv. exact Cu. }
  destruct (add_bracket (F64.div (F64.of_Z prev) r) (F64.of_Z 200000000)
              (tl + 200000000) (tu + 200000000) Tn Bn
              ltac:(lia) ltac:(lia)) as (B1n & B1lo & B1hi).
  { rewrite Bv, inject_Z_plus. unfold F64.div, F64.prec, F64.emax. lra. }
  { rewrite Bv, inject_Z_plus. unfold F64.div, F64.prec, F64.emax. lra. }
  rewrite inject_Z_plus in B1lo, B1hi.
  change (inject_Z 200000000) with 200000000 in B1lo, B1hi.
  destruct (div10_Q (tl + 200000000)) as [Dl1 Dl2].
  destruct (div10_Q (tu + 200000000)) as [Du1 Du2].
  rewrite inject_Z_plus in Dl1, Dl2, Du1, Du2.
  change (inject_Z 200000000) with 200000000 in Dl1, Dl2, Du1, Du2.
  assert (Tuq : inject_Z tu <= 1000000000000000).
  { change 1000000000000000 with (inject_Z 1000000000000000). rewrite <- Zle_Qle. lia. }
  assert (Tlq : 1000000000 <= inject_Z tl).
  { change 1000000000 with (inject_Z 1000000000). rewrite <- Zle_Qle. lia. }
  destruct (mul_bracket (F64.of_ratio 1 10)
              (SFadd 53 1024 (F64.div (F64.of_Z prev) r) (F64.of_Z 200000000))
              ((tl + 200000000) / 10) ((tu + 200000000) / 10 + 1)
              pnormal_tenth B1n ltac:(zdiv) ltac:(zdiv)) as (B2n & B2lo & B2hi).
  { rewrite toQ_tenth. lra. }
  { rewrite toQ_tenth, inject_Z_plus. change (inject_Z 1) with 1. lra. }
  rewrite inject_Z_plus in B2hi. change (inject_Z 1) with 1 in B2hi.
  destruct (div10_Q (9 * prev)) as [D91 D92].
  rewrite inject_Z_mult in D91, D92. change (inject_Z 9) with 9 in D91, D92.
  destruct (mul_bracket (F64.of_Z prev) (F64.of_ratio 9 10)
              (9 * prev / 10) (9 * prev / 10 + 1) Pn pnormal_nine_tenths
              ltac:(zdiv) ltac:(zdiv)) as (An & Alo & Ahi).
  { rewrite Pv, toQ_nine_tenths. lra. }
  { rewrite Pv, toQ_nine_tenths, inject_Z_plus. change (inject_Z 1) with 1. lra. }
  rewrite inject_Z_plus in Ahi. change (inject_Z 1) with 1 in Ahi.
  destruct (add_bracket (SFmul 53 1024 (F64.of_Z prev) (F64.of_ratio 9 10))
              (SFmul 53 1024 (F64.of_ratio 1 10)
                 (SFadd 53 1024 (F64.div (F64.of_Z prev) r) (F64.of_Z 200000000)))
              (9 * prev / 10 + (tl + 200000000) / 10)
              (9 * prev / 10 + 1 + ((tu + 200000000) / 10 + 1)) An B2n
              ltac:(zdiv) ltac:(zdiv)) as (Nn & Nlo & Nhi).
  { rewrite !inject_Z_plus. lra. }
  { rewrite !inject_Z_plus. change (inject_Z 1) with 1. lra. }
  cbn zeta.
  unfold recalcRecommit, intervalAdjustBias, intervalAdjustRatio,
    oneMinusIntervalAdjustRatio, maxRecommitInterval, second,
    F64.add, F64.mul, F64.ltb, F64.prec, F64.emax.
  set (N := SFadd 53 1024 (SFmul 53 1024 (F64.of_Z prev) (F64.of_ratio 9 10))
              (SFmul 53 1024 (F64.of_ratio 1 10)
                 (SFadd 53 1024 (F64.div (F64.of_Z prev) r) (F64.of_Z 200000000)))) in *.
  fold t.
  set (E := (9 # 10) * inject_Z prev + (1 # 10) * (t + 200000000)).
  change (inject_Z (15 * 1000000000)) with 15000000000 in *.
  rewrite !inject_Z_plus in Nlo. rewrite !inject_Z_plus in Nhi.
  change (inject_Z 1) with 1 in Nhi.
  set (a := inject_Z (9 * prev / 10)) in *.
  set (bl := inject_Z ((tl + 200000000) / 10)) in *.
  set (bu := inject_Z ((tu + 200000000) / 10)) in *.
  assert (Elo : E - 2 <= a + bl) by (unfold E; lra).
  assert (Ehi : a + 1 + (bu + 1) <= E + 3) by (unfold E; lra).
  split; [unfold E; lra |].
  destruct (SFltb (F64.of_Z (15 * 1000000000)) N) eqn:Hcmp.
  - left.
    pose proof (to_int64_bracket _ (15 * 1000000000) (15 * 1000000000) Mn
                  ltac:(lia) ltac:(lia)) as Hres.
    rewrite Mv in Hres. specialize (Hres (Qle_refl _) (Qle_refl _)).
    split; [lia |].
    apply (ltb_pnormal _ _ Mn Nn) in Hcmp. rewrite Mv in Hcmp. lra.
  - right.
    assert (Hle : toQ N <= inject_Z (15 * 1000000000)).
    { apply Qnot_lt_le. intros Hlt. rewrite <- Mv in Hlt.
      apply (ltb_pnormal _ _ Mn Nn) in Hlt. congruence. }
    assert (Hone : inject_Z 1 <= toQ N).
    { change (inject_Z 1) with 1. lra. }
    pose proof (to_int64_bracket N 1 (15 * 1000000000) Nn ltac:(lia) ltac:(lia)
                  Hone Hle) as Hres.
    pose proof (to_int64_bracket N (9 * prev / 10 + (tl + 200000000) / 10)
                  (9 * prev / 10 + 1 + ((tu + 200000000) / 10 + 1)) Nn
                  ltac:(zdiv) ltac:(zdiv)) as Hres2.
    rewrite !inject_Z_plus in Hres2. specialize (Hres2 Nlo Nhi).
    split; [lia |].
    destruct Hres2 as [R1 R3].
    rewrite Zle_Qle in R1, R3. rewrite !inject_Z_plus in R1.
    rewrite !inject_Z_plus in R3.
    change (inject_Z 1) with 1 in R3. fold a bl bu in R1, R3.
    split; lra.
Qed.


(** A decrease, for any floor and interval from 1 s up to [10^14] ns:
    either the result is the floor, or it is at least the floor and
    within 2 ns of the formula before it is raised to the floor. *)
Lemma recalcRecommit_dec_sharp (minRecommit prev : Z) :
  (1000000000 <= minRecommit <= 100000000000000)%Z ->
  (1000000000 <= prev <= 100000000000000)%Z ->
  let next := recalcRecommit minRecommit prev (F64.of_Z minRecommit) false in
  let E := (9 # 10) * inject_Z prev + (1 # 10) * (inject_Z minRecommit - 200000000) in
  (next = minRecommit /\ E <= inject_Z minRecommit + 2) \/
  ((minRecommit <= next)%Z /\ E - 2 <= inject_Z next /\ inject_Z next <= E + 2).
Proof.
  intros [Hmlo Hmhi] [Hlo Hhi].
  assert (P53 : (2 ^ 53 = 9007199254740992)%Z) by reflexivity.
  destruct (of_Z_exact prev ltac:(lia)) as [Pn Pv].
  destruct (of_Z_exact minRecommit ltac:(lia)) as [Mn Mv].
  destruct (of_Z_exact 200000000 ltac:(lia)) as [Bn Bv].
  assert (Pq : inject_Z prev <= 100000000000000).
  { change 100000000000000 with (inject_Z 100000000000000). rewrite <- Zle_Qle. lia. }
  assert (Pq' : 1000000000 <= inject_Z prev).
  { change 1000000000 with (inject_Z 1000000000). rewrite <- Zle_Qle. lia. }
  assert (Mq : 1000000000 <= inject_Z minRecommit).
  { change 1000000000 with (inject_Z 1000000000). rewrite <- Zle_Qle. lia. }
  assert (Mq' : inject_Z minRecommit <= 100000000000000).
  { change 100000000000000 with (inject_Z 100000000000000). rewrite <- Zle_Qle. lia. }
  set (s := (minRecommit - 200000000)%Z).
  assert (Hs : inject_Z s == inject_Z minRecommit - 200000000).
  { unfold s, Z.sub. rewrite inject_Z_plus, inject_Z_opp. reflexivity. }
  assert (Hs' : (s = minRecommit - 200000000)%Z) by reflexivity.
  clearbody s.
  destruct (sub_bracket (F64.of_Z minRecommit) (F64.of_Z 200000000)
              s s Mn Bn ltac:(lia) ltac:(lia)) as (Sn & Slo & Shi).
  { rewrite Mv, Bv, Hs. apply Qle_refl. }
  { rewrite Mv, Bv, Hs. apply Qle_refl. }
  destruct (div10_Q s) as [Ds1 Ds2].
  destruct (mul_bracket (F64.of_ratio 1 10)
              (SFsub 53 1024 (F64.of_Z minRecommit) (F64.of_Z 200000000))
              (s / 10) (s / 10 + 1)
              pnormal_tenth Sn ltac:(zdiv) ltac:(zdiv)) as (B2n & B2lo & B2hi).
  { rewrite toQ_tenth. lra. }
  { rewrite toQ_tenth, inject_Z_plus. change (inject_Z 1) with 1. lra. }
  rewrite inject_Z_plus in B2hi. change (inject_Z 1) with 1 in B2hi.
  destruct (div10_Q (9 * prev)) as [D91 D92].
  rewrite inject_Z_mult in D91, D92. change (inject_Z 9) with 9 in D91, D92.
  destruct (mul_bracket (F64.of_Z prev) (F64.of_ratio 9 10)
              (9 * prev / 10) (9 * prev / 10 + 1) Pn pnormal_nine_tenths
              ltac:(zdiv) ltac:(zdiv)) as (An & Alo & Ahi).
  { rewrite Pv, toQ_nine_tenths. lra. }
  { rewrite Pv, toQ_nine_tenths, inject_Z_plus. change (inject_Z 1) with 1. lra. }
  rewrite inject_Z_plus in Ahi. change (inject_Z 1) with 1 in Ahi.
  destruct (add_bracket (SFmul 53 1024 (F64.of_Z prev) (F64.of_ratio 9 10))
              (SFmul 53 1024 (F64.of_ratio 1 10)
                 (SFsub 53 1024 (F64.of_Z minRecommit) (F64.of_Z 200000000)))
              (9 * prev / 10 + s / 10)
              (9 * prev / 10 + 1 + (s / 10 + 1)) An B2n
              ltac:(zdiv) ltac:(zdiv)) as (Nn & Nlo & Nhi).
  { rewrite !inject_Z_plus. lra. }
  { rewrite !inject_Z_plus. change (inject_Z 1) with 1. lra. }
  cbn zeta.
  unfold recalcRecommit, intervalAdjustBias, intervalAdjustRatio,
    oneMinusIntervalAdjustRatio, F64.add, F64.sub, F64.mul, F64.ltb, F64.prec, F64.emax.
  set (N := SFadd 53 1024 (SFmul 53 1024 (F64.of_Z prev) (F64.of_ratio 9 10))
              (SFmul 53 1024 (F64.of_ratio 1 10)
                 (SFsub 53 1024 (F64.of_Z minRecommit) (F64.of_Z 200000000)))) in *.
  set (E := (9 # 10) * inject_Z prev + (1 # 10) * (inject_Z minRecommit - 200000000)).
  assert (HE : E == (9 # 10) * inject_Z prev + (1 # 10) * inject_Z s).
  { unfold E. rewrite Hs. reflexivity. }
  rewrite !inject_Z_plus in Nlo. rewrite !inject_Z_plus in Nhi.
  change (inject_Z 1) with 1 in Nhi.
  set (a := inject_Z (9 * prev / 10)) in *.
  set (b := inject_Z (s / 10)) in *.
  assert (Elo : E - 2 <= a + b) by lra.
  assert (Ehi : a + 1 + (b + 1) <= E + 2) by lra.
  clearbody E.
  destruct (SFltb N (F64.of_Z minRecommit)) eqn:Hcmp.
  - left.
    pose proof (to_int64_bracket _ minRecommit minRecommit Mn
                  ltac:(lia) ltac:(lia)) as Hres.
    rewrite Mv in Hres. specialize (Hres (Qle_refl _) (Qle_refl _)).
    split; [lia |].
    apply (ltb_pnormal _ _ Nn Mn) in Hcmp. rewrite Mv in Hcmp. lra.
  - right.
    assert (Hge : inject_Z minRecommit <= toQ N).
    { apply Qnot_lt_le. intros Hlt. rewrite <- Mv in Hlt.
      apply (ltb_pnormal _ _ Nn Mn) in Hlt. congruence. }
    pose proof (to_int64_bracket N minRecommit
                  (9 * prev / 10 + 1 + (s / 10 + 1)) Nn
                  ltac:(lia) ltac:(zdiv)) as Hres.
    rewrite !inject_Z_plus in Hres. specialize (Hres Hge Nhi).
    pose proof (to_int64_bracket N (9 * prev / 10 + s / 10)
                  (9 * prev / 10 + 1 + (s / 10 + 1)) Nn
                  ltac:(zdiv) ltac:(zdiv)) as Hres2.
    rewrite !inject_Z_plus in Hres2. specialize (Hres2 Nlo Nhi).
    split; [lia |].
    destruct Hres2 as [R3 R2].
    rewrite Zle_Qle in R2, R3. rewrite !inject_Z_plus in R2.
    rewrite !inject_Z_plus in R3.
    change (inject_Z 1) with 1 in R2. fold a b in R2, R3.
    split; lra.
Qed.

(** In whole nanoseconds: an increase reaches the cap or raises the
    interval by nearly 20 ms; an interval above the cap is set to the
    cap. *)
Lemma recalcRecommit_inc_progress (minRecommit prev : Z) (r : spec_float) :
  (1000000000 <= prev <= 100000000000000)%Z ->
  ratioInRange r = true ->
  let next := recalcRecommit minRecommit prev (F64.div (F64.of_Z prev) r) true in
  (next = 15000000000 \/ (prev + 19999998 <= next <= 15000000000))%Z.
Proof.
  intros Hp Hr.
  destruct (recalcRecommit_inc_sharp minRecommit prev r Hp Hr)
    as (HE & [(Hcap & _) | (Hle & Hlo & _)]); cbn zeta in *; [left; exact Hcap |].
  right. split; [| exact Hle].
  assert (H : inject_Z (prev + 19999998) <= inject_Z
            (recalcRecommit minRecommit prev (F64.div (F64.of_Z prev) r) true)).
  { rewrite inject_Z_plus. change (inject_Z 19999998) with 19999998. lra. }
  now rewrite <- Zle_Qle in H.
Qed.

(** A decrease reaches the floor or lowers the interval by nearly 20 ms,
    when the interval is at least the floor; from below the floor it
    returns to the floor when the floor is at least 15 s. *)
Lemma recalcRecommit_dec_progress (minRecommit prev : Z) :
  (1000000000 <= minRecommit <= 100000000000000)%Z ->
  (1000000000 <= prev <= 100000000000000)%Z ->
  let next := recalcRecommit minRecommit prev (F64.of_Z minRecommit) false in
  ((minRecommit <= prev ->
    next = minRecommit \/ (minRecommit <= next <= prev - 19999998)) /\
   (prev <= 15000000000 <= minRecommit -> next = minRecommit))%Z.
Proof.
  intros Hm Hp.
  assert (Mq : inject_Z 1000000000 <= inject_Z minRecommit) by (rewrite <- Zle_Qle; lia).
  change (inject_Z 1000000000) with 1000000000 in Mq.
  destruct (recalcRecommit_dec_sharp minRecommit prev Hm Hp)
    as [(Hfloor & _) | (Hge & Hlo & Hhi)]; cbn zeta in *.
  - split; intros _; [left |]; exact Hfloor.
  - split.
    + intros Hle. right. split; [exact Hge |].
      assert (MP : inject_Z minRecommit <= inject_Z prev) by (rewrite <- Zle_Qle; lia).
      assert (H : inject_Z (recalcRecommit minRecommit prev (F64.of_Z minRecommit) false)
                  <= inject_Z (prev - 19999998)).
      { unfold Z.sub. rewrite inject_Z_plus, inject_Z_opp.
        change (inject_Z 19999998) with 19999998. lra. }
      now rewrite <- Zle_Qle in H.
    + intros [Hp15 Hm15]. exfalso.
      assert (P15 : inject_Z prev <= inject_Z 15000000000) by (rewrite <- Zle_Qle; lia).
      assert (M15 : inject_Z 15000000000 <= inject_Z minRecommit) by (rewrite <- Zle_Qle; lia).
      change (inject_Z 15000000000) with 15000000000 in *.
      rewrite Zle_Qle in Hge. lra.
Qed.

End F64Steps.

(** ** The recommit interval over all events *)

(** X1: started by [newWorker] from a configured interval of at most
    15 s, [newWorkLoop] keeps 1 s <= minRecommit <= recommit <= 15 s
    through every sequence of events whose explicit intervals are at most
    15 s and whose increases carry a ratio between 0.1 and 1. *)
Theorem newWorkLoop_intervals_in_range (config : Config) (evs : list workEvent) :
  Recommit config <= maxRecommitInterval ->
  Forall eventInRange evs ->
  let st := newWorkLoop_run (newWorkLoop_init (newWorker_recommit config)) evs in
  minRecommitInterval <= wl_minRecommit st /\
  wl_minRecommit st <= wl_recommit st /\
  wl_recommit st <= maxRecommitInterval.
Proof.
  intros Hcfg Hall. cbn zeta.
  assert (Hinit : minRecommitInterval
                  <= wl_minRecommit (newWorkLoop_init (newWorker_recommit config)) /\
                  wl_minRecommit (newWorkLoop_init (newWorker_recommit config))
                  <= wl_recommit (newWorkLoop_init (newWorker_recommit config)) /\
                  wl_recommit (newWorkLoop_init (newWorker_recommit config))
                  <= maxRecommitInterval).
  { unfold newWorkLoop_init, newWorker_recommit. cbn.
    unfold minRecommitInterval, maxRecommitInterval, second in *.
    destruct (Z.ltb_spec (Recommit config) (1 * 1000000000)); lia. }
  revert Hinit. generalize (newWorkLoop_init (newWorker_recommit config)).
  unfold newWorkLoop_run.
  induction Hall as [| ev rest Hev _ IH]; intros st Hst; [exact Hst |].
  cbn [fold_left]. apply IH. destruct Hst as (H1 & H2 & H3).
  destruct ev as [| | | interval | adjust]; cbn [newWorkLoop_step]; auto.
  - cbn in Hev. cbn [wl_minRecommit wl_recommit].
    unfold minRecommitInterval, maxRecommitInterval, second in *.
    destruct (Z.ltb_spec interval (1 * 1000000000)); lia.
  - pose proof (newWorkLoop_step_adjust st adjust H1 (conj H2 H3) Hev) as [Hfloor Hstep].
    cbn zeta in Hfloor, Hstep. cbn [newWorkLoop_step] in Hfloor, Hstep.
    rewrite Hfloor. destruct (inc adjust); lia.
Qed.

(** A configured 3 s, then a new head, an explicit 5 s, an increase at a
    fifth of a full block and a timer tick. *)
Lemma newWorkLoop_intervals_in_range_witness :
  let config := {| Etherbase := 1%N; GasFloor := 0; GasCeil := 0;
                   Recommit := 3 * second |} in
  let evs := [ EvChainHead; EvInterval (5 * second);
               EvAdjust {| ratio := F64.of_ratio 1 5; inc := true |}; EvTimer ] in
  let st := newWorkLoop_run (newWorkLoop_init (newWorker_recommit config)) evs in
  wl_minRecommit st = 5 * second /\ wl_recommit st = 7020000000 /\
  minRecommitInterval <= wl_minRecommit st /\
  wl_minRecommit st <= wl_recommit st /\
  wl_recommit st <= maxRecommitInterval.
Proof.
  intros config evs st.
  split; [vm_compute; reflexivity |]. split; [vm_compute; reflexivity |].
  apply (newWorkLoop_intervals_in_range config evs).
  - vm_compute. discriminate.
  - unfold evs. repeat constructor; cbn; try (vm_compute; discriminate).
Defined.

(** X2: the bias makes the floor reachable.  From an interval between the
    floor and 15 s, every decrease leaves the interval at or above the
    floor and takes at least 19999998 ns off it unless it lands on the
    floor; after 701 decreases in a row the interval is the floor. *)
Theorem newWorkLoop_decreases_reach_floor (st : workLoop) (adjusts : list intervalAdjust) :
  minRecommitInterval <= wl_minRecommit st ->
  wl_minRecommit st <= wl_recommit st <= maxRecommitInterval ->
  Forall (fun adjust => inc adjust = false) adjusts ->
  let st' := newWorkLoop_run st (map EvAdjust adjusts) in
  wl_minRecommit st' = wl_minRecommit st /\
  wl_minRecommit st <= wl_recommit st' /\
  wl_recommit st' <= Z.max (wl_minRecommit st)
                           (wl_recommit st - 19999998 * Z.of_nat (length adjusts)) /\
  ((701 <= length adjusts)%nat -> wl_recommit st' = wl_minRecommit st).
Proof.
  intros Hmin Hrange Hall. cbn zeta.
  assert (Hgen : wl_minRecommit (newWorkLoop_run st (map EvAdjust adjusts))
                 = wl_minRecommit st /\
                 wl_minRecommit st <= wl_recommit (newWorkLoop_run st (map EvAdjust adjusts)) /\
                 wl_recommit (newWorkLoop_run st (map EvAdjust adjusts))
                 <= Z.max (wl_minRecommit st)
                      (wl_recommit st - 19999998 * Z.of_nat (length adjusts))).
  { revert st Hmin Hrange. unfold newWorkLoop_run.
    induction Hall as [| adjust rest Hdec _ IH]; intros st Hmin Hrange.
    - cbn. split; [reflexivity | lia].
    - cbn [map fold_left length]. cbn [newWorkLoop_step]. rewrite Hdec.
      set (next := recalcRecommit (wl_minRecommit st) (wl_recommit st)
                     (F64.of_Z (wl_minRecommit st)) false).
      unfold minRecommitInterval, maxRecommitInterval, second in *.
      pose proof (F64Steps.recalcRecommit_dec_progress (wl_minRecommit st) (wl_recommit st)
                    ltac:(lia) ltac:(lia)) as [Hstep _].
      cbn zeta in Hstep. fold next in Hstep. specialize (Hstep ltac:(lia)).
      destruct (IH {| wl_minRecommit := wl_minRecommit st; wl_recommit := next |})
        as (IH1 & IH2 & IH3); cbn [wl_minRecommit wl_recommit]; [lia | lia |].
      cbn [wl_minRecommit wl_recommit] in IH1, IH2, IH3.
      split; [exact IH1 |]. split; [exact IH2 |]. lia. }
  destruct Hgen as (H1 & H2 & H3).
  split; [exact H1 |]. split; [exact H2 |]. split; [exact H3 |].
  intros Hlen. unfold minRecommitInterval, maxRecommitInterval, second in *. lia.
Qed.

(** One decrease from 1.12 s over the floor of 1 s gives 1.088 s. *)
Lemma newWorkLoop_decreases_reach_floor_witness :
  let st := {| wl_minRecommit := 1000000000; wl_recommit := 1120000000 |} in
  let st' := newWorkLoop_run st [EvAdjust {| ratio := S754_zero false; inc := false |}] in
  wl_recommit st' = 1088000000 /\
  wl_recommit st' <= Z.max (wl_minRecommit st) (wl_recommit st - 19999998 * 1).
Proof.
  intros st st'. split; [vm_compute; reflexivity |].
  destruct (newWorkLoop_decreases_reach_floor st
              [ {| ratio := S754_zero false; inc := false |} ]) as (_ & _ & H & _).
  - vm_compute. discriminate.
  - split; vm_compute; discriminate.
  - repeat constructor.
  - exact H.
Defined.

(** X3: the bias makes the cap reachable.  From an interval between 1 s
    and 15 s, every increase with a ratio between 0.1 and 1 leaves the
    interval at or below 15 s and adds at least 19999998 ns to it unless
    it lands on 15 s; after 701 such increases in a row the interval is
    15 s. *)
Theorem newWorkLoop_increases_reach_cap (st : workLoop) (adjusts : list intervalAdjust) :
  minRecommitInterval <= wl_recommit st <= maxRecommitInterval ->
  Forall (fun adjust => inc adjust = true /\ ratioInRange (ratio adjust) = true) adjusts ->
  let st' := newWorkLoop_run st (map EvAdjust adjusts) in
  wl_minRecommit st' = wl_minRecommit st /\
  wl_recommit st' <= maxRecommitInterval /\
  Z.min maxRecommitInterval (wl_recommit st + 19999998 * Z.of_nat (length adjusts))
  <= wl_recommit st' /\
  ((701 <= length adjusts)%nat -> wl_recommit st' = maxRecommitInterval).
Proof.
  intros Hrange Hall. cbn zeta.
  assert (Hgen : wl_minRecommit (newWorkLoop_run st (map EvAdjust adjusts))
                 = wl_minRecommit st /\
                 wl_recommit (newWorkLoop_run st (map EvAdjust adjusts))
                 <= maxRecommitInterval /\
                 Z.min maxRecommitInterval
                   (wl_recommit st + 19999998 * Z.of_nat (length adjusts))
                 <= wl_recommit (newWorkLoop_run st (map EvAdjust adjusts))).
  { revert st Hrange. unfold newWorkLoop_run.
    induction Hall as [| adjust rest [Hinc Hratio] _ IH]; intros st Hrange.
    - cbn. split; [reflexivity | lia].
    - cbn [map fold_left length]. cbn [newWorkLoop_step]. rewrite Hinc.
      set (next := recalcRecommit (wl_minRecommit st) (wl_recommit st)
                     (F64.div (F64.of_Z (wl_recommit st)) (ratio adjust)) true).
      unfold minRecommitInterval, maxRecommitInterval, second in *.
      pose proof (F64Steps.recalcRecommit_inc_progress (wl_minRecommit st) (wl_recommit st)
                    (ratio adjust) ltac:(lia) Hratio) as Hstep.
      cbn zeta in Hstep. fold next in Hstep.
      destruct (IH {| wl_minRecommit := wl_minRecommit st; wl_recommit := next |})
        as (IH1 & IH2 & IH3); cbn [wl_minRecommit wl_recommit]; [lia |].
      cbn [wl_minRecommit wl_recommit] in IH1, IH2, IH3.
      split; [exact IH1 |]. split; [exact IH2 |]. lia. }
  destruct Hgen as (H1 & H2 & H3).
  split; [exact H1 |]. split; [exact H2 |]. split; [exact H3 |].
  intros Hlen. unfold minRecommitInterval, maxRecommitInterval, second in *. lia.
Qed.

(** One increase at a full block from 14.99 s reaches 15 s. *)
Lemma newWorkLoop_increases_reach_cap_witness :
  let st := {| wl_minRecommit := 1000000000; wl_recommit := 14990000000 |} in
  let st' := newWorkLoop_run st [EvAdjust {| ratio := F64.of_Z 1; inc := true |}] in
  wl_recommit st' = maxRecommitInterval.
Proof.
  intros st st'.
  destruct (newWorkLoop_increases_reach_cap st [ {| ratio := F64.of_Z 1; inc := true |} ])
    as (_ & Hle & Hge & _).
  - split; vm_compute; discriminate.
  - constructor; [split; [reflexivity | vm_compute; reflexivity] | constructor].
  - cbn [map length] in Hle, Hge. fold st' in Hle, Hge.
    change (Z.of_nat 1) with 1 in Hge.
    change (wl_recommit st) with 14990000000 in Hge.
    unfold maxRecommitInterval, second in *. lia.
Defined.

(** X4: an explicit interval above 15 s (and below [10^14] ns) becomes
    both the floor and the interval; the next increase with a ratio in
    range sets the interval to 15 s, below the floor, and a decrease
    after that sets it back to the floor. *)
Theorem newWorkLoop_interval_above_cap (st : workLoop) (interval : Z)
    (up down : intervalAdjust) :
  maxRecommitInterval < interval <= 100000000000000 ->
  inc up = true -> ratioInRange (ratio up) = true ->
  inc down = false ->
  let st1 := newWorkLoop_step st (EvInterval interval) in
  let st2 := newWorkLoop_step st1 (EvAdjust up) in
  let st3 := newWorkLoop_step st2 (EvAdjust down) in
  wl_minRecommit st1 = interval /\ wl_recommit st1 = interval /\
  wl_minRecommit st2 = interval /\ wl_recommit st2 = maxRecommitInterval /\
  wl_minRecommit st3 = interval /\ wl_recommit st3 = interval.
Proof.
  intros [Hlo Hhi] Hup Hratio Hdown. cbn zeta. cbn [newWorkLoop_step].
  unfold minRecommitInterval, maxRecommitInterval, second in *.
  destruct (Z.ltb_spec interval (1 * 1000000000)) as [? | _]; [lia |].
  rewrite Hup. cbn [wl_minRecommit wl_recommit]. rewrite Hdown.
  cbn [wl_minRecommit wl_recommit].
  pose proof (F64Steps.recalcRecommit_inc_progress interval interval (ratio up)
                ltac:(lia) Hratio) as Hinc.
  cbn zeta in Hinc.
  assert (E2 : recalcRecommit interval interval
                 (F64.div (F64.of_Z interval) (ratio up)) true = 15 * 1000000000) by lia.
  rewrite E2.
  pose proof (F64Steps.recalcRecommit_dec_progress interval (15 * 1000000000)
                ltac:(lia) ltac:(lia)) as [_ Hdec].
  cbn zeta in Hdec. specialize (Hdec ltac:(lia)).
  repeat split; try reflexivity. exact Hdec.
Qed.

(** An explicit 20 s, an increase at a full block and a decrease. *)
Lemma newWorkLoop_interval_above_cap_witness :
  let st := newWorkLoop_init minRecommitInterval in
  let st2 := newWorkLoop_run st [ EvInterval (20 * second);
                                  EvAdjust {| ratio := F64.of_Z 1; inc := true |} ] in
  wl_minRecommit st2 = 20 * second /\ wl_recommit st2 = maxRecommitInterval.
Proof.
  intros st st2.
  destruct (newWorkLoop_interval_above_cap st (20 * second)
              {| ratio := F64.of_Z 1; inc := true |}
              {| ratio := S754_zero false; inc := false |})
    as (_ & _ & H1 & H2 & _).
  - split; vm_compute; [reflexivity | discriminate].
  - reflexivity.
  - vm_compute. reflexivity.
  - reflexivity.
  - split; [exact H1 | exact H2].
Defined.

(** ** What a call of [commitTransactions] accepts *)

Lemma pendingOf_insertByTip (e : Transaction * list Transaction)
    (t : TransactionsByPriceAndNonce) (tx : Transaction) :
  tx ∈ pendingOf (insertByTip e t) <-> tx ∈ pendingOf (e :: t).
Proof.
  induction t as [| h rest IH]; [reflexivity |].
  cbn [insertByTip]. destruct (tx_tip (fst h) <? tx_tip (fst e)); [reflexivity |].
  change (pendingOf (h :: insertByTip e rest))
    with ((fst h :: snd h) ++ pendingOf (insertByTip e rest)).
  change (pendingOf (e :: h :: rest))
    with ((fst e :: snd e) ++ (fst h :: snd h) ++ pendingOf rest).
  change (pendingOf (e :: rest)) with ((fst e :: snd e) ++ pendingOf rest) in IH.
  rewrite !elem_of_app, IH, !elem_of_app. tauto.
Qed.

(** [Pop] and [Shift] only take transactions out of the set. *)
Lemma pendingOf_applyOp (op : txsOp) (t : TransactionsByPriceAndNonce) (tx : Transaction) :
  tx ∈ pendingOf (applyOp op t) -> tx ∈ pendingOf t.
Proof.
  destruct t as [| [h hs] rest]; [destruct op; exact id |].
  change (pendingOf ((h, hs) :: rest)) with ((h :: hs) ++ pendingOf rest).
  destruct op; cbn [applyOp Pop Shift].
  - intros Hin. apply elem_of_app. now right.
  - destruct hs as [| next more].
    + intros Hin. apply elem_of_app. now right.
    + rewrite pendingOf_insertByTip.
      change (pendingOf ((next, more) :: rest)) with ((next :: more) ++ pendingOf rest).
      rewrite !elem_of_app, !elem_of_cons. tauto.
Qed.

Lemma Peek_pendingOf (t : TransactionsByPriceAndNonce) (tx : Transaction) :
  Peek t = Some tx -> tx ∈ pendingOf t.
Proof.
  destruct t as [| [h hs] rest]; [discriminate |]. intros [= ->].
  apply elem_of_cons. now left.
Qed.

Section Accepts.
Context `{Chain}.

(** What [commitTransaction] keeps of the header. *)
Lemma commitTransaction_header (env env' : environment) (tx : option Transaction)
    (logs : list Log) (err : option error) :
  commitTransaction env tx = Done (env', (logs, err)) ->
  Number (header env') = Number (header env) /\
  GasLimit (header env') = GasLimit (header env) /\
  ParentHash (header env') = ParentHash (header env) /\
  length (GasUsed (header env')) = length (GasUsed (header env)).
Proof.
  unfold commitTransaction. destruct tx as [tx |]; cbn.
  - destruct (index (GasUsed (header env)) QuaiNetworkContext) as [used | |]; cbn;
      try discriminate.
    destruct (ap_result _) as [receipt | e]; cbn.
    + intros [= <- _ _]. cbn. rewrite length_insert. auto.
    + unfold RevertToSnapshot. cbn. rewrite Nat.eqb_refl. cbn. intros [= <- _ _]. cbn.
      rewrite length_insert. auto.
  - intros [= <- _ _]. auto.
Qed.

(** [commitTransaction] returns whenever the header has a used-gas slot
    for this context. *)
Lemma commitTransaction_returns (env : environment) (tx : option Transaction) :
  is_Some (GasUsed (header env) !! QuaiNetworkContext) ->
  exists env' logs err, commitTransaction env tx = Done (env', (logs, err)).
Proof.
  intros [used Hused]. unfold commitTransaction, index. destruct tx as [tx |]; [| eauto].
  cbn. rewrite Hused. cbn.
  destruct (ap_result _) as [receipt | e]; cbn; [eauto |].
  unfold RevertToSnapshot. cbn. rewrite Nat.eqb_refl. cbn. eauto.
Qed.

(** One pass through the loop body that goes on: the set only loses
    transactions, and either nothing is accepted or the head of the set
    is, with its receipt, whose logs are collected. *)
Lemma commitBody_accepts (s s' : loopState) :
  commitBody s = Done (Next s') ->
  (forall tx, tx ∈ pendingOf (ls_txs s') -> tx ∈ pendingOf (ls_txs s)) /\
  uncles (ls_env s') = uncles (ls_env s) /\
  ancestors (ls_env s') = ancestors (ls_env s) /\
  family (ls_env s') = family (ls_env s) /\
  Number (header (ls_env s')) = Number (header (ls_env s)) /\
  length (GasUsed (header (ls_env s'))) = length (GasUsed (header (ls_env s))) /\
  (is_Some (gasPool (ls_env s')) <-> is_Some (gasPool (ls_env s))) /\
  ((txs (ls_env s') = txs (ls_env s) /\ receipts (ls_env s') = receipts (ls_env s) /\
    tcount (ls_env s') = tcount (ls_env s) /\ ls_logs s' = ls_logs s) \/
   (exists t r,
      Peek (ls_txs s) = Some t /\
      txs (ls_env s') = txs (ls_env s) ++ [t] /\
      receipts (ls_env s') = receipts (ls_env s) ++ [r] /\
      tcount (ls_env s') = tcount (ls_env s) + 1 /\
      ls_logs s' = ls_logs s ++ rc_logs r)).
Proof.
  unfold commitBody.
  destruct (deref (gasPool (ls_env s))) as [gp | |]; cbn -[commitTransaction];
    try discriminate.
  destruct (gp <? TxGas); [discriminate |].
  destruct (Peek (ls_txs s)) as [tx |] eqn:Hpeek; [| discriminate].
  match goal with
  | |- context [mbind _ ?m] => destruct m as [skip | |] eqn:Hskip
  end; cbn -[commitTransaction]; try discriminate.
  destruct skip.
  - intros [= <-]. cbn. split; [apply (pendingOf_applyOp OpPop) |].
    split_and!; [reflexivity .. | left; auto].
  - destruct (commitTransaction _ _) as [[env' [logs err]] | |] eqn:Hrun;
      cbn; try discriminate.
    destruct (switchOnError err) as [op committed] eqn:Hsw.
    intros [= <-]. cbn. split; [apply (pendingOf_applyOp op) |].
    destruct (commitTransaction_frame _ _ _ _ _ Hrun) as (Htc & Hu & Ha & Hf & Hgp).
    destruct (commitTransaction_header _ _ _ _ _ Hrun) as (Hn & _ & _ & Hlen).
    cbn in Htc, Hu, Ha, Hf, Hgp, Hn, Hlen.
    assert (Hc : committed = true <-> err = None).
    { change committed with (snd (op, committed)). rewrite <- Hsw.
      apply switchOnError_committed. }
    destruct (commitTransaction_appends _ _ _ _ _ Hrun)
      as [(Herr & t & r & [= <-] & Ht & Hr & Hlogs) | (Herr & Ht & Hr & Hlogs)];
      cbn in Ht, Hr.
    + assert (committed = true) as -> by tauto. cbn.
      split_and!; [assumption .. |].
      right. exists tx, r. rewrite Htc, Hlogs. auto.
    + assert (committed = false) as ->.
      { destruct committed; [| reflexivity]. destruct Herr. tauto. }
      split_and!; [assumption .. | left; auto].
Qed.

End Accepts.

Section AcceptsLoop.
Context `{Chain}.

(** The loop body returns on an environment that is ready for it. *)
Lemma commitBody_returns (s : loopState) :
  loopReady (ls_env s) -> exists it, commitBody s = Done it.
Proof.
  intros ([number Hnum] & Hused & [gp Hgp]). unfold commitBody, deref, index.
  rewrite Hgp. cbn -[commitTransaction].
  destruct (gp <? TxGas); [eauto |].
  destruct (Peek (ls_txs s)) as [tx |]; [| eauto].
  rewrite Hnum.
  destruct (commitTransaction_returns
              (set_state (ls_env s)
                 (Prepare (state (ls_env s)) (tx_hash tx) (tcount (ls_env s))))
              (Some tx) Hused) as (env' & logs & err & Hrun).
  destruct (tx_protected tx); cbn -[commitTransaction].
  - destruct (IsEIP155 number); cbn -[commitTransaction]; [| eauto].
    rewrite Hrun. cbn. destruct (switchOnError err). eauto.
  - rewrite Hrun. cbn. destruct (switchOnError err). eauto.
Qed.

Lemma commitIteration_returns (interrupt : option (nat -> Z)) (gasLimit : list Z)
    (s : loopState) :
  loopReady (ls_env s) -> is_Some (gasLimit !! QuaiNetworkContext) ->
  exists it, commitIteration interrupt gasLimit s = Done it.
Proof.
  intros Hready [limit Hlimit]. unfold commitIteration.
  destruct interrupt as [cell |]; [| now apply commitBody_returns].
  destruct (negb (cell (ls_loads s) =? commitInterruptNone)).
  - destruct Hready as (_ & _ & [gp Hgp]). unfold index, deref. rewrite Hlimit, Hgp.
    destruct (cell (S (ls_loads s)) =? commitInterruptResubmit); cbn; eauto.
  - now apply commitBody_returns.
Qed.

(** An iteration that goes on is a pass through the body on the same
    environment, set and logs. *)
Lemma commitIteration_body (interrupt : option (nat -> Z)) (gasLimit : list Z)
    (s s' : loopState) :
  commitIteration interrupt gasLimit s = Done (Next s') ->
  exists s0, ls_env s0 = ls_env s /\ ls_txs s0 = ls_txs s /\ ls_logs s0 = ls_logs s /\
             commitBody s0 = Done (Next s').
Proof.
  intros Hit. apply commitIteration_Next in Hit.
  destruct interrupt as [cell |].
  - destruct Hit as (_ & _ & Hbody).
    exists {| ls_env := ls_env s; ls_txs := ls_txs s; ls_logs := ls_logs s;
              ls_loads := S (ls_loads s) |}. auto.
  - exists s. auto.
Qed.

Lemma commitIteration_ready (interrupt : option (nat -> Z)) (gasLimit : list Z)
    (s s' : loopState) :
  commitIteration interrupt gasLimit s = Done (Next s') ->
  loopReady (ls_env s) -> loopReady (ls_env s').
Proof.
  intros Hit (Hnum & Hused & Hgp).
  apply commitIteration_body in Hit as (s0 & He & _ & _ & Hbody).
  apply commitBody_accepts in Hbody as (_ & _ & _ & _ & Hn & Hlen & Hpool & _).
  rewrite He in *. split; [now rewrite Hn |]. split; [| tauto].
  apply lookup_lt_is_Some. rewrite Hlen. now apply lookup_lt_is_Some.
Qed.

(** The loop returns when it is given more fuel than the set holds
    transactions. *)
Lemma commitLoop_returns (fuel : nat) (interrupt : option (nat -> Z)) (gasLimit : list Z)
    (s : loopState) :
  (remaining (ls_txs s) < fuel)%nat ->
  loopReady (ls_env s) -> is_Some (gasLimit !! QuaiNetworkContext) ->
  exists r, commitLoop fuel interrupt gasLimit s = Done r.
Proof.
  revert s. induction fuel as [| fuel IH]; intros s Hfuel Hready Hlimit; [lia |].
  cbn [commitLoop].
  destruct (commitIteration_returns interrupt gasLimit s Hready Hlimit) as (it & Hit).
  rewrite Hit. cbn. destruct it as [s1 | s1 | s1 sent ret]; [| eauto | eauto].
  apply IH; [| exact (commitIteration_ready _ _ _ _ Hit Hready) | exact Hlimit].
  apply commitIteration_effect in Hit. cbn in Hit. lia.
Qed.

(** What the loop accepts: transactions of the set, each with its
    receipt, counted and with their logs collected in order. *)
Lemma commitLoop_accepts (fuel : nat) (interrupt : option (nat -> Z)) (gasLimit : list Z)
    (s s' : loopState) (out : option (list intervalAdjust * bool)) :
  commitLoop fuel interrupt gasLimit s = Done (s', out) ->
  exists (newTxs : list Transaction) (newReceipts : list Receipt),
    txs (ls_env s') = txs (ls_env s) ++ newTxs /\
    receipts (ls_env s') = receipts (ls_env s) ++ newReceipts /\
    length newReceipts = length newTxs /\
    tcount (ls_env s') = tcount (ls_env s) + Z.of_nat (length newTxs) /\
    ls_logs s' = ls_logs s ++ concat (map rc_logs newReceipts) /\
    Forall (fun tx => tx ∈ pendingOf (ls_txs s)) newTxs /\
    (forall tx, tx ∈ pendingOf (ls_txs s') -> tx ∈ pendingOf (ls_txs s)) /\
    uncles (ls_env s') = uncles (ls_env s) /\
    ancestors (ls_env s') = ancestors (ls_env s) /\
    family (ls_env s') = family (ls_env s).
Proof.
  revert s. induction fuel as [| fuel IH]; intros s; cbn; [discriminate |].
  destruct (commitIteration interrupt gasLimit s) as [it | |] eqn:Hit; cbn;
    try discriminate.
  destruct it as [s1 | s1 | s1 sent ret].
  - intros Hloop.
    apply commitIteration_body in Hit as (s0 & He & Ht & Hl & Hbody).
    apply commitBody_accepts in Hbody as (Hsub & Hu & Ha & Hf & _ & _ & _ & Hstep).
    rewrite He, Ht in *. rewrite Hl in Hstep.
    destruct (IH _ Hloop) as (nt & nr & E1 & E2 & E3 & E4 & E5 & E6 & E7 & E8 & E9 & E10).
    destruct Hstep as [(St & Sr & Sc & Sl) | (t & r & Sp & St & Sr & Sc & Sl)].
    + exists nt, nr. split_and!; try congruence.
      * eapply Forall_impl; [exact E6 | auto].
      * auto.
    + exists (t :: nt), (r :: nr). split_and!.
      * rewrite E1, St, <- app_assoc. reflexivity.
      * rewrite E2, Sr, <- app_assoc. reflexivity.
      * cbn. now rewrite E3.
      * rewrite E4, Sc. cbn [length]. lia.
      * rewrite E5, Sl, <- app_assoc. reflexivity.
      * constructor; [now apply Peek_pendingOf |].
        eapply Forall_impl; [exact E6 | auto].
      * auto.
      * congruence.
      * congruence.
      * congruence.
  - intros [= <- _]. apply commitIteration_effect in Hit as (-> & -> & ->).
    exists [], []. rewrite !app_nil_r. cbn. split_and!; auto. lia.
  - intros [= <- _]. apply commitIteration_effect in Hit as (-> & -> & ->).
    exists [], []. rewrite !app_nil_r. cbn. split_and!; auto. lia.
Qed.

(** Without an interrupt cell the loop does not end at its inner
    [return]. *)
Lemma commitLoop_no_interrupt (fuel : nat) (gasLimit : list Z) (s s' : loopState)
    (out : option (list intervalAdjust * bool)) :
  commitLoop fuel None gasLimit s = Done (s', out) -> out = None.
Proof.
  revert s. induction fuel as [| fuel IH]; intros s; cbn; [discriminate |].
  destruct (commitBody s) as [it | |] eqn:Hit; cbn; try discriminate.
  destruct it as [s1 | s1 | s1 sent ret].
  - apply IH.
  - now intros [= _ <-].
  - apply commitBody_effect in Hit. destruct Hit.
Qed.

End AcceptsLoop.

Section AcceptsCall.
Context `{Chain}.

Lemma initGasPool_effect (env env0 : environment) :
  initGasPool env = Done env0 ->
  is_Some (gasPool env0) /\ header env0 = header env /\ txs env0 = txs env /\
  receipts env0 = receipts env /\ tcount env0 = tcount env /\
  uncles env0 = uncles env /\ ancestors env0 = ancestors env /\
  family env0 = family env /\ state env0 = state env.
Proof.
  unfold initGasPool. destruct (gasPool env) as [gp |] eqn:Hgp.
  - intros [= <-]. rewrite Hgp. split_and!; eauto.
  - intros Hinit. apply bind_Done in Hinit as (limit & _ & [= <-]). cbn.
    split_and!; eauto.
Qed.

(** X5: [commitTransactions] returns, whatever the transactions and the
    interrupt: on a header with slots for this context in its number, gas
    limit and used gas, the call does not panic and its loop ends within
    one pass per transaction of the set and one more; the environment
    then has a gas pool. *)
Theorem commitTransactions_returns (running : bool) (env : environment)
    (txs : TransactionsByPriceAndNonce) (interrupt : option (nat -> Z)) :
  is_Some (Number (header env) !! QuaiNetworkContext) ->
  is_Some (GasLimit (header env) !! QuaiNetworkContext) ->
  is_Some (GasUsed (header env) !! QuaiNetworkContext) ->
  exists c, commitTransactions running env txs interrupt = Done c /\
            is_Some (gasPool (cm_env c)).
Proof.
  intros Hnum Hlimit Hused. unfold commitTransactions.
  assert (Hinit : exists env0, initGasPool env = Done env0).
  { unfold initGasPool, index. destruct (gasPool env); [eauto |].
    destruct Hlimit as [limit ->]. cbn. eauto. }
  destruct Hinit as (env0 & Hinit). rewrite Hinit. cbn [mbind exec_bind].
  destruct (initGasPool_effect _ _ Hinit) as (Hgp & Hh & _).
  assert (Hready : loopReady env0) by (unfold loopReady; rewrite Hh; auto).
  destruct (commitLoop_returns (S (remaining txs)) interrupt (GasLimit (header env))
              {| ls_env := env0; ls_txs := txs; ls_logs := []; ls_loads := O |})
    as ([s out] & Hloop); [cbn; lia | exact Hready | exact Hlimit |].
  rewrite Hloop. cbn [mbind exec_bind].
  assert (Hpool : is_Some (gasPool (ls_env s))).
  { clear -Hloop Hgp.
    change env0 with (ls_env {| ls_env := env0; ls_txs := txs; ls_logs := [];
                                ls_loads := O |}) in Hgp.
    revert Hloop Hgp.
    generalize {| ls_env := env0; ls_txs := txs; ls_logs := []; ls_loads := O |}.
    induction (S (remaining txs)) as [| fuel IH]; intros s0; cbn; [discriminate |].
    destruct (commitIteration interrupt (GasLimit (header env)) s0) as [it | |] eqn:Hit;
      cbn; try discriminate.
    destruct it as [s1 | s1 | s1 sent ret].
    - intros Hloop Hgp. apply (IH _ Hloop).
      apply commitIteration_body in Hit as (s2 & He & _ & _ & Hbody).
      apply commitBody_accepts in Hbody as (_ & _ & _ & _ & _ & _ & Hp & _).
      rewrite He in Hp. tauto.
    - intros [= <- _] Hgp. apply commitIteration_effect in Hit as (-> & _). exact Hgp.
    - intros [= <- _] Hgp. apply commitIteration_effect in Hit as (-> & _). exact Hgp. }
  destruct out as [[sent ret] |]; eexists; (split; [reflexivity | exact Hpool]).
Qed.

(** X6: a call of [commitTransactions] only appends.  The accepted
    transactions after the call are those from before followed by
    transactions taken from the set, the receipts are those from before
    followed by one receipt for each of them, [tcount] has grown by their
    number, the set has only lost transactions, and the uncles, ancestors
    and family are untouched. *)
Theorem commitTransactions_accepts (running : bool) (env : environment)
    (txs0 : TransactionsByPriceAndNonce) (interrupt : option (nat -> Z)) (c : committed) :
  commitTransactions running env txs0 interrupt = Done c ->
  exists (newTxs : list Transaction) (newReceipts : list Receipt),
    txs (cm_env c) = txs env ++ newTxs /\
    receipts (cm_env c) = receipts env ++ newReceipts /\
    length newReceipts = length newTxs /\
    tcount (cm_env c) = tcount env + Z.of_nat (length newTxs) /\
    Forall (fun tx => tx ∈ pendingOf txs0) newTxs /\
    (forall tx, tx ∈ pendingOf (cm_txs c) -> tx ∈ pendingOf txs0) /\
    uncles (cm_env c) = uncles env /\
    ancestors (cm_env c) = ancestors env /\
    family (cm_env c) = family env.
Proof.
  unfold commitTransactions. intros Hrun.
  apply bind_Done in Hrun as (env0 & Hinit & Hrun).
  apply bind_Done in Hrun as ([s out] & Hloop & Hrun).
  destruct (initGasPool_effect _ _ Hinit) as (_ & _ & Ht & Hr & Hc & Hu & Ha & Hf & _).
  apply commitLoop_accepts in Hloop
    as (nt & nr & E1 & E2 & E3 & E4 & _ & E6 & E7 & E8 & E9 & E10).
  cbn in E1, E2, E4, E6, E7, E8, E9, E10.
  exists nt, nr.
  assert (cm_env c = ls_env s /\ cm_txs c = ls_txs s) as [-> ->].
  { destruct out as [[sent ret] |]; injection Hrun as <-; auto. }
  split_and!; try congruence; assumption.
Qed.

(** X7: with a nil interrupt, as from [mainLoop] on new transactions,
    [commitTransactions] sends no feedback and returns false; it sends
    the logs of the receipts it appended, in order and as one message, to
    the pending-logs feed exactly when the worker is not running and
    there is such a log. *)
Theorem commitTransactions_nil_interrupt (running : bool) (env : environment)
    (txs0 : TransactionsByPriceAndNonce) (c : committed) :
  commitTransactions running env txs0 None = Done c ->
  cm_adjusts c = [] /\ cm_ret c = false /\
  exists newReceipts : list Receipt,
    receipts (cm_env c) = receipts env ++ newReceipts /\
    cm_pendingLogs c =
      if negb running && negb (bool_decide (concat (map rc_logs newReceipts) = []))
      then [concat (map rc_logs newReceipts)] else [].
Proof.
  unfold commitTransactions. intros Hrun.
  apply bind_Done in Hrun as (env0 & Hinit & Hrun).
  apply bind_Done in Hrun as ([s out] & Hloop & Hrun).
  destruct (initGasPool_effect _ _ Hinit) as (_ & _ & _ & Hr & _).
  pose proof (commitLoop_no_interrupt _ _ _ _ _ Hloop) as ->.
  apply commitLoop_accepts in Hloop as (nt & nr & _ & E2 & _ & _ & E5 & _).
  cbn in E2, E5. injection Hrun as <-. cbn.
  split; [reflexivity |]. split; [reflexivity |].
  exists nr. split; [congruence |].
  rewrite map_id, E5. destruct (concat (map rc_logs nr)) as [| l ls]; reflexivity.
Qed.

(** X8: a call that ends at an interrupt drops the logs it collected: a
    message goes to the pending-logs feed only from a call that returns
    false and sends no increase. *)
Theorem commitTransactions_interrupted_no_logs (running : bool) (env : environment)
    (txs0 : TransactionsByPriceAndNonce) (interrupt : option (nat -> Z)) (c : committed) :
  commitTransactions running env txs0 interrupt = Done c ->
  cm_pendingLogs c <> [] ->
  running = false /\ cm_ret c = false /\
  Forall (fun adjust => inc adjust = false) (cm_adjusts c) /\
  exists newReceipts : list Receipt,
    receipts (cm_env c) = receipts env ++ newReceipts /\
    cm_pendingLogs c = [concat (map rc_logs newReceipts)].
Proof.
  unfold commitTransactions. intros Hrun.
  apply bind_Done in Hrun as (env0 & Hinit & Hrun).
  apply bind_Done in Hrun as ([s out] & Hloop & Hrun).
  destruct (initGasPool_effect _ _ Hinit) as (_ & _ & _ & Hr & _).
  apply commitLoop_accepts in Hloop as (nt & nr & _ & E2 & _ & _ & E5 & _).
  cbn in E2, E5.
  destruct out as [[sent ret] |]; injection Hrun as <-; cbn; [congruence |].
  destruct running; cbn; [congruence |].
  destruct (0 <? Z.of_nat (length (ls_logs s))); [| congruence]. intros _.
  split; [reflexivity |]. split; [reflexivity |].
  split; [destruct interrupt; repeat constructor |].
  exists nr. split; [congruence |]. now rewrite map_id, E5.
Qed.

End AcceptsCall.

(** On the small chain, the nonce ladder is run without an interrupt while
    the worker is not running: the call returns, two transactions are
    accepted and their two logs are published as one message. *)
Lemma commitTransactions_returns_witness :
  exists c, @commitTransactions simpleChain false (simpleEnv 100000) ladder None = Done c /\
            is_Some (gasPool (cm_env c)).
Proof.
  apply (@commitTransactions_returns simpleChain false (simpleEnv 100000) ladder None);
    cbn; eauto.
Defined.

Lemma commitTransactions_accepts_witness :
  exists c newTxs,
    @commitTransactions simpleChain false (simpleEnv 100000) ladder None = Done c /\
    txs (cm_env c) = txs (simpleEnv 100000) ++ newTxs /\
    tcount (cm_env c) = tcount (simpleEnv 100000) + Z.of_nat (length newTxs) /\
    Forall (fun tx => tx ∈ pendingOf ladder) newTxs.
Proof.
  pose (c := match @commitTransactions simpleChain false (simpleEnv 100000) ladder None with
             | Done c => c
             | _ => {| cm_env := simpleEnv 100000; cm_txs := []; cm_adjusts := [];
                       cm_pendingLogs := []; cm_ret := false |}
             end).
  assert (Hrun : @commitTransactions simpleChain false (simpleEnv 100000) ladder None
                 = Done c) by (vm_compute; reflexivity).
  destruct (@commitTransactions_accepts simpleChain _ _ _ _ _ Hrun)
    as (nt & nr & E1 & _ & _ & E4 & E6 & _).
  exists c, nt. auto.
Defined.

Lemma commitTransactions_nil_interrupt_witness :
  exists c,
    @commitTransactions simpleChain false (simpleEnv 100000) ladder None = Done c /\
    cm_adjusts c = [] /\ cm_ret c = false /\ length (cm_pendingLogs c) = 1%nat.
Proof.
  pose (c := match @commitTransactions simpleChain false (simpleEnv 100000) ladder None with
             | Done c => c
             | _ => {| cm_env := simpleEnv 100000; cm_txs := []; cm_adjusts := [];
                       cm_pendingLogs := []; cm_ret := false |}
             end).
  assert (Hrun : @commitTransactions simpleChain false (simpleEnv 100000) ladder None
                 = Done c) by (vm_compute; reflexivity).
  destruct (@commitTransactions_nil_interrupt simpleChain _ _ _ _ Hrun)
    as (E1 & E2 & _).
  exists c. split; [exact Hrun |]. split; [exact E1 |]. split; [exact E2 |].
  vm_compute. reflexivity.
Defined.

Lemma commitTransactions_interrupted_no_logs_witness :
  exists c,
    @commitTransactions simpleChain false (simpleEnv 100000) ladder None = Done c /\
    cm_pendingLogs c <> [] /\ cm_ret c = false.
Proof.
  pose (c := match @commitTransactions simpleChain false (simpleEnv 100000) ladder None with
             | Done c => c
             | _ => {| cm_env := simpleEnv 100000; cm_txs := []; cm_adjusts := [];
                       cm_pendingLogs := []; cm_ret := false |}
             end).
  assert (Hrun : @commitTransactions simpleChain false (simpleEnv 100000) ladder None
                 = Done c) by (vm_compute; reflexivity).
  assert (Hlogs : cm_pendingLogs c <> []) by (vm_compute; discriminate).
  destruct (@commitTransactions_interrupted_no_logs simpleChain _ _ _ _ _ Hrun Hlogs)
    as (_ & E2 & _).
  exists c. auto.
Defined.

(** ** The stop channels and the table of the seal dispatcher *)

Section TaskLoop.
Context `{Chain}.

Lemma taskLoop_run_snoc (d : dispatcher) (ts : list task) (t : task) :
  taskLoop_run d (ts ++ [t]) = taskLoop_task (taskLoop_run d ts) t.
Proof. unfold taskLoop_run. now rewrite fold_left_app. Qed.

(** X9: [taskLoop] keeps one sealing operation in flight.  After any
    number of tasks, the stop channels made are numbered from 0, one per
    task; the one made for the last task is the stop channel in use and is
    open, and all the earlier ones are closed, so [interrupt] never closes
    a channel twice.  At exit the last one is closed too and no stop
    channel is in use. *)
Theorem taskLoop_stop_channels (ts : list task) :
  let d := taskLoop_run taskLoop_init ts in
  d_made d = length ts /\
  d_stopCh d = match ts with [] => None | _ => Some (pred (length ts)) end /\
  (forall ch : nat, ch ∈ d_closed d <-> (S ch < length ts)%nat) /\
  (forall ch : nat, d_stopCh d = Some ch -> ch ∉ d_closed d) /\
  d_stopCh (taskLoop_exit d) = None /\
  (forall ch : nat, ch ∈ d_closed (taskLoop_exit d) <-> (ch < length ts)%nat).
Proof.
  cbn zeta.
  assert (Hinv : d_made (taskLoop_run taskLoop_init ts) = length ts /\
                 d_stopCh (taskLoop_run taskLoop_init ts)
                 = match ts with [] => None | _ => Some (pred (length ts)) end /\
                 (forall ch : nat, ch ∈ d_closed (taskLoop_run taskLoop_init ts)
                                   <-> (S ch < length ts)%nat)).
  { induction ts as [| t ts IH] using rev_ind.
    - cbn. split; [reflexivity |]. split; [reflexivity |].
      intros ch. rewrite elem_of_empty. lia.
    - rewrite taskLoop_run_snoc. destruct IH as (Hmade & Hstop & Hclosed).
      set (d := taskLoop_run taskLoop_init ts) in *. clearbody d.
      rewrite length_app. cbn [length].
      assert (Hd : taskLoop_task d t =
                   let d1 := taskLoop_interrupt
                               (if decide (SealHash (b_header (t_block t)) = d_prev d)
                                then {| d_stopCh := d_stopCh d; d_prev := d_prev d;
                                        d_pendingTasks := d_pendingTasks d;
                                        d_closed := d_closed d; d_made := d_made d;
                                        d_logged := d_logged d ++
                                          ["sealHash == prev, continuing with sending task to pending channel"] |}
                                else d) in
                   {| d_stopCh := Some (d_made d1);
                      d_prev := SealHash (b_header (t_block t));
                      d_pendingTasks := <[SealHash (b_header (t_block t)) := t]>
                                          (d_pendingTasks d1);
                      d_closed := d_closed d1; d_made := S (d_made d1);
                      d_logged := d_logged d1 |}) by reflexivity.
      rewrite Hd. clear Hd. cbn zeta.
      assert (Hint : forall d0 : dispatcher,
                d_stopCh d0 = d_stopCh d -> d_closed d0 = d_closed d ->
                d_made d0 = d_made d ->
                d_made (taskLoop_interrupt d0) = length ts /\
                forall ch, ch ∈ d_closed (taskLoop_interrupt d0) <-> (ch < length ts)%nat).
      { intros d0 E1 E2 E3. unfold taskLoop_interrupt. rewrite E1, Hstop.
        destruct ts as [| t0 ts0]; cbn [d_made d_closed].
        - rewrite E2, E3. split; [exact Hmade |]. intros ch. rewrite Hclosed. cbn. lia.
        - rewrite E2, E3. split; [exact Hmade |]. intros ch.
          rewrite elem_of_union, elem_of_singleton, Hclosed. cbn [length pred]. lia. }
      destruct (decide (SealHash (b_header (t_block t)) = d_prev d)).
      + match goal with
        | |- context [taskLoop_interrupt ?d0] =>
            destruct (Hint d0 eq_refl eq_refl eq_refl) as [Hm Hc]
        end. cbn [d_made d_stopCh d_closed].
        rewrite Hm. split; [lia |]. split.
        * destruct ts; cbn; f_equal; lia.
        * intros ch. rewrite Hc. lia.
      + destruct (Hint d eq_refl eq_refl eq_refl) as [Hm Hc]. cbn [d_made d_stopCh d_closed].
        rewrite Hm. split; [lia |]. split.
        * destruct ts; cbn; f_equal; lia.
        * intros ch. rewrite Hc. lia. }
  destruct Hinv as (Hmade & Hstop & Hclosed).
  split; [exact Hmade |]. split; [exact Hstop |]. split; [exact Hclosed |].
  split.
  { intros ch Hch. rewrite Hclosed. rewrite Hstop in Hch.
    destruct ts; [discriminate |]. injection Hch as <-. cbn. lia. }
  unfold taskLoop_exit, taskLoop_interrupt. rewrite Hstop.
  destruct ts as [| t0 ts0]; cbn [d_stopCh d_closed].
  - split; [exact Hstop |]. intros ch. rewrite Hclosed. cbn. lia.
  - split; [reflexivity |]. intros ch.
    rewrite elem_of_union, elem_of_singleton, Hclosed. cbn [length pred]. lia.
Qed.

End TaskLoop.

(** ** Pruning stale tasks and side blocks *)

Section Stale.
Context `{Chain}.

(** The test of the sweeps on a block whose header has a number. *)
Lemma NumberU64_slot (b : Block) (n : Z) :
  Number (b_header b) !! QuaiNetworkContext = Some n ->
  NumberU64 b = Done (wrap64 n).
Proof. intros Hn. unfold NumberU64, index. rewrite Hn. reflexivity. Qed.

Lemma deleteStale_lookup {A : Type} (block : A -> Block) (head : Z)
    (entries : list (Hash * A)) (table : gmap Hash A) :
  Forall (fun e => is_Some (Number (b_header (block (snd e))) !! QuaiNetworkContext)) entries ->
  exists table',
    deleteStale block (Done head) entries table = Done table' /\
    forall k a,
      table' !! k = Some a <->
      table !! k = Some a /\
      ~ Exists (fun e => fst e = k /\
                  exists n, Number (b_header (block (snd e))) !! QuaiNetworkContext = Some n /\
                            wrap64 (wrap64 n + staleThreshold) <= head) entries.
Proof.
  intros Hslots. revert table.
  induction Hslots as [|[h a] rest [n Hn] _ IH]; intros table.
  - exists table. split; [reflexivity|]. intros k a. rewrite Exists_nil. tauto.
  - cbn [deleteStale]. cbn [snd] in Hn. rewrite (NumberU64_slot _ _ Hn).
    cbn [mbind exec_bind].
    destruct (IH (if wrap64 (wrap64 n + staleThreshold) <=? head then delete h table else table))
      as (table' & Hrun & Hlook).
    exists table'. split; [exact Hrun|].
    intros k b. rewrite Hlook, Exists_cons. cbn [fst snd].
    destruct (Z.leb_spec (wrap64 (wrap64 n + staleThreshold)) head) as [Hle|Hgt].
    + destruct (decide (h = k)) as [->|Hne].
      * rewrite lookup_delete_eq. split; [intros [? _]; discriminate|].
        intros [_ Hno]. exfalso. apply Hno. left. split; [reflexivity|]. eauto.
      * rewrite lookup_delete_ne by exact Hne. split.
        -- intros [Hk Hno]. split; [exact Hk|]. intros [[Heq _]|Hex]; [contradiction|tauto].
        -- intros [Hk Hno]. split; [exact Hk|]. intros Hex. apply Hno. right. exact Hex.
    + split.
      * intros [Hk Hno]. split; [exact Hk|].
        intros [[_ (n' & Hn' & Hle)]|Hex]; [|tauto].
        rewrite Hn in Hn'. injection Hn' as <-. lia.
      * intros [Hk Hno]. split; [exact Hk|]. intros Hex. apply Hno. right. exact Hex.
Qed.

(** A sweep over the entries of the table itself keeps exactly the
    entries that are not stale, in whatever order it visits them. *)
Lemma deleteStale_range {A : Type} (block : A -> Block) (head : Z)
    (entries : list (Hash * A)) (table : gmap Hash A) :
  entries ≡ₚ map_to_list table ->
  (forall h a, table !! h = Some a ->
     is_Some (Number (b_header (block a)) !! QuaiNetworkContext)) ->
  exists table',
    deleteStale block (Done head) entries table = Done table' /\
    forall h a,
      table' !! h = Some a <->
      table !! h = Some a /\
      exists n, Number (b_header (block a)) !! QuaiNetworkContext = Some n /\
                head < wrap64 (wrap64 n + staleThreshold).
Proof.
  intros Hperm Hslots.
  assert (Hin : forall h a, (h, a) ∈ entries <-> table !! h = Some a).
  { intros h a. rewrite Hperm. apply elem_of_map_to_list. }
  destruct (deleteStale_lookup block head entries table) as (table' & Hrun & Hlook).
  { apply Forall_forall. intros [h a] Hel. apply Hin in Hel. cbn. eauto. }
  exists table'. split; [exact Hrun|].
  intros h a. rewrite Hlook. split.
  - intros [Hk Hno]. split; [exact Hk|].
    destruct (Hslots _ _ Hk) as [n Hn]. exists n. split; [exact Hn|].
    destruct (Z.lt_ge_cases head (wrap64 (wrap64 n + staleThreshold))) as [|Hle]; [assumption|].
    exfalso. apply Hno. apply Exists_exists. exists (h, a). split; [|cbn; eauto].
    apply Hin. exact Hk.
  - intros [Hk (n & Hn & Hlt)]. split; [exact Hk|].
    intros Hex. apply Exists_exists in Hex as ([h' a'] & Hel & Heq & n' & Hn' & Hle).
    cbn in Heq, Hn'. subst h'. apply Hin in Hel. rewrite Hk in Hel. injection Hel as <-.
    rewrite Hn in Hn'. injection Hn' as <-. lia.
Qed.

(** X11: [clearPending] deletes exactly the stale tasks: whatever the
    order in which the table is ranged over, a task is in the table
    afterwards if and only if it was there before and the head number is
    below its block number plus 7, the sum taken in [uint64]; no task is
    added or changed.  For a block number that does not overflow, the
    task stays while the head is less than 7 blocks past it. *)
Theorem clearPending_keeps_fresh (entries : list (Hash * task))
    (pendingTasks : gmap Hash task) (number : Z) :
  entries ≡ₚ map_to_list pendingTasks ->
  (forall h t, pendingTasks !! h = Some t ->
     is_Some (Number (b_header (t_block t)) !! QuaiNetworkContext)) ->
  exists tasks',
    clearPending entries pendingTasks number = Done tasks' /\
    (forall h t,
       tasks' !! h = Some t <->
       pendingTasks !! h = Some t /\
       exists n, Number (b_header (t_block t)) !! QuaiNetworkContext = Some n /\
                 number < wrap64 (wrap64 n + staleThreshold)) /\
    (forall h t n,
       pendingTasks !! h = Some t ->
       Number (b_header (t_block t)) !! QuaiNetworkContext = Some n ->
       0 <= n < 2 ^ 64 - staleThreshold ->
       (tasks' !! h = Some t <-> number - n < staleThreshold)).
Proof.
  intros Hperm Hslots.
  destruct (deleteStale_range t_block number entries pendingTasks Hperm Hslots)
    as (tasks' & Hrun & Hlook).
  exists tasks'. split; [exact Hrun|]. split; [exact Hlook|].
  intros h t n Hk Hn Hrange. rewrite Hlook.
  assert (Hw : wrap64 (wrap64 n + staleThreshold) = n + staleThreshold).
  { unfold wrap64, staleThreshold in *. rewrite Zplus_mod_idemp_l.
    apply Z.mod_small. lia. }
  split.
  - intros [_ (n' & Hn' & Hlt)]. rewrite Hn in Hn'. injection Hn' as <-. lia.
  - intros Hlt. split; [exact Hk|]. exists n. split; [exact Hn|]. lia.
Qed.

(** X12: The periodic sweep of [mainLoop] keeps in each pool exactly
    the side blocks that are not stale against the current block, in
    whatever order the pools are ranged over, and touches nothing else of
    the worker. *)
Theorem mainLoop_clean_pools (chainHead : Block) (number : Z)
    (locals remotes : list (Hash * Block)) (w : mainLoopState) :
  locals ≡ₚ map_to_list (w_localUncles w) ->
  remotes ≡ₚ map_to_list (w_remoteUncles w) ->
  (forall h uncle,
     w_localUncles w !! h = Some uncle \/ w_remoteUncles w !! h = Some uncle ->
     is_Some (Number (b_header uncle) !! QuaiNetworkContext)) ->
  Number (b_header chainHead) !! QuaiNetworkContext = Some number ->
  exists w',
    mainLoop_clean (Some chainHead) locals remotes w = Done w' /\
    w_current w' = w_current w /\ w_newTxs w' = w_newTxs w /\
    (forall h uncle,
       w_localUncles w' !! h = Some uncle <->
       w_localUncles w !! h = Some uncle /\
       exists n, Number (b_header uncle) !! QuaiNetworkContext = Some n /\
                 wrap64 number < wrap64 (wrap64 n + staleThreshold)) /\
    (forall h uncle,
       w_remoteUncles w' !! h = Some uncle <->
       w_remoteUncles w !! h = Some uncle /\
       exists n, Number (b_header uncle) !! QuaiNetworkContext = Some n /\
                 wrap64 number < wrap64 (wrap64 n + staleThreshold)).
Proof.
  intros Hlocals Hremotes Hslots Hhead. unfold mainLoop_clean.
  cbn [deref mbind exec_bind]. rewrite (NumberU64_slot _ _ Hhead).
  destruct (deleteStale_range (fun uncle : Block => uncle) (wrap64 number) locals
              (w_localUncles w) Hlocals) as (l' & -> & Hl); [eauto|].
  destruct (deleteStale_range (fun uncle : Block => uncle) (wrap64 number) remotes
              (w_remoteUncles w) Hremotes) as (r' & -> & Hr); [eauto|].
  cbn [mbind exec_bind]. eexists. split; [reflexivity|]. cbn. auto.
Qed.

(** X13: The sweep dereferences the current block only when it tests a
    side block: with no current block it leaves a worker with two empty
    pools alone and panics with a nil dereference as soon as one pool
    holds a side block. *)
Theorem mainLoop_clean_no_head (locals remotes : list (Hash * Block)) (w : mainLoopState) :
  locals ≡ₚ map_to_list (w_localUncles w) ->
  remotes ≡ₚ map_to_list (w_remoteUncles w) ->
  (forall h uncle,
     w_localUncles w !! h = Some uncle \/ w_remoteUncles w !! h = Some uncle ->
     is_Some (Number (b_header uncle) !! QuaiNetworkContext)) ->
  mainLoop_clean None locals remotes w =
    if decide (w_localUncles w = ∅ /\ w_remoteUncles w = ∅)
    then Done w else Panic "nil pointer dereference".
Proof.
  intros Hlocals Hremotes Hslots. unfold mainLoop_clean. cbn [deref mbind exec_bind].
  assert (Hsweep : forall entries (table : gmap Hash Block),
            entries ≡ₚ map_to_list table ->
            (forall h uncle, table !! h = Some uncle ->
               is_Some (Number (b_header uncle) !! QuaiNetworkContext)) ->
            deleteStale (fun uncle : Block => uncle) (Panic "nil pointer dereference")
              entries table =
            if decide (table = ∅) then Done table else Panic "nil pointer dereference").
  { intros entries table Hperm Hs. destruct entries as [|[h uncle] rest].
    - apply Permutation_nil in Hperm.
      apply map_to_list_empty_iff in Hperm. subst table.
      rewrite decide_True by reflexivity. reflexivity.
    - assert (Hk : table !! h = Some uncle).
      { apply elem_of_map_to_list. rewrite <- Hperm. left. }
      rewrite decide_False by (intros ->; rewrite lookup_empty in Hk; discriminate).
      destruct (Hs _ _ Hk) as [n Hn]. cbn [deleteStale].
      rewrite (NumberU64_slot _ _ Hn). reflexivity. }
  rewrite (Hsweep _ _ Hlocals) by eauto.
  destruct (decide (w_localUncles w = ∅)) as [Hl|Hl]; cbn [mbind exec_bind].
  - rewrite (Hsweep _ _ Hremotes) by eauto.
    destruct (decide (w_remoteUncles w = ∅)) as [Hr|Hr]; cbn [mbind exec_bind].
    + rewrite decide_True by auto. destruct w; reflexivity.
    + rewrite decide_False by tauto. reflexivity.
  - rewrite decide_False by tauto. reflexivity.
Qed.

End Stale.

Lemma clearPending_keeps_fresh_witness :
  let pendingTasks : gmap Hash task := {[ 3%N := simpleTask 3; 9%N := simpleTask 9 ]} in
  exists tasks',
    @clearPending simpleChain (map_to_list pendingTasks) pendingTasks 10 = Done tasks' /\
    (forall h t,
       tasks' !! h = Some t <->
       pendingTasks !! h = Some t /\
       exists n, Number (b_header (t_block t)) !! @QuaiNetworkContext simpleChain = Some n /\
                 10 < wrap64 (wrap64 n + staleThreshold)) /\
    (forall h t n,
       pendingTasks !! h = Some t ->
       Number (b_header (t_block t)) !! @QuaiNetworkContext simpleChain = Some n ->
       0 <= n < 2 ^ 64 - staleThreshold ->
       (tasks' !! h = Some t <-> 10 - n < staleThreshold)).
Proof.
  intros pendingTasks.
  apply (@clearPending_keeps_fresh simpleChain (map_to_list pendingTasks) pendingTasks 10).
  - reflexivity.
  - intros h t Hk. apply lookup_insert_Some in Hk as [[_ <-]|[_ Hk]].
    + cbn. eauto.
    + apply lookup_singleton_Some in Hk as [_ <-]. cbn. eauto.
Defined.

Lemma mainLoop_clean_pools_witness :
  exists w',
    @mainLoop_clean simpleChain (Some (simpleBlock 9%N 10 100))
      (map_to_list (w_localUncles simpleWorker))
      (map_to_list (w_remoteUncles simpleWorker)) simpleWorker = Done w' /\
    w_current w' = w_current simpleWorker /\ w_newTxs w' = w_newTxs simpleWorker /\
    (forall h uncle,
       w_localUncles w' !! h = Some uncle <->
       w_localUncles simpleWorker !! h = Some uncle /\
       exists n, Number (b_header uncle) !! @QuaiNetworkContext simpleChain = Some n /\
                 wrap64 10 < wrap64 (wrap64 n + staleThreshold)) /\
    (forall h uncle,
       w_remoteUncles w' !! h = Some uncle <->
       w_remoteUncles simpleWorker !! h = Some uncle /\
       exists n, Number (b_header uncle) !! @QuaiNetworkContext simpleChain = Some n /\
                 wrap64 10 < wrap64 (wrap64 n + staleThreshold)).
Proof.
  apply (@mainLoop_clean_pools simpleChain (simpleBlock 9%N 10 100) 10
           (map_to_list (w_localUncles simpleWorker))
           (map_to_list (w_remoteUncles simpleWorker)) simpleWorker).
  - reflexivity.
  - reflexivity.
  - intros h uncle [Hk|Hk]; cbn [simpleWorker w_localUncles w_remoteUncles] in Hk; unfold simpleWorker in Hk; cbn [w_localUncles w_remoteUncles] in Hk; apply lookup_singleton_Some in Hk as [_ <-]; cbn; eauto.
  - reflexivity.
Defined.

Lemma mainLoop_clean_no_head_witness :
  @mainLoop_clean simpleChain None
    (map_to_list (w_localUncles simpleWorker))
    (map_to_list (w_remoteUncles simpleWorker)) simpleWorker =
  if decide (w_localUncles simpleWorker = ∅ /\ w_remoteUncles simpleWorker = ∅)
  then Done simpleWorker else Panic "nil pointer dereference".
Proof.
  apply (@mainLoop_clean_no_head simpleChain
           (map_to_list (w_localUncles simpleWorker))
           (map_to_list (w_remoteUncles simpleWorker)) simpleWorker).
  - reflexivity.
  - reflexivity.
  - intros h uncle [Hk|Hk]; cbn [simpleWorker w_localUncles w_remoteUncles] in Hk; unfold simpleWorker in Hk; cbn [w_localUncles w_remoteUncles] in Hk; apply lookup_singleton_Some in Hk as [_ <-]; cbn; eauto.
Defined.

(** ** The shared table of pending tasks *)

Section PendingTasks.
Context `{Chain}.

Lemma taskLoop_task_table (d : dispatcher) (t : task) :
  d_pendingTasks (taskLoop_task d t)
  = <[SealHash (b_header (t_block t)) := t]> (d_pendingTasks d) /\
  d_prev (taskLoop_task d t) = SealHash (b_header (t_block t)).
Proof.
  unfold taskLoop_task, taskLoop_interrupt.
  destruct (decide (SealHash (b_header (t_block t)) = d_prev d));
    cbn; destruct (d_stopCh d); auto.
Qed.

Lemma taskLoop_shared_app (d : dispatcher) (evs evs' : list tableEvent) :
  taskLoop_shared d (evs ++ evs') = d' ← taskLoop_shared d evs; taskLoop_shared d' evs'.
Proof.
  revert d. induction evs as [| ev rest IH]; intros d; cbn; [reflexivity |].
  destruct (taskLoop_shared_step d ev) as [d1 | |]; cbn; [apply IH | reflexivity ..].
Qed.

(** One event on a table in order. *)
Lemma taskLoop_shared_step_effect (d : dispatcher) (ev : tableEvent) :
  tableOk d -> tableEventOk ev ->
  exists d',
    taskLoop_shared_step d ev = Done d' /\ tableOk d' /\
    match ev with
    | Tb_task t =>
        d_pendingTasks d' = <[SealHash (b_header (t_block t)) := t]> (d_pendingTasks d) /\
        d_prev d' = SealHash (b_header (t_block t))
    | Tb_clear _ number =>
        d_prev d' = d_prev d /\
        forall h t,
          d_pendingTasks d' !! h = Some t <->
          d_pendingTasks d !! h = Some t /\
          exists n, Number (b_header (t_block t)) !! QuaiNetworkContext = Some n /\
                    number < wrap64 (wrap64 n + staleThreshold)
    end.
Proof.
  intros Hok Hev. destruct ev as [t | range number]; cbn [taskLoop_shared_step].
  - destruct (taskLoop_task_table d t) as [Ht Hp].
    eexists. split; [reflexivity |]. split; [| auto].
    intros h t'. rewrite Ht. intros Hk.
    apply lookup_insert_Some in Hk as [[<- <-] | [_ Hk]]; [auto | exact (Hok _ _ Hk)].
  - destruct (deleteStale_range t_block number (range (d_pendingTasks d))
                (d_pendingTasks d) (Hev _)) as (tasks' & Hrun & Hlook).
    { intros h t Hk. exact (proj2 (Hok _ _ Hk)). }
    unfold clearPending. rewrite Hrun. cbn [mbind exec_bind].
    eexists. split; [reflexivity |]. cbn. split; [| auto].
    intros h t Hk. apply Hlook in Hk as [Hk _]. exact (Hok _ _ Hk).
Qed.

(** The events on a table in order run to the end, and leave under a
    seal hash for which no task arrives what was there, if no sweep has
    found it stale. *)
Lemma taskLoop_shared_keeps (evs : list tableEvent) :
  forall d : dispatcher,
    tableOk d -> Forall tableEventOk evs ->
    exists d',
      taskLoop_shared d evs = Done d' /\ tableOk d' /\
      (tasksOf evs = [] -> d_prev d' = d_prev d) /\
      (forall t, last (tasksOf evs) = Some t ->
                 d_prev d' = SealHash (b_header (t_block t))) /\
      forall h,
        Forall (fun ev => match ev with
                          | Tb_task t' => SealHash (b_header (t_block t')) <> h
                          | Tb_clear _ _ => True
                          end) evs ->
        forall t,
          d_pendingTasks d' !! h = Some t <->
          d_pendingTasks d !! h = Some t /\
          exists n, Number (b_header (t_block t)) !! QuaiNetworkContext = Some n /\
                    Forall (fun ev => match ev with
                                      | Tb_task _ => True
                                      | Tb_clear _ number =>
                                          number < wrap64 (wrap64 n + staleThreshold)
                                      end) evs.
Proof.
  induction evs as [| ev rest IH]; intros d Hok Hall.
  - exists d. split; [reflexivity |]. split; [exact Hok |]. split; [auto |].
    split; [discriminate |]. intros h _ t. split.
    + intros Hk. split; [exact Hk |]. destruct (Hok _ _ Hk) as [_ [n Hn]]. eauto.
    + tauto.
  - inversion Hall as [| ? ? Hev Hrest]; subst.
    destruct (taskLoop_shared_step_effect d ev Hok Hev) as (d1 & Hstep & Hok1 & Heff).
    destruct (IH d1 Hok1 Hrest) as (d' & Hrun & Hok' & Hprev0 & Hprev & Hkeep).
    exists d'. cbn [taskLoop_shared]. rewrite Hstep. cbn [mbind exec_bind].
    split; [exact Hrun |]. split; [exact Hok' |].
    destruct ev as [t0 | range number].
    + destruct Heff as [Htab Hp1]. split; [discriminate |]. split.
      * change (tasksOf (Tb_task t0 :: rest)) with (t0 :: tasksOf rest).
        destruct (tasksOf rest) as [| t1 ts] eqn:Hts.
        -- intros t [= <-]. rewrite Hprev0 by reflexivity. exact Hp1.
        -- intros t Hlast. apply Hprev. rewrite <- Hlast. reflexivity.
      * intros h Hno t. inversion Hno as [| ? ? Hne Hno']; subst.
        rewrite (Hkeep h Hno' t), Htab, lookup_insert_ne by exact Hne.
        split; intros [Hk (n & Hn & Hfresh)]; (split; [exact Hk |]); exists n;
          (split; [exact Hn |]).
        -- constructor; [exact I | exact Hfresh].
        -- now inversion Hfresh.
    + destruct Heff as [Hp1 Hlook].
      change (tasksOf (Tb_clear range number :: rest)) with (tasksOf rest).
      split; [intros Hts; rewrite Hprev0 by exact Hts; exact Hp1 |].
      split; [exact Hprev |].
      intros h Hno t. inversion Hno as [| ? ? _ Hno']; subst.
      rewrite (Hkeep h Hno' t), Hlook. split.
      * intros [[Hk (n & Hn & Hlt)] (n' & Hn' & Hfresh)].
        split; [exact Hk |]. exists n. split; [exact Hn |].
        rewrite Hn in Hn'. injection Hn' as <-. constructor; assumption.
      * intros [Hk (n & Hn & Hfresh)]. inversion Hfresh as [| ? ? Hlt Hfresh']; subst.
        split; [split; [exact Hk |] |]; eauto.
Qed.

(** X10: the table of pending tasks is written by [taskLoop] and swept
    by [clearPending]; over any interleaving of the two, for tasks with
    numbered blocks, neither panics, and the table holds under the seal
    hash of a task that no later task shares exactly that task, as long
    as no later sweep came with a head number at or above its block
    number plus 7, in [uint64], and nothing once one did; it holds
    nothing under a seal hash that no task had, every task in it is
    filed under its own seal hash, and [prev] is the seal hash of the
    last task received. *)
Theorem taskLoop_pendingTasks_last (evs : list tableEvent) :
  Forall tableEventOk evs ->
  exists d,
    taskLoop_shared taskLoop_init evs = Done d /\
    (forall before t after,
       evs = before ++ Tb_task t :: after ->
       Forall (fun ev => match ev with
                         | Tb_task t' => SealHash (b_header (t_block t'))
                                         <> SealHash (b_header (t_block t))
                         | Tb_clear _ _ => True
                         end) after ->
       exists n,
         Number (b_header (t_block t)) !! QuaiNetworkContext = Some n /\
         (Forall (fun ev => match ev with
                            | Tb_task _ => True
                            | Tb_clear _ number =>
                                number < wrap64 (wrap64 n + staleThreshold)
                            end) after ->
          d_pendingTasks d !! SealHash (b_header (t_block t)) = Some t) /\
         (Exists (fun ev => match ev with
                            | Tb_task _ => False
                            | Tb_clear _ number =>
                                wrap64 (wrap64 n + staleThreshold) <= number
                            end) after ->
          d_pendingTasks d !! SealHash (b_header (t_block t)) = None)) /\
    (forall h,
       Forall (fun ev => match ev with
                         | Tb_task t' => SealHash (b_header (t_block t')) <> h
                         | Tb_clear _ _ => True
                         end) evs ->
       d_pendingTasks d !! h = None) /\
    (forall h t, d_pendingTasks d !! h = Some t -> h = SealHash (b_header (t_block t))) /\
    (forall t, last (tasksOf evs) = Some t -> d_prev d = SealHash (b_header (t_block t))).
Proof.
  intros Hall.
  assert (Hinit : tableOk taskLoop_init).
  { intros h t Hk. cbn in Hk. rewrite lookup_empty in Hk. discriminate. }
  destruct (taskLoop_shared_keeps evs taskLoop_init Hinit Hall)
    as (d & Hrun & Hok & _ & Hprev & Hkeep).
  exists d. split; [exact Hrun |]. split_and!.
  - intros before t after -> Hno.
    apply Forall_app in Hall as [Hbefore Hafter].
    inversion Hafter as [| ? ? Ht Hafter']; subst.
    destruct Ht as [n Hn]. exists n. split; [exact Hn |].
    rewrite taskLoop_shared_app in Hrun.
    apply bind_Done in Hrun as (d1 & Hrun1 & Hrun).
    cbn [taskLoop_shared taskLoop_shared_step mbind exec_bind] in Hrun.
    destruct (taskLoop_shared_keeps before taskLoop_init Hinit Hbefore)
      as (d1' & Hrun1' & Hok1 & _).
    rewrite Hrun1 in Hrun1'. injection Hrun1' as <-.
    assert (Hok2 : tableOk (taskLoop_task d1 t)).
    { destruct (taskLoop_shared_step_effect d1 (Tb_task t) Hok1 (ex_intro _ n Hn))
        as (d2 & [= <-] & Hok2 & _). exact Hok2. }
    destruct (taskLoop_shared_keeps after (taskLoop_task d1 t) Hok2 Hafter')
      as (d' & Hrun' & _ & _ & _ & Hkeep').
    rewrite Hrun in Hrun'. injection Hrun' as <-.
    specialize (Hkeep' _ Hno).
    destruct (taskLoop_task_table d1 t) as [Htab _].
    assert (Hin : d_pendingTasks (taskLoop_task d1 t) !! SealHash (b_header (t_block t))
                  = Some t) by (rewrite Htab; apply lookup_insert_eq).
    split.
    + intros Hfresh. apply Hkeep'. split; [exact Hin |]. eauto.
    + intros Hstale.
      assert (Hnone : forall t', d_pendingTasks d !! SealHash (b_header (t_block t))
                                 = Some t' -> False);
        [| destruct (d_pendingTasks d !! SealHash (b_header (t_block t))) as [t' |];
           [exfalso; eapply Hnone; reflexivity | reflexivity]].
      intros t' Hk.
      apply Hkeep' in Hk as [Hk (n' & Hn' & Hfresh)].
      rewrite Hin in Hk. injection Hk as <-. rewrite Hn in Hn'. injection Hn' as <-.
      apply Exists_exists in Hstale as (ev & Hev & Hge).
      rewrite Forall_forall in Hfresh. specialize (Hfresh ev Hev).
      destruct ev; [contradiction | lia].
  - intros h Hno.
    assert (Hnone : forall t, d_pendingTasks d !! h = Some t -> False);
      [| destruct (d_pendingTasks d !! h) as [t |];
         [exfalso; eapply Hnone; reflexivity | reflexivity]].
    intros t Hk.
    apply (Hkeep h Hno) in Hk as [Hk _]. cbn in Hk. rewrite lookup_empty in Hk.
    discriminate.
  - intros h t Hk. exact (proj1 (Hok _ _ Hk)).
  - exact Hprev.
Qed.

End PendingTasks.

Lemma taskLoop_pendingTasks_last_witness :
  let evs := [Tb_task (simpleTask 3); Tb_clear map_to_list 5; Tb_task (simpleTask 9);
              Tb_clear map_to_list 12] in
  exists d,
    @taskLoop_shared simpleChain taskLoop_init evs = Done d /\
    d_pendingTasks d !! 9%N = Some (simpleTask 9) /\
    d_pendingTasks d !! 3%N = None /\
    d_prev d = 9%N.
Proof.
  intros evs.
  destruct (@taskLoop_pendingTasks_last simpleChain evs)
    as (d & Hrun & Hlast & _ & _ & Hprev).
  { repeat constructor; cbn; eauto. }
  exists d. split; [exact Hrun |].
  destruct (Hlast [Tb_task (simpleTask 3); Tb_clear map_to_list 5] (simpleTask 9)
              [Tb_clear map_to_list 12] eq_refl) as (n9 & Hn9 & H9 & _).
  { repeat constructor. }
  destruct (Hlast [] (simpleTask 3)
              [Tb_clear map_to_list 5; Tb_task (simpleTask 9); Tb_clear map_to_list 12]
              eq_refl) as (n3 & Hn3 & _ & H3).
  { repeat constructor. cbn. discriminate. }
  injection Hn9 as <-. injection Hn3 as <-.
  split; [| split; [| exact (Hprev _ eq_refl)]].
  - apply H9. repeat constructor.
  - apply H3. right. right. left. vm_compute. discriminate.
Defined.

(** ** The uncles of a new work *)

Section Uncles.
Context `{Chain}.

Lemma CopyHeader_id (h : Header) : CopyHeader h = h.
Proof. destruct h; reflexivity. Qed.

Lemma set_uncles_id (env : environment) : set_uncles env (uncles env) = env.
Proof. destruct env; reflexivity. Qed.

(** The outcome of a call of [commitUncle] that returns: the uncle is
    added under its hash when it is new and fits, and the work is left as
    it is otherwise. *)
Lemma commitUncle_Done (env env' : environment) (uncle : Header) (err : option error) :
  commitUncle env uncle = Done (env', err) ->
  (err = None /\ uncles env !! HeaderHash uncle = None /\ uncleFits env uncle /\
   env' = set_uncles env (<[HeaderHash uncle := uncle]> (uncles env))) \/
  (err <> None /\ env' = env /\
   (is_Some (uncles env !! HeaderHash uncle) \/ ~ uncleFits env uncle)).
Proof.
  unfold commitUncle, index.
  destruct (decide (is_Some (uncles env !! HeaderHash uncle))) as [Hin|Hnew].
  { intros [= <- <-]. right. auto. }
  assert (Hnone : uncles env !! HeaderHash uncle = None).
  { destruct (uncles env !! HeaderHash uncle); [exfalso; eauto | reflexivity]. }
  destruct (ParentHash (header env) !! QuaiNetworkContext) as [hp|] eqn:Hhp;
    cbn [mbind exec_bind]; [|discriminate].
  destruct (ParentHash uncle !! QuaiNetworkContext) as [up|] eqn:Hup;
    cbn [mbind exec_bind]; [|discriminate].
  destruct (decide (hp = up)) as [Heq|Hne].
  { intros [= <- <-]. right. split; [discriminate|]. split; [reflexivity|]. right.
    intros (hp' & up' & E1 & E2 & Hd & _). congruence. }
  destruct (decide (up ∈ ancestors env)) as [Hanc|Hanc].
  - destruct (decide (HeaderHash uncle ∈ family env)) as [Hfam|Hfam].
    + intros [= <- <-]. right. split; [discriminate|]. split; [reflexivity|]. right.
      intros (hp' & up' & _ & _ & _ & _ & Hf). tauto.
    + intros [= <- <-]. left. split_and!; auto. exists hp, up. auto.
  - intros [= <- <-]. right. split; [discriminate|]. split; [reflexivity|]. right.
    intros (hp' & up' & _ & E2 & _ & Ha & _). congruence.
Qed.

Lemma commitUncle_returns (env : environment) (uncle : Header) :
  is_Some (ParentHash (header env) !! QuaiNetworkContext) ->
  is_Some (ParentHash uncle !! QuaiNetworkContext) ->
  exists env' err, commitUncle env uncle = Done (env', err) /\
                   header env' = header env.
Proof.
  intros [hp Hhp] [up Hup]. unfold commitUncle, index. rewrite Hhp, Hup.
  cbn [mbind exec_bind].
  repeat match goal with
         | |- context [decide ?P] => destruct (decide P)
         end; eauto.
Qed.

Lemma commitUncles_returns (blocks : list (Hash * Block)) (env : environment) :
  is_Some (ParentHash (header env) !! QuaiNetworkContext) ->
  Forall (fun e => is_Some (ParentHash (b_header (snd e)) !! QuaiNetworkContext)) blocks ->
  exists env', commitUncles blocks env = Done env'.
Proof.
  intros Hhdr Hslots. revert env Hhdr.
  induction Hslots as [|[hash b] rest Hb _ IH]; intros env Hhdr; cbn [commitUncles];
    [eauto|].
  destruct (decide (size (uncles env) = 2%nat)); [eauto|].
  rewrite CopyHeader_id.
  destruct (commitUncle_returns env (b_header b) Hhdr Hb) as (env1 & err & -> & Hsame).
  cbn [mbind exec_bind fst]. apply IH. rewrite Hsame. exact Hhdr.
Qed.

(** What a run of [commitUncles] that returns has done. *)
Lemma commitUncles_effect (blocks : list (Hash * Block)) (env env' : environment) :
  commitUncles blocks env = Done env' ->
  env' = set_uncles env (uncles env') /\
  uncles env ⊆ uncles env' /\
  ((size (uncles env) <= 2)%nat -> (size (uncles env') <= 2)%nat) /\
  (forall h uncle,
     uncles env' !! h = Some uncle ->
     uncles env !! h = Some uncle \/
     (h = HeaderHash uncle /\ uncleFits env uncle /\
      exists e, e ∈ blocks /\ uncle = b_header (snd e))) /\
  ((size (uncles env') < 2)%nat ->
   forall e, e ∈ blocks ->
     uncleFits env (b_header (snd e)) ->
     is_Some (uncles env' !! HeaderHash (b_header (snd e)))) /\
  ((size (uncles env) = 2)%nat -> env' = env).
Proof.
  revert env. induction blocks as [|[hash b] rest IH]; intros env; cbn [commitUncles].
  - intros [= <-]. split_and!; auto using set_uncles_id.
    intros _ e He. inversion He.
  - destruct (decide (size (uncles env) = 2%nat)) as [Hfull|Hroom].
    { intros [= <-]. split_and!; auto using set_uncles_id. lia. }
    rewrite CopyHeader_id. intros Hrun.
    apply bind_Done in Hrun as ([env1 err] & Hone & Hrun). cbn [fst] in Hrun.
    destruct (IH _ Hrun) as (Hframe & Hsub & Hsize & Hfrom & Hall & _).
    apply commitUncle_Done in Hone
      as [(-> & Hnew & Hfits & ->)|(_ & -> & Hwhy)].
    + assert (Hsub1 : uncles env ⊆ <[HeaderHash (b_header b) := b_header b]> (uncles env))
        by (apply insert_subseteq; exact Hnew).
      assert (Hsize1 : size (<[HeaderHash (b_header b) := b_header b]> (uncles env))
                       = S (size (uncles env)))
        by (apply map_size_insert_None; exact Hnew).
      cbn in Hsub, Hsize, Hfrom, Hall.
      split_and!.
      * rewrite Hframe. reflexivity.
      * etransitivity; eassumption.
      * lia.
      * intros h uncle Hk. destruct (Hfrom _ _ Hk) as [Hold|(-> & Hf & e & He & ->)].
        -- apply lookup_insert_Some in Hold as [[<- <-]|[_ Hold]]; [|auto].
           right. split; [reflexivity|]. split; [exact Hfits|].
           exists (hash, b). split; [left | reflexivity].
        -- right. split; [reflexivity|]. split; [exact Hf|].
           exists e. split; [right; exact He | reflexivity].
      * intros Hlt e He Hf. apply elem_of_cons in He as [->|He]; [|auto].
        cbn [snd]. exists (b_header b). eapply lookup_weaken; [|exact Hsub].
        apply lookup_insert_eq.
      * intros Htwo. contradiction.
    + split_and!; auto.
      * intros h uncle Hk. destruct (Hfrom _ _ Hk) as [Hold|(-> & Hf & e & He & ->)];
          [auto|]. right. split; [reflexivity|]. split; [exact Hf|].
        exists e. split; [right; exact He | reflexivity].
      * intros Hlt e He Hf. apply elem_of_cons in He as [->|He]; [|auto].
        cbn [snd] in *. destruct Hwhy as [[u Hin]|Hno]; [|contradiction].
        exists u. eapply lookup_weaken; eassumption.
      * intros Htwo. contradiction.
Qed.

(** X14: [commitUncles] fills the work up to two uncles and no further:
    it only adds uncles, each added uncle is the header of a block of the
    pool, filed under its hash, that fits the work; a work of at most two
    uncles still has at most two; and while there is room no block of the
    pool that fits is left out.  Nothing else of the work changes. *)
Theorem commitUncles_fills (blocks : list (Hash * Block)) (env : environment) :
  is_Some (ParentHash (header env) !! QuaiNetworkContext) ->
  Forall (fun e => is_Some (ParentHash (b_header (snd e)) !! QuaiNetworkContext)) blocks ->
  exists env',
    commitUncles blocks env = Done env' /\
    env' = set_uncles env (uncles env') /\
    uncles env ⊆ uncles env' /\
    ((size (uncles env) <= 2)%nat -> (size (uncles env') <= 2)%nat) /\
    (forall h uncle,
       uncles env' !! h = Some uncle ->
       uncles env !! h = Some uncle \/
       (h = HeaderHash uncle /\ uncleFits env uncle /\
        exists e, e ∈ blocks /\ uncle = b_header (snd e))) /\
    ((size (uncles env') < 2)%nat ->
     forall e, e ∈ blocks ->
       uncleFits env (b_header (snd e)) ->
       is_Some (uncles env' !! HeaderHash (b_header (snd e)))).
Proof.
  intros Hhdr Hslots.
  destruct (commitUncles_returns blocks env Hhdr Hslots) as [env' Hrun].
  exists env'. split; [exact Hrun|].
  destruct (commitUncles_effect _ _ _ Hrun) as (E1 & E2 & E3 & E4 & E5 & _). auto.
Qed.

End Uncles.

Lemma commitUncles_fills_witness :
  let blocks := [(70%N, simpleBlock 6%N 7 70); (71%N, simpleBlock 6%N 7 71);
                 (72%N, simpleBlock 6%N 7 72)] in
  let env := simpleEnv 100000 in
  exists env',
    @commitUncles simpleChain blocks env = Done env' /\
    env' = set_uncles env (uncles env') /\
    uncles env ⊆ uncles env' /\
    ((size (uncles env) <= 2)%nat -> (size (uncles env') <= 2)%nat) /\
    (forall h uncle,
       uncles env' !! h = Some uncle ->
       uncles env !! h = Some uncle \/
       (h = @HeaderHash simpleChain uncle /\ @uncleFits simpleChain env uncle /\
        exists e, e ∈ blocks /\ uncle = b_header (snd e))) /\
    ((size (uncles env') < 2)%nat ->
     forall e, e ∈ blocks ->
       @uncleFits simpleChain env (b_header (snd e)) ->
       is_Some (uncles env' !! @HeaderHash simpleChain (b_header (snd e)))).
Proof.
  intros blocks env.
  apply (@commitUncles_fills simpleChain blocks env).
  - cbn. eauto.
  - repeat constructor; cbn; eauto.
Defined.

(** ** Preparing a work *)

Section PrepareWork.
Context `{Chain}.

Lemma index_Some {A : Type} (s : list A) (i : nat) (a : A) :
  s !! i = Some a -> index s i = Done a.
Proof. intros Hs. unfold index. rewrite Hs. reflexivity. Qed.

(** The environment [makeEnv] returns is empty: it holds the header and
    the coinbase it was given and nothing else. *)
Lemma makeEnv_fresh (stateAt recovered : StateDB + error) (recent : list Block)
    (hdr : Header) (cb : Address) (env : environment) :
  makeEnv stateAt recovered recent hdr cb = Done (inl env) ->
  header env = hdr /\ coinbase env = cb /\ tcount env = 0 /\ txs env = [] /\
  receipts env = [] /\ uncles env = ∅ /\ gasPool env = None /\
  externalGasUsed env = 0 /\ externalBlockLength env = 0 /\
  is_Some (Number hdr !! QuaiNetworkContext).
Proof.
  unfold makeEnv, index.
  destruct (match stateAt with inl s => inl s | inr _ => recovered end) as [s|err];
    [|discriminate].
  destruct (Number hdr !! QuaiNetworkContext) as [number|]; cbn [mbind exec_bind];
    [|discriminate].
  destruct (fold_left _ recent (∅, ∅)) as [anc fam].
  intros [= <-]. cbn. split_and!; eauto.
Qed.

Lemma makeEnv_returns (stateAt recovered : StateDB + error) (recent : list Block)
    (hdr : Header) (cb : Address) :
  is_Some (Number hdr !! QuaiNetworkContext) ->
  (exists s, stateAt = inl s) \/ (exists s, recovered = inl s) ->
  exists env, makeEnv stateAt recovered recent hdr cb = Done (inl env).
Proof.
  intros [number Hn] Hstate. unfold makeEnv, index. rewrite Hn. cbn [mbind exec_bind].
  assert (exists s, match stateAt with inl s => inl s | inr _ => recovered end
                    = inl s) as [s ->].
  { destruct Hstate as [[s ->]|[s ->]]; [eauto|]. destruct stateAt; eauto. }
  destruct (fold_left _ recent (∅, ∅)) as [anc fam]. eauto.
Qed.

(** A run of [prepareWork] that returns a work, taken apart. *)
Lemma prepareWork_Done (running : bool) (wcoinbase : Address)
    (currentBlock : option Block) (calcBaseFee : Header -> Z)
    (prepare : Header -> Header + error)
    (stateAt recovered : StateDB + error) (recent : list Block)
    (locals remotes : list (Hash * Block)) (genParams : generateParams)
    (env : environment) :
  prepareWork running wcoinbase currentBlock calcBaseFee prepare stateAt recovered recent
    locals remotes genParams = Done (inl env) ->
  exists parent num hdr env0 env1,
    currentBlock = Some parent /\
    (gp_timestamp genParams <= Time (b_header parent) -> gp_forceTime genParams = false) /\
    Number (b_header parent) !! QuaiNetworkContext = Some num /\
    (QuaiNetworkContext < 3)%nat /\
    (running = true -> wcoinbase <> 0%N) /\
    prepare {| ParentHash := <[QuaiNetworkContext := HeaderHash (b_header parent)]>
                               (replicate 3 0%N);
               Number := <[QuaiNetworkContext := wrapInt64 (wrapInt64 (wrap64 num) + 1)]>
                           (replicate 3 0);
               GasLimit := replicate 3 0;
               GasUsed := replicate 3 0;
               BaseFee := <[QuaiNetworkContext := calcBaseFee (b_header parent)]>
                            (replicate 3 0);
               Time := if gp_timestamp genParams <=? Time (b_header parent)
                       then wrap64 (Time (b_header parent) + 1)
                       else gp_timestamp genParams |} = inl hdr /\
    makeEnv stateAt recovered recent hdr wcoinbase = Done (inl env0) /\
    commitUncles locals env0 = Done env1 /\
    commitUncles remotes env1 = Done env.
Proof.
  unfold prepareWork. destruct currentBlock as [parent|]; [|discriminate].
  intros Hrun. exists parent.
  destruct (gp_timestamp genParams <=? Time (b_header parent)) eqn:Hlate.
  - destruct (gp_forceTime genParams) eqn:Hforce; [discriminate|].
    apply bind_Done in Hrun as (num & Hnum & Hrun).
    apply bind_Done in Hrun as (zero & Hctx & Hrun).
    destruct (running && bool_decide (wcoinbase = 0%N)) eqn:Hcb; [discriminate|].
    rewrite CopyHeader_id in Hrun.
    destruct (prepare _) as [hdr|err] eqn:Hprep; [|discriminate].
    apply bind_Done in Hrun as ([env0|err] & Hmake & Hrun); [|discriminate].
    apply bind_Done in Hrun as (env1 & Hl & Hrun).
    apply bind_Done in Hrun as (env2 & Hr & [= <-]).
    exists num, hdr, env0, env1. split_and!; auto.
    + unfold index in Hnum. destruct (Number (b_header parent) !! _); congruence.
    + unfold index in Hctx.
      destruct (replicate 3 0%N !! QuaiNetworkContext) eqn:E; [|discriminate].
      apply lookup_lt_Some in E. rewrite length_replicate in E. exact E.
    + intros -> ->. rewrite bool_decide_eq_true_2 in Hcb by reflexivity. discriminate.
  - apply bind_Done in Hrun as (num & Hnum & Hrun).
    apply bind_Done in Hrun as (zero & Hctx & Hrun).
    destruct (running && bool_decide (wcoinbase = 0%N)) eqn:Hcb; [discriminate|].
    rewrite CopyHeader_id in Hrun.
    destruct (prepare _) as [hdr|err] eqn:Hprep; [|discriminate].
    apply bind_Done in Hrun as ([env0|err] & Hmake & Hrun); [|discriminate].
    apply bind_Done in Hrun as (env1 & Hl & Hrun).
    apply bind_Done in Hrun as (env2 & Hr & [= <-]).
    exists num, hdr, env0, env1. split_and!; auto.
    + apply Z.leb_gt in Hlate. lia.
    + unfold index in Hnum. destruct (Number (b_header parent) !! _); congruence.
    + unfold index in Hctx.
      destruct (replicate 3 0%N !! QuaiNetworkContext) eqn:E; [|discriminate].
      apply lookup_lt_Some in E. rewrite length_replicate in E. exact E.
    + intros -> ->. rewrite bool_decide_eq_true_2 in Hcb by reflexivity. discriminate.
Qed.

Lemma commitUncles_header (blocks : list (Hash * Block)) (env env' : environment) :
  commitUncles blocks env = Done env' ->
  header env' = header env /\ coinbase env' = coinbase env /\ tcount env' = tcount env /\
  txs env' = txs env /\ receipts env' = receipts env /\ gasPool env' = gasPool env /\
  ancestors env' = ancestors env /\ family env' = family env /\
  externalGasUsed env' = externalGasUsed env /\
  externalBlockLength env' = externalBlockLength env /\ state env' = state env /\
  signer env' = signer env.
Proof.
  intros Hrun. apply commitUncles_effect in Hrun as (-> & _). cbn. auto 15.
Qed.

Lemma lookup_insert_replicate {A : Type} (i n : nat) (x y : A) :
  (i < n)%nat -> <[i := y]> (replicate n x) !! i = Some y.
Proof.
  intros Hlt. apply list_lookup_insert_eq. rewrite length_replicate. exact Hlt.
Qed.

(** X15: The work [prepareWork] returns is built on the current block.
    The header it hands to the engine has that block as parent and the
    base fee computed on it.  Its number is the parent's number taken as
    a [uint64], then as an [int64], plus one: the parent's number plus
    one for a parent number from 0 to below [2^63 - 1].  Its time is the
    requested time when that is after the parent's time, as a forced time
    has to be, and otherwise the parent's time plus one in [uint64]: for
    a parent time from 0 to below [2^64 - 1] that is the parent's time
    plus one, so that the time is after the parent's and not before the
    requested one.  The header of the work is what the engine made of
    that header.  The work is empty and has no gas pool yet, it pays the
    worker's coinbase, and a running worker has one. *)
Theorem prepareWork_header (running : bool) (wcoinbase : Address)
    (currentBlock : option Block) (calcBaseFee : Header -> Z)
    (prepare : Header -> Header + error)
    (stateAt recovered : StateDB + error) (recent : list Block)
    (locals remotes : list (Hash * Block)) (genParams : generateParams)
    (env : environment) :
  prepareWork running wcoinbase currentBlock calcBaseFee prepare stateAt recovered recent
    locals remotes genParams = Done (inl env) ->
  exists parent hdr num,
    currentBlock = Some parent /\
    prepare hdr = inl (header env) /\
    ParentHash hdr !! QuaiNetworkContext = Some (HeaderHash (b_header parent)) /\
    BaseFee hdr !! QuaiNetworkContext = Some (calcBaseFee (b_header parent)) /\
    Number (b_header parent) !! QuaiNetworkContext = Some num /\
    Number hdr !! QuaiNetworkContext = Some (wrapInt64 (wrapInt64 (wrap64 num) + 1)) /\
    (0 <= num < 2 ^ 63 - 1 -> Number hdr !! QuaiNetworkContext = Some (num + 1)) /\
    Time hdr = (if gp_timestamp genParams <=? Time (b_header parent)
                then wrap64 (Time (b_header parent) + 1)
                else gp_timestamp genParams) /\
    (Time (b_header parent) < gp_timestamp genParams ->
     Time hdr = gp_timestamp genParams) /\
    (gp_timestamp genParams <= Time (b_header parent) ->
     0 <= Time (b_header parent) < 2 ^ 64 - 1 ->
     Time hdr = Time (b_header parent) + 1) /\
    (gp_forceTime genParams = true ->
     Time (b_header parent) < gp_timestamp genParams /\
     Time hdr = gp_timestamp genParams) /\
    (0 <= Time (b_header parent) < 2 ^ 64 - 1 ->
     Time (b_header parent) < Time hdr /\ gp_timestamp genParams <= Time hdr) /\
    (running = true -> wcoinbase <> 0%N) /\
    coinbase env = wcoinbase /\
    tcount env = 0 /\ txs env = [] /\ receipts env = [] /\ gasPool env = None.
Proof.
  intros Hrun.
  apply prepareWork_Done in Hrun
    as (parent & num & hdr & env0 & env1 & -> & Hforce & Hnum & Hctx & Hcb & Hprep
        & Hmake & Hl & Hr).
  apply makeEnv_fresh in Hmake as (M1 & M2 & M3 & M4 & M5 & M6 & M7 & _).
  apply commitUncles_header in Hl as (L1 & L2 & L3 & L4 & L5 & L6 & _).
  apply commitUncles_header in Hr as (R1 & R2 & R3 & R4 & R5 & R6 & _).
  assert (Hlate : gp_forceTime genParams = true ->
                  Time (b_header parent) < gp_timestamp genParams).
  { intros Hf. destruct (Z.le_gt_cases (gp_timestamp genParams) (Time (b_header parent)))
      as [Hle|Hgt]; [|lia]. rewrite (Hforce Hle) in Hf. discriminate. }
  exists parent. eexists. exists num. split; [reflexivity|].
  split; [rewrite R1, L1, M1; exact Hprep|]. cbn [ParentHash BaseFee Number Time].
  split; [apply lookup_insert_replicate; exact Hctx|].
  split; [apply lookup_insert_replicate; exact Hctx|].
  split; [exact Hnum|].
  split; [apply lookup_insert_replicate; exact Hctx|].
  split.
  { intros Hrange. rewrite lookup_insert_replicate by exact Hctx. f_equal.
    unfold wrapInt64, wrap64. rewrite (Z.mod_small num) by lia.
    rewrite (Z.mod_small (num + 2 ^ 63)) by lia.
    rewrite Z.mod_small by lia. lia. }
  split; [reflexivity|].
  split_and!; try congruence.
  - intros Hlt. apply Z.leb_gt in Hlt. rewrite Hlt. reflexivity.
  - intros Hle Hrange. apply Z.leb_le in Hle. rewrite Hle.
    unfold wrap64. apply Z.mod_small. lia.
  - intros Hf. specialize (Hlate Hf). split; [exact Hlate|].
    apply Z.leb_gt in Hlate. rewrite Hlate. reflexivity.
  - intros Hrange.
    destruct (Z.leb_spec (gp_timestamp genParams) (Time (b_header parent))) as [Hle|Hgt].
    + unfold wrap64. rewrite Z.mod_small by lia. lia.
    + lia.
  - exact Hcb.
Qed.

(** X16: The work [prepareWork] returns has at most two uncles; each is
    the header of a side block of one of the two pools, filed under its
    hash, that fits the work; a work with fewer than two uncles has left
    out no side block that fits; and local side blocks come first: either
    every local side block that fits is in, or all the uncles are
    local. *)
Theorem prepareWork_uncles (running : bool) (wcoinbase : Address)
    (currentBlock : option Block) (calcBaseFee : Header -> Z)
    (prepare : Header -> Header + error)
    (stateAt recovered : StateDB + error) (recent : list Block)
    (locals remotes : list (Hash * Block)) (genParams : generateParams)
    (env : environment) :
  prepareWork running wcoinbase currentBlock calcBaseFee prepare stateAt recovered recent
    locals remotes genParams = Done (inl env) ->
  (size (uncles env) <= 2)%nat /\
  (forall h uncle,
     uncles env !! h = Some uncle ->
     h = HeaderHash uncle /\ uncleFits env uncle /\
     exists e, e ∈ locals ++ remotes /\ uncle = b_header (snd e)) /\
  ((size (uncles env) < 2)%nat ->
   forall e, e ∈ locals ++ remotes ->
     uncleFits env (b_header (snd e)) ->
     is_Some (uncles env !! HeaderHash (b_header (snd e)))) /\
  ((forall e, e ∈ locals ->
      uncleFits env (b_header (snd e)) ->
      is_Some (uncles env !! HeaderHash (b_header (snd e)))) \/
   (forall h uncle,
      uncles env !! h = Some uncle ->
      exists e, e ∈ locals /\ uncle = b_header (snd e))).
Proof.
  intros Hrun.
  apply prepareWork_Done in Hrun
    as (parent & num & hdr & env0 & env1 & -> & _ & _ & _ & _ & _ & Hmake & Hl & Hr).
  apply makeEnv_fresh in Hmake as (_ & _ & _ & _ & _ & Hnone & _).
  apply commitUncles_effect in Hl as (Lf & Ls & Lc & Lfrom & Lall & _).
  apply commitUncles_effect in Hr as (Rf & Rs & Rc & Rfrom & Rall & Rfull).
  rewrite Hnone in Lc, Lfrom. rewrite map_size_empty in Lc.
  assert (Hfits : forall u, uncleFits env u <-> uncleFits env0 u).
  { intros u. rewrite Rf, Lf. reflexivity. }
  assert (Hfits1 : forall u, uncleFits env1 u <-> uncleFits env0 u).
  { intros u. rewrite Lf. reflexivity. }
  assert (Hlocal : forall h uncle, uncles env1 !! h = Some uncle ->
            h = HeaderHash uncle /\ uncleFits env0 uncle /\
            exists e, e ∈ locals /\ uncle = b_header (snd e)).
  { intros h uncle Hk. destruct (Lfrom _ _ Hk) as [Hold|?]; [|assumption].
    rewrite lookup_empty in Hold. discriminate. }
  split; [apply Rc, Lc; lia|]. split_and!.
  - intros h uncle Hk. destruct (Rfrom _ _ Hk) as [Hold|(-> & Hf & e & He & ->)].
    + destruct (Hlocal _ _ Hold) as (-> & Hf & e & He & ->).
      split; [reflexivity|]. split; [apply Hfits; exact Hf|].
      exists e. split; [apply elem_of_app; auto | reflexivity].
    + split; [reflexivity|]. split; [apply Hfits, Hfits1; exact Hf|].
      exists e. split; [apply elem_of_app; auto | reflexivity].
  - intros Hlt e He Hf. apply elem_of_app in He as [He|He].
    + assert (Hlt1 : (size (uncles env1) < 2)%nat).
      { apply map_subseteq_size in Rs. lia. }
      destruct (Lall Hlt1 e He (proj1 (Hfits _) Hf)) as [u Hu].
      exists u. eapply lookup_weaken; eassumption.
    + apply (Rall Hlt e He). apply Hfits1, Hfits. exact Hf.
  - destruct (decide (size (uncles env1) = 2%nat)) as [Hfull|Hroom].
    + right. intros h uncle Hk. rewrite (Rfull Hfull) in Hk.
      destruct (Hlocal _ _ Hk) as (_ & _ & e & He & ->). eauto.
    + left. intros e He Hf.
      assert (Hlt1 : (size (uncles env1) < 2)%nat) by lia.
      destruct (Lall Hlt1 e He (proj1 (Hfits _) Hf)) as [u Hu].
      exists u. eapply lookup_weaken; eassumption.
Qed.

(** X17: With an engine that prepares every header, keeping its parent
    and number, a state for the parent and well-formed blocks,
    [prepareWork] returns a work unless the timestamp is forced and not
    after the parent's or the worker runs without coinbase; in these two
    cases it returns an error, and it never panics. *)
Theorem prepareWork_returns (running : bool) (wcoinbase : Address)
    (parent : Block) (calcBaseFee : Header -> Z)
    (prepare : Header -> Header + error)
    (stateAt recovered : StateDB + error) (recent : list Block)
    (locals remotes : list (Hash * Block)) (genParams : generateParams) :
  (QuaiNetworkContext < 3)%nat ->
  is_Some (Number (b_header parent) !! QuaiNetworkContext) ->
  (forall h, is_Some (ParentHash h !! QuaiNetworkContext) ->
             is_Some (Number h !! QuaiNetworkContext) ->
             exists h', prepare h = inl h' /\
                        is_Some (ParentHash h' !! QuaiNetworkContext) /\
                        is_Some (Number h' !! QuaiNetworkContext)) ->
  (exists s, stateAt = inl s) \/ (exists s, recovered = inl s) ->
  Forall (fun e => is_Some (ParentHash (b_header (snd e)) !! QuaiNetworkContext))
         (locals ++ remotes) ->
  (exists result,
     prepareWork running wcoinbase (Some parent) calcBaseFee prepare stateAt recovered
       recent locals remotes genParams = Done result) /\
  ((exists env,
      prepareWork running wcoinbase (Some parent) calcBaseFee prepare stateAt recovered
        recent locals remotes genParams = Done (inl env)) <->
   (gp_forceTime genParams = true -> Time (b_header parent) < gp_timestamp genParams) /\
   (running = true -> wcoinbase <> 0%N)).
Proof.
  intros Hctx [num Hnum] Hengine Hstate Hpools.
  apply Forall_app in Hpools as [Hlocals Hremotes].
  assert (Hgood :
    (gp_forceTime genParams = true -> Time (b_header parent) < gp_timestamp genParams) ->
    (running = true -> wcoinbase <> 0%N) ->
    exists env,
      prepareWork running wcoinbase (Some parent) calcBaseFee prepare stateAt recovered
        recent locals remotes genParams = Done (inl env)).
  { intros Hforce Hcb. unfold prepareWork.
    assert (Htime : exists timestamp,
              (if gp_timestamp genParams <=? Time (b_header parent)
               then if gp_forceTime genParams
                    then inr (ErrNew ("invalid timestamp, parent "
                                      +:+ pretty (Time (b_header parent))
                                      +:+ " given " +:+ pretty (gp_timestamp genParams)))
                    else inl (wrap64 (Time (b_header parent) + 1))
               else inl (gp_timestamp genParams)) = (inl timestamp : Z + error)).
    { destruct (Z.leb_spec (gp_timestamp genParams) (Time (b_header parent))); [|eauto].
      destruct (gp_forceTime genParams); [|eauto]. specialize (Hforce eq_refl). lia. }
    destruct Htime as [timestamp ->].
    rewrite (index_Some _ _ _ Hnum). cbn [mbind exec_bind].
    rewrite (index_Some _ _ _ (lookup_replicate_2 3 0%N _ Hctx)). cbn [mbind exec_bind].
    assert (running && bool_decide (wcoinbase = 0%N) = false) as ->.
    { destruct running; [|reflexivity]. cbn.
      apply bool_decide_eq_false_2. auto. }
    destruct (Hengine {| ParentHash := <[QuaiNetworkContext := HeaderHash (b_header parent)]>
                                         (replicate 3 0%N);
                         Number := <[QuaiNetworkContext :=
                                       wrapInt64 (wrapInt64 (wrap64 num) + 1)]>
                                     (replicate 3 0);
                         GasLimit := replicate 3 0;
                         GasUsed := replicate 3 0;
                         BaseFee := <[QuaiNetworkContext :=
                                        calcBaseFee (CopyHeader (b_header parent))]>
                                      (replicate 3 0);
                         Time := timestamp |})
      as (hdr & -> & Hp & Hn).
    { cbn [ParentHash Number]. rewrite lookup_insert_replicate by exact Hctx. eauto. }
    { cbn [ParentHash Number]. rewrite lookup_insert_replicate by exact Hctx. eauto. }
    destruct (makeEnv_returns stateAt recovered recent hdr wcoinbase Hn Hstate)
      as [env0 Hmake].
    rewrite Hmake. cbn [mbind exec_bind].
    apply makeEnv_fresh in Hmake as (Hhdr & _).
    destruct (commitUncles_returns locals env0) as [env1 Hl];
      [rewrite Hhdr; exact Hp | exact Hlocals |].
    rewrite Hl. cbn [mbind exec_bind].
    apply commitUncles_header in Hl as (Hhdr1 & _).
    destruct (commitUncles_returns remotes env1) as [env2 Hr];
      [rewrite Hhdr1, Hhdr; exact Hp | exact Hremotes |].
    rewrite Hr. cbn [mbind exec_bind]. eauto. }
  split.
  - destruct (gp_forceTime genParams) eqn:Hforce.
    + destruct (Z.leb_spec (gp_timestamp genParams) (Time (b_header parent))) as [Hle|Hgt].
      * unfold prepareWork. apply Z.leb_le in Hle. rewrite Hle, Hforce. eauto.
      * destruct running eqn:Hrunning.
        -- destruct (decide (wcoinbase = 0%N)) as [Hzero|Hcb].
           ++ unfold prepareWork. apply Z.leb_gt in Hgt. rewrite Hgt.
              rewrite (index_Some _ _ _ Hnum). cbn [mbind exec_bind].
              rewrite (index_Some _ _ _ (lookup_replicate_2 3 0%N _ Hctx)).
              cbn [mbind exec_bind andb].
              rewrite bool_decide_eq_true_2 by exact Hzero. eauto.
           ++ destruct Hgood as [env Hrun]; [lia | auto | eauto].
        -- destruct Hgood as [env Hrun]; [lia | discriminate | eauto].
    + destruct running eqn:Hrunning.
      * destruct (decide (wcoinbase = 0%N)) as [Hzero|Hcb].
        -- unfold prepareWork.
           assert (Htime : exists timestamp,
              (if gp_timestamp genParams <=? Time (b_header parent)
               then if gp_forceTime genParams
                    then inr (ErrNew ("invalid timestamp, parent "
                                      +:+ pretty (Time (b_header parent))
                                      +:+ " given " +:+ pretty (gp_timestamp genParams)))
                    else inl (wrap64 (Time (b_header parent) + 1))
               else inl (gp_timestamp genParams)) = (inl timestamp : Z + error)).
           { rewrite Hforce. destruct (_ <=? _); eauto. }
           destruct Htime as [timestamp ->].
           rewrite (index_Some _ _ _ Hnum). cbn [mbind exec_bind].
           rewrite (index_Some _ _ _ (lookup_replicate_2 3 0%N _ Hctx)).
           cbn [mbind exec_bind andb].
           rewrite bool_decide_eq_true_2 by exact Hzero. eauto.
        -- destruct Hgood as [env Hrun]; [discriminate | auto | eauto].
      * destruct Hgood as [env Hrun]; [discriminate | discriminate | eauto].
  - split.
    + intros [env Hrun]. apply prepareWork_Done in Hrun
        as (parent' & _ & _ & _ & _ & [= <-] & Hforce & _ & _ & Hcb & _).
      split; [|exact Hcb]. intros Hf.
      destruct (Z.le_gt_cases (gp_timestamp genParams) (Time (b_header parent)))
        as [Hle|Hgt]; [|lia]. rewrite (Hforce Hle) in Hf. discriminate.
    + intros [Hforce Hcb]. apply Hgood; assumption.
Qed.

End PrepareWork.

Lemma simpleWork_made :
  simplePrepareWork true (simpleParams 80 false true)
  = Done (inl (simpleWork true (simpleParams 80 false true))).
Proof. vm_compute. reflexivity. Qed.

Lemma prepareWork_header_witness :
  let env := simpleWork true (simpleParams 80 false true) in
  exists parent hdr num,
    Some simpleParent = Some parent /\
    (inl hdr : Header + error) = inl (header env) /\
    ParentHash hdr !! @QuaiNetworkContext simpleChain
      = Some (@HeaderHash simpleChain (b_header parent)) /\
    BaseFee hdr !! @QuaiNetworkContext simpleChain = Some 1 /\
    Number (b_header parent) !! @QuaiNetworkContext simpleChain = Some num /\
    Number hdr !! @QuaiNetworkContext simpleChain
      = Some (wrapInt64 (wrapInt64 (wrap64 num) + 1)) /\
    (0 <= num < 2 ^ 63 - 1 ->
     Number hdr !! @QuaiNetworkContext simpleChain = Some (num + 1)) /\
    Time hdr = (if 80 <=? Time (b_header parent)
                then wrap64 (Time (b_header parent) + 1) else 80) /\
    (Time (b_header parent) < 80 -> Time hdr = 80) /\
    (80 <= Time (b_header parent) ->
     0 <= Time (b_header parent) < 2 ^ 64 - 1 ->
     Time hdr = Time (b_header parent) + 1) /\
    (false = true -> Time (b_header parent) < 80 /\ Time hdr = 80) /\
    (0 <= Time (b_header parent) < 2 ^ 64 - 1 ->
     Time (b_header parent) < Time hdr /\ 80 <= Time hdr) /\
    (true = true -> 1%N <> 0%N) /\
    coinbase env = 1%N /\
    tcount env = 0 /\ txs env = [] /\ receipts env = [] /\ gasPool env = None.
Proof.
  intros env.
  exact (@prepareWork_header simpleChain _ _ _ _ _ _ _ _ _ _ _ _ simpleWork_made).
Defined.

Lemma prepareWork_uncles_witness :
  let env := simpleWork true (simpleParams 80 false true) in
  let locals := [(70%N, simpleBlock 6%N 7 70)] in
  let remotes := [(71%N, simpleBlock 6%N 7 71); (72%N, simpleBlock 6%N 7 72)] in
  (size (uncles env) <= 2)%nat /\
  (forall h uncle,
     uncles env !! h = Some uncle ->
     h = @HeaderHash simpleChain uncle /\ @uncleFits simpleChain env uncle /\
     exists e, e ∈ locals ++ remotes /\ uncle = b_header (snd e)) /\
  ((size (uncles env) < 2)%nat ->
   forall e, e ∈ locals ++ remotes ->
     @uncleFits simpleChain env (b_header (snd e)) ->
     is_Some (uncles env !! @HeaderHash simpleChain (b_header (snd e)))) /\
  ((forall e, e ∈ locals ->
      @uncleFits simpleChain env (b_header (snd e)) ->
      is_Some (uncles env !! @HeaderHash simpleChain (b_header (snd e)))) \/
   (forall h uncle,
      uncles env !! h = Some uncle ->
      exists e, e ∈ locals /\ uncle = b_header (snd e))).
Proof.
  intros env locals remotes.
  exact (@prepareWork_uncles simpleChain _ _ _ _ _ _ _ _ _ _ _ _ simpleWork_made).
Defined.

Lemma prepareWork_returns_witness :
  (exists result, simplePrepareWork true (simpleParams 80 true false) = Done result) /\
  ((exists env, simplePrepareWork true (simpleParams 80 true false) = Done (inl env)) <->
   (true = true -> Time (b_header simpleParent) < 80) /\ (true = true -> 1%N <> 0%N)).
Proof.
  apply (@prepareWork_returns simpleChain true 1%N simpleParent (fun _ => 1) inl
           (inl (simpleState {[ 10%N := {| acc_nonce := 6; acc_balance := 0 |} ]}))
           (inr (ErrNew "no state")) simpleRecent
           [(70%N, simpleBlock 6%N 7 70)]
           [(71%N, simpleBlock 6%N 7 71); (72%N, simpleBlock 6%N 7 72)]
           (simpleParams 80 true false)).
  - cbn. lia.
  - cbn. eauto.
  - intros h Hp Hn. exists h. auto.
  - left. eauto.
  - repeat constructor; cbn; eauto.
Defined.

(** ** Filling a work *)

Section Fill.
Context `{Chain}.

(** A call of [commitTransactions] only appends, and leaves the header's
    parent and the fields outside the loop alone. *)
Lemma commitTransactions_appends (running : bool) (env : environment)
    (txs0 : TransactionsByPriceAndNonce) (interrupt : option (nat -> Z)) (c : committed) :
  commitTransactions running env txs0 interrupt = Done c ->
  exists (newTxs : list Transaction) (newReceipts : list Receipt),
    txs (cm_env c) = txs env ++ newTxs /\
    receipts (cm_env c) = receipts env ++ newReceipts /\
    length newReceipts = length newTxs /\
    tcount (cm_env c) = tcount env + Z.of_nat (length newTxs) /\
    Forall (fun tx => tx ∈ pendingOf txs0) newTxs /\
    uncles (cm_env c) = uncles env /\
    ancestors (cm_env c) = ancestors env /\
    family (cm_env c) = family env.
Proof.
  unfold commitTransactions. intros Hrun.
  apply bind_Done in Hrun as (env0 & Hinit & Hrun).
  apply bind_Done in Hrun as ([s out] & Hloop & Hrun).
  destruct (initGasPool_effect _ _ Hinit) as (_ & _ & Ht & Hr & Hc & Hu & Ha & Hf & _).
  apply commitLoop_accepts in Hloop
    as (nt & nr & E1 & E2 & E3 & E4 & _ & E6 & E7 & E8 & E9 & E10).
  cbn in E1, E2, E4, E6, E7, E8, E9, E10.
  exists nt, nr.
  assert (cm_env c = ls_env s) as ->.
  { destruct out as [[sent ret] |]; injection Hrun as <-; auto. }
  split_and!; try congruence; assumption.
Qed.

(** The transactions of a set made from buckets are those of the
    buckets. *)
Lemma pendingOf_New (buckets : list (list Transaction)) (tx : Transaction) :
  tx ∈ pendingOf (NewTransactionsByPriceAndNonce buckets) <->
  exists bucket, bucket ∈ buckets /\ tx ∈ bucket.
Proof.
  induction buckets as [|bucket rest IH]; cbn [NewTransactionsByPriceAndNonce fold_right].
  - split; [intros Hin; inversion Hin | intros (b & Hb & _); inversion Hb].
  - fold (NewTransactionsByPriceAndNonce rest).
    destruct bucket as [|t ts].
    + rewrite IH. split.
      * intros (b & Hb & Hin). exists b. split; [right; exact Hb | exact Hin].
      * intros (b & Hb & Hin). apply elem_of_cons in Hb as [->|Hb]; [inversion Hin|eauto].
    + rewrite pendingOf_insertByTip.
      change (pendingOf ((t, ts) :: NewTransactionsByPriceAndNonce rest))
        with ((t :: ts) ++ pendingOf (NewTransactionsByPriceAndNonce rest)).
      rewrite elem_of_app, IH. split.
      * intros [Hin|(b & Hb & Hin)]; [exists (t :: ts); split; [left|exact Hin]|].
        exists b. split; [right; exact Hb | exact Hin].
      * intros (b & Hb & Hin). apply elem_of_cons in Hb as [->|Hb]; [auto|eauto].
Qed.

Lemma splitLocals_from (locals : list Address)
    (localTxs remoteTxs : gmap Address (list Transaction)) :
  (forall a, is_Some (remoteTxs !! a) -> localTxs !! a = None) ->
  let split :=
    fold_left (fun (split : gmap Address (list Transaction) * gmap Address (list Transaction))
                   account =>
                 let txs := default [] (snd split !! account) in
                 if decide (0 < length txs)%nat
                 then (<[account := txs]> (fst split), delete account (snd split))
                 else split)
              locals (localTxs, remoteTxs) in
  forall a txs,
    (fst split !! a = Some txs <->
     localTxs !! a = Some txs \/ (a ∈ locals /\ remoteTxs !! a = Some txs /\ txs <> [])) /\
    (snd split !! a = Some txs <->
     remoteTxs !! a = Some txs /\ ~ (a ∈ locals /\ txs <> [])).
Proof.
  revert localTxs remoteTxs.
  induction locals as [|account rest IH]; intros localTxs remoteTxs Hdisj; cbn zeta.
  - intros a txs. cbn [fold_left fst snd]. split.
    + split; [auto|]. intros [?|(Hin & _)]; [assumption | inversion Hin].
    + split; [intros ?; split; [assumption|]; intros [Hin _]; inversion Hin | tauto].
  - cbn [fold_left fst snd].
    destruct (decide (0 < length (default [] (remoteTxs !! account)))%nat) as [Hsome|Hnone].
    + destruct (remoteTxs !! account) as [txs0|] eqn:Hacc; cbn [default] in *;
        [|cbn in Hsome; lia].
      assert (Hne : txs0 <> []) by (intros ->; cbn in Hsome; lia).
      assert (Hl0 : localTxs !! account = None) by (apply Hdisj; rewrite Hacc; eauto).
      intros a txs.
      destruct (IH (<[account := txs0]> localTxs) (delete account remoteTxs)) with a txs
        as [IHl IHr].
      { intros b [x Hb]. apply lookup_delete_Some in Hb as [Hnb Hb].
        rewrite lookup_insert_ne by exact Hnb. apply Hdisj. eauto. }
      rewrite IHl, IHr. clear IHl IHr. rewrite elem_of_cons.
      destruct (decide (a = account)) as [->|Hna].
      * rewrite lookup_insert_eq, lookup_delete_eq, Hl0, Hacc. split.
        -- split.
           ++ intros [[= <-]|(_ & Hno & _)]; [|discriminate]. right. auto.
           ++ intros [Hno|(_ & [= <-] & _)]; [discriminate|]. left. reflexivity.
        -- split; [intros [Hno _]; discriminate|].
           intros [[= <-] Hno]. exfalso. apply Hno. auto.
      * rewrite lookup_insert_ne, lookup_delete_ne by congruence. split.
        -- split; (intros [?|(Hin & ? & ?)]; [auto|right]); split_and!; auto.
           destruct Hin as [?|?]; [contradiction | assumption].
        -- split; intros [? Hno]; (split; [assumption|]); intros [Hin ?]; apply Hno;
             [split; [destruct Hin as [?|?]; [contradiction|assumption]|assumption] | auto].
    + intros a txs. destruct (IH localTxs remoteTxs Hdisj) with a txs as [IHl IHr].
      rewrite IHl, IHr. clear IHl IHr. rewrite elem_of_cons.
      assert (Hskip : a = account -> remoteTxs !! a = Some txs -> txs = []).
      { intros -> Hk. rewrite Hk in Hnone. cbn in Hnone.
        destruct txs; [reflexivity | cbn in Hnone; lia]. }
      split.
      * split; (intros [?|(Hin & Hk & Hne)]; [auto|right]); split_and!; auto.
        destruct Hin as [Heq|?]; [|assumption]. exfalso. apply Hne. auto.
      * split; intros [Hk Hno]; (split; [assumption|]); intros [Hin Hne]; apply Hno; auto.
        split; [|assumption]. destruct Hin as [Heq|?]; [|assumption].
        exfalso. apply Hne. auto.
Qed.

Lemma splitLocals_lookup (locals : list Address)
    (pending : gmap Address (list Transaction)) (a : Address) (txs : list Transaction) :
  (fst (splitLocals locals pending) !! a = Some txs <->
   a ∈ locals /\ pending !! a = Some txs /\ txs <> []) /\
  (snd (splitLocals locals pending) !! a = Some txs <->
   pending !! a = Some txs /\ ~ (a ∈ locals /\ txs <> [])).
Proof.
  destruct (splitLocals_from locals ∅ pending) with a txs as [Hl Hr].
  { intros b _. apply lookup_empty. }
  fold (splitLocals locals pending) in Hl, Hr. split; [|exact Hr].
  rewrite Hl, lookup_empty.
  split; [intros [?|?]; [discriminate|assumption] | auto].
Qed.

(** X18: [fillTransactions] splits the pending transactions in two
    parts that share no account and together hold the pending
    transactions: the locals are exactly the accounts of [Locals] with at
    least one pending transaction, with their transactions, and the
    remotes are all the other entries. *)
Theorem splitLocals_partition (locals : list Address)
    (pending : gmap Address (list Transaction)) (a : Address) (txs : list Transaction) :
  (fst (splitLocals locals pending) !! a = Some txs <->
   a ∈ locals /\ pending !! a = Some txs /\ txs <> []) /\
  (snd (splitLocals locals pending) !! a = Some txs <->
   pending !! a = Some txs /\ ~ (a ∈ locals /\ txs <> [])) /\
  (fst (splitLocals locals pending) !! a = None \/
   snd (splitLocals locals pending) !! a = None).
Proof.
  split; [apply splitLocals_lookup|]. split; [apply splitLocals_lookup|].
  assert (Hboth : forall l r, fst (splitLocals locals pending) !! a = Some l ->
                              snd (splitLocals locals pending) !! a = Some r -> False).
  { intros l r El Er. apply splitLocals_lookup in El as (Hin & Hk & Hne).
    apply splitLocals_lookup in Er as (Hk' & Hno).
    rewrite Hk in Hk'. injection Hk' as <-. apply Hno. auto. }
  destruct (fst (splitLocals locals pending) !! a) as [l|]; [|auto].
  destruct (snd (splitLocals locals pending) !! a) as [r|]; [|auto].
  exfalso. eapply Hboth; reflexivity.
Qed.

(** X19: on a work that [prepareWork] has returned, [adjustGasLimit]
    divides by one: the gas limit of the work becomes what [CalcGasLimit]
    computes from the gas limit and the gas used of the current block and
    the count of recent uncles, nothing else of the work changes, and the
    gas pool that [commitTransactions] then makes holds that limit. *)
Theorem adjustGasLimit_limit (running : bool) (wcoinbase : Address)
    (currentBlock : option Block) (calcBaseFee : Header -> Z)
    (prepare : Header -> Header + error)
    (stateAt recovered : StateDB + error) (recent : list Block)
    (locals remotes : list (Hash * Block)) (genParams : generateParams)
    (env : environment) (parent : Block) (used limit : Z) (prevHash : Hash)
    (uncleCount : Hash -> Z) (CalcGasLimit : Z -> Z -> Z -> Z) :
  prepareWork running wcoinbase currentBlock calcBaseFee prepare stateAt recovered recent
    locals remotes genParams = Done (inl env) ->
  GasUsed (b_header parent) !! QuaiNetworkContext = Some used ->
  GasLimit (b_header parent) !! QuaiNetworkContext = Some limit ->
  0 <= used < 2 ^ 64 ->
  ParentHash (header env) !! QuaiNetworkContext = Some prevHash ->
  is_Some (GasLimit (header env) !! QuaiNetworkContext) ->
  exists env',
    adjustGasLimit (Some parent) uncleCount CalcGasLimit env = Done env' /\
    GasLimit (header env') !! QuaiNetworkContext
      = Some (CalcGasLimit limit used (uncleCount prevHash)) /\
    (forall i, i <> QuaiNetworkContext ->
               GasLimit (header env') !! i = GasLimit (header env) !! i) /\
    env' = set_header env (set_GasLimit (header env) (GasLimit (header env'))) /\
    initGasPool env'
      = Done (set_gasPool env' (Some (CalcGasLimit limit used (uncleCount prevHash)))).
Proof.
  intros Hrun Hused Hlimit Hrange Hprev [old Hold].
  apply prepareWork_Done in Hrun
    as (parent0 & num & hdr & env0 & env1 & _ & _ & _ & _ & _ & _ & Hmake & Hl & Hr).
  apply makeEnv_fresh in Hmake as (_ & _ & _ & _ & _ & _ & M7 & M8 & M9 & _).
  apply commitUncles_header in Hl as (_ & _ & _ & _ & _ & L6 & _ & _ & L9 & L10 & _).
  apply commitUncles_header in Hr as (_ & _ & _ & _ & _ & R6 & _ & _ & R9 & R10 & _).
  assert (Hgas : externalGasUsed env = 0) by congruence.
  assert (Hlen : externalBlockLength env = 0) by congruence.
  assert (Hpool : gasPool env = None) by congruence.
  unfold adjustGasLimit. cbn [deref mbind exec_bind].
  rewrite (index_Some _ _ _ Hused). cbn [mbind exec_bind].
  rewrite Hlen, Hgas.
  change (wrap64 (wrapInt64 (0 + 1))) with 1.
  rewrite decide_False by discriminate.
  rewrite (index_Some _ _ _ Hprev). cbn [mbind exec_bind].
  rewrite (index_Some _ _ _ Hlimit). cbn [mbind exec_bind].
  rewrite (index_Some _ _ _ Hold). cbn [mbind exec_bind].
  assert (Hdiv : wrap64 (used + 0) / 1 = used).
  { unfold wrap64. rewrite Z.add_0_r, Z.mod_small, Z.div_1_r by lia. reflexivity. }
  rewrite Hdiv.
  assert (Hslot : <[QuaiNetworkContext := CalcGasLimit limit used (uncleCount prevHash)]>
                    (GasLimit (header env)) !! QuaiNetworkContext
                  = Some (CalcGasLimit limit used (uncleCount prevHash))).
  { apply list_lookup_insert_eq. apply lookup_lt_Some in Hold. exact Hold. }
  eexists. split; [reflexivity|]. cbn. split; [exact Hslot|].
  split; [intros i Hi; apply list_lookup_insert_ne; congruence|].
  split; [reflexivity|].
  unfold initGasPool. cbn. rewrite Hpool.
  rewrite (index_Some _ _ _ Hslot). reflexivity.
Qed.

(** X20: [fillTransactions] only appends pending transactions, those of
    the local accounts before those of the others: the work ends with
    the transactions it had, then transactions pending for accounts of
    [Locals], then transactions pending for other accounts, with one
    receipt each and [tcount] grown by their number; when the pool
    reports an error the work is left as it is. *)
Theorem fillTransactions_local_first
    (pending : gmap Address (list Transaction) + error) (locals : list Address)
    (order : gmap Address (list Transaction) -> list (list Transaction))
    (running running' : bool) (interrupt : option ((nat -> Z) * (nat -> Z)))
    (env : environment) (f : filled) :
  (forall m bucket, bucket ∈ order m -> exists a, m !! a = Some bucket) ->
  fillTransactions pending locals order running running' interrupt env = Done f ->
  match pending with
  | inr _ => f = {| fl_env := env; fl_sent := [] |}
  | inl pending =>
      exists localNew remoteNew : list Transaction,
        txs (fl_env f) = txs env ++ localNew ++ remoteNew /\
        tcount (fl_env f) = tcount env + Z.of_nat (length (localNew ++ remoteNew)) /\
        length (receipts (fl_env f))
          = (length (receipts env) + length (localNew ++ remoteNew))%nat /\
        Forall (fun tx => exists a l, a ∈ locals /\ pending !! a = Some l /\ tx ∈ l)
               localNew /\
        Forall (fun tx => exists a l, (a ∉ locals) /\ pending !! a = Some l /\ tx ∈ l)
               remoteNew /\
        uncles (fl_env f) = uncles env
  end.
Proof.
  intros Horder. unfold fillTransactions.
  destruct pending as [pending|err]; [|intros [= <-]; reflexivity].
  destruct (splitLocals locals pending) as [localTxs remoteTxs] eqn:Hsplit.
  assert (Hlocal : forall tx, tx ∈ pendingOf (NewTransactionsByPriceAndNonce (order localTxs)) ->
            exists a l, a ∈ locals /\ pending !! a = Some l /\ tx ∈ l).
  { intros tx Hin. apply pendingOf_New in Hin as (bucket & Hb & Hin).
    destruct (Horder _ _ Hb) as [a Ha].
    replace localTxs with (fst (splitLocals locals pending)) in Ha by (rewrite Hsplit; auto).
    apply splitLocals_lookup in Ha as (? & ? & _). eauto. }
  assert (Hremote : forall tx, tx ∈ pendingOf (NewTransactionsByPriceAndNonce (order remoteTxs)) ->
            exists a l, (a ∉ locals) /\ pending !! a = Some l /\ tx ∈ l).
  { intros tx Hin. apply pendingOf_New in Hin as (bucket & Hb & Hin).
    destruct (Horder _ _ Hb) as [a Ha].
    replace remoteTxs with (snd (splitLocals locals pending)) in Ha by (rewrite Hsplit; auto).
    apply splitLocals_lookup in Ha as (Hk & Hno). exists a, bucket.
    split; [|auto]. intros Hloc. apply Hno. split; [exact Hloc|].
    intros ->. inversion Hin. }
  intros Hrun. apply bind_Done in Hrun as ([first ret] & Hfirst & Hrun).
  assert (Hone : exists localNew,
            txs (fl_env first) = txs env ++ localNew /\
            tcount (fl_env first) = tcount env + Z.of_nat (length localNew) /\
            length (receipts (fl_env first)) = (length (receipts env) + length localNew)%nat /\
            Forall (fun tx => exists a l, a ∈ locals /\ pending !! a = Some l /\ tx ∈ l)
                   localNew /\
            uncles (fl_env first) = uncles env).
  { destruct (decide (0 < size localTxs)%nat).
    - apply bind_Done in Hfirst as (fee & _ & Hfirst).
      apply bind_Done in Hfirst as (c & Hc & [= <- _]).
      apply commitTransactions_appends in Hc
        as (nt & nr & E1 & E2 & E3 & E4 & E5 & E6 & _).
      exists nt. cbn. split_and!; auto.
      + rewrite E2, length_app. lia.
      + eapply Forall_impl; [exact E5|]. exact Hlocal.
    - injection Hfirst as <- _. exists []. cbn. rewrite app_nil_r.
      split_and!; auto; lia. }
  destruct Hone as (localNew & F1 & F2 & F3 & F4 & F5).
  assert (Hstop : f = first ->
            exists localNew remoteNew : list Transaction,
              txs (fl_env f) = txs env ++ localNew ++ remoteNew /\
              tcount (fl_env f) = tcount env + Z.of_nat (length (localNew ++ remoteNew)) /\
              length (receipts (fl_env f))
                = (length (receipts env) + length (localNew ++ remoteNew))%nat /\
              Forall (fun tx => exists a l, a ∈ locals /\ pending !! a = Some l /\ tx ∈ l)
                     localNew /\
              Forall (fun tx => exists a l, (a ∉ locals) /\ pending !! a = Some l /\ tx ∈ l)
                     remoteNew /\
              uncles (fl_env f) = uncles env).
  { intros ->. exists localNew, []. rewrite !app_nil_r. split_and!; auto. }
  destruct ret; [injection Hrun as <-; auto|].
  destruct (decide (0 < size remoteTxs)%nat); [|injection Hrun as <-; auto].
  apply bind_Done in Hrun as (fee & _ & Hrun).
  apply bind_Done in Hrun as (c & Hc & [= <-]).
  apply commitTransactions_appends in Hc as (nt & nr & E1 & E2 & E3 & E4 & E5 & E6 & _).
  exists localNew, nt. cbn. split_and!; auto.
  - rewrite E1, F1, <- app_assoc. reflexivity.
  - rewrite E4, F2, length_app. lia.
  - rewrite E2, !length_app, F3. lia.
  - eapply Forall_impl; [exact E5|]. exact Hremote.
  - congruence.
Qed.

End Fill.

Lemma adjustGasLimit_limit_witness :
  let env := simpleWork true (simpleParams 80 false true) in
  exists env',
    @adjustGasLimit simpleChain (Some simpleParent) (fun _ => 0) (fun limit _ _ => limit) env
      = Done env' /\
    GasLimit (header env') !! @QuaiNetworkContext simpleChain = Some 100000 /\
    (forall i, i <> @QuaiNetworkContext simpleChain ->
               GasLimit (header env') !! i = GasLimit (header env) !! i) /\
    env' = set_header env (set_GasLimit (header env) (GasLimit (header env'))) /\
    @initGasPool simpleChain env' = Done (set_gasPool env' (Some 100000)).
Proof.
  intros env.
  apply (@adjustGasLimit_limit simpleChain _ _ _ _ _ _ _ _ _ _ _ env simpleParent
           0 100000 7%N (fun _ => 0) (fun limit _ _ => limit) simpleWork_made).
  - reflexivity.
  - reflexivity.
  - lia.
  - vm_compute. reflexivity.
  - vm_compute. eauto.
Defined.

Lemma simpleOrder_buckets (m : gmap Address (list Transaction)) (bucket : list Transaction) :
  bucket ∈ simpleOrder m -> exists a, m !! a = Some bucket.
Proof.
  intros Hin. apply list_elem_of_fmap in Hin as ([a b] & -> & Hin).
  apply elem_of_map_to_list in Hin. eauto.
Qed.

Lemma fillTransactions_local_first_witness :
  let env := simpleEnv 100000 in
  exists f,
    @fillTransactions simpleChain (inl simplePending) [10%N] simpleOrder false false None env
      = Done f /\
    exists localNew remoteNew : list Transaction,
      txs (fl_env f) = txs env ++ localNew ++ remoteNew /\
      tcount (fl_env f) = tcount env + Z.of_nat (length (localNew ++ remoteNew)) /\
      length (receipts (fl_env f))
        = (length (receipts env) + length (localNew ++ remoteNew))%nat /\
      Forall (fun tx => exists a l, a ∈ [10%N] /\ simplePending !! a = Some l /\ tx ∈ l)
             localNew /\
      Forall (fun tx => exists a l, (a ∉ [10%N]) /\ simplePending !! a = Some l /\ tx ∈ l)
             remoteNew /\
      uncles (fl_env f) = uncles env.
Proof.
  intros env.
  pose (f := match @fillTransactions simpleChain (inl simplePending) [10%N] simpleOrder
                     false false None env with
             | Done f => f
             | _ => {| fl_env := env; fl_sent := [] |}
             end).
  assert (Hrun : @fillTransactions simpleChain (inl simplePending) [10%N] simpleOrder
                   false false None env = Done f) by (vm_compute; reflexivity).
  exists f. split; [exact Hrun|].
  exact (@fillTransactions_local_first simpleChain (inl simplePending) [10%N] simpleOrder
           false false None env f simpleOrder_buckets Hrun).
Defined.

(** ** The main loop *)

Section MainLoop.
Context `{Chain}.

Lemma groupBySender_from (evTxs : list Transaction)
    (txs : gmap Address (list Transaction)) (a : Address) :
  fold_left (fun txs tx => <[tx_from tx := default [] (txs !! tx_from tx) ++ [tx]]> txs)
            evTxs txs !! a =
  match txs !! a, filter (fun tx => tx_from tx = a) evTxs with
  | Some before, new => Some (before ++ new)
  | None, [] => None
  | None, new => Some new
  end.
Proof.
  revert txs. induction evTxs as [|tx rest IH]; intros txs; cbn [fold_left].
  - rewrite filter_nil. destruct (txs !! a); [rewrite app_nil_r|]; reflexivity.
  - rewrite IH. destruct (decide (tx_from tx = a)) as [Heq|Hne].
    + rewrite filter_cons_True by exact Heq. subst a. rewrite lookup_insert_eq.
      destruct (txs !! tx_from tx) as [before|]; cbn [default].
      * rewrite <- app_assoc. reflexivity.
      * reflexivity.
    + rewrite filter_cons_False by exact Hne. rewrite lookup_insert_ne by exact Hne.
      reflexivity.
Qed.

Lemma groupBySender_lookup (evTxs : list Transaction) (a : Address) :
  groupBySender evTxs !! a =
  match filter (fun tx => tx_from tx = a) evTxs with
  | [] => None
  | new => Some new
  end.
Proof. unfold groupBySender. rewrite groupBySender_from, lookup_empty. reflexivity. Qed.

(** X21: The transactions of an event are grouped without loss and in
    order: the group of a sender is the list of the sender's transactions
    of the event in the order of arrival, and a sender without a
    transaction in the event has no group. *)
Theorem groupBySender_groups (evTxs : list Transaction) (a : Address)
    (group : list Transaction) :
  groupBySender evTxs !! a = Some group <->
  group = filter (fun tx => tx_from tx = a) evTxs /\ group <> [].
Proof.
  rewrite groupBySender_lookup.
  destruct (filter (fun tx => tx_from tx = a) evTxs) as [|tx new].
  - split; [discriminate | intros [-> Hne]; contradiction].
  - split; [intros [= <-]; split; [reflexivity | discriminate] | intros [-> _]; reflexivity].
Qed.

Lemma commitTransactions_nil_sent (running : bool) (env : environment)
    (txs0 : TransactionsByPriceAndNonce) (c : committed) :
  commitTransactions running env txs0 None = Done c ->
  sentBy c = map Send_pendingLogs (cm_pendingLogs c).
Proof.
  unfold commitTransactions, sentBy. intros Hrun.
  apply bind_Done in Hrun as (env0 & Hinit & Hrun).
  apply bind_Done in Hrun as ([s out] & Hloop & Hrun).
  pose proof (commitLoop_no_interrupt _ _ _ _ _ Hloop) as ->.
  injection Hrun as <-. cbn. rewrite app_nil_r. reflexivity.
Qed.

(** X22: New transactions while the worker is not sealing.  If the
    pending block is full, the case ends at once: nothing of the worker
    changes and the transactions are not even counted.  Otherwise the
    pending block only gains transactions of the event, the snapshot is
    updated exactly when it gained one, nothing but that update and
    pending logs leaves the case, and the counter of new transactions
    grows by the size of the event in [int32]. *)
Theorem mainLoop_txs_pending (devMode : bool)
    (commitWork : mainLoopState -> exec (mainLoopState * list call))
    (running' : bool)
    (order : gmap Address (list Transaction) -> list (list Transaction))
    (w w' : mainLoopState) (evTxs : list Transaction) (current : environment)
    (calls : list call) :
  (forall m bucket, bucket ∈ order m -> exists a, m !! a = Some bucket) ->
  w_current w = Some current ->
  mainLoop_txs devMode commitWork false running' order w evTxs = Done (w', calls) ->
  w_localUncles w' = w_localUncles w /\ w_remoteUncles w' = w_remoteUncles w /\
  ((exists gp, gasPool current = Some gp /\ gp < TxGas) -> w' = w /\ calls = []) /\
  ((forall gp, gasPool current = Some gp -> TxGas <= gp) ->
   exists (current' : environment) (newTxs : list Transaction),
     w_current w' = Some current' /\
     txs current' = txs current ++ newTxs /\
     tcount current' = tcount current + Z.of_nat (length newTxs) /\
     Forall (fun tx => tx ∈ evTxs) newTxs /\
     uncles current' = uncles current /\
     (Call_updateSnapshot current' ∈ calls <-> newTxs <> []) /\
     (forall c, c ∈ calls ->
                c = Call_updateSnapshot current' \/ exists logs, c = Send_pendingLogs logs) /\
     w_newTxs w' = wrapInt32 (w_newTxs w + wrapInt32 (Z.of_nat (length evTxs)))).
Proof.
  intros Horder Hcur. unfold mainLoop_txs. cbn [negb]. rewrite Hcur.
  destruct (gasPool current) as [gp|] eqn:Hgp.
  - destruct (Z.ltb_spec gp TxGas) as [Hfull|Hroom].
    + intros [= <- <-]. split_and!; auto.
      intros Hall. specialize (Hall gp eq_refl). lia.
    + intros Hrun. apply bind_Done in Hrun as (fee & _ & Hrun).
      apply bind_Done in Hrun as (c & Hc & [= <- <-]). cbn.
      rewrite (commitTransactions_nil_sent _ _ _ _ Hc).
      split; [reflexivity|]. split; [reflexivity|].
      split; [intros (gp' & [= <-] & ?); lia|]. intros _.
      apply commitTransactions_appends in Hc as (nt & nr & E1 & E2 & E3 & E4 & E5 & E6 & _).
      exists (cm_env c), nt. split_and!; auto.
      * eapply Forall_impl; [exact E5|]. intros tx Hin.
        apply pendingOf_New in Hin as (bucket & Hb & Hin).
        destruct (Horder _ _ Hb) as [a Ha].
        rewrite groupBySender_lookup in Ha.
        destruct (filter (fun tx => tx_from tx = a) evTxs) as [|t ts] eqn:Hf; [discriminate|].
        injection Ha as <-. rewrite <- Hf in Hin.
        apply list_elem_of_filter in Hin as [_ Hin]. exact Hin.
      * rewrite elem_of_app.
        destruct (decide (tcount current <> tcount (cm_env c))) as [Hne|Heq].
        -- split; [intros _ ->; cbn in E4; lia|]. intros _. right. left.
        -- split.
           ++ intros [Hin|Hin]; [|inversion Hin].
              apply list_elem_of_fmap in Hin as (logs & Hno & _). discriminate.
           ++ intros Hnew. exfalso. apply Heq. rewrite E4.
              destruct nt; [contradiction | cbn [length]; lia].
      * intros c0 Hin. apply elem_of_app in Hin as [Hin|Hin].
        -- apply list_elem_of_fmap in Hin as (logs & -> & _). eauto.
        -- destruct (decide (tcount current <> tcount (cm_env c))); [|inversion Hin].
           apply list_elem_of_singleton in Hin. auto.
  - intros Hrun. apply bind_Done in Hrun as (fee & _ & Hrun).
    apply bind_Done in Hrun as (c & Hc & [= <- <-]). cbn.
    rewrite (commitTransactions_nil_sent _ _ _ _ Hc).
    split; [reflexivity|]. split; [reflexivity|].
    split; [intros (gp' & [=] & _)|]. intros _.
    apply commitTransactions_appends in Hc as (nt & nr & E1 & E2 & E3 & E4 & E5 & E6 & _).
    exists (cm_env c), nt. split_and!; auto.
    + eapply Forall_impl; [exact E5|]. intros tx Hin.
      apply pendingOf_New in Hin as (bucket & Hb & Hin).
      destruct (Horder _ _ Hb) as [a Ha].
      rewrite groupBySender_lookup in Ha.
      destruct (filter (fun tx => tx_from tx = a) evTxs) as [|t ts] eqn:Hf; [discriminate|].
      injection Ha as <-. rewrite <- Hf in Hin.
      apply list_elem_of_filter in Hin as [_ Hin]. exact Hin.
    + rewrite elem_of_app.
      destruct (decide (tcount current <> tcount (cm_env c))) as [Hne|Heq].
      * split; [intros _ ->; cbn in E4; lia|]. intros _. right. left.
      * split.
        -- intros [Hin|Hin]; [|inversion Hin].
           apply list_elem_of_fmap in Hin as (logs & Hno & _). discriminate.
        -- intros Hnew. exfalso. apply Heq. rewrite E4.
           destruct nt; [contradiction | cbn [length]; lia].
    + intros c0 Hin. apply elem_of_app in Hin as [Hin|Hin].
      * apply list_elem_of_fmap in Hin as (logs & -> & _). eauto.
      * destruct (decide (tcount current <> tcount (cm_env c))); [|inversion Hin].
        apply list_elem_of_singleton in Hin. auto.
Qed.

(** X23: A side block that arrives.  A block already in one of the
    pools changes nothing.  A new block goes to the local pool if
    [isLocalBlock] is set and says so and to the remote pool otherwise,
    under its hash, and the pools stay disjoint.  The pending block takes
    it as an uncle, and a copy of the pending block is committed, exactly
    when the worker is running, the pending block has fewer than two
    uncles and the block is new to it and fits; so a pending block of at
    most two uncles keeps at most two. *)
Theorem mainLoop_chainSide_cases (isLocalBlock : option (Header -> bool)) (running : bool)
    (w w' : mainLoopState) (block : Block) (calls : list call) :
  mainLoop_chainSide isLocalBlock running w block = Done (w', calls) ->
  let hash := HeaderHash (b_header block) in
  let isLocal := match isLocalBlock with
                 | Some isLocal => isLocal (b_header block)
                 | None => false
                 end in
  w_newTxs w' = w_newTxs w /\
  (w_localUncles w ##ₘ w_remoteUncles w -> w_localUncles w' ##ₘ w_remoteUncles w') /\
  (is_Some (w_localUncles w !! hash) \/ is_Some (w_remoteUncles w !! hash) ->
   w' = w /\ calls = []) /\
  (w_localUncles w !! hash = None -> w_remoteUncles w !! hash = None ->
   w_localUncles w' = (if isLocal then <[hash := block]> (w_localUncles w)
                       else w_localUncles w) /\
   w_remoteUncles w' = (if isLocal then w_remoteUncles w
                        else <[hash := block]> (w_remoteUncles w)) /\
   match w_current w with
   | None => w_current w' = None /\ calls = []
   | Some current =>
       exists current',
         w_current w' = Some current' /\
         ((size (uncles current) <= 2)%nat -> (size (uncles current') <= 2)%nat) /\
         ((running = true /\ (size (uncles current) < 2)%nat /\
           uncles current !! hash = None /\ uncleFits current (b_header block)) /\
          current' = set_uncles current (<[hash := b_header block]> (uncles current)) /\
          calls = [Call_commit (environment_copy current') true]
          \/
          ~ (running = true /\ (size (uncles current) < 2)%nat /\
             uncles current !! hash = None /\ uncleFits current (b_header block)) /\
          current' = current /\ calls = [])
   end).
Proof.
  intros Hrun hash isLocal. unfold mainLoop_chainSide in Hrun.
  fold hash in Hrun. rewrite CopyHeader_id in Hrun. fold isLocal in Hrun.
  destruct (decide (is_Some (w_localUncles w !! hash))) as [Hl|Hl].
  { injection Hrun as <- <-. split_and!; auto.
    intros Hnone. rewrite Hnone in Hl. destruct Hl; discriminate. }
  destruct (decide (is_Some (w_remoteUncles w !! hash))) as [Hr|Hr].
  { injection Hrun as <- <-. split_and!; auto.
    intros _ Hnone. rewrite Hnone in Hr. destruct Hr; discriminate. }
  assert (Hln : w_localUncles w !! hash = None).
  { destruct (w_localUncles w !! hash); [exfalso; eauto | reflexivity]. }
  assert (Hrn : w_remoteUncles w !! hash = None).
  { destruct (w_remoteUncles w !! hash); [exfalso; eauto | reflexivity]. }
  set (w1 := if isLocal
             then {| w_localUncles := <[hash := block]> (w_localUncles w);
                     w_remoteUncles := w_remoteUncles w;
                     w_current := w_current w; w_newTxs := w_newTxs w |}
             else {| w_localUncles := w_localUncles w;
                     w_remoteUncles := <[hash := block]> (w_remoteUncles w);
                     w_current := w_current w; w_newTxs := w_newTxs w |}) in *.
  assert (Hw1 : w_newTxs w1 = w_newTxs w /\ w_current w1 = w_current w /\
                w_localUncles w1 = (if isLocal then <[hash := block]> (w_localUncles w)
                                    else w_localUncles w) /\
                w_remoteUncles w1 = (if isLocal then w_remoteUncles w
                                     else <[hash := block]> (w_remoteUncles w)))
    by (unfold w1; destruct isLocal; auto).
  destruct Hw1 as (Hn1 & Hc1 & Hl1 & Hr1).
  assert (Hdisj : w_localUncles w ##ₘ w_remoteUncles w ->
                  w_localUncles w1 ##ₘ w_remoteUncles w1).
  { intros Hd. rewrite Hl1, Hr1. destruct isLocal.
    - apply map_disjoint_insert_l. auto.
    - apply map_disjoint_insert_r. auto. }
  clearbody w1.
  assert (Hpools : forall w2 : mainLoopState,
            w_localUncles w2 = w_localUncles w1 -> w_remoteUncles w2 = w_remoteUncles w1 ->
            w_newTxs w2 = w_newTxs w1 ->
            w_newTxs w2 = w_newTxs w /\
            (w_localUncles w ##ₘ w_remoteUncles w -> w_localUncles w2 ##ₘ w_remoteUncles w2) /\
            w_localUncles w2 = (if isLocal then <[hash := block]> (w_localUncles w)
                                else w_localUncles w) /\
            w_remoteUncles w2 = (if isLocal then w_remoteUncles w
                                 else <[hash := block]> (w_remoteUncles w))).
  { intros w2 E1 E2 E3. rewrite E1, E2, E3. split_and!; auto. }
  destruct (w_current w) as [current|] eqn:Hcur.
  - destruct running.
    + rewrite Hc1 in Hrun.
      destruct (decide (size (uncles current) < 2)%nat) as [Hlt|Hge].
      * apply bind_Done in Hrun as ([current' err] & Hone & Hrun). cbn [fst snd] in Hrun.
        apply commitUncle_Done in Hone
          as [(-> & Hnew & Hfits & ->)|(Herr & -> & Hwhy)].
        -- injection Hrun as <- <-.
           match goal with
           | |- w_newTxs ?w2 = _ /\ _ =>
               destruct (Hpools w2 eq_refl eq_refl eq_refl) as (P1 & P2 & P4 & P5)
           end.
           split; [exact P1|]. split; [exact P2|]. split; [tauto|].
           intros _ _. split; [exact P4|]. split; [exact P5|].
           eexists. split; [reflexivity|]. split.
           ++ intros _. cbn. rewrite map_size_insert_None by exact Hnew. lia.
           ++ left. auto.
        -- destruct err as [err|]; [|contradiction]. injection Hrun as <- <-.
           match goal with
           | |- w_newTxs ?w2 = _ /\ _ =>
               destruct (Hpools w2 eq_refl eq_refl eq_refl) as (P1 & P2 & P4 & P5)
           end.
           split; [exact P1|]. split; [exact P2|]. split; [tauto|].
           intros _ _. split; [exact P4|]. split; [exact P5|].
           eexists. split; [reflexivity|]. split; [auto|]. right.
           split; [|auto]. intros (_ & _ & Hnew & Hfits).
           destruct Hwhy as [[u Hin]|Hno]; [|contradiction].
              unfold hash in Hnew. congruence.
      * injection Hrun as <- <-.
        match goal with
           | |- w_newTxs ?w2 = _ /\ _ =>
               destruct (Hpools w2 eq_refl eq_refl eq_refl) as (P1 & P2 & P4 & P5)
           end.
        split; [exact P1|]. split; [exact P2|]. split; [tauto|].
           intros _ _. split; [exact P4|]. split; [exact P5|].
        exists current. split; [exact Hc1|]. split; [auto|]. right.
        split; [|auto]. intros (_ & Hlt & _). contradiction.
    + injection Hrun as <- <-.
      match goal with
           | |- w_newTxs ?w2 = _ /\ _ =>
               destruct (Hpools w2 eq_refl eq_refl eq_refl) as (P1 & P2 & P4 & P5)
           end.
      split; [exact P1|]. split; [exact P2|]. split; [tauto|].
           intros _ _. split; [exact P4|]. split; [exact P5|].
      exists current. split; [exact Hc1|]. split; [auto|]. right.
      split; [|auto]. intros (Hno & _). discriminate.
  - assert (Hrun' : Done (w1, @nil call) = Done (w', calls)).
    { rewrite <- Hrun. rewrite Hc1. destruct running; reflexivity. }
    injection Hrun' as <- <-.
    match goal with
           | |- w_newTxs ?w2 = _ /\ _ =>
               destruct (Hpools w2 eq_refl eq_refl eq_refl) as (P1 & P2 & P4 & P5)
           end.
    split; [exact P1|]. split; [exact P2|]. split; [tauto|].
    intros _ _. split; [exact P4|]. split; [exact P5|]. auto.
Qed.


End MainLoop.

Lemma mainLoop_txs_pending_witness :
  let evTxs := [simpleTx 106%N 10%N 6 21000 3; simpleTx 110%N 11%N 0 21000 5] in
  exists w' calls,
    @mainLoop_txs simpleChain false (fun w => Done (w, [])) false false simpleOrder
      simpleMiner evTxs = Done (w', calls) /\
    w_localUncles w' = w_localUncles simpleMiner /\
    w_remoteUncles w' = w_remoteUncles simpleMiner /\
    exists (current' : environment) (newTxs : list Transaction),
      w_current w' = Some current' /\
      txs current' = txs (simpleEnv 100000) ++ newTxs /\
      tcount current' = tcount (simpleEnv 100000) + Z.of_nat (length newTxs) /\
      Forall (fun tx => tx ∈ evTxs) newTxs /\
      uncles current' = uncles (simpleEnv 100000) /\
      (Call_updateSnapshot current' ∈ calls <-> newTxs <> []) /\
      (forall c, c ∈ calls ->
                 c = Call_updateSnapshot current' \/ exists logs, c = Send_pendingLogs logs) /\
      w_newTxs w' = wrapInt32 (w_newTxs simpleMiner + wrapInt32 (Z.of_nat (length evTxs))).
Proof.
  intros evTxs.
  pose (r := match @mainLoop_txs simpleChain false (fun w => Done (w, [])) false false
                     simpleOrder simpleMiner evTxs with
             | Done r => r
             | _ => (simpleMiner, [])
             end).
  assert (Hrun : @mainLoop_txs simpleChain false (fun w => Done (w, [])) false false
                   simpleOrder simpleMiner evTxs = Done (fst r, snd r))
    by (vm_compute; reflexivity).
  exists (fst r), (snd r). split; [exact Hrun|].
  destruct (@mainLoop_txs_pending simpleChain false (fun w => Done (w, [])) false simpleOrder
              simpleMiner (fst r) evTxs (simpleEnv 100000) (snd r)
              simpleOrder_buckets eq_refl Hrun) as (Hl & Hr & _ & Hroom).
  split; [exact Hl|]. split; [exact Hr|]. apply Hroom. intros gp Hgp. discriminate.
Defined.

Lemma mainLoop_chainSide_cases_witness :
  let block := simpleBlock 6%N 7 70 in
  exists w' calls,
    @mainLoop_chainSide simpleChain (Some (fun _ => true)) true simpleMiner block
      = Done (w', calls) /\
    w_newTxs w' = w_newTxs simpleMiner /\
    w_localUncles w' = <[70%N := block]> (w_localUncles simpleMiner) /\
    w_remoteUncles w' = w_remoteUncles simpleMiner.
Proof.
  intros block.
  pose (r := match @mainLoop_chainSide simpleChain (Some (fun _ => true)) true simpleMiner
                     block with
             | Done r => r
             | _ => (simpleMiner, [])
             end).
  assert (Hrun : @mainLoop_chainSide simpleChain (Some (fun _ => true)) true simpleMiner
                   block = Done (fst r, snd r)) by (vm_compute; reflexivity).
  exists (fst r), (snd r). split; [exact Hrun|].
  destruct (@mainLoop_chainSide_cases simpleChain (Some (fun _ => true)) true simpleMiner
              (fst r) block (snd r) Hrun) as (Hn & _ & _ & Hnew).
  split; [exact Hn|].
  destruct (Hnew (lookup_empty _) (lookup_empty _)) as (Hl & Hr & _).
  split; [exact Hl | exact Hr].
Defined.

(** ** What the main loop keeps *)

Section Invariant.
Context `{Chain}.

Lemma commitBody_parent (s s' : loopState) :
  commitBody s = Done (Next s') ->
  ParentHash (header (ls_env s')) = ParentHash (header (ls_env s)).
Proof.
  unfold commitBody.
  destruct (deref (gasPool (ls_env s))) as [gp | |]; cbn -[commitTransaction];
    try discriminate.
  destruct (gp <? TxGas); [discriminate |].
  destruct (Peek (ls_txs s)) as [tx |] eqn:Hpeek; [| discriminate].
  match goal with
  | |- context [mbind _ ?m] => destruct m as [skip | |] eqn:Hskip
  end; cbn -[commitTransaction]; try discriminate.
  destruct skip.
  - intros [= <-]. reflexivity.
  - destruct (commitTransaction _ _) as [[env' [logs err]] | |] eqn:Hrun;
      cbn; try discriminate.
    destruct (switchOnError err) as [op committed] eqn:Hsw.
    intros [= <-]. cbn.
    destruct (commitTransaction_header _ _ _ _ _ Hrun) as (_ & _ & Hp & _).
    cbn in Hp. destruct committed; exact Hp.
Qed.

Lemma commitLoop_parent (fuel : nat) (interrupt : option (nat -> Z)) (gasLimit : list Z)
    (s s' : loopState) (out : option (list intervalAdjust * bool)) :
  commitLoop fuel interrupt gasLimit s = Done (s', out) ->
  ParentHash (header (ls_env s')) = ParentHash (header (ls_env s)).
Proof.
  revert s. induction fuel as [| fuel IH]; intros s; cbn; [discriminate |].
  destruct (commitIteration interrupt gasLimit s) as [it | |] eqn:Hit; cbn;
    try discriminate.
  destruct it as [s1 | s1 | s1 sent ret].
  - intros Hloop. rewrite (IH _ Hloop).
    apply commitIteration_body in Hit as (s0 & He & _ & _ & Hbody).
    apply commitBody_parent in Hbody. congruence.
  - intros [= <- _]. apply commitIteration_effect in Hit as (-> & _). reflexivity.
  - intros [= <- _]. apply commitIteration_effect in Hit as (-> & _). reflexivity.
Qed.

Lemma uncleFits_frame (env env' : environment) (uncle : Header) :
  ParentHash (header env') = ParentHash (header env) ->
  ancestors env' = ancestors env -> family env' = family env ->
  uncleFits env uncle -> uncleFits env' uncle.
Proof.
  intros Hp Ha Hf (hp & up & E1 & E2 & E3 & E4 & E5).
  exists hp, up. rewrite Hp, Ha, Hf. auto.
Qed.

Lemma commitTransactions_workOk (running : bool) (env : environment)
    (txs0 : TransactionsByPriceAndNonce) (interrupt : option (nat -> Z)) (c : committed) :
  commitTransactions running env txs0 interrupt = Done c ->
  workOk env -> workOk (cm_env c).
Proof.
  intros Hrun (Hsize & Hcounts & Huncles).
  pose proof (commitTransactions_counts _ _ _ _ _ Hrun Hcounts) as Hcounts'.
  destruct (commitTransactions_appends _ _ _ _ _ Hrun)
    as (nt & nr & _ & _ & _ & _ & _ & Eu & Ea & Ef).
  assert (Hp : ParentHash (header (cm_env c)) = ParentHash (header env)).
  { unfold commitTransactions in Hrun.
    apply bind_Done in Hrun as (env0 & Hinit & Hrun).
    apply bind_Done in Hrun as ([s out] & Hloop & Hrun).
    destruct (initGasPool_effect _ _ Hinit) as (_ & Hh & _).
    apply commitLoop_parent in Hloop. cbn in Hloop.
    assert (cm_env c = ls_env s) as ->.
    { destruct out as [[sent ret] |]; injection Hrun as <-; auto. }
    congruence. }
  split; [rewrite Eu; exact Hsize|]. split; [exact Hcounts'|].
  intros h uncle Hk. rewrite Eu in Hk. destruct (Huncles _ _ Hk) as [-> Hfits].
  split; [reflexivity|]. eapply uncleFits_frame; eassumption.
Qed.

Lemma fillTransactions_workOk
    (pending : gmap Address (list Transaction) + error) (locals : list Address)
    (order : gmap Address (list Transaction) -> list (list Transaction))
    (running running' : bool) (interrupt : option ((nat -> Z) * (nat -> Z)))
    (env : environment) (f : filled) :
  fillTransactions pending locals order running running' interrupt env = Done f ->
  workOk env -> workOk (fl_env f).
Proof.
  unfold fillTransactions. destruct pending as [pending|err]; [|intros [= <-]; auto].
  destruct (splitLocals locals pending) as [localTxs remoteTxs].
  intros Hrun Hok. apply bind_Done in Hrun as ([first ret] & Hfirst & Hrun).
  assert (Hone : workOk (fl_env first)).
  { destruct (decide (0 < size localTxs)%nat).
    - apply bind_Done in Hfirst as (fee & _ & Hfirst).
      apply bind_Done in Hfirst as (c & Hc & [= <- _]). cbn.
      eapply commitTransactions_workOk; eassumption.
    - injection Hfirst as <- _. exact Hok. }
  destruct ret; [injection Hrun as <-; exact Hone|].
  destruct (decide (0 < size remoteTxs)%nat); [|injection Hrun as <-; exact Hone].
  apply bind_Done in Hrun as (fee & _ & Hrun).
  apply bind_Done in Hrun as (c & Hc & [= <-]). cbn.
  eapply commitTransactions_workOk; eassumption.
Qed.

Lemma adjustGasLimit_workOk (currentBlock : option Block) (uncleCount : Hash -> Z)
    (CalcGasLimit : Z -> Z -> Z -> Z) (env env' : environment) :
  adjustGasLimit currentBlock uncleCount CalcGasLimit env = Done env' ->
  workOk env -> workOk env'.
Proof.
  unfold adjustGasLimit. intros Hrun Hok.
  apply bind_Done in Hrun as (parent & _ & Hrun).
  apply bind_Done in Hrun as (used & _ & Hrun).
  destruct (decide _); [discriminate|].
  apply bind_Done in Hrun as (prevHash & _ & Hrun).
  apply bind_Done in Hrun as (limit & _ & Hrun).
  apply bind_Done in Hrun as (old & _ & [= <-]).
  exact Hok.
Qed.

Lemma prepareWork_workOk (running : bool) (wcoinbase : Address)
    (currentBlock : option Block) (calcBaseFee : Header -> Z)
    (prepare : Header -> Header + error)
    (stateAt recovered : StateDB + error) (recent : list Block)
    (locals remotes : list (Hash * Block)) (genParams : generateParams)
    (env : environment) :
  prepareWork running wcoinbase currentBlock calcBaseFee prepare stateAt recovered recent
    locals remotes genParams = Done (inl env) ->
  workOk env.
Proof.
  intros Hrun.
  apply prepareWork_Done in Hrun
    as (parent & num & hdr & env0 & env1 & _ & _ & _ & _ & _ & _ & Hmake & Hl & Hr).
  apply makeEnv_fresh in Hmake as (_ & _ & M3 & M4 & M5 & Hnone & _).
  pose proof (commitUncles_header _ _ _ Hl) as (_ & _ & L3 & L4 & L5 & _).
  pose proof (commitUncles_header _ _ _ Hr) as (_ & _ & R3 & R4 & R5 & _).
  apply commitUncles_effect in Hl as (Lf & Ls & Lc & Lfrom & _).
  apply commitUncles_effect in Hr as (Rf & Rs & Rc & Rfrom & _).
  rewrite Hnone in Lc, Lfrom. rewrite map_size_empty in Lc.
  split; [apply Rc, Lc; lia|]. split.
  - unfold countsAgree. rewrite R3, R4, R5, L3, L4, L5, M3, M4, M5. auto.
  - intros h uncle Hk.
    assert (Hfits : forall u, uncleFits env0 u -> uncleFits env u).
    { intros u. rewrite Rf, Lf. exact id. }
    destruct (Rfrom _ _ Hk) as [Hold|(-> & Hf & _)].
    + destruct (Lfrom _ _ Hold) as [Hno|(-> & Hf & _)].
      * rewrite lookup_empty in Hno. discriminate.
      * auto.
    + split; [reflexivity|]. apply Hfits. revert Hf. rewrite Lf. exact id.
Qed.

Lemma commitWork_inv (isLocalBlock : option (Header -> bool)) (a : answers)
    (interrupt : option ((nat -> Z) * (nat -> Z))) (noempty : bool) (timestamp : Z)
    (w w' : mainLoopState) (calls : list call) :
  commitWork a interrupt noempty timestamp w = Done (w', calls) ->
  poolsOk isLocalBlock w /\ (forall current, w_current w = Some current -> workOk current) ->
  poolsOk isLocalBlock w' /\ (forall current, w_current w' = Some current -> workOk current).
Proof.
  unfold commitWork. intros Hrun Hinv.
  destruct (a_running a && bool_decide (a_coinbase a = 0%N));
    [injection Hrun as <- <-; exact Hinv|].
  apply bind_Done in Hrun as ([work|err] & Hprep & Hrun);
    [|injection Hrun as <- <-; exact Hinv].
  apply bind_Done in Hrun as (work1 & Hadj & Hrun).
  apply bind_Done in Hrun as (f & Hfill & [= <- <-]).
  split; [exact (proj1 Hinv)|]. cbn. intros current [= <-].
  eapply fillTransactions_workOk; [eassumption|].
  eapply adjustGasLimit_workOk; [eassumption|].
  eapply prepareWork_workOk. eassumption.
Qed.

Lemma deleteStale_subseteq {A : Type} (block : A -> Block) (head : exec Z)
    (entries : list (Hash * A)) (table table' : gmap Hash A) :
  deleteStale block head entries table = Done table' -> table' ⊆ table.
Proof.
  revert table. induction entries as [|[h a] rest IH]; intros table; cbn [deleteStale].
  - intros [= <-]. reflexivity.
  - intros Hrun. apply bind_Done in Hrun as (number & _ & Hrun).
    apply bind_Done in Hrun as (head' & _ & Hrun).
    apply IH in Hrun. etransitivity; [exact Hrun|].
    destruct (_ <=? _); [apply delete_subseteq | reflexivity].
Qed.

Lemma poolsOk_subseteq (isLocalBlock : option (Header -> bool)) (w w' : mainLoopState) :
  w_localUncles w' ⊆ w_localUncles w -> w_remoteUncles w' ⊆ w_remoteUncles w ->
  poolsOk isLocalBlock w -> poolsOk isLocalBlock w'.
Proof.
  intros Hl Hr (Hd & Hlocal & Hremote). split_and!.
  - eapply map_disjoint_weaken; eassumption.
  - intros h b Hk. apply Hlocal. eapply lookup_weaken; eassumption.
  - intros h b Hk. apply Hremote. eapply lookup_weaken; eassumption.
Qed.

Lemma mainLoop_chainSide_inv (isLocalBlock : option (Header -> bool)) (running : bool)
    (w w' : mainLoopState) (block : Block) (calls : list call) :
  mainLoop_chainSide isLocalBlock running w block = Done (w', calls) ->
  poolsOk isLocalBlock w /\ (forall current, w_current w = Some current -> workOk current) ->
  poolsOk isLocalBlock w' /\ (forall current, w_current w' = Some current -> workOk current).
Proof.
  unfold mainLoop_chainSide. rewrite CopyHeader_id.
  intros Hrun [(Hd & Hlocal & Hremote) Hwork].
  destruct (decide (is_Some (w_localUncles w !! HeaderHash (b_header block)))) as [Hl|Hl];
    [injection Hrun as <- <-; split; [split_and!|]; assumption|].
  destruct (decide (is_Some (w_remoteUncles w !! HeaderHash (b_header block)))) as [Hr|Hr];
    [injection Hrun as <- <-; split; [split_and!|]; assumption|].
  assert (Hln : w_localUncles w !! HeaderHash (b_header block) = None).
  { destruct (w_localUncles w !! _); [exfalso; eauto | reflexivity]. }
  assert (Hrn : w_remoteUncles w !! HeaderHash (b_header block) = None).
  { destruct (w_remoteUncles w !! _); [exfalso; eauto | reflexivity]. }
  match type of Hrun with
  | context [w_current ?w0] =>
      assert (Hsame : poolsOk isLocalBlock w0 /\
                      (forall current, w_current w0 = Some current -> workOk current));
      [|set (w1 := w0) in *; clearbody w1]
  end.
  { destruct isLocalBlock as [isLocal|]; [destruct (isLocal (b_header block)) eqn:Hloc|];
      (split; [|exact Hwork]); unfold poolsOk; cbn [w_localUncles w_remoteUncles];
      split_and!.
    - apply map_disjoint_insert_l. auto.
    - intros h b Hk. apply lookup_insert_Some in Hk as [[<- <-]|[_ Hk]]; [eauto | auto].
    - exact Hremote.
    - apply map_disjoint_insert_r. auto.
    - exact Hlocal.
    - intros h b Hk. apply lookup_insert_Some in Hk as [[<- <-]|[_ Hk]]; [|auto].
      split; [reflexivity|]. intros f [= <-]. exact Hloc.
    - apply map_disjoint_insert_r. auto.
    - exact Hlocal.
    - intros h b Hk. apply lookup_insert_Some in Hk as [[<- <-]|[_ Hk]]; [|auto].
      split; [reflexivity|]. intros f [=]. }
  assert (Hret : forall w2 calls2,
            Done (w1, @nil call) = Done (w2, calls2) ->
            poolsOk isLocalBlock w2 /\
            (forall current, w_current w2 = Some current -> workOk current))
    by (intros w2 calls2 [= <- <-]; exact Hsame).
  destruct running; [|exact (Hret _ _ Hrun)].
  destruct (w_current w1) as [current|] eqn:Hcur; [|exact (Hret _ _ Hrun)].
  destruct (decide (size (uncles current) < 2)%nat) as [Hlt|Hge];
    [|exact (Hret _ _ Hrun)].
  apply bind_Done in Hrun as ([current' err] & Hone & Hrun). cbn [fst snd] in Hrun.
  destruct Hsame as [Hpools Hwork1].
  destruct (Hwork1 current eq_refl) as (Hs & Hc & Hu).
  apply commitUncle_Done in Hone as [(-> & Hnew & Hfits & ->)|(Herr & -> & _)].
  - injection Hrun as <- <-. split; [exact Hpools|]. cbn. intros c [= <-].
    split; [cbn; rewrite map_size_insert_None by exact Hnew; lia|]. split; [exact Hc|].
    intros h uncle Hk. cbn in Hk.
    apply lookup_insert_Some in Hk as [[<- <-]|[_ Hk]]; [auto|]. apply Hu. exact Hk.
  - destruct err as [err|]; [|contradiction]. injection Hrun as <- <-.
    split; [exact Hpools|]. cbn. intros c [= <-]. split_and!; assumption.
Qed.

Lemma mainLoop_step_inv (isLocalBlock : option (Header -> bool)) (devMode : bool)
    (w w' : mainLoopState) (ev : mainEvent) (calls : list call) :
  mainLoop_step isLocalBlock devMode w ev = Done (w', calls) ->
  poolsOk isLocalBlock w /\ (forall current, w_current w = Some current -> workOk current) ->
  poolsOk isLocalBlock w' /\ (forall current, w_current w' = Some current -> workOk current).
Proof.
  destruct ev as [a interrupt noempty timestamp | running block | chainHead range
                  | running running' order evTxs a now]; cbn [mainLoop_step].
  - apply commitWork_inv.
  - apply mainLoop_chainSide_inv.
  - intros Hrun [Hpools Hwork].
    apply bind_Done in Hrun as (w1 & Hclean & [= <- <-]).
    unfold mainLoop_clean in Hclean.
    apply bind_Done in Hclean as (l' & Hl & Hclean).
    apply bind_Done in Hclean as (r' & Hr & [= <-]).
    apply deleteStale_subseteq in Hl, Hr. split; [|exact Hwork].
    eapply poolsOk_subseteq; [exact Hl | exact Hr | exact Hpools].
  - unfold mainLoop_txs. intros Hrun [Hpools Hwork].
    assert (Hcount : forall w2 : mainLoopState,
              poolsOk isLocalBlock w2 /\
              (forall current, w_current w2 = Some current -> workOk current) ->
              poolsOk isLocalBlock
                {| w_localUncles := w_localUncles w2; w_remoteUncles := w_remoteUncles w2;
                   w_current := w_current w2;
                   w_newTxs := wrapInt32 (w_newTxs w2 + wrapInt32 (Z.of_nat (length evTxs))) |}
              /\ (forall current,
                    w_current
                      {| w_localUncles := w_localUncles w2;
                         w_remoteUncles := w_remoteUncles w2;
                         w_current := w_current w2;
                         w_newTxs := wrapInt32 (w_newTxs w2
                                                + wrapInt32 (Z.of_nat (length evTxs))) |}
                    = Some current -> workOk current)).
    { intros w2 Hinv. exact Hinv. }
    destruct (if negb running then w_current w else None) as [current|] eqn:Hcur.
    + assert (Hc : w_current w = Some current) by (destruct running; [discriminate|auto]).
      destruct (match gasPool current with Some gp => gp <? TxGas | None => false end).
      { injection Hrun as <- <-. auto. }
      apply bind_Done in Hrun as (fee & _ & Hrun).
      apply bind_Done in Hrun as (c & Hcommit & [= <- <-]).
      split; [exact Hpools|]. cbn. intros current' [= <-].
      eapply commitTransactions_workOk; [exact Hcommit|]. apply Hwork. exact Hc.
    + destruct devMode.
      * apply bind_Done in Hrun as ([w1 calls1] & Hcw & [= <- <-]). cbn [fst].
        apply Hcount. eapply commitWork_inv; [exact Hcw|]. auto.
      * injection Hrun as <- <-. apply Hcount. auto.
Qed.

(** X24: Whatever events [mainLoop] handles, from the worker as
    [newWorker] makes it: no side block is in both pools, each is filed
    under its hash, the local pool holds only blocks that [isLocalBlock]
    accepts and the remote pool only others; and the pending work, if
    there is one, has at most two uncles, each filed under its hash and
    fitting the work, and its [tcount], its transactions and its receipts
    agree in number. *)
Theorem mainLoop_keeps (isLocalBlock : option (Header -> bool)) (devMode : bool)
    (evs : list mainEvent) (w : mainLoopState) (calls : list call) :
  mainLoop_run isLocalBlock devMode newWorker_mainLoop evs = Done (w, calls) ->
  w_localUncles w ##ₘ w_remoteUncles w /\
  (forall h b, w_localUncles w !! h = Some b ->
     h = HeaderHash (b_header b) /\
     exists isLocal, isLocalBlock = Some isLocal /\ isLocal (b_header b) = true) /\
  (forall h b, w_remoteUncles w !! h = Some b ->
     h = HeaderHash (b_header b) /\
     forall isLocal, isLocalBlock = Some isLocal -> isLocal (b_header b) = false) /\
  (forall current, w_current w = Some current ->
     (size (uncles current) <= 2)%nat /\
     Z.of_nat (length (txs current)) = tcount current /\
     length (receipts current) = length (txs current) /\
     forall h uncle, uncles current !! h = Some uncle ->
                     h = HeaderHash uncle /\ uncleFits current uncle).
Proof.
  assert (Hrun : forall evs w0 w calls,
            mainLoop_run isLocalBlock devMode w0 evs = Done (w, calls) ->
            poolsOk isLocalBlock w0 /\
            (forall current, w_current w0 = Some current -> workOk current) ->
            poolsOk isLocalBlock w /\
            (forall current, w_current w = Some current -> workOk current)).
  { clear evs w calls. induction evs as [|ev rest IH]; intros w0 w calls; cbn [mainLoop_run].
    - intros [= <- <-]. auto.
    - intros Hrun Hinv. apply bind_Done in Hrun as ([w1 calls1] & Hstep & Hrun).
      apply bind_Done in Hrun as ([w2 calls2] & Hrest & [= <- <-]). cbn [fst] in *.
      eapply IH; [exact Hrest|]. eapply mainLoop_step_inv; eassumption. }
  intros Hloop. apply Hrun in Hloop as [(Hd & Hl & Hr) Hwork].
  - split_and!; auto. intros current Hc.
    destruct (Hwork _ Hc) as (Hs & [Hc1 Hc2] & Hu). auto.
  - split.
    + split_and!.
      * apply map_disjoint_empty_l.
      * intros h b Hk. cbn [newWorker_mainLoop w_localUncles] in Hk.
        rewrite lookup_empty in Hk. discriminate.
      * intros h b Hk. cbn [newWorker_mainLoop w_remoteUncles] in Hk.
        rewrite lookup_empty in Hk. discriminate.
    + intros current [=].
Qed.

End Invariant.

Lemma mainLoop_keeps_witness :
  exists w calls,
    @mainLoop_run simpleChain (Some (fun _ => true)) false newWorker_mainLoop simpleEvents
      = Done (w, calls) /\
    w_localUncles w ##ₘ w_remoteUncles w /\
    (forall current, w_current w = Some current ->
       (size (uncles current) <= 2)%nat /\
       Z.of_nat (length (txs current)) = tcount current /\
       length (receipts current) = length (txs current) /\
       forall h uncle, uncles current !! h = Some uncle ->
                       h = @HeaderHash simpleChain uncle /\
                       @uncleFits simpleChain current uncle).
Proof.
  pose (r := match @mainLoop_run simpleChain (Some (fun _ => true)) false newWorker_mainLoop
                     simpleEvents with
             | Done r => r
             | _ => (newWorker_mainLoop, [])
             end).
  assert (Hrun : @mainLoop_run simpleChain (Some (fun _ => true)) false newWorker_mainLoop
                   simpleEvents = Done (fst r, snd r)) by (vm_compute; reflexivity).
  exists (fst r), (snd r). split; [exact Hrun|].
  destruct (@mainLoop_keeps simpleChain (Some (fun _ => true)) false simpleEvents
              (fst r) (snd r) Hrun) as (Hd & _ & _ & Hwork).
  split; [exact Hd | exact Hwork].
Defined.
